(** * MathWorkers.js: the coordination protocol, embedded and verified

    A shallow embedding of the worker/coordinator protocol of the
    MathWorkers library (the built file [MathWorkers.js]): load balancing,
    the gather and reduce barriers of the Coordinator, trigger
    registration on the MathWorker side, pool creation, and the
    worker-partitioned Vector and batch operations.

    Conventions of the embedding.
    - JavaScript numbers that hold sizes, ids and indices are integers
      ([Z]); the one bit operation applied to them, [x | 0], is written
      out with its reduction to a signed 32-bit integer.
    - JavaScript numbers that hold vector and matrix entries are elements
      of a type [R] with the operations of the class [Arith]; rounding is
      not modelled, and the algebraic laws a statement needs are named in
      that statement.
    - A [throw] is a [Throw] result; functions that post messages or
      mutate an object thread the state they change. *)

From Stdlib Require Import ZArith Lia.
From Stdlib Require PrimFloat.
From stdpp Require Import base numbers option list strings gmap.

Open Scope Z_scope.

(* ================================================================== *)
(** * Part I: definitions *)
(* ================================================================== *)

(** ** Entries of vectors and matrices *)

(** The arithmetic the library applies to entries.  [nan] is what
    [undefined] becomes in an arithmetic expression; [truthy] is the
    test [if (x)] on a number. *)
Class Arith (R : Type) := {
  zero : R;
  one : R;
  nan : R;
  add : R → R → R;
  sub : R → R → R;
  mul : R → R → R;
  truthy : R → bool
}.

(** A concrete instance: the numbers whose value is an integer, together
    with NaN, which absorbs every operation as in JavaScript. *)
Inductive number : Type :=
  | Fin (z : Z)
  | NaN.

Definition number_lift (f : Z → Z → Z) (a b : number) : number :=
  match a, b with
  | Fin x, Fin y => Fin (f x y)
  | _, _ => NaN
  end.

Definition number_truthy (a : number) : bool :=
  match a with
  | Fin x => negb (x =? 0)
  | NaN => false
  end.

#[export] Instance number_arith : Arith number := {|
  zero := Fin 0;
  one := Fin 1;
  nan := NaN;
  add := number_lift Z.add;
  sub := number_lift Z.sub;
  mul := number_lift Z.mul;
  truthy := number_truthy
|}.

#[export] Instance number_eq_dec : EqDecision number.
Proof. solve_decision. Defined.

(** ** Errors and results *)

(** [new Error(msg)] (also [Error(msg)]), [new TypeError(msg)], and the
    errors the language itself raises. *)
Inductive Error : Type :=
  | PlainError (msg : string)
  | TypeError (msg : string)
  | RangeError (msg : string)
  | ReferenceError (msg : string).

#[export] Instance Error_eq_dec : EqDecision Error.
Proof. solve_decision. Defined.

Inductive Result (A : Type) : Type :=
  | Ok (a : A)
  | Throw (e : Error).
Arguments Ok {A} a.
Arguments Throw {A} e.

Definition is_ok {A} (r : Result A) : bool :=
  match r with Ok _ => true | Throw _ => false end.

#[export] Instance Result_ret : MRet Result := λ A a, Ok a.
#[export] Instance Result_bind : MBind Result := λ A B f r,
  match r with
  | Ok a => f a
  | Throw e => Throw e
  end.

(** A computation that may throw and that changes a state [S]; the state
    reached when an error is thrown is kept. *)
Definition Comp (S A : Type) : Type := S → Result A * S.

#[export] Instance Comp_ret {S} : MRet (Comp S) := λ A a s, (Ok a, s).
#[export] Instance Comp_bind {S} : MBind (Comp S) := λ A B f m s,
  match m s with
  | (Ok a, s') => f a s'
  | (Throw e, s') => (Throw e, s')
  end.

(** A pure check or read used inside a stateful computation. *)
Definition lift {S A} (r : Result A) : Comp S A := λ s, (r, s).

Definition get_state {S} : Comp S S := λ s, (Ok s, s).

(** ** Module-level state ([global]) *)

Record Global : Type := mkGlobal {
  nWorkers : Z;
  myWorkerId : Z;
  unrollLoops : bool;
  logLevel : Z
}.

(** ** 32-bit integer conversion *)

(** ToInt32 on an integer: reduction modulo 2^32 into [-2^31, 2^31). *)
Definition to_int32 (z : Z) : Z := (z + 2 ^ 31) mod 2 ^ 32 - 2 ^ 31.

(** [a | b] on integers. *)
Definition bitor (a b : Z) : Z := Z.lor (to_int32 a) (to_int32 b).

(** ** Utilities ([MW.util]) *)

Record Range : Type := mkRange { ifrom : Z; ito : Z }.

#[export] Instance Range_eq_dec : EqDecision Range.
Proof. solve_decision. Defined.

(** [MW.util.loadBalance].  [n / global.nWorkers] is a fractional
    quotient which [| 0] truncates towards zero ([Z.quot]) and reduces to
    32 bits; [%] is the truncated remainder ([Z.rem]).  [global.nWorkers]
    is never zero: it starts at 1 and is only ever set to the size of a
    non-empty pool. *)
Definition loadBalance (g : Global) (n : Z) : Range :=
  let id := myWorkerId g in
  let div := bitor (Z.quot n (nWorkers g)) 0 in
  let rem := Z.rem n (nWorkers g) in
  if id <? rem then
    let ifrom := id * (div + 1) in
    mkRange ifrom (ifrom + div + 1)
  else
    let ifrom := id * div + rem in
    mkRange ifrom (ifrom + div).

(** The partition as the specification words it: base size
    [floor (n / workerCount)], remainder [n mod workerCount], one extra
    element for the workers whose id is below the remainder. *)
Definition spec_partition (n workerCount id : Z) : Range :=
  let d := n / workerCount in
  let r := n mod workerCount in
  if decide (id < r)
  then mkRange (id * (d + 1)) (id * (d + 1) + (d + 1))
  else mkRange (id * d + r) (id * d + r + d).

Definition range_len (r : Range) : Z := ito r - ifrom r.

(** The global state of worker [id] in a pool of [k] workers. *)
Definition worker_global (k id : Z) (unroll : bool) : Global :=
  mkGlobal k id unroll 1.


(** ** Values *)

(** A function value, known by its identity. *)
Definition fn_id : Type := nat.

(** [MW.Vector]: [array] is [null] until a positive size or an array is
    given. *)
Record Vector (R : Type) : Type := mkVector {
  vec_array : option (list R);
  vec_length : Z
}.
Arguments mkVector {R} _ _.
Arguments vec_array {R} _.
Arguments vec_length {R} _.

(** [MW.Matrix]: an [Array] of [Float64Array] rows. *)
Record Matrix (R : Type) : Type := mkMatrix {
  mat_array : list (list R);
  nrows : Z;
  ncols : Z
}.
Arguments mkMatrix {R} _ _ _.
Arguments mat_array {R} _.
Arguments nrows {R} _.
Arguments ncols {R} _.

(** The values a caller can pass to the library. *)
Inductive value (R : Type) : Type :=
  | VUndefined
  | VNull
  | VBool (b : bool)
  | VNum (r : R)
  | VStr (s : string)
  | VFun (f : fn_id)
  | VEmptyArray
  | VVec (v : Vector R)
  | VMat (m : Matrix R).
Arguments VUndefined {R}.
Arguments VNull {R}.
Arguments VBool {R} b.
Arguments VNum {R} r.
Arguments VStr {R} s.
Arguments VFun {R} f.
Arguments VEmptyArray {R}.
Arguments VVec {R} v.
Arguments VMat {R} m.

(** ** Messages *)

(** The messages of the protocol, one constructor per [handle]; a
    transferred buffer is the list of its entries.  [rebroadcast] is the
    truth value of [rebroadcast || false]. *)
Inductive Message (R : Type) : Type :=
  | MsgInit (id nWorkers_ logLevel_ : Z) (unrollLoops_ : bool)
  | MsgWorkerReady
  | MsgTrigger (tag : value R) (args : value R)
  | MsgBroadcastData (tag : value R) (data : value R)
  | MsgBroadcastVector (tag : value R) (vec : list R)
  | MsgSendData (id : Z) (tag : value R) (data : value R)
  | MsgGatherVector (tag : value R) (id : Z) (rebroadcast : bool)
      (len offset : Z) (vectorPart : list R)
  | MsgGatherMatrixRows (tag : value R) (id : Z) (rebroadcast : bool)
      (nrows_ ncols_ nrowsPart offset : Z) (rows : list (list R))
  | MsgVectorSum (tag : value R) (rebroadcast : bool) (tot : R)
  | MsgVectorProduct (tag : value R) (rebroadcast : bool) (tot : R).
Arguments MsgInit {R} _ _ _ _.
Arguments MsgWorkerReady {R}.
Arguments MsgTrigger {R} _ _.
Arguments MsgBroadcastData {R} _ _.
Arguments MsgBroadcastVector {R} _ _.
Arguments MsgSendData {R} _ _ _.
Arguments MsgGatherVector {R} _ _ _ _ _ _.
Arguments MsgGatherMatrixRows {R} _ _ _ _ _ _ _ _.
Arguments MsgVectorSum {R} _ _ _.
Arguments MsgVectorProduct {R} _ _ _.

(** ** Arrays *)

Section arrays.
Context {R : Type} `{!Arith R}.

(** [new Float64Array(n)]: [n] zeroes; a negative length is refused. *)
Definition new_Float64Array (n : Z) : Result (list R) :=
  if n <? 0 then Throw (RangeError "Invalid typed array length")
  else Ok (replicate (Z.to_nat n) zero).

(** [a[i]] on a [Float64Array]: outside the array the read gives
    [undefined], which arithmetic and stores into a typed array turn
    into NaN. *)
Definition ta_get (a : list R) (i : Z) : R :=
  if i <? 0 then nan else default nan (a !! Z.to_nat i).

(** [a[i] = x] on a [Float64Array]: outside the array nothing happens. *)
Definition ta_set (a : list R) (i : Z) (x : R) : list R :=
  if i <? 0 then a else <[Z.to_nat i := x]> a.

(** [v.array[i]]: reading an index of [null] is a TypeError. *)
Definition vec_get (v : Vector R) (i : Z) : Result R :=
  match vec_array v with
  | None => Throw (TypeError "Cannot read properties of null")
  | Some a => Ok (ta_get a i)
  end.

(** [new MW.Vector(size)]. *)
Definition Vector_new (size : Z) : Vector R :=
  if 0 <? size
  then mkVector (Some (replicate (Z.to_nat size) zero)) size
  else mkVector None size.

(** [M.array[i][j]]: a missing row is [undefined], and reading an index
    of [undefined] is a TypeError. *)
Definition mat_get (rows : list (list R)) (i j : Z) : Result R :=
  if i <? 0 then Throw (TypeError "Cannot read properties of undefined")
  else match rows !! Z.to_nat i with
       | None => Throw (TypeError "Cannot read properties of undefined")
       | Some row => Ok (ta_get row j)
       end.

(** [M.array[i][j] = x]. *)
Definition mat_set (rows : list (list R)) (i j : Z) (x : R)
  : Result (list (list R)) :=
  if i <? 0 then Throw (TypeError "Cannot set properties of undefined")
  else match rows !! Z.to_nat i with
       | None => Throw (TypeError "Cannot set properties of undefined")
       | Some row => Ok (<[Z.to_nat i := ta_set row j x]> rows)
       end.
End arrays.

(** ** Loops *)

(** [for (; i < bound; i += step) body], for a positive [step]; the result
    is the final value of [i].  [fuel] bounds the number of iterations;
    [for_] supplies enough of it. *)
Fixpoint for_loop {St : Type} (fuel : nat) (i bound step : Z)
    (body : Z → Comp St unit) : Comp St Z :=
  match fuel with
  | O => mret i
  | S fuel' =>
      if i <? bound
      then body i;; for_loop fuel' (i + step) bound step body
      else mret i
  end.

Definition for_ {St : Type} (i bound step : Z) (body : Z → Comp St unit)
    : Comp St Z :=
  for_loop (Z.to_nat (bound - i)) i bound step body.

(** The same loop when the bound may be [undefined]: [i < undefined] is
    false, so the body never runs. *)
Definition for_opt {St : Type} (i : Z) (bound : option Z) (step : Z)
    (body : Z → Comp St unit) : Comp St Z :=
  match bound with
  | Some b => for_ i b step body
  | None => mret i
  end.

(** A statement that changes the state, or throws and leaves it. *)
Definition update {St : Type} (f : St → Result St) : Comp St unit := λ s,
  match f s with
  | Ok s' => (Ok tt, s')
  | Throw e => (Throw e, s)
  end.

(** Statements over local variables [s0]: their final values, which are
    lost when an error is thrown. *)
Definition with_locals {St A : Type} (s0 : St) (m : Comp St A) : Result St :=
  match m s0 with
  | (Ok _, s) => Ok s
  | (Throw e, _) => Throw e
  end.

(** ** Type and shape checks ([MW.util]) *)

Section checks.
Context {R : Type}.

Definition nullOrUndefined (x : value R) : bool :=
  match x with
  | VUndefined | VNull => true
  | _ => false
  end.

Definition checkNullOrUndefined (x : value R) : Result unit :=
  if nullOrUndefined x
  then Throw (TypeError "Undefined or null variable.")
  else Ok tt.

(** [typeof x]. *)
Definition typeof (x : value R) : string :=
  match x with
  | VUndefined => "undefined"
  | VNull => "object"
  | VBool _ => "boolean"
  | VNum _ => "number"
  | VStr _ => "string"
  | VFun _ => "function"
  | VEmptyArray | VVec _ | VMat _ => "object"
  end.

(** The checks return what they have established about their argument:
    the number, the function, the Vector or the Matrix it is. *)
Definition checkNumber (x : value R) : Result R :=
  checkNullOrUndefined x;;
  match x with
  | VNum r => Ok r
  | _ => Throw (TypeError ("Expected type Number but is type " +:+ typeof x))
  end.

Definition checkFunction (x : value R) : Result fn_id :=
  checkNullOrUndefined x;;
  match x with
  | VFun f => Ok f
  | _ => Throw (TypeError ("Expected type Function but is type " +:+ typeof x))
  end.

Definition checkVector (v : value R) : Result (Vector R) :=
  checkNullOrUndefined v;;
  match v with
  | VVec v' => Ok v'
  | _ => Throw (TypeError "Expected type Vector but is not.")
  end.

Definition checkVectors (v w : value R) : Result (Vector R * Vector R) :=
  v' ← checkVector v;
  w' ← checkVector w;
  if decide (vec_length v' = vec_length w')
  then Ok (v', w')
  else Throw (PlainError "Vectors have unequal lengths.").

Definition checkMatrix (A : value R) : Result (Matrix R) :=
  checkNullOrUndefined A;;
  match A with
  | VMat A' => Ok A'
  | _ => Throw (TypeError "Expected type Matrix but is not.")
  end.

Definition checkMatrixVector (A v : value R)
  : Result (Matrix R * Vector R) :=
  A' ← checkMatrix A;
  v' ← checkVector v;
  if decide (vec_length v' = ncols A')
  then Ok (A', v')
  else Throw (PlainError "Vector length and number Matrix columns are unequal.").

Definition checkMatrixMatrix (A B : value R)
  : Result (Matrix R * Matrix R) :=
  A' ← checkMatrix A;
  B' ← checkMatrix B;
  if decide (ncols A' = nrows B')
  then Ok (A', B')
  else Throw (PlainError
    "Matrices do not have compatible dimensions for matrix-matrix multiplication.").
End checks.


(** ** The worker side: [MW.MathWorker] *)

Section worker.
Context {R : Type} `{!Arith R}.

(** [self.postMessage(msg)]: the state is the list of the messages
    posted so far, oldest first. *)
Definition postMessage (msg : Message R) : Comp (list (Message R)) unit :=
  λ out, (Ok tt, out ++ [msg]).

Definition gatherVector (g : Global) (vec : list R) (totalLength offset : Z)
    (tag : value R) (rebroadcast : bool) : Comp (list (Message R)) unit :=
  postMessage
    (MsgGatherVector tag (myWorkerId g) rebroadcast totalLength offset vec).

(** [mat[0].length] is read first: an empty [mat] is a TypeError. *)
Definition gatherMatrixRows (g : Global) (mat : list (list R))
    (totalRows offset : Z) (tag : value R) (rebroadcast : bool)
    : Comp (list (Message R)) unit :=
  match mat with
  | [] => lift (Throw (TypeError "Cannot read properties of undefined"))
  | row0 :: _ =>
      postMessage
        (MsgGatherMatrixRows tag (myWorkerId g) rebroadcast totalRows
           (Z.of_nat (length row0)) (Z.of_nat (length mat)) offset mat)
  end.

Definition reduceVectorSum (tot : R) (tag : value R) (rebroadcast : bool)
    : Comp (list (Message R)) unit :=
  postMessage (MsgVectorSum tag rebroadcast tot).

Definition reduceVectorProduct (tot : R) (tag : value R)
    (rebroadcast : bool) : Comp (list (Message R)) unit :=
  postMessage (MsgVectorProduct tag rebroadcast tot).
End worker.

(** ** Vector methods *)

Section vector.
Context {R : Type} `{!Arith R}.

(** [acc = acc (op) this.array[i]], the body of the plain reduction
    loops. *)
Definition fold_step (op : R → R → R) (this : Vector R) (i : Z)
    : Comp R unit :=
  update (λ acc, a ← vec_get this i; Ok (op acc a)).

(** [acc = acc (op) (a[i] (op) a[i+1] (op) a[i+2] (op) a[i+3])], the
    body of the unrolled reduction loops. *)
Definition fold_step4 (op : R → R → R) (this : Vector R) (i : Z)
    : Comp R unit :=
  update (λ acc,
    a0 ← vec_get this i;
    a1 ← vec_get this (i + 1);
    a2 ← vec_get this (i + 2);
    a3 ← vec_get this (i + 3);
    Ok (op acc (op (op (op a0 a1) a2) a3))).

(** [MW.Vector.prototype.sum]: the unrolled loop advances by four. *)
Definition Vector_sum (g : Global) (this : Vector R) : Result R :=
  let ni := vec_length this in
  if unrollLoops g then
    let ni3 := ni - 3 in
    with_locals zero
      (i ← for_ 0 ni3 4 (fold_step4 add this);
       for_ i ni 1 (fold_step add this))
  else
    with_locals zero (for_ 0 ni 1 (fold_step add this)).

(** [MW.Vector.prototype.wkSum]: the unrolled loop advances by one. *)
Definition wkSum (g : Global) (this : Vector R) (tag : value R)
    (rebroadcast : bool) : Comp (list (Message R)) unit :=
  lift (checkNullOrUndefined tag);;
  let lb := loadBalance g (vec_length this) in
  tot ← lift (
    if unrollLoops g then
      let ni3 := ito lb - 3 in
      with_locals zero
        (i ← for_ (ifrom lb) ni3 1 (fold_step4 add this);
         for_ i (ito lb) 1 (fold_step add this))
    else
      with_locals zero (for_ (ifrom lb) (ito lb) 1 (fold_step add this)));
  reduceVectorSum tot tag rebroadcast.

(** [MW.Vector.prototype.wkProduct]. *)
Definition wkProduct (g : Global) (this : Vector R) (tag : value R)
    (rebroadcast : bool) : Comp (list (Message R)) unit :=
  lift (checkNullOrUndefined tag);;
  let lb := loadBalance g (vec_length this) in
  tot ← lift (
    if unrollLoops g then
      let ni3 := ito lb - 3 in
      with_locals one
        (i ← for_ (ifrom lb) ni3 1 (fold_step4 mul this);
         for_ i (ito lb) 1 (fold_step mul this))
    else
      with_locals one (for_ (ifrom lb) (ito lb) 1 (fold_step mul this)));
  reduceVectorProduct tot tag rebroadcast.

(** [x[offset++] = this.array[i] (op) w.array[i]]: the locals are the
    partition buffer [x] and [offset]. *)
Definition store_op (op : R → R → R) (this w : Vector R) (i : Z)
    : Comp (list R * Z) unit :=
  update (λ '(x, offset),
    a ← vec_get this i;
    b ← vec_get w i;
    Ok (ta_set x offset (op a b), offset + 1)).

(** The common text of [wkPlus], [wkMinus], [wkTimes] and [wkDivide],
    which differ in the operator [op] only ([wkDivide] is the instance at
    the division of entries).  The receiver [this] is checked like the
    argument. *)
Definition wkElementwise (op : R → R → R) (g : Global)
    (this w tag : value R) (rebroadcast : bool)
    : Comp (list (Message R)) unit :=
  '(v, w') ← lift (checkVectors this w);
  lift (checkNullOrUndefined tag);;
  let lb := loadBalance g (vec_length v) in
  x ← lift (new_Float64Array (ito lb - ifrom lb));
  '(x', _) ← lift (
    if unrollLoops g then
      let ni3 := ito lb - 3 in
      with_locals (x, 0)
        (i ← for_ (ifrom lb) ni3 1 (λ i,
               store_op op v w' i;;
               store_op op v w' (i + 1);;
               store_op op v w' (i + 2);;
               store_op op v w' (i + 3));
         for_ i (ito lb) 1 (store_op op v w'))
    else
      with_locals (x, 0) (for_ (ifrom lb) (ito lb) 1 (store_op op v w')));
  gatherVector g x' (vec_length v) (ifrom lb) tag rebroadcast.

Definition wkPlus := wkElementwise add.
Definition wkMinus := wkElementwise sub.
Definition wkTimes := wkElementwise mul.

(** [tot += this.array[i] * w.array[i]]. *)
Definition dot_step (this w : Vector R) (i : Z) : Comp R unit :=
  update (λ tot,
    a ← vec_get this i;
    b ← vec_get w i;
    Ok (add tot (mul a b))).

Definition dot_step4 (this w : Vector R) (i : Z) : Comp R unit :=
  update (λ tot,
    a0 ← vec_get this i; b0 ← vec_get w i;
    a1 ← vec_get this (i + 1); b1 ← vec_get w (i + 1);
    a2 ← vec_get this (i + 2); b2 ← vec_get w (i + 2);
    a3 ← vec_get this (i + 3); b3 ← vec_get w (i + 3);
    Ok (add tot (add (add (add (mul a0 b0) (mul a1 b1)) (mul a2 b2))
                     (mul a3 b3)))).

(** [MW.Vector.prototype.wkDotVector]. *)
Definition wkDotVector (g : Global) (this w tag : value R)
    (rebroadcast : bool) : Comp (list (Message R)) unit :=
  '(v, w') ← lift (checkVectors this w);
  lift (checkNullOrUndefined tag);;
  let lb := loadBalance g (vec_length v) in
  tot ← lift (
    if unrollLoops g then
      let ni3 := ito lb - 3 in
      with_locals zero
        (i ← for_ (ifrom lb) ni3 4 (dot_step4 v w');
         for_ i (ito lb) 1 (dot_step v w'))
    else
      with_locals zero (for_ (ifrom lb) (ito lb) 1 (dot_step v w')));
  reduceVectorSum tot tag rebroadcast.

(** The calls the specification rules out for an operation on two
    vectors: an operand or a tag that is [null] or [undefined], or two
    Vectors of unequal lengths. *)
Definition bad_arguments (this w tag : value R) : Prop :=
  nullOrUndefined this = true
  ∨ nullOrUndefined w = true
  ∨ nullOrUndefined tag = true
  ∨ ∃ v v', this = VVec v ∧ w = VVec v' ∧ vec_length v ≠ vec_length v'.

(** The sum of [a[ifrom] .. a[ito - 1]], taken serially from [0]:
    what a partial total is specified to be. *)
Definition serial_sum (a : list R) (ifrom ito : Z) : R :=
  foldl (λ acc i, add acc (ta_get a i)) zero (seqZ ifrom (ito - ifrom)).
End vector.


(** ** Truthiness *)

Section truth.
Context {R : Type} `{!Arith R}.

(** The test [if (x)]. *)
Definition truthy_value (x : value R) : bool :=
  match x with
  | VUndefined | VNull => false
  | VBool b => b
  | VNum r => truthy r
  | VStr s => negb (String.eqb s "")
  | VFun _ | VEmptyArray | VVec _ | VMat _ => true
  end.

(** [a || b]. *)
Definition or_value (a b : value R) : value R :=
  if truthy_value a then a else b.
End truth.

(** ** Triggers and events *)

(** A call [fn.call(this, args)] that took place. *)
Definition Call (R : Type) : Type := fn_id * value R.

Section triggers.
Context {R : Type} `{!Arith R}.

(** [fn.call(this, args)]: calling what is not a function is a
    TypeError. *)
Definition call (fn : value R) (args : value R) : Result (Call R) :=
  match fn with
  | VFun f => Ok (f, args)
  | _ => Throw (TypeError "fn.call is not a function")
  end.

(** [fns.forEach(function(fn) { fn.call(this, args); })]. *)
Fixpoint forEach_call (fns : list (value R)) (args : value R)
    : Result (list (Call R)) :=
  match fns with
  | [] => Ok []
  | fn :: rest =>
      c ← call fn args;
      cs ← forEach_call rest args;
      Ok (c :: cs)
  end.

(** [MW.MathWorker]'s [on]: the object [triggers] maps a tag to an array
    of callbacks.  (The log line under [logLevel > 2] has no effect on
    the state.) *)
Definition MathWorker_on (tag : string) (callback : value R)
    (triggers : gmap string (list (value R)))
    : gmap string (list (value R)) :=
  <[tag := [callback]]> triggers.

(** What [handleTrigger] did: the calls it made, or the error line it
    logged. *)
Inductive Triggered : Type :=
  | Invoked (calls : list (Call R))
  | Unregistered (line : string).

(** [triggers] and [events] are object literals that map a name to an
    array of callbacks.  Under a name of [Object.prototype] a literal
    that holds nothing of its own answers with the inherited member, a
    function (an object under ["__proto__"]): a value that is truthy and
    has no [forEach].  (A registration under ["__proto__"] sets the
    prototype of the literal instead of a property; the literal then
    answers under ["__proto__"] with the array registered, as the map
    does, and the names it inherits are those of that array, which the
    embedding does not follow.) *)
Definition Object_prototype : list string :=
  ["constructor"; "toString"; "toLocaleString"; "valueOf";
   "hasOwnProperty"; "isPrototypeOf"; "propertyIsEnumerable";
   "__proto__"; "__defineGetter__"; "__defineSetter__";
   "__lookupGetter__"; "__lookupSetter__"].

Definition inherited (name : string) : bool :=
  bool_decide (name ∈ Object_prototype).

(** [handleTrigger(data, obj)], with [data.tag] and [data.data].  Under
    an inherited name the test [if (triggers[data.tag])] succeeds and
    [forEach] is called on a member that has none. *)
Definition handleTrigger (triggers : gmap string (list (value R)))
    (data_tag : string) (data_data obj : value R) : Result Triggered :=
  match triggers !! data_tag with
  | Some fns =>
      let args := or_value data_data (or_value obj VEmptyArray) in
      calls ← forEach_call fns args;
      Ok (Invoked calls)
  | None =>
      if inherited data_tag
      then Throw (TypeError "triggers[data.tag].forEach is not a function")
      else Ok (Unregistered ("Unregistered trigger tag: " +:+ data_tag))
  end.

(** [EventEmitter]'s [on]. *)
Definition EventEmitter_on (name : string) (callback : value R)
    (events : gmap string (list (value R)))
    : Result (gmap string (list (value R))) :=
  checkFunction callback;;
  Ok (<[name := [callback]]> events).

(** [EventEmitter]'s [emit]: the event gets an empty array of callbacks
    when it has none.  Under an inherited name without callbacks
    [events[name] || []] is the inherited member, and [forEach] is
    called on it. *)
Definition EventEmitter_emit (name : string) (args : value R)
    : Comp (gmap string (list (value R))) (list (Call R)) := λ events,
  match events !! name with
  | Some fns =>
      (forEach_call fns (or_value args VEmptyArray), <[name := fns]> events)
  | None =>
      if inherited name
      then (Throw (TypeError "events[name].forEach is not a function"),
            events)
      else (Ok [], <[name := []]> events)
  end.
End triggers.
Arguments Triggered R : clear implicits.

(** ** The Coordinator *)

(** What [objectBuffer] holds: the initial [{}], a number, a Vector, or
    the string that [+=] makes of a buffer that is not a number. *)
Inductive Buffer (R : Type) : Type :=
  | BufObject
  | BufNum (r : R)
  | BufVec (v : Vector R)
  | BufString.
Arguments BufObject {R}.
Arguments BufNum {R} r.
Arguments BufVec {R} v.
Arguments BufString {R}.

(** The state that the handlers of the Coordinator share: the variables
    [objectBuffer], [messageDataBuffer] and [nWorkersReported] of the
    closure of the constructor, and the property [ready] of the
    object. *)
Record Coordinator (R : Type) : Type := mkCoordinator {
  objectBuffer : Buffer R;
  messageDataBuffer : gmap Z (value R);
  nWorkersReported : Z;
  ready : bool
}.
Arguments mkCoordinator {R} _ _ _ _.
Arguments objectBuffer {R} _.
Arguments messageDataBuffer {R} _.
Arguments nWorkersReported {R} _.
Arguments ready {R} _.

Section coordinator_variables.
Context {R : Type} `{!Arith R}.

(** The variables of the closure once every statement of the constructor
    has run: [objectBuffer] and [messageDataBuffer] hold [{}], [ready]
    is false, and [var nWorkersReported = 0] has set the counter.  (In
    this build the loop before that statement throws, see
    [Coordinator_new]: the closure stays as its declarations leave it,
    which is [Declared] below.) *)
Definition Coordinator_init : Coordinator R :=
  mkCoordinator BufObject ∅ 0 false.

Definition set_objectBuffer (b : Buffer R) (c : Coordinator R)
    : Coordinator R :=
  mkCoordinator b (messageDataBuffer c) (nWorkersReported c) (ready c).

Definition set_nWorkersReported (n : Z) (c : Coordinator R)
    : Coordinator R :=
  mkCoordinator (objectBuffer c) (messageDataBuffer c) n (ready c).

Definition set_messageData (id : Z) (d : value R) (c : Coordinator R)
    : Coordinator R :=
  mkCoordinator (objectBuffer c) (<[id := d]> (messageDataBuffer c))
    (nWorkersReported c) (ready c).

Definition set_ready (b : bool) (c : Coordinator R) : Coordinator R :=
  mkCoordinator (objectBuffer c) (messageDataBuffer c)
    (nWorkersReported c) b.

(** [objectBuffer.array[offset + i] = tmpArray[i]] for every [i]. *)
Fixpoint write_from (a : list R) (pos : Z) (part : list R) : list R :=
  match part with
  | [] => a
  | x :: rest => write_from (ta_set a pos x) (pos + 1) rest
  end.

(** The write loop of [handleGatherVector] on the buffer at hand: with
    nothing to write it does nothing; otherwise the buffer must be a
    Vector whose array is not [null]. *)
Definition gather_into (b : Buffer R) (offset : Z) (part : list R)
    : Result (Buffer R) :=
  match part with
  | [] => Ok b
  | _ :: _ =>
      match b with
      | BufVec v =>
          match vec_array v with
          | Some a =>
              Ok (BufVec (mkVector (Some (write_from a offset part))
                            (vec_length v)))
          | None => Throw (TypeError "Cannot set properties of null")
          end
      | _ => Throw (TypeError "Cannot set properties of undefined")
      end
  end.

(** The conversion of the buffer to a primitive that [+=] and [*=]
    start with.  A Vector answers with [MW.Vector.prototype.toString],
    which reads [this.array[this.length - 1]]: a TypeError when the
    array is [null].  [None] stands for a string. *)
Definition buffer_primitive (b : Buffer R) : Result (option R) :=
  match b with
  | BufNum r => Ok (Some r)
  | BufVec v =>
      match vec_array v with
      | Some _ => Ok None
      | None => Throw (TypeError "Cannot read properties of null")
      end
  | BufObject | BufString => Ok None
  end.

(** [objectBuffer += tot]: on a number the sum; on anything else the
    concatenation of two strings. *)
Definition buffer_add (b : Buffer R) (tot : R) : Result (Buffer R) :=
  p ← buffer_primitive b;
  match p with
  | Some r => Ok (BufNum (add r tot))
  | None => Ok BufString
  end.

(** [objectBuffer *= tot]: what is not a number counts as NaN (the
    strings that [+=] makes here begin with a bracket). *)
Definition buffer_mul (b : Buffer R) (tot : R) : Result (Buffer R) :=
  p ← buffer_primitive b;
  match p with
  | Some r => Ok (BufNum (mul r tot))
  | None => Ok (BufNum (mul nan tot))
  end.

(** The tag a report carries; [_workerReady] closes on the event
    ["_ready"]. *)
Definition report_tag (data : Message R) : option (value R) :=
  match data with
  | MsgWorkerReady => Some (VStr "_ready")
  | MsgSendData _ tag _ => Some tag
  | MsgGatherVector tag _ _ _ _ _ => Some tag
  | MsgVectorSum tag _ _ => Some tag
  | MsgVectorProduct tag _ _ => Some tag
  | _ => None
  end.

(** The reports of a gather round: worker [i] ships the slice [i]
    together with its offset, the total length of the slices before
    it. *)
Fixpoint gather_reports (tag : value R) (rebroadcast : bool)
    (totalLength : Z) (id offset : Z) (slices : list (list R))
    : list (Message R) :=
  match slices with
  | [] => []
  | part :: rest =>
      MsgGatherVector tag id rebroadcast totalLength offset part
      :: gather_reports tag rebroadcast totalLength (id + 1)
           (offset + Z.of_nat (length part)) rest
  end.

(** The indices of the accumulator that a gather report writes. *)
Definition covers (data : Message R) (j : nat) : Prop :=
  match data with
  | MsgGatherVector _ _ _ _ offset part =>
      (Z.to_nat offset ≤ j < Z.to_nat offset + length part)%nat
  | _ => False
  end.

(** A gather report of a round for the vector [T]: it carries the tag
    and the flag of the round and the length of [T], and its slice is
    what [T] holds from its offset on. *)
Definition slice_report (T : list R) (tag : value R) (rebroadcast : bool)
    (data : Message R) : Prop :=
  ∃ id offset part,
    data = MsgGatherVector tag id rebroadcast (Z.of_nat (length T))
             offset part
    ∧ 0 ≤ offset
    ∧ ∀ (t : nat) x, part !! t = Some x →
                     T !! (Z.to_nat offset + t)%nat = Some x.

(** The serial combination of the partials, left to right. *)
Definition serial_reduce (op : R → R → R) (unit_ : R) (partials : list R)
    : R :=
  match partials with
  | [] => unit_
  | p :: rest => foldl op p rest
  end.

(** The buffer during a round of reduction: the serial combination of
    the partials that have arrived, in their order of arrival. *)
Definition reduced (op : R → R → R) (u : R) (done : list R)
    (b : Buffer R) : Prop :=
  done = [] ∨ b = BufNum (serial_reduce op u done).

(** The buffer during a gather round for the vector [T]: a Vector of
    the length of [T] that holds the entries of [T] wherever one of the
    reports handled so far has written. *)
Definition gathered (T : list R) (done : list (Message R))
    (b : Buffer R) : Prop :=
  done = []
  ∨ ∃ a, b = BufVec (mkVector (Some a) (Z.of_nat (length T)))
      ∧ length a = length T
      ∧ ∀ j, (∃ m, m ∈ done ∧ covers m j) → a !! j = T !! j.

(** The entries of [v] in the range [r]. *)
Definition slice (v : list R) (r : Range) : list R :=
  take (Z.to_nat (range_len r)) (drop (Z.to_nat (ifrom r)) v).

(** The report of worker [id], out of [k], that ships its partition of
    [v] as it is: [gatherVector(x, this.length, lb.ifrom, tag,
    rebroadcast)] with [x] the entries of [v] in [lb]. *)
Definition worker_gather_report (k : Z) (v : list R) (tag : value R)
    (rebroadcast : bool) (id : Z) : Message R :=
  let g := worker_global k id false in
  let lb := loadBalance g (Z.of_nat (length v)) in
  MsgGatherVector tag (myWorkerId g) rebroadcast (Z.of_nat (length v))
    (ifrom lb) (slice v lb).

(** What a report of one of the embedded handlers needs for its handler
    to reach the count in a round of reports of its handle: a gather
    report announces a positive length, so that the first report of the
    round gives the buffer an array. *)
Definition countable (data : Message R) : Prop :=
  match data with
  | MsgWorkerReady | MsgSendData _ _ _
  | MsgVectorSum _ _ _ | MsgVectorProduct _ _ _ => True
  | MsgGatherVector _ _ _ len _ _ => 0 < len
  | _ => False
  end.
End coordinator_variables.

(** The handlers of the Coordinator.  They read and write the variables
    of the closure, and when a round closes they call a method of
    [that]: [emit], which the Coordinator has from its [EventEmitter]
    and which runs the callbacks registered for the tag, or one of the
    senders, which post to the pool.  The methods are those the object
    has when the handler runs; here they are any computations on the
    rest of the page, [S], that return or throw.  They do not reach the
    variables of the closure, which only the handlers write (a callback
    reads the buffer through [getBuffer]; it is taken not to write into
    the Vector it gets). *)
Section coordinator.
Context {R : Type} `{!Arith R} {S : Type}.
Variable that_emit : value R → Comp S unit.
Variable that_sendDataToWorkers : Buffer R → value R → Comp S unit.
Variable that_sendVectorToWorkers : Buffer R → value R → Comp S unit.

(** A statement on the variables of the closure. *)
Definition on_closure (f : Coordinator R → Coordinator R)
    : Comp (Coordinator R * S) unit := λ cs,
  (Ok tt, (f cs.1, cs.2)).

(** A statement on the variables of the closure that may throw. *)
Definition try_closure (f : Coordinator R → Result (Coordinator R))
    : Comp (Coordinator R * S) unit := λ cs,
  match f cs.1 with
  | Ok c => (Ok tt, (c, cs.2))
  | Throw e => (Throw e, cs)
  end.

(** A call of a method of [that]. *)
Definition on_that (method : Comp S unit)
    : Comp (Coordinator R * S) unit := λ cs,
  ((method cs.2).1, (cs.1, (method cs.2).2)).

(** [nWorkersReported += 1]. *)
Definition count_report : Comp (Coordinator R * S) unit :=
  on_closure (λ c, set_nWorkersReported (nWorkersReported c + 1) c).

Definition handleWorkerReady (g : Global)
    : Comp (Coordinator R * S) unit :=
  count_report;;
  cs ← get_state;
  if nWorkersReported cs.1 =? nWorkers g then
    on_closure (set_ready true);;
    on_that (that_emit (VStr "_ready"));;
    on_closure (set_nWorkersReported 0)
  else mret tt.

Definition handleSendData (g : Global) (id : Z) (tag data : value R)
    : Comp (Coordinator R * S) unit :=
  on_closure (set_messageData id data);;
  count_report;;
  cs ← get_state;
  if nWorkersReported cs.1 =? nWorkers g then
    on_that (that_emit tag);;
    on_closure (set_nWorkersReported 0)
  else mret tt.

Definition handleGatherVector (g : Global) (tag : value R)
    (rebroadcast : bool) (len offset : Z) (vectorPart : list R)
    : Comp (Coordinator R * S) unit :=
  cs ← get_state;
  (if nWorkersReported cs.1 =? 0
   then on_closure (set_objectBuffer (BufVec (Vector_new len)))
   else mret tt);;
  try_closure (λ c,
    b ← gather_into (objectBuffer c) offset vectorPart;
    Ok (set_objectBuffer b c));;
  count_report;;
  cs ← get_state;
  if nWorkersReported cs.1 =? nWorkers g then
    (if rebroadcast
     then on_that (that_sendVectorToWorkers (objectBuffer cs.1) tag)
     else on_that (that_emit tag));;
    on_closure (set_nWorkersReported 0)
  else mret tt.

Definition handleVectorSum (g : Global) (tag : value R)
    (rebroadcast : bool) (tot : R)
    : Comp (Coordinator R * S) unit :=
  cs ← get_state;
  (if nWorkersReported cs.1 =? 0
   then on_closure (set_objectBuffer (BufNum tot))
   else try_closure (λ c,
          b ← buffer_add (objectBuffer c) tot;
          Ok (set_objectBuffer b c)));;
  count_report;;
  cs ← get_state;
  if nWorkersReported cs.1 =? nWorkers g then
    (if rebroadcast
     then on_that (that_sendDataToWorkers (objectBuffer cs.1) tag)
     else on_that (that_emit tag));;
    on_closure (set_nWorkersReported 0)
  else mret tt.

Definition handleVectorProduct (g : Global) (tag : value R)
    (rebroadcast : bool) (tot : R)
    : Comp (Coordinator R * S) unit :=
  cs ← get_state;
  (if nWorkersReported cs.1 =? 0
   then on_closure (set_objectBuffer (BufNum tot))
   else try_closure (λ c,
          b ← buffer_mul (objectBuffer c) tot;
          Ok (set_objectBuffer b c)));;
  count_report;;
  cs ← get_state;
  if nWorkersReported cs.1 =? nWorkers g then
    (if rebroadcast
     then on_that (that_sendDataToWorkers (objectBuffer cs.1) tag)
     else on_that (that_emit tag));;
    on_closure (set_nWorkersReported 0)
  else mret tt.

(** The handler that [onmessageHandler] calls for a report, for the
    reports whose handlers are embedded here: [_workerReady],
    [_sendData], [_gatherVector], [_vectorSum] and [_vectorProduct]. *)
Definition handler_of (g : Global) (data : Message R)
    : option (Comp (Coordinator R * S) unit) :=
  match data with
  | MsgWorkerReady => Some (handleWorkerReady g)
  | MsgSendData id tag d => Some (handleSendData g id tag d)
  | MsgGatherVector tag _ rebroadcast len offset part =>
      Some (handleGatherVector g tag rebroadcast len offset part)
  | MsgVectorSum tag rebroadcast tot =>
      Some (handleVectorSum g tag rebroadcast tot)
  | MsgVectorProduct tag rebroadcast tot =>
      Some (handleVectorProduct g tag rebroadcast tot)
  | _ => None
  end.

(** The handlers run on the reports one after the other, each to its
    end or to its error before the next: the outcome of every report,
    and the final state.  The run is described as long as the reports
    are ones whose handlers are embedded. *)
Fixpoint deliver_all (g : Global) (msgs : list (Message R))
    (cs : Coordinator R * S)
    : option (list (Result unit) * (Coordinator R * S)) :=
  match msgs with
  | [] => Some ([], cs)
  | data :: rest =>
      handler ← handler_of g data;
      '(rs, cs') ← deliver_all g rest (handler cs).2;
      Some ((handler cs).1 :: rs, cs')
  end.

(** How a round closes on the variables [c]: the call on [that], and
    after it [nWorkersReported = 0], which is not reached when the call
    throws. *)
Definition close_round (method : Comp S unit) (c : Coordinator R)
    : S → Result unit * (Coordinator R * S) := λ s,
  ((method s).1,
   (if is_ok (method s).1 then set_nWorkersReported 0 c else c,
    (method s).2)).

(** The call on [that] with which the handler of [data] closes a round,
    on the buffer [b] it has assembled: what the code does in the branch
    [nWorkersReported == global.nWorkers], before it resets the
    counter. *)
Definition close_of (data : Message R) (b : Buffer R) : Comp S unit :=
  match data with
  | MsgWorkerReady => that_emit (VStr "_ready")
  | MsgSendData _ tag _ => that_emit tag
  | MsgGatherVector tag _ rebroadcast _ _ _ =>
      if rebroadcast then that_sendVectorToWorkers b tag else that_emit tag
  | MsgVectorSum tag rebroadcast _ | MsgVectorProduct tag rebroadcast _ =>
      if rebroadcast then that_sendDataToWorkers b tag else that_emit tag
  | _ => mret tt
  end.
End coordinator.

(** ** The worker pool *)

(** A worker context, as the page that created it sees it: the script it
    runs, the messages posted to it, oldest first, and whether its
    [onmessage] has been set. *)
Record WorkerObj (R : Type) : Type := mkWorkerObj {
  script : string;
  inbox : list (Message R);
  onmessage : bool
}.
Arguments mkWorkerObj {R} _ _ _.
Arguments script {R} _.
Arguments inbox {R} _.
Arguments onmessage {R} _.

(** The orchestrating context: whether the runtime defines [Worker]
    ([typeof(Worker) !== "undefined"]), every worker constructed so far,
    and [global] with its [workerPool], whose entries refer to the
    workers by their position in [spawned]. *)
Record Page (R : Type) : Type := mkPage {
  Worker_defined : bool;
  spawned : list (WorkerObj R);
  workerPool : list nat;
  global : Global
}.
Arguments mkPage {R} _ _ _ _.
Arguments Worker_defined {R} _.
Arguments spawned {R} _.
Arguments workerPool {R} _.
Arguments global {R} _.

Section pool.
Context {R : Type}.

Definition checkWebWorkerSupport : Comp (Page R) unit := λ p,
  if Worker_defined p then (Ok tt, p)
  else (Throw (PlainError "Web Worker support not available for MathWorkers."), p).

Definition set_nWorkers (n : Z) (g : Global) : Global :=
  mkGlobal n (myWorkerId g) (unrollLoops g) (logLevel g).

(** The worker that turn [i] of the loop of [createPool] constructs,
    with the [_init] message posted to it. *)
Definition spawned_worker (nWorkersInput : Z) (workerScriptName : string)
    (g : Global) (i : Z) : WorkerObj R :=
  mkWorkerObj workerScriptName
    [MsgInit i nWorkersInput (logLevel g) (unrollLoops g)] false.

(** One turn of the loop of [createPool]: [new Worker(script)], the
    [_init] message posted to it, the worker pushed on the pool, and
    [nWorkers] set to the length of the pool.  The runtime's
    constructor and [postMessage] are taken not to raise. *)
Definition spawn (nWorkersInput : Z) (workerScriptName : string)
    (i : Z) (p : Page R) : Page R :=
  let worker := spawned_worker nWorkersInput workerScriptName (global p) i in
  let ref := length (spawned p) in
  let pool := workerPool p ++ [ref] in
  mkPage (Worker_defined p) (spawned p ++ [worker]) pool
    (set_nWorkers (Z.of_nat (length pool)) (global p)).

Definition spawn_worker (nWorkersInput : Z) (workerScriptName : string)
    (i : Z) : Comp (Page R) unit := λ p,
  (Ok tt, spawn nWorkersInput workerScriptName i p).

(** [global.createPool]. *)
Definition createPool (nWorkersInput : Z) (workerScriptName : string)
    : Comp (Page R) unit :=
  checkWebWorkerSupport;;
  for_ 0 nWorkersInput 1 (spawn_worker nWorkersInput workerScriptName);;
  mret tt.

(** [global.getWorker]: the entry of the pool at [workerId], [None] for
    [undefined]. *)
Definition getWorker (workerId : Z) (p : Page R) : option nat :=
  if decide (0 ≤ workerId) then workerPool p !! Z.to_nat workerId else None.

Definition set_onmessage (ref : nat) (p : Page R) : Page R :=
  mkPage (Worker_defined p)
    (alter (λ w, mkWorkerObj (script w) (inbox w) true) ref (spawned p))
    (workerPool p) (global p).

(** One turn of the loop of the constructor of [MW.Coordinator] that
    registers its message handler:
    [global.getWorker(wk).onmessage = onmessageHandler] and then
    [messageDataBuffer.push({})].  [messageDataBuffer] is the object
    literal [{}], which has no [push], so the call is a TypeError; the
    text of the error is the engine's. *)
Definition register_worker (wk : Z) : Comp (Page R) unit := λ p,
  match getWorker wk p with
  | None => (Throw (TypeError "Cannot set properties of undefined"), p)
  | Some ref =>
      (Throw (TypeError "messageDataBuffer.push is not a function"),
       set_onmessage ref p)
  end.

(** The constructor of [MW.Coordinator], up to the definitions of its
    handlers: the pool is created, then the handler is registered for
    every [wk] below [global.nWorkers], which the loop leaves as it
    is. *)
Definition Coordinator_new (nWorkersInput : Z) (workerScriptName : string)
    : Comp (Page R) unit :=
  createPool nWorkersInput workerScriptName;;
  p ← get_state;
  for_ 0 (nWorkers (global p)) 1 register_worker;;
  mret tt.
End pool.

(** ** Matrix methods *)

Section matrix.
Context {R : Type} `{!Arith R}.

(** [new MW.Matrix(nrows, ncols)]. *)
Definition Matrix_new (nr nc : Z) : Matrix R :=
  if (0 <? nr) && (0 <? nc)
  then mkMatrix (replicate (Z.to_nat nr) (replicate (Z.to_nat nc) zero))
         nr nc
  else mkMatrix [] nr nc.

Definition isSquare (this : Matrix R) : bool := nrows this =? ncols this.

Definition set_mat_array (rows : list (list R)) (this : Matrix R)
    : Matrix R :=
  mkMatrix rows (nrows this) (ncols this).

(** [var tmp = this.array[i][j]; this.array[i][j] = this.array[j][i];
    this.array[j][i] = tmp;]: both reads come before the first store,
    and the stores go to rows the reads have found. *)
Definition swap_entries (i j : Z) : Comp (Matrix R) unit :=
  update (λ this,
    tmp ← mat_get (mat_array this) i j;
    x ← mat_get (mat_array this) j i;
    rows ← mat_set (mat_array this) i j x;
    rows ← mat_set rows j i tmp;
    Ok (set_mat_array rows this)).

(** [MW.Matrix.prototype.transposeInPlace]; the state is [this]. *)
Definition transposeInPlace : Comp (Matrix R) unit := λ this,
  if isSquare this then
    (for_ 0 (nrows this) 1 (λ i,
       for_ (i + 1) (ncols this) 1 (λ j, swap_entries i j);; mret tt);;
     mret tt) this
  else
    (Throw (PlainError
       "In place transpose only available for square matrices."), this).

(** [B.array[j][i] = ai[j]], with [ai = this.array[i]]. *)
Definition transpose_entry (this : Matrix R) (i j : Z)
    : Comp (Matrix R) unit :=
  update (λ B,
    x ← mat_get (mat_array this) i j;
    rows ← mat_set (mat_array B) j i x;
    Ok (set_mat_array rows B)).

(** [MW.Matrix.prototype.transpose]: a new Matrix. *)
Definition transpose (this : Matrix R) : Result (Matrix R) :=
  with_locals (Matrix_new (ncols this) (nrows this))
    (for_ 0 (nrows this) 1 (λ i,
       for_ 0 (ncols this) 1 (λ j, transpose_entry this i j);; mret tt)).

(** The entry of row [a] and column [b], when there is one. *)
Definition entry (rows : list (list R)) (a b : nat) : option R :=
  row ← rows !! a; row !! b.

(** A square Matrix of order [n] as its constructor builds it: [n] rows
    of [n] entries. *)
Definition square_of_order (n : nat) (M : Matrix R) : Prop :=
  nrows M = Z.of_nat n
  ∧ ncols M = Z.of_nat n
  ∧ length (mat_array M) = n
  ∧ Forall (λ row, length row = n) (mat_array M).
End matrix.

(** ** Batch operations ([MW.BatchOperation]) *)

(** An operand of [wkMatrixMatrixPlus] next to [B]: the object [B]
    itself, passed once more, or another value.  What is read from the
    object [B] is read from [B] as it is at that moment. *)
Inductive Operand (R : Type) : Type :=
  | SameAsB
  | Other (v : value R).
Arguments SameAsB {R}.
Arguments Other {R} v.

Section batch.
Context {R : Type} `{!Arith R}.

(** [MW.BatchOperation] is the receiver of its methods and has no
    property [ncols]: there [this.ncols] is [undefined]. *)
Definition BatchOperation_ncols : option Z := None.

(** The inner loop of [wkMatrixVectorPlus]:
    [tot += A.array[i][j] * v.array[j]], where no variable [v] is
    declared. *)
Definition mv_inner (A : Matrix R) (i j : Z) : Comp R unit :=
  update (λ tot,
    _ ← mat_get (mat_array A) i j;
    Throw (ReferenceError "v is not defined")).

(** One turn of the outer loop of [wkMatrixVectorPlus]; the locals are
    [z] and [offset].  [y] is a Vector, and [y[i]] is [undefined] on
    it. *)
Definition mv_row (alpha : R) (A : Matrix R) (beta : option R) (i : Z)
    : Comp (list R * Z) unit :=
  update (λ '(z, offset),
    tot ← with_locals zero
             (for_opt 0 BatchOperation_ncols 1 (mv_inner A i));
    let entry :=
      match beta with
      | Some b => add (mul alpha tot) (mul b nan)
      | None => mul alpha tot
      end in
    Ok (ta_set z offset entry, offset + 1)).

(** [MW.BatchOperation.wkMatrixVectorPlus]. *)
Definition wkMatrixVectorPlus (g : Global) (alpha A x tag : value R)
    (rebroadcast : bool) (beta y : value R)
    : Comp (list (Message R)) unit :=
  alpha' ← lift (checkNumber alpha);
  '(A', x') ← lift (checkMatrixVector A x);
  lift (checkNullOrUndefined tag);;
  let lb := loadBalance g (nrows A') in
  z ← lift (new_Float64Array (ito lb - ifrom lb));
  '(z', _) ← lift (
    if truthy_value beta && truthy_value y then
      beta' ← checkNumber beta;
      checkVectors x y;;
      with_locals (z, 0)
        (for_ (ifrom lb) (ito lb) 1 (mv_row alpha' A' (Some beta')))
    else
      with_locals (z, 0)
        (for_ (ifrom lb) (ito lb) 1 (mv_row alpha' A' None)));
  gatherVector g z' (vec_length x') (ifrom lb) tag rebroadcast.

(** [tot += A.array[i][k] * Bt.array[j][k]]. *)
Definition mm_inner (A Bt : Matrix R) (i j k : Z) : Comp R unit :=
  update (λ tot,
    a ← mat_get (mat_array A) i k;
    b ← mat_get (mat_array Bt) j k;
    Ok (add tot (mul a b))).

(** [D[offset][j] = alpha * tot] or
    [D[offset][j] = alpha * tot + beta * C.array[i][j]]; the locals are
    [D] and [offset]. *)
Definition mm_entry (alpha : R) (A Bt : Matrix R)
    (betaC : option (R * Matrix R)) (i j : Z)
    : Comp (list (list R) * Z) unit :=
  update (λ '(D, offset),
    tot ← with_locals zero
             (for_ 0 (ncols A) 1 (mm_inner A Bt i j));
    entry ← match betaC with
            | Some (beta, C) =>
                c ← mat_get (mat_array C) i j;
                Ok (add (mul alpha tot) (mul beta c))
            | None => Ok (mul alpha tot)
            end;
    D' ← mat_set D offset j entry;
    Ok (D', offset)).

(** One turn of the outer loop: [D.push(new Float64Array(B.ncols))],
    the row's entries, [++offset]. *)
Definition mm_row (alpha : R) (A Bt : Matrix R) (B_ncols : Z)
    (betaC : option (R * Matrix R)) (i : Z)
    : Comp (list (list R) * Z) unit :=
  update (λ '(D, offset), row ← new_Float64Array B_ncols;
                          Ok (D ++ [row], offset));;
  for_ 0 B_ncols 1 (mm_entry alpha A Bt betaC i);;
  update (λ '(D, offset), Ok (D, offset + 1)).

(** A method of the Matrix [B], and a function that posts messages, in
    the state of [wkMatrixMatrixPlus]: [B] and the messages posted. *)
Definition on_matrix {A : Type} (m : Comp (Matrix R) A)
    : Comp (Matrix R * list (Message R)) A := λ '(B, out),
  let '(r, B') := m B in (r, (B', out)).

Definition on_outbox {A : Type} (m : Comp (list (Message R)) A)
    : Comp (Matrix R * list (Message R)) A := λ '(B, out),
  let '(r, out') := m out in (r, (B, out')).

Definition operand_value (B : value R) (X : Operand R) : value R :=
  match X with
  | SameAsB => B
  | Other v => v
  end.

(** The body of [wkMatrixMatrixPlus] after its first three checks; [A]
    is [None] when it is the object [B].  When [B] is square [Bt] is [B]
    itself, read after its transposition, and so are [A] and [C] when
    they are that object.  The guard of the restoring step,
    [if (B.isSquare)], tests the method and not its result: a function
    is truthy, and the step is always taken. *)
Definition wkMatrixMatrixPlus_body (g : Global) (alpha : R)
    (A : option (Matrix R)) (tag : value R) (rebroadcast : bool)
    (beta : value R) (C : Operand R)
    : Comp (Matrix R * list (Message R)) unit :=
  '(B, _) ← get_state;
  Bt ← (if isSquare B
        then on_matrix transposeInPlace;;
             '(B', _) ← get_state; mret B'
        else lift (transpose B));
  '(Bnow, _) ← get_state;
  let A := default Bnow A in
  let C := operand_value (VMat Bnow) C in
  let lb := loadBalance g (nrows A) in
  '(D, _) ← lift (
    if truthy_value beta && truthy_value C then
      beta' ← checkNumber beta;
      C' ← checkMatrix C;
      if negb (bool_decide (nrows A = nrows C')
               && bool_decide (ncols B = ncols C')) then
        Throw (PlainError "Matrix dimensions not compatible for addition.")
      else
        with_locals ([], 0)
          (for_ (ifrom lb) (ito lb) 1
             (mm_row alpha A Bt (ncols B) (Some (beta', C'))))
    else
      with_locals ([], 0)
        (for_ (ifrom lb) (ito lb) 1 (mm_row alpha A Bt (ncols B) None)));
  on_matrix transposeInPlace;;
  on_outbox (gatherMatrixRows g D (nrows A) (ifrom lb) tag rebroadcast).

(** [MW.BatchOperation.wkMatrixMatrixPlus]: the result, [B] as the call
    leaves it, and the messages posted. *)
Definition wkMatrixMatrixPlus (g : Global) (alpha : value R)
    (A : Operand R) (B tag : value R) (rebroadcast : bool)
    (beta : value R) (C : Operand R) (out : list (Message R))
    : Result unit * (value R * list (Message R)) :=
  match (alpha' ← checkNumber alpha;
         '(A', B') ← checkMatrixMatrix (operand_value B A) B;
         checkNullOrUndefined tag;;
         Ok (alpha', A', B')) with
  | Throw e => (Throw e, (B, out))
  | Ok (alpha', A', B') =>
      let A'' := match A with SameAsB => None | Other _ => Some A' end in
      let '(r, (B'', out')) :=
        wkMatrixMatrixPlus_body g alpha' A'' tag rebroadcast beta C
          (B', out) in
      (r, (VMat B'', out'))
  end.
End batch.

(* ================================================================== *)
(** * Part I, continued: the rest of the library *)
(* ================================================================== *)

(** ** Serial Vector methods *)

Section vector_serial.
Context {R : Type} `{!Arith R}.

(** The Vector that holds the entries [a], as the library builds it:
    without entries its [array] is [null]. *)
Definition Vector_of (a : list R) : Vector R :=
  match a with
  | [] => mkVector None 0
  | _ :: _ => mkVector (Some a) (Z.of_nat (length a))
  end.

(** [target[i] = x] for a [Float64Array] [target] that may be [null]. *)
Definition assign (i : Z) (x : R) (target : option (list R))
    : Result (option (list R)) :=
  match target with
  | None => Throw (TypeError "Cannot set properties of null")
  | Some r => Ok (Some (ta_set r i x))
  end.

(** [vec.array[i] = arr[i]]; the state is [vec.array]. *)
Definition copy_entry (arr : list R) (i : Z)
    : Comp (option (list R)) unit :=
  update (assign i (ta_get arr i)).

(** [MW.Vector.fromArray], on an array of numbers (which passes
    [checkArray]). *)
Definition Vector_fromArray (arr : list R) : Result (Vector R) :=
  let vec := Vector_new (Z.of_nat (length arr)) in
  array ← with_locals (vec_array vec)
             (for_ 0 (Z.of_nat (length arr)) 1 (copy_entry arr));
  Ok (mkVector array (vec_length vec)).

(** [MW.Vector.prototype.product]. *)
Definition Vector_product (g : Global) (this : Vector R) : Result R :=
  let ni := vec_length this in
  if unrollLoops g then
    let ni3 := ni - 3 in
    with_locals one
      (i ← for_ 0 ni3 4 (fold_step4 mul this);
       for_ i ni 1 (fold_step mul this))
  else
    with_locals one (for_ 0 ni 1 (fold_step mul this)).

(** [result.array[i] = rhs], where [rhs] reads the operands at [i]; the
    state is [result.array]. *)
Definition assign_entry (rhs : Z → Result R) (i : Z)
    : Comp (option (list R)) unit :=
  update (λ target, x ← rhs i; assign i x target).

(** The loops that [plus], [minus], [times], [divide] and [scale]
    share: the unrolled loop stores four entries in each turn and
    advances by four. *)
Definition elementwise_loops (g : Global) (ni : Z) (rhs : Z → Result R)
    (result : Vector R) : Result (Vector R) :=
  array ← (if unrollLoops g then
             let ni3 := ni - 3 in
             with_locals (vec_array result)
               (i ← for_ 0 ni3 4 (λ i,
                      assign_entry rhs i;;
                      assign_entry rhs (i + 1);;
                      assign_entry rhs (i + 2);;
                      assign_entry rhs (i + 3));
                for_ i ni 1 (assign_entry rhs))
           else
             with_locals (vec_array result)
               (for_ 0 ni 1 (assign_entry rhs)));
  Ok (mkVector array (vec_length result)).

(** The common text of [MW.Vector.prototype.plus], [minus], [times] and
    [divide], which differ in the operator only. *)
Definition Vector_elementwise (op : R → R → R) (g : Global)
    (this w : value R) : Result (Vector R) :=
  '(v, w') ← checkVectors this w;
  elementwise_loops g (vec_length v)
    (λ i, a ← vec_get v i; b ← vec_get w' i; Ok (op a b))
    (Vector_new (vec_length v)).

Definition Vector_plus := Vector_elementwise add.
Definition Vector_minus := Vector_elementwise sub.
Definition Vector_times := Vector_elementwise mul.

(** [MW.Vector.prototype.scale]. *)
Definition Vector_scale (g : Global) (this : Vector R) (alpha : value R)
    : Result (Vector R) :=
  alpha' ← checkNumber alpha;
  elementwise_loops g (vec_length this)
    (λ i, a ← vec_get this i; Ok (mul a alpha'))
    (Vector_new (vec_length this)).

(** [MW.Vector.prototype.dotVector]. *)
Definition Vector_dotVector (g : Global) (this w : value R) : Result R :=
  '(v, w') ← checkVectors this w;
  let ni := vec_length v in
  if unrollLoops g then
    let ni3 := ni - 3 in
    with_locals zero
      (i ← for_ 0 ni3 4 (dot_step4 v w');
       for_ i ni 1 (dot_step v w'))
  else
    with_locals zero (for_ 0 ni 1 (dot_step v w')).

(** The serial combination, from [unit_], of the entries of [a] with the
    indices from [ifrom] up to [ito]. *)
Definition serial_fold (op : R → R → R) (unit_ : R) (a : list R)
    (ifrom ito : Z) : R :=
  foldl (λ acc i, op acc (ta_get a i)) unit_ (seqZ ifrom (ito - ifrom)).

(** The dot product of the entries with the indices from [ifrom] up to
    [ito], taken serially from [0]. *)
Definition serial_dot (a b : list R) (ifrom ito : Z) : R :=
  foldl (λ acc i, add acc (mul (ta_get a i) (ta_get b i))) zero
    (seqZ ifrom (ito - ifrom)).
End vector_serial.

(** ** What a call on a worker posts *)

Section outbox.
Context {R : Type}.

(** The messages a call posts, starting from none. *)
Definition posts {A : Type} (m : Comp (list (Message R)) A)
    : list (Message R) :=
  (m []).2.
End outbox.

(** ** Messages from the Coordinator to the pool *)

Section pool_messages.
Context {R : Type}.

Definition deliver_to (msg : Message R) (w : WorkerObj R) : WorkerObj R :=
  mkWorkerObj (script w) (inbox w ++ [msg]) (onmessage w).

(** [global.getWorker(wk).postMessage(msg)]: without such a worker the
    call is made on [undefined]. *)
Definition post_to_worker (msg : Message R) (wk : Z)
    : Comp (Page R) unit := λ p,
  match getWorker wk p with
  | None => (Throw (TypeError "Cannot read properties of undefined"), p)
  | Some ref =>
      (Ok tt,
       mkPage (Worker_defined p) (alter (deliver_to msg) ref (spawned p))
         (workerPool p) (global p))
  end.

(** The loop of [trigger], [sendDataToWorkers] and
    [sendVectorToWorkers]: one message for every [wk] below
    [global.nWorkers], which the loop leaves as it is. *)
Definition broadcast (msg : Message R) : Comp (Page R) unit :=
  p ← get_state;
  for_ 0 (nWorkers (global p)) 1 (post_to_worker msg);;
  mret tt.

(** The Coordinator's [trigger]. *)
Definition Coordinator_trigger (tag args : value R) : Comp (Page R) unit :=
  broadcast (MsgTrigger tag args).

(** The Coordinator's [sendDataToWorkers]. *)
Definition sendDataToWorkers (dat tag : value R) : Comp (Page R) unit :=
  broadcast (MsgBroadcastData tag dat).

(** [new Float64Array(vec.array)]: the entries of a Vector; no entry
    when [vec.array] is [null], or [undefined] as on what is not a
    Vector. *)
Definition array_copy (vec : Buffer R) : list R :=
  match vec with
  | BufVec v => default [] (vec_array v)
  | _ => []
  end.

(** The Coordinator's [sendVectorToWorkers]: every worker is sent a copy
    of the entries. *)
Definition sendVectorToWorkers (vec : Buffer R) (tag : value R)
    : Comp (Page R) unit :=
  broadcast (MsgBroadcastVector tag (array_copy vec)).

(** The page before any pool is created: [global] with its defaults. *)
Definition fresh_page (worker_defined : bool) : Page R :=
  mkPage worker_defined [] [] (mkGlobal 1 0 false 1).
End pool_messages.

(** ** The worker's side of the messages *)

(** The state of a worker context: [global], the [objectBuffer] and the
    [triggers] of its [MathWorker] ([None] for the initial [{}]), and the
    messages it has posted. *)
Record WorkerCtx (R : Type) : Type := mkWorkerCtx {
  ctx_global : Global;
  ctx_buffer : option (value R);
  ctx_triggers : gmap string (list (value R));
  ctx_outbox : list (Message R)
}.
Arguments mkWorkerCtx {R} _ _ _ _.
Arguments ctx_global {R} _.
Arguments ctx_buffer {R} _.
Arguments ctx_triggers {R} _.
Arguments ctx_outbox {R} _.

(** What [self.onmessage] did with a message. *)
Inductive Handled (R : Type) : Type :=
  | Initialised
  | Ran (t : Triggered R)
  | Invalid (line : string).
Arguments Initialised {R}.
Arguments Ran {R} t.
Arguments Invalid {R} line.

Section mathworker.
Context {R : Type} `{!Arith R}.

(** The worker context when its script starts: [global] with its
    defaults, no trigger registered. *)
Definition fresh_ctx : WorkerCtx R :=
  mkWorkerCtx (mkGlobal 1 0 false 1) None ∅ [].

(** [this.on(tag, callback)] in a worker context. *)
Definition ctx_on (tag : string) (callback : value R) (ctx : WorkerCtx R)
    : WorkerCtx R :=
  mkWorkerCtx (ctx_global ctx) (ctx_buffer ctx)
    (MathWorker_on tag callback (ctx_triggers ctx)) (ctx_outbox ctx).

(** The property key that [triggers[data.tag]] reads, for the tags whose
    conversion to a string the embedding knows. *)
Definition key_of (tag : value R) : option string :=
  match tag with
  | VStr s => Some s
  | VUndefined => Some "undefined"
  | VNull => Some "null"
  | VBool true => Some "true"
  | VBool false => Some "false"
  | _ => None
  end.

(** [data.handle]. *)
Definition handle_of (data : Message R) : string :=
  match data with
  | MsgInit _ _ _ _ => "_init"
  | MsgWorkerReady => "_workerReady"
  | MsgTrigger _ _ => "_trigger"
  | MsgBroadcastData _ _ => "_broadcastData"
  | MsgBroadcastVector _ _ => "_broadcastVector"
  | MsgSendData _ _ _ => "_sendData"
  | MsgGatherVector _ _ _ _ _ _ => "_gatherVector"
  | MsgGatherMatrixRows _ _ _ _ _ _ _ _ => "_gatherMatrixRows"
  | MsgVectorSum _ _ _ => "_vectorSum"
  | MsgVectorProduct _ _ _ => "_vectorProduct"
  end.

(** [handleInit]. *)
Definition handleInit (id nWorkers_ logLevel_ : Z) (unrollLoops_ : bool)
    (ctx : WorkerCtx R) : WorkerCtx R :=
  mkWorkerCtx (mkGlobal nWorkers_ id unrollLoops_ logLevel_)
    (ctx_buffer ctx) (ctx_triggers ctx)
    (ctx_outbox ctx ++ [MsgWorkerReady]).

Definition set_ctx_buffer (b : value R) (ctx : WorkerCtx R) : WorkerCtx R :=
  mkWorkerCtx (ctx_global ctx) (Some b) (ctx_triggers ctx) (ctx_outbox ctx).

(** [self.onmessage] of a [MathWorker], for the tags [key_of] converts.
    A [_trigger] message carries its arguments under [args], and
    [handleTrigger] reads [data.data], which is [undefined] on it.
    [handleBroadcastData] passes no [obj]; [handleBroadcastVector] passes
    the Vector it has built.  A handle without a case is logged. *)
Definition MathWorker_onmessage (data : Message R)
    : option (Comp (WorkerCtx R) (Handled R)) :=
  match data with
  | MsgInit id nWorkers_ logLevel_ unrollLoops_ =>
      Some (λ ctx,
        (Ok Initialised, handleInit id nWorkers_ logLevel_ unrollLoops_ ctx))
  | MsgTrigger tag _ =>
      key ← key_of tag;
      Some (λ ctx,
        (t ← handleTrigger (ctx_triggers ctx) key VUndefined VUndefined;
         Ok (Ran t),
         ctx))
  | MsgBroadcastData tag dat =>
      key ← key_of tag;
      Some (λ ctx,
        let ctx := set_ctx_buffer dat ctx in
        (t ← handleTrigger (ctx_triggers ctx) key dat VUndefined;
         Ok (Ran t),
         ctx))
  | MsgBroadcastVector tag vec =>
      key ← key_of tag;
      Some (λ ctx,
        match Vector_fromArray vec with
        | Throw e => (Throw e, ctx)
        | Ok v =>
            let ctx := set_ctx_buffer (VVec v) ctx in
            (t ← handleTrigger (ctx_triggers ctx) key VUndefined (VVec v);
             Ok (Ran t),
             ctx)
        end)
  | _ =>
      Some (λ ctx,
        (Ok (Invalid ("Invalid MathWorker handle: " +:+ handle_of data)),
         ctx))
  end.

(** The worker receives the messages of its inbox one after the other,
    each handler running to its end before the next.  The run is
    described as long as the messages are ones that
    [MathWorker_onmessage] embeds and no handler throws. *)
Fixpoint receive_all (msgs : list (Message R)) (ctx : WorkerCtx R)
    : option (list (Handled R) * WorkerCtx R) :=
  match msgs with
  | [] => Some ([], ctx)
  | data :: rest =>
      handler ← MathWorker_onmessage data;
      match handler ctx with
      | (Ok h, ctx') =>
          '(hs, ctx'') ← receive_all rest ctx';
          Some (h :: hs, ctx'')
      | (Throw _, _) => None
      end
  end.
End mathworker.

(** ** Pools as [createPool] leaves them *)

Section pools.
Context {R : Type}.

(** A page whose pool holds every worker constructed so far, in order,
    and whose [global.nWorkers] is the size of the pool: what
    [createPool] leaves on a page that had no worker. *)
Definition pool_ok (p : Page R) : Prop :=
  workerPool p = seq 0 (length (spawned p))
  ∧ nWorkers (global p) = Z.of_nat (length (spawned p))
  ∧ spawned p ≠ [].
End pools.

(** ** Matrices as the library builds them *)

Section matrix_shapes.
Context {R : Type}.

(** A Matrix of [r] rows and [c] columns as its constructor builds it:
    [r] rows of [c] entries. *)
Definition Matrix_shape (r c : nat) (M : Matrix R) : Prop :=
  nrows M = Z.of_nat r
  ∧ ncols M = Z.of_nat c
  ∧ length (mat_array M) = r
  ∧ Forall (λ row, length row = c) (mat_array M).
End matrix_shapes.


(** ** Matrix-vector products *)

Section matrix_vector.
Context {R : Type} `{!Arith R}.

(** [tot += ai[j] * v.array[j]], with [ai = this.array[i]]. *)
Definition row_dot_step (this : Matrix R) (v : Vector R) (i j : Z)
    : Comp R unit :=
  update (λ tot,
    a ← mat_get (mat_array this) i j;
    b ← vec_get v j;
    Ok (add tot (mul a b))).

Definition row_dot_step4 (this : Matrix R) (v : Vector R) (i j : Z)
    : Comp R unit :=
  update (λ tot,
    a0 ← mat_get (mat_array this) i j; b0 ← vec_get v j;
    a1 ← mat_get (mat_array this) i (j + 1); b1 ← vec_get v (j + 1);
    a2 ← mat_get (mat_array this) i (j + 2); b2 ← vec_get v (j + 2);
    a3 ← mat_get (mat_array this) i (j + 3); b3 ← vec_get v (j + 3);
    Ok (add tot (add (add (add (mul a0 b0) (mul a1 b1)) (mul a2 b2))
                     (mul a3 b3)))).

(** [tot = 0.0] and the two inner loops of the unrolled text, for
    row [i]. *)
Definition row_dot_unrolled (this : Matrix R) (v : Vector R) (i : Z)
    : Result R :=
  let nj := ncols this in
  let nj3 := nj - 3 in
  with_locals zero
    (j ← for_ 0 nj3 4 (row_dot_step4 this v i);
     for_ j nj 1 (row_dot_step this v i)).

(** [tot = 0.0] and the inner loop of the plain text, for row [i]. *)
Definition row_dot_plain (this : Matrix R) (v : Vector R) (i : Z)
    : Result R :=
  with_locals zero (for_ 0 (ncols this) 1 (row_dot_step this v i)).

(** [MW.Matrix.prototype.dotVector]: [w.array[i] = tot] for every
    row. *)
Definition Matrix_dotVector (g : Global) (this v : value R)
    : Result (Vector R) :=
  '(A, v') ← checkMatrixVector this v;
  let w := Vector_new (nrows A) in
  let ni := nrows A in
  array ← (if unrollLoops g then
             with_locals (vec_array w)
               (for_ 0 ni 1 (assign_entry (row_dot_unrolled A v')))
           else
             with_locals (vec_array w)
               (for_ 0 ni 1 (assign_entry (row_dot_plain A v'))));
  Ok (mkVector array (vec_length w)).

(** [w[offset++] = tot], with [tot] the product of row [i]; the locals
    are the partition buffer [w] and [offset]. *)
Definition store_row (tot_of : Z → Result R) (i : Z)
    : Comp (list R * Z) unit :=
  update (λ '(w, offset),
    tot ← tot_of i;
    Ok (ta_set w offset tot, offset + 1)).

(** [MW.Matrix.prototype.wkDotVector]: the rows are shared out, and the
    length announced to the Coordinator is [v.length]. *)
Definition Matrix_wkDotVector (g : Global) (this v tag : value R)
    (rebroadcast : bool) : Comp (list (Message R)) unit :=
  '(A, v') ← lift (checkMatrixVector this v);
  lift (checkNullOrUndefined tag);;
  let lb := loadBalance g (nrows A) in
  w ← lift (new_Float64Array (ito lb - ifrom lb));
  '(w', _) ← lift (
    if unrollLoops g then
      with_locals (w, 0)
        (for_ (ifrom lb) (ito lb) 1 (store_row (row_dot_unrolled A v')))
    else
      with_locals (w, 0)
        (for_ (ifrom lb) (ito lb) 1 (store_row (row_dot_plain A v'))));
  gatherVector g w' (vec_length v') (ifrom lb) tag rebroadcast.

(** The products of the rows of a Matrix with the entries [x], each
    summed in order from [0]. *)
Definition rows_times (rows : list (list R)) (x : list R) : list R :=
  (λ row, foldl add zero (zip_with mul row x)) <$> rows.
End matrix_vector.

(** ** Vector-matrix products *)

Section vector_matrix.
Context {R : Type} `{!Arith R}.

Definition checkVectorMatrix (v A : value R)
  : Result (Vector R * Matrix R) :=
  v' ← checkVector v;
  A' ← checkMatrix A;
  if decide (vec_length v' = nrows A')
  then Ok (v', A')
  else Throw (PlainError "Vector length and number Matrix rows are unequal.").

(** [tot += this.array[j] * A.array[j][i]]. *)
Definition col_dot_step (this : Vector R) (A : Matrix R) (i j : Z)
    : Comp R unit :=
  update (λ tot,
    a ← vec_get this j;
    b ← mat_get (mat_array A) j i;
    Ok (add tot (mul a b))).

Definition col_dot_step4 (this : Vector R) (A : Matrix R) (i j : Z)
    : Comp R unit :=
  update (λ tot,
    a0 ← vec_get this j; b0 ← mat_get (mat_array A) j i;
    a1 ← vec_get this (j + 1); b1 ← mat_get (mat_array A) (j + 1) i;
    a2 ← vec_get this (j + 2); b2 ← mat_get (mat_array A) (j + 2) i;
    a3 ← vec_get this (j + 3); b3 ← mat_get (mat_array A) (j + 3) i;
    Ok (add tot (add (add (add (mul a0 b0) (mul a1 b1)) (mul a2 b2))
                     (mul a3 b3)))).

(** [tot = 0.0] and the two inner loops of the unrolled text, for
    column [i]. *)
Definition col_dot_unrolled (this : Vector R) (A : Matrix R) (i : Z)
    : Result R :=
  let nj := vec_length this in
  let nj3 := nj - 3 in
  with_locals zero
    (j ← for_ 0 nj3 4 (col_dot_step4 this A i);
     for_ j nj 1 (col_dot_step this A i)).

(** [tot = 0.0] and the inner loop of the plain text, for column [i]. *)
Definition col_dot_plain (this : Vector R) (A : Matrix R) (i : Z)
    : Result R :=
  with_locals zero (for_ 0 (vec_length this) 1 (col_dot_step this A i)).

(** [MW.Vector.prototype.dotMatrix]: [w.array[i] = tot] for every
    column. *)
Definition Vector_dotMatrix (g : Global) (this A : value R)
    : Result (Vector R) :=
  '(v, A') ← checkVectorMatrix this A;
  let ni := ncols A' in
  let w := Vector_new ni in
  array ← (if unrollLoops g then
             with_locals (vec_array w)
               (for_ 0 ni 1 (assign_entry (col_dot_unrolled v A')))
           else
             with_locals (vec_array w)
               (for_ 0 ni 1 (assign_entry (col_dot_plain v A'))));
  Ok (mkVector array (vec_length w)).

(** [MW.Vector.prototype.wkDotMatrix]: the columns are shared out, and
    the length announced to the Coordinator is [this.length]. *)
Definition Vector_wkDotMatrix (g : Global) (this A tag : value R)
    (rebroadcast : bool) : Comp (list (Message R)) unit :=
  '(v, A') ← lift (checkVectorMatrix this A);
  lift (checkNullOrUndefined tag);;
  let lb := loadBalance g (ncols A') in
  w ← lift (new_Float64Array (ito lb - ifrom lb));
  '(w', _) ← lift (
    if unrollLoops g then
      with_locals (w, 0)
        (for_ (ifrom lb) (ito lb) 1 (store_row (col_dot_unrolled v A')))
    else
      with_locals (w, 0)
        (for_ (ifrom lb) (ito lb) 1 (store_row (col_dot_plain v A'))));
  gatherVector g w' (vec_length v) (ifrom lb) tag rebroadcast.

(** Column [i] of a Matrix, top to bottom. *)
Definition column (rows : list (list R)) (i : Z) : list R :=
  (λ row, ta_get row i) <$> rows.

(** The products of the entries [x] with the columns of a Matrix of
    [c] columns, each summed in order from [0]. *)
Definition times_columns (x : list R) (rows : list (list R)) (c : nat)
    : list R :=
  (λ i, foldl add zero (zip_with mul x (column rows i)))
    <$> seqZ 0 (Z.of_nat c).
End vector_matrix.


(** ** Entrywise Matrix methods *)

Section matrix_elementwise.
Context {R : Type} `{!Arith R}.

Definition checkMatrices (A B : value R) : Result (Matrix R * Matrix R) :=
  A' ← checkMatrix A;
  B' ← checkMatrix B;
  if (nrows A' =? nrows B') && (ncols A' =? ncols B')
  then Ok (A', B')
  else Throw (PlainError
    "Matrices do not have equal numbers of rows and columns.").

(** [C.array[i][j] = rhs], where [rhs] reads the operands at [(i, j)];
    the state is [C]. *)
Definition assign_cell (rhs : Z → Z → Result R) (i j : Z)
    : Comp (Matrix R) unit :=
  update (λ C,
    x ← rhs i j;
    rows ← mat_set (mat_array C) i j x;
    Ok (set_mat_array rows C)).

(** The loops that [plus], [minus], [times], [divide] and [scale] of a
    Matrix share: for every row, the unrolled inner loop stores four
    entries in each turn and advances by four. *)
Definition matrix_loops (g : Global) (ni nj : Z) (rhs : Z → Z → Result R)
    (C : Matrix R) : Result (Matrix R) :=
  if unrollLoops g then
    let nj3 := nj - 3 in
    with_locals C
      (for_ 0 ni 1 (λ i,
         (j ← for_ 0 nj3 4 (λ j,
                assign_cell rhs i j;;
                assign_cell rhs i (j + 1);;
                assign_cell rhs i (j + 2);;
                assign_cell rhs i (j + 3));
          for_ j nj 1 (assign_cell rhs i));;
         mret tt))
  else
    with_locals C
      (for_ 0 ni 1 (λ i, for_ 0 nj 1 (assign_cell rhs i);; mret tt)).

(** The common text of [MW.Matrix.prototype.plus], [minus], [times] and
    [divide], which differ in the operator only. *)
Definition Matrix_elementwise (op : R → R → R) (g : Global)
    (this B : value R) : Result (Matrix R) :=
  '(A, B') ← checkMatrices this B;
  matrix_loops g (nrows A) (ncols A)
    (λ i j,
       a ← mat_get (mat_array A) i j;
       b ← mat_get (mat_array B') i j;
       Ok (op a b))
    (Matrix_new (nrows A) (ncols A)).

Definition Matrix_plus := Matrix_elementwise add.
Definition Matrix_minus := Matrix_elementwise sub.
Definition Matrix_times := Matrix_elementwise mul.

(** [MW.Matrix.prototype.scale]. *)
Definition Matrix_scale (g : Global) (this : Matrix R) (alpha : value R)
    : Result (Matrix R) :=
  alpha' ← checkNumber alpha;
  matrix_loops g (nrows this) (ncols this)
    (λ i j, a ← mat_get (mat_array this) i j; Ok (mul a alpha'))
    (Matrix_new (nrows this) (ncols this)).

(** [C.push(new Float64Array(nj))]; the locals of the worker methods
    are the rows [C] computed so far and [offset]. *)
Definition push_row (nj : Z) : Comp (list (list R) * Z) unit :=
  update (λ '(C, offset),
    row ← new_Float64Array nj;
    Ok (C ++ [row], offset)).

(** [co[j] = rhs], with [co = C[offset]]. *)
Definition store_cell (rhs : Z → Z → Result R) (i j : Z)
    : Comp (list (list R) * Z) unit :=
  update (λ '(C, offset),
    x ← rhs i j;
    rows ← mat_set C offset j x;
    Ok (rows, offset)).

(** [++offset]. *)
Definition next_offset : Comp (list (list R) * Z) unit :=
  update (λ '(C, offset), Ok (C, offset + 1)).

(** The loops that the worker methods [wkPlus], [wkMinus], [wkTimes],
    [wkDivide] and [wkScale] of a Matrix share, over the rows of the
    range [lb]. *)
Definition wk_matrix_loops (g : Global) (lb : Range) (nj : Z)
    (rhs : Z → Z → Result R) : Result (list (list R) * Z) :=
  if unrollLoops g then
    let nj3 := nj - 3 in
    with_locals ([], 0)
      (for_ (ifrom lb) (ito lb) 1 (λ i,
         push_row nj;;
         (j ← for_ 0 nj3 4 (λ j,
                store_cell rhs i j;;
                store_cell rhs i (j + 1);;
                store_cell rhs i (j + 2);;
                store_cell rhs i (j + 3));
          for_ j nj 1 (store_cell rhs i));;
         next_offset))
  else
    with_locals ([], 0)
      (for_ (ifrom lb) (ito lb) 1 (λ i,
         push_row nj;;
         for_ 0 nj 1 (store_cell rhs i);;
         next_offset)).

(** The common text of [MW.Matrix.prototype.wkPlus], [wkMinus],
    [wkTimes] and [wkDivide]. *)
Definition Matrix_wkElementwise (op : R → R → R) (g : Global)
    (this B tag : value R) (rebroadcast : bool)
    : Comp (list (Message R)) unit :=
  '(A, B') ← lift (checkMatrices this B);
  lift (checkNullOrUndefined tag);;
  let lb := loadBalance g (nrows A) in
  '(C, _) ← lift (wk_matrix_loops g lb (ncols A)
    (λ i j,
       a ← mat_get (mat_array A) i j;
       b ← mat_get (mat_array B') i j;
       Ok (op a b)));
  gatherMatrixRows g C (nrows A) (ifrom lb) tag rebroadcast.

Definition Matrix_wkPlus := Matrix_wkElementwise add.
Definition Matrix_wkMinus := Matrix_wkElementwise sub.
Definition Matrix_wkTimes := Matrix_wkElementwise mul.

(** [MW.Matrix.prototype.wkScale], in its second definition, which
    replaces the first. *)
Definition Matrix_wkScale (g : Global) (this : Matrix R)
    (alpha tag : value R) (rebroadcast : bool)
    : Comp (list (Message R)) unit :=
  alpha' ← lift (checkNumber alpha);
  lift (checkNullOrUndefined tag);;
  let lb := loadBalance g (nrows this) in
  '(C, _) ← lift (wk_matrix_loops g lb (ncols this)
    (λ i j, a ← mat_get (mat_array this) i j; Ok (mul a alpha')));
  gatherMatrixRows g C (nrows this) (ifrom lb) tag rebroadcast.
End matrix_elementwise.

(** ** The reports of a gather of Matrix rows *)

Section gather_matrix_rows.
Context {R : Type}.

(** The report with which worker [id], out of [k], ships its rows of
    the Matrix with the rows [M], of [c] columns. *)
Definition worker_rows_report (k : Z) (M : list (list R)) (c : Z)
    (tag : value R) (rebroadcast : bool) (id : Z) : Message R :=
  let lb := spec_partition (Z.of_nat (length M)) k id in
  MsgGatherMatrixRows tag id rebroadcast (Z.of_nat (length M)) c
    (ito lb - ifrom lb) (ifrom lb)
    (take (Z.to_nat (ito lb - ifrom lb)) (drop (Z.to_nat (ifrom lb)) M)).

(** The reports of a gather of rows: worker [i] ships the rows [i]
    together with their number and the row at which they start, the
    number of the rows before them. *)
Fixpoint gather_rows_reports (tag : value R) (rebroadcast : bool)
    (nrows_ ncols_ : Z) (id offset : Z) (slices : list (list (list R)))
    : list (Message R) :=
  match slices with
  | [] => []
  | part :: rest =>
      MsgGatherMatrixRows tag id rebroadcast nrows_ ncols_
        (Z.of_nat (length part)) offset part
      :: gather_rows_reports tag rebroadcast nrows_ ncols_ (id + 1)
           (offset + Z.of_nat (length part)) rest
  end.
End gather_matrix_rows.


(** ** Matrices from Arrays *)

Section matrix_fromArray.
Context {R : Type} `{!Arith R}.

(** [MW.Matrix.fromArray], on an Array of Arrays of numbers (which
    passes [checkArray]): the number of columns is the length of the
    first row, and [arr[0].length] on an empty Array is a TypeError. *)
Definition Matrix_fromArray (arr : list (list R)) : Result (Matrix R) :=
  match arr with
  | [] => Throw (TypeError "Cannot read properties of undefined")
  | row0 :: _ =>
      let ni := Z.of_nat (length arr) in
      with_locals (Matrix_new ni (Z.of_nat (length row0)))
        (for_ 0 ni 1 (λ i,
           match arr !! Z.to_nat i with
           | Some row =>
               for_ 0 (Z.of_nat (length row)) 1
                 (assign_cell (mat_get arr) i);;
               mret tt
           | None =>
               lift (Throw (TypeError "Cannot read properties of undefined"))
           end))
  end.

(** A row cut or filled with zeros to [c] entries. *)
Definition fit_row (c : nat) (row : list R) : list R :=
  take c row ++ replicate (c - length row) zero.
End matrix_fromArray.

(** ** The closure of the Coordinator's constructor *)

(** The variables of the constructor as far as the handlers are
    concerned.  [var] declarations are hoisted: [nWorkersReported] and
    every [handleX] exist from the start of the call and are
    [undefined] until the statements that assign them run, which are
    the last of the constructor and cannot throw.  [Declared] is the
    closure before them: [objectBuffer] and [messageDataBuffer] hold
    [{}] and [ready] is false.  [Assigned] is the closure from then on,
    with its variables. *)
Inductive Closure (R : Type) : Type :=
  | Declared
  | Assigned (c : Coordinator R).
Arguments Declared {R}.
Arguments Assigned {R} c.

(** What [onmessageHandler] did with a message: it called a handler,
    which returned, or it logged a handle without a case. *)
Inductive Routed : Type :=
  | Dispatched
  | Logged (line : string).

Section closure.
Context {R : Type} `{!Arith R} {S : Type}.
Variable that_emit : value R → Comp S unit.
Variable that_sendDataToWorkers : Buffer R → value R → Comp S unit.
Variable that_sendVectorToWorkers : Buffer R → value R → Comp S unit.

(** The closure a call of the constructor leaves, given how the part of
    it that [Coordinator_new] embeds ended: the assignments after the
    registration loop run when the loop has returned. *)
Definition Coordinator_closure (r : Result unit) : Closure R :=
  match r with
  | Ok _ => Assigned Coordinator_init
  | Throw _ => Declared
  end.

(** [getBuffer()]. *)
Definition getBuffer (cl : Closure R) : Buffer R :=
  match cl with
  | Declared => BufObject
  | Assigned c => objectBuffer c
  end.

(** The variable that [onmessageHandler] calls under the handle of
    [data]; [None] for a handle without a case.  The handles
    [_vectorSendToCoordinator], [_matrixSendToCoordinator] and
    [_gatherMatrixColumns] have a case and no message here. *)
Definition handler_name (data : Message R) : option string :=
  match data with
  | MsgWorkerReady => Some "handleWorkerReady"
  | MsgSendData _ _ _ => Some "handleSendData"
  | MsgGatherVector _ _ _ _ _ _ => Some "handleGatherVector"
  | MsgGatherMatrixRows _ _ _ _ _ _ _ _ => Some "handleGatherMatrixRows"
  | MsgVectorSum _ _ _ => Some "handleVectorSum"
  | MsgVectorProduct _ _ _ => Some "handleVectorProduct"
  | MsgInit _ _ _ _ | MsgTrigger _ _
  | MsgBroadcastData _ _ | MsgBroadcastVector _ _ => None
  end.

(** [onmessageHandler], the listener the constructor registers.  A
    handle without a case is logged.  A handle with a case calls its
    variable: while that is [undefined] the call is a TypeError; once
    it is assigned the handler runs, for the handlers embedded here
    (the handler of [_gatherMatrixRows] is not). *)
Definition onmessageHandler (g : Global) (data : Message R)
    (cl : Closure R)
    : option (S → Result Routed * (Closure R * S)) :=
  match handler_name data with
  | None =>
      Some (λ s,
        (Ok (Logged ("Invalid Coordinator handle: " +:+ handle_of data)),
         (cl, s)))
  | Some name =>
      match cl with
      | Declared =>
          Some (λ s,
            (Throw (TypeError (name +:+ " is not a function")),
             (Declared, s)))
      | Assigned c =>
          match handler_of that_emit that_sendDataToWorkers
                  that_sendVectorToWorkers g data with
          | None => None
          | Some handler =>
              Some (λ s,
                let run := handler (c, s) in
                (match run.1 with
                 | Ok _ => Ok Dispatched
                 | Throw e => Throw e
                 end,
                 (Assigned run.2.1, run.2.2)))
          end
      end
  end.

(** A [message] event on the worker [ref] of the page: the listener of
    the worker runs when the constructor has set it, and nothing runs
    ([Ok None]) on a worker without a listener. *)
Definition Worker_message (p : Page R) (ref : nat) (data : Message R)
    (cl : Closure R)
    : option (S → Result (option Routed) * (Closure R * S)) :=
  match spawned p !! ref with
  | None => None
  | Some w =>
      if onmessage w then
        match onmessageHandler (global p) data cl with
        | None => None
        | Some run =>
            Some (λ s,
              (match (run s).1 with
               | Ok routed => Ok (Some routed)
               | Throw e => Throw e
               end,
               (run s).2))
        end
      else Some (λ s, (Ok None, (cl, s)))
  end.
End closure.

(** ** Rounds of reports *)

Section rounds.
Context {R : Type}.

(** A round for the pool of [g]: one report for every worker, all of
    one handle and under one tag. *)
Definition report_round (g : Global) (msgs : list (Message R)) : Prop :=
  Z.of_nat (length msgs) = nWorkers g
  ∧ ∃ (h : string) (tag : value R),
      Forall (λ m, handle_of m = h ∧ report_tag m = Some tag ∧ countable m)
        msgs.
End rounds.

(** ** The methods of [that] *)

(** The emitter of the Coordinator, [MW.Coordinator.prototype]: its
    [events], and the calls its callbacks have received, oldest
    first. *)
Record Emitter (R : Type) : Type := mkEmitter {
  em_events : gmap string (list (value R));
  em_called : list (Call R)
}.
Arguments mkEmitter {R} _ _.
Arguments em_events {R} _.
Arguments em_called {R} _.

(** A call on [that], as the handlers make it. *)
Inductive ThatCall (R : Type) : Type :=
  | CallEmit (name : value R)
  | CallSendDataToWorkers (dat : Buffer R) (tag : value R)
  | CallSendVectorToWorkers (vec : Buffer R) (tag : value R).
Arguments CallEmit {R} name.
Arguments CallSendDataToWorkers {R} dat tag.
Arguments CallSendVectorToWorkers {R} vec tag.

Section methods.
Context {R : Type} `{!Arith R}.

(** [that.emit(name)] with a name that is the property key [key]: the
    handlers pass no [args].  A callback is taken to return. *)
Definition Coordinator_emit (key : string) : Comp (Emitter R) unit := λ em,
  match EventEmitter_emit key VUndefined (em_events em) with
  | (Ok calls, events') => (Ok tt, mkEmitter events' (em_called em ++ calls))
  | (Throw e, events') => (Throw e, mkEmitter events' (em_called em))
  end.

(** Methods that keep a record of the calls made on [that], oldest
    first, and return. *)
Definition record_call (call_ : ThatCall R)
    : Comp (list (ThatCall R)) unit := λ calls,
  (Ok tt, calls ++ [call_]).
End methods.

(** ** The numbers of the code *)

(** The numbers of JavaScript are the binary64 floats of IEEE 754, which
    are the primitive floats of the kernel. *)
Module Double.
Import PrimFloat.

Definition zero : float := 0%float.
Definition one : float := 1%float.

(** [2^53], from where on the floats are two apart. *)
Definition two_53 : float := 9007199254740992%float.
End Double.

(** [if (x)] on a number: false on [0], [-0] and NaN. *)
Definition double_truthy (x : PrimFloat.float) : bool :=
  negb (PrimFloat.eqb x Double.zero) && negb (PrimFloat.is_nan x).

#[global] Instance double_arith : Arith PrimFloat.float | 100 := {|
  zero := Double.zero;
  one := Double.one;
  nan := PrimFloat.nan;
  add := PrimFloat.add;
  sub := PrimFloat.sub;
  mul := PrimFloat.mul;
  truthy := double_truthy
|}.

(* ================================================================== *)
(** * Part II: theorems *)
(* ================================================================== *)

(** ** 32-bit conversion *)

Lemma to_int32_small z : 0 ≤ z < 2 ^ 31 → to_int32 z = z.
Proof.
  intros Hz. unfold to_int32.
  rewrite Z.mod_small; lia.
Qed.

Lemma bitor_zero_small z : 0 ≤ z < 2 ^ 31 → bitor z 0 = z.
Proof.
  intros Hz. unfold bitor.
  rewrite (to_int32_small z) by done.
  rewrite (to_int32_small 0) by lia.
  apply Z.lor_0_r.
Qed.

(** ** Load balancing *)

Section load_balance.
Variables n k : Z.
Hypothesis Hn : 1 ≤ n.
Hypothesis Hk : 1 ≤ k.
Hypothesis Hfit : n / k < 2 ^ 31.

Lemma loadBalance_spec id unroll :
  loadBalance (worker_global k id unroll) n
  = if decide (id < n mod k)
    then mkRange (id * (n / k + 1)) (id * (n / k + 1) + n / k + 1)
    else mkRange (id * (n / k) + n mod k) (id * (n / k) + n mod k + n / k).
Proof.
  unfold loadBalance, worker_global; simpl.
  rewrite Z.quot_div_nonneg by lia.
  rewrite Z.rem_mod_nonneg by lia.
  rewrite bitor_zero_small by (split; [apply Z.div_pos; lia | done]).
  destruct (Z.ltb_spec id (n mod k)); case_decide; (done || lia).
Qed.

Lemma loadBalance_spec_partition id unroll :
  loadBalance (worker_global k id unroll) n = spec_partition n k id.
Proof.
  rewrite loadBalance_spec. unfold spec_partition.
  case_decide; f_equal; lia.
Qed.

Lemma div_mod_facts :
  n = k * (n / k) + n mod k ∧ 0 ≤ n mod k < k ∧ 0 ≤ n / k.
Proof.
  split; [apply Z.div_mod; lia|].
  split; [apply Z.mod_pos_bound; lia | apply Z.div_pos; lia].
Qed.

(** Name the quotient and the remainder, keeping only their defining
    facts: what is left is polynomial arithmetic. *)
Local Ltac name_div_mod d r :=
  pose proof div_mod_facts as (? & ? & ?);
  unfold spec_partition, range_len;
  generalize dependent (n / k); intros d;
  generalize dependent (n mod k); intros r; intros.

Lemma spec_partition_len id :
  range_len (spec_partition n k id)
  = if decide (id < n mod k) then n / k + 1 else n / k.
Proof. name_div_mod d r. case_decide; simpl; lia. Qed.

Lemma spec_partition_first : ifrom (spec_partition n k 0) = 0.
Proof. name_div_mod d r. case_decide; simpl; lia. Qed.

Lemma spec_partition_last : ito (spec_partition n k (k - 1)) = n.
Proof. name_div_mod d r. case_decide; simpl; nia. Qed.

Lemma spec_partition_next id :
  ito (spec_partition n k id) = ifrom (spec_partition n k (id + 1)).
Proof.
  name_div_mod d r. repeat case_decide; simpl; nia.
Qed.

Lemma spec_partition_ordered i j :
  0 ≤ i → i < j →
  ito (spec_partition n k i) ≤ ifrom (spec_partition n k j).
Proof.
  intros Hi Hij. name_div_mod d r. repeat case_decide; simpl; nia.
Qed.

Lemma spec_partition_nonneg id :
  0 ≤ id →
  0 ≤ ifrom (spec_partition n k id)
  ∧ ifrom (spec_partition n k id) ≤ ito (spec_partition n k id).
Proof. intros Hid. name_div_mod d r. case_decide; simpl; nia. Qed.

Lemma spec_partition_cover j :
  0 ≤ j < n →
  ∃ id, 0 ≤ id < k
    ∧ ifrom (spec_partition n k id) ≤ j < ito (spec_partition n k id).
Proof.
  intros Hj. name_div_mod d r.
  destruct (decide (j < r * (d + 1))) as [Hlow|Hhigh].
  - exists (j / (d + 1)).
    pose proof (Z.div_mod j (d + 1) ltac:(lia)) as Hj1.
    pose proof (Z.mod_pos_bound j (d + 1) ltac:(lia)) as Hj2.
    remember (j / (d + 1)) as q eqn:Eq. remember (j mod (d + 1)) as m eqn:Em.
    clear Eq Em.
    assert (0 ≤ q) by nia.
    assert (q < r) by nia.
    case_decide; simpl; [|lia].
    split; [lia|]. nia.
  - assert (0 < d) as Hpos by nia.
    pose proof (Z.div_mod (j - r * (d + 1)) d ltac:(lia)) as Hj1.
    pose proof (Z.mod_pos_bound (j - r * (d + 1)) d Hpos) as Hj2.
    remember ((j - r * (d + 1)) / d) as q eqn:Eq.
    remember ((j - r * (d + 1)) mod d) as m eqn:Em.
    clear Eq Em.
    assert (0 ≤ q) by nia.
    exists (r + q).
    assert (r + q < k) by nia.
    case_decide; simpl; [lia|].
    split; [lia|]. nia.
Qed.

Lemma spec_partition_within id j :
  0 ≤ id < k →
  ifrom (spec_partition n k id) ≤ j < ito (spec_partition n k id) →
  0 ≤ j < n.
Proof.
  intros Hid Hj.
  pose proof (spec_partition_nonneg id ltac:(lia)) as [? _].
  split; [lia|].
  destruct (decide (id = k - 1)) as [->|Hne].
  - rewrite spec_partition_last in Hj. lia.
  - pose proof (spec_partition_ordered id (k - 1) ltac:(lia) ltac:(lia)).
    pose proof (spec_partition_nonneg (k - 1) ltac:(lia)) as [_ ?].
    rewrite spec_partition_last in *. lia.
Qed.
End load_balance.

(** C1 (as amended).  For every [n ≥ 1] and [workerCount ≥ 1] with
    [floor (n / workerCount) < 2^31], and every worker id in
    [0 .. workerCount - 1], [loadBalance] returns the half-open range of
    the specification: base size [n / workerCount], remainder
    [n mod workerCount], one more element for the ids below the
    remainder.  The ranges are ordered by worker id and pairwise
    disjoint, every range is well formed and non-negative, their union
    is exactly [[0, n)], and no two lengths differ by more than 1. *)
Theorem loadBalance_partition (n k : Z) :
  1 ≤ n → 1 ≤ k → n / k < 2 ^ 31 →
  let part id := loadBalance (worker_global k id false) n in
  (∀ id unroll,
     loadBalance (worker_global k id unroll) n = spec_partition n k id)
  ∧ (∀ id, 0 ≤ id < k →
       part id = spec_partition n k id
       ∧ range_len (part id)
         = if decide (id < n mod k) then n / k + 1 else n / k)
  ∧ (∀ id, 0 ≤ id < k → 0 ≤ ifrom (part id) ≤ ito (part id))
  ∧ (∀ i j, 0 ≤ i → i < j → j < k → ito (part i) ≤ ifrom (part j))
  ∧ (∀ x, 0 ≤ x < n ↔ ∃ id, 0 ≤ id < k ∧ ifrom (part id) ≤ x < ito (part id))
  ∧ (∀ i j, 0 ≤ i < k → 0 ≤ j < k →
       Z.abs (range_len (part i) - range_len (part j)) ≤ 1).
Proof.
  intros Hn Hk Hfit part.
  assert (Hpart : ∀ id, part id = spec_partition n k id).
  { intros id. by apply loadBalance_spec_partition. }
  split; [intros; by apply loadBalance_spec_partition|].
  split.
  { intros id _. rewrite Hpart. split; [done|]. by apply spec_partition_len. }
  split.
  { intros id Hid. rewrite Hpart.
    by apply spec_partition_nonneg; lia. }
  split.
  { intros i j Hi Hij Hj. rewrite !Hpart.
    by apply spec_partition_ordered. }
  split.
  { intros x. split.
    - intros Hx.
      destruct (spec_partition_cover n k) with (j := x) as (id & ? & ?);
        [done..|].
      exists id. by rewrite Hpart.
    - intros (id & Hid & Hx). rewrite Hpart in Hx.
      by eapply spec_partition_within. }
  intros i j Hi Hj. rewrite !Hpart.
  rewrite !spec_partition_len by done.
  repeat case_decide; lia.
Qed.

(** Scenario B: [n = 7] over 3 workers gives [[0,3) [3,5) [5,7)]. *)
Lemma loadBalance_partition_witness :
  1 ≤ 7 ∧ 1 ≤ 3 ∧ 7 / 3 < 2 ^ 31
  ∧ loadBalance (worker_global 3 0 false) 7 = mkRange 0 3
  ∧ loadBalance (worker_global 3 1 false) 7 = mkRange 3 5
  ∧ loadBalance (worker_global 3 2 false) 7 = mkRange 5 7.
Proof.
  assert (H1 : 1 ≤ 7) by lia.
  assert (H2 : 1 ≤ 3) by lia.
  assert (H3 : 7 / 3 < 2 ^ 31) by (vm_compute; reflexivity).
  pose proof (loadBalance_partition 7 3 H1 H2 H3) as (Hspec & _).
  repeat split; try done; rewrite Hspec; reflexivity.
Defined.

(** C1 as stated fails beyond 32 bits: for [n = 2^31] and one worker the
    quotient [n / 1] is reduced by [| 0] to [-2^31], and the range
    returned is [[0, -2^31)] instead of [[0, 2^31)]. *)
Lemma loadBalance_int32_counterexample :
  1 ≤ 2147483648 ∧ 1 ≤ 1 ∧ 0 ≤ 0 < 1
  ∧ loadBalance (worker_global 1 0 false) 2147483648
    = mkRange 0 (-2147483648)
  ∧ loadBalance (worker_global 1 0 false) 2147483648
    ≠ spec_partition 2147483648 1 0.
Proof.
  repeat split; try lia; try reflexivity.
  vm_compute. discriminate.
Qed.

(** ** Loops *)

Lemma Comp_bind_unfold {St A B : Type} (m : Comp St A) (f : A → Comp St B)
    (s : St) :
  (m ≫= f) s
  = match m s with
    | (Ok a, s') => f a s'
    | (Throw e, s') => (Throw e, s')
    end.
Proof. reflexivity. Qed.

(** A loop that advances by one and whose body cannot throw is a fold
    over the indices from [i] up to [bound]. *)
Lemma for_loop_fold {St : Type} (f : Z → St → St) (body : Z → Comp St unit)
    (bound : Z) :
  (∀ i s, body i s = (Ok tt, f i s)) →
  ∀ (fuel : nat) i s,
    bound - i ≤ Z.of_nat fuel →
    for_loop fuel i bound 1 body s
    = (Ok (Z.max i bound), foldl (λ s j, f j s) s (seqZ i (bound - i))).
Proof.
  intros Hbody fuel. induction fuel as [|fuel IH]; intros i s Hfuel.
  - simpl. rewrite seqZ_nil by lia.
    unfold mret, Comp_ret. simpl. do 2 f_equal. lia.
  - simpl. destruct (Z.ltb_spec i bound) as [Hlt|Hge].
    + unfold mbind, Comp_bind. rewrite Hbody.
      rewrite IH by lia.
      rewrite (seqZ_cons i (bound - i)) by lia. simpl.
      replace (Z.max (i + 1) bound) with (Z.max i bound) by lia.
      replace (bound - (i + 1)) with (Z.pred (bound - i)) by lia.
      replace (Z.succ i) with (i + 1) by lia.
      reflexivity.
    + rewrite seqZ_nil by lia.
      unfold mret, Comp_ret. simpl. do 2 f_equal. lia.
Qed.

Lemma for_fold {St : Type} (f : Z → St → St) (body : Z → Comp St unit)
    (i bound : Z) (s : St) :
  (∀ i s, body i s = (Ok tt, f i s)) →
  for_ i bound 1 body s
  = (Ok (Z.max i bound), foldl (λ s j, f j s) s (seqZ i (bound - i))).
Proof. intros Hbody. unfold for_. apply for_loop_fold; [done|lia]. Qed.

(** ** Partial sums on a worker *)

Section partial_sums.
Context {R : Type} `{!Arith R}.

Lemma fold_step_total (op : R → R → R) (this : Vector R) (a : list R) :
  vec_array this = Some a →
  ∀ i acc, fold_step op this i acc = (Ok tt, op acc (ta_get a i)).
Proof.
  intros Ha i acc. unfold fold_step, update, vec_get. by rewrite Ha.
Qed.

(** With plain loops [wkSum] reports the serial sum of the worker's
    range. *)
Lemma wkSum_plain (g : Global) (this : Vector R) (a : list R)
    (tag : value R) (rebroadcast : bool) (out : list (Message R)) :
  unrollLoops g = false →
  vec_array this = Some a →
  nullOrUndefined tag = false →
  let lb := loadBalance g (vec_length this) in
  wkSum g this tag rebroadcast out
  = (Ok tt,
     out ++ [MsgVectorSum tag rebroadcast (serial_sum a (ifrom lb) (ito lb))]).
Proof.
  intros Hplain Ha Htag lb.
  unfold wkSum, checkNullOrUndefined. rewrite Htag, Hplain.
  unfold with_locals.
  rewrite (for_fold (λ i acc, add acc (ta_get a i)))
    by (by apply fold_step_total).
  reflexivity.
Qed.
End partial_sums.

(** C10 (the code departs from it).  On the Vector [[1, 1, 1, 1]] with
    one worker, [wkSum] with [unrollLoops] set reports 7, while the plain
    loop reports 4, the serial sum of the range [[0, 4)]: the unrolled
    loop adds four entries in each turn but advances by one. *)
Theorem wkSum_unrolled_differs :
  let v : Vector number := mkVector (Some [Fin 1; Fin 1; Fin 1; Fin 1]) 4 in
  loadBalance (worker_global 1 0 true) 4 = mkRange 0 4
  ∧ wkSum (worker_global 1 0 true) v (VStr "t") false []
    = (Ok tt, [MsgVectorSum (VStr "t") false (Fin 7)])
  ∧ wkSum (worker_global 1 0 false) v (VStr "t") false []
    = (Ok tt, [MsgVectorSum (VStr "t") false (Fin 4)])
  ∧ serial_sum [Fin 1; Fin 1; Fin 1; Fin 1] 0 4 = Fin 4
  ∧ Vector_sum (worker_global 1 0 true) v = Ok (Fin 4).
Proof. repeat split; vm_compute; reflexivity. Qed.

(** ** Preconditions of the partitioned operations on two vectors *)

Section preconditions.
Context {R : Type} `{!Arith R}.

Lemma checkVectors_null_l (this w : value R) :
  nullOrUndefined this = true →
  checkVectors this w = Throw (TypeError "Undefined or null variable.").
Proof.
  intros H. unfold checkVectors, checkVector, checkNullOrUndefined.
  by rewrite H.
Qed.

Lemma checkVectors_null_r (this w : value R) :
  nullOrUndefined w = true →
  ∃ e, checkVectors this w = Throw e.
Proof.
  intros H. unfold checkVectors, checkVector, checkNullOrUndefined.
  rewrite H. destruct this; simpl; eauto.
Qed.

Lemma checkVectors_unequal (v v' : Vector R) :
  vec_length v ≠ vec_length v' →
  checkVectors (VVec v) (VVec v')
  = Throw (PlainError "Vectors have unequal lengths.").
Proof.
  intros H. unfold checkVectors. simpl. by rewrite decide_False.
Qed.

Lemma checkVectors_ok_inv (this w : value R) v v' :
  checkVectors this w = Ok (v, v') →
  this = VVec v ∧ w = VVec v' ∧ vec_length v = vec_length v'.
Proof.
  unfold checkVectors.
  destruct this; simpl; try discriminate.
  destruct w; simpl; try discriminate.
  case_decide; [|discriminate]. intros [= <- <-]. done.
Qed.

Lemma bad_arguments_checks (this w tag : value R) :
  bad_arguments this w tag →
  ∃ e, (vw ← checkVectors this w; checkNullOrUndefined tag;; Ok vw)
       = Throw e.
Proof.
  intros [H|[H|[H|(v & v' & -> & -> & H)]]].
  - rewrite checkVectors_null_l by done. eauto.
  - destruct (checkVectors_null_r this w H) as [e ->]. eauto.
  - destruct (checkVectors this w) as [vw|e]; simpl; [|eauto].
    unfold checkNullOrUndefined. rewrite H. eauto.
  - rewrite checkVectors_unequal by done. eauto.
Qed.

Lemma checks_throw_inv (this w tag : value R) e :
  (vw ← checkVectors this w; checkNullOrUndefined tag;; Ok vw) = Throw e →
  checkVectors this w = Throw e
  ∨ ∃ vw, checkVectors this w = Ok vw ∧ checkNullOrUndefined tag = Throw e.
Proof.
  destruct (checkVectors this w) as [vw|e1]; simpl.
  - destruct (checkNullOrUndefined tag) as [[]|e2]; simpl; [done|].
    intros [= ->]. right. eauto.
  - intros [= ->]. by left.
Qed.

Lemma wkElementwise_bad (op : R → R → R) (g : Global) (this w tag : value R)
    (rebroadcast : bool) (out : list (Message R)) :
  bad_arguments this w tag →
  ∃ e, wkElementwise op g this w tag rebroadcast out = (Throw e, out).
Proof.
  intros Hbad. destruct (bad_arguments_checks _ _ _ Hbad) as [e He].
  exists e. unfold wkElementwise.
  destruct (checks_throw_inv _ _ _ _ He) as [H|([v v'] & H1 & H2)].
  - unfold mbind at 1, Comp_bind, lift. by rewrite H.
  - unfold mbind at 1, Comp_bind, lift. rewrite H1.
    unfold mbind at 1, Comp_bind. by rewrite H2.
Qed.

Lemma wkDotVector_bad (g : Global) (this w tag : value R)
    (rebroadcast : bool) (out : list (Message R)) :
  bad_arguments this w tag →
  ∃ e, wkDotVector g this w tag rebroadcast out = (Throw e, out).
Proof.
  intros Hbad. destruct (bad_arguments_checks _ _ _ Hbad) as [e He].
  exists e. unfold wkDotVector.
  destruct (checks_throw_inv _ _ _ _ He) as [H|([v v'] & H1 & H2)].
  - unfold mbind at 1, Comp_bind, lift. by rewrite H.
  - unfold mbind at 1, Comp_bind, lift. rewrite H1.
    unfold mbind at 1, Comp_bind. by rewrite H2.
Qed.

(** C7.  Each partitioned operation on two vectors ([wkPlus], [wkMinus],
    [wkTimes], [wkDivide] and every other instance of their common text,
    and [wkDotVector]), called with an operand or a tag that is [null] or
    [undefined] or with Vectors of unequal lengths, throws, and the list
    of posted messages is what it was before the call: nothing is sent,
    nothing is computed from a coerced value. *)
Theorem wk_two_vectors_fail_before_sending (g : Global)
    (this w tag : value R) (rebroadcast : bool) (out : list (Message R)) :
  bad_arguments this w tag →
  (∃ e, wkPlus g this w tag rebroadcast out = (Throw e, out))
  ∧ (∃ e, wkMinus g this w tag rebroadcast out = (Throw e, out))
  ∧ (∃ e, wkTimes g this w tag rebroadcast out = (Throw e, out))
  ∧ (∀ op, ∃ e,
       wkElementwise op g this w tag rebroadcast out = (Throw e, out))
  ∧ (∃ e, wkDotVector g this w tag rebroadcast out = (Throw e, out)).
Proof.
  intros Hbad. unfold wkPlus, wkMinus, wkTimes.
  repeat split; try intros op;
    (by apply wkElementwise_bad) || (by apply wkDotVector_bad).
Qed.
End preconditions.

(** Unequal lengths, a [null] operand and an [undefined] tag, with the
    errors the checks raise. *)
Lemma wk_two_vectors_fail_before_sending_witness :
  let v2 : Vector number := mkVector (Some [Fin 1; Fin 2]) 2 in
  let v1 : Vector number := mkVector (Some [Fin 1]) 1 in
  let g := worker_global 1 0 false in
  (∃ e, wkPlus g (VVec v2) (VVec v1) (VStr "t") false [] = (Throw e, []))
  ∧ wkPlus g (VVec v2) (VVec v1) (VStr "t") false []
    = (Throw (PlainError "Vectors have unequal lengths."), [])
  ∧ wkPlus g (VVec v2) VNull (VStr "t") false []
    = (Throw (TypeError "Undefined or null variable."), [])
  ∧ wkPlus g (VVec v2) (VVec v2) VUndefined false []
    = (Throw (TypeError "Undefined or null variable."), [])
  ∧ wkPlus g (VVec v2) (VNum (Fin 3)) (VStr "t") false []
    = (Throw (TypeError "Expected type Vector but is not."), []).
Proof.
  intros v2 v1 g. split; [|repeat split; reflexivity].
  refine (proj1 (wk_two_vectors_fail_before_sending g (VVec v2) (VVec v1)
                   (VStr "t") false [] _)).
  right; right; right. exists v2, v1. repeat split. simpl. lia.
Defined.

(** ** Triggers and events *)

Section registration.
Context {R : Type} `{!Arith R}.

(** C8.  After [on(tag, h1)] and then [on(tag, h2)], a trigger for
    [tag] calls [h2] once and nothing else, and the registry holds
    exactly [h2] under [tag]; the same holds for the events of an
    [EventEmitter]. *)
Theorem on_replaces_previous_handler (tag : string) (h1 : value R)
    (f1 h2 : fn_id) (triggers events : gmap string (list (value R)))
    (data obj args : value R) :
  let triggers2 :=
    MathWorker_on tag (VFun h2) (MathWorker_on tag h1 triggers) in
  triggers2 !! tag = Some [VFun h2]
  ∧ handleTrigger triggers2 tag data obj
    = Ok (Invoked [(h2, or_value data (or_value obj VEmptyArray))])
  ∧ (events1 ← EventEmitter_on tag (VFun f1) events;
     events2 ← EventEmitter_on tag (VFun h2) events1;
     Ok (EventEmitter_emit tag args events2))
    = Ok (Ok [(h2, or_value args VEmptyArray)],
          <[tag := [VFun h2]]> events).
Proof.
  intros triggers2. subst triggers2. unfold MathWorker_on.
  split; [by rewrite lookup_insert_eq|].
  split.
  - unfold handleTrigger. by rewrite lookup_insert_eq.
  - unfold EventEmitter_on, EventEmitter_emit. simpl.
    rewrite lookup_insert_eq. simpl.
    by rewrite !insert_insert_eq.
Qed.

(** Registrations under other tags are left alone. *)
Lemma on_other_tag (tag tag' : string) (h : value R)
    (triggers : gmap string (list (value R))) :
  tag ≠ tag' → MathWorker_on tag h triggers !! tag' = triggers !! tag'.
Proof. intros Hne. unfold MathWorker_on. by rewrite lookup_insert_ne. Qed.
End registration.

(** ** Pool creation *)

Section pool_creation.
Context {R : Type}.

Lemma spawn_turns (n : Z) (name : string) (ids : list Z) :
  ∀ p : Page R,
    let p' := foldl (λ s j, spawn n name j s) p ids in
    Worker_defined p' = Worker_defined p
    ∧ spawned p' = spawned p ++ (spawned_worker n name (global p) <$> ids)
    ∧ length (workerPool p') = (length (workerPool p) + length ids)%nat
    ∧ logLevel (global p') = logLevel (global p)
    ∧ unrollLoops (global p') = unrollLoops (global p)
    ∧ (ids ≠ [] →
       nWorkers (global p') = Z.of_nat (length (workerPool p'))).
Proof.
  induction ids as [|i ids IH]; intros p.
  - simpl. rewrite app_nil_r. repeat split; try done; lia.
  - cbn [foldl]. specialize (IH (spawn n name i p)).
    cbv zeta in IH. destruct IH as (H1 & H2 & H3 & H4 & H5 & H6).
    cbv zeta. split_and!.
    + by rewrite H1.
    + rewrite H2. unfold spawn at 1 2. cbn [spawned global].
      by rewrite <- app_assoc.
    + rewrite H3. unfold spawn at 1. cbn [workerPool length].
      rewrite length_app. simpl. lia.
    + by rewrite H4.
    + by rewrite H5.
    + intros _. destruct ids as [|i' ids]; [|by apply H6].
      reflexivity.
Qed.

Lemma createPool_without_Worker (nWorkersInput : Z)
    (workerScriptName : string) (p : Page R) :
  Worker_defined p = false →
  createPool nWorkersInput workerScriptName p
  = (Throw (PlainError
              "Web Worker support not available for MathWorkers."), p).
Proof.
  intros Hw. unfold createPool, checkWebWorkerSupport.
  rewrite Comp_bind_unfold. by rewrite Hw.
Qed.

Lemma createPool_with_Worker (nWorkersInput : Z)
    (workerScriptName : string) (p : Page R) :
  Worker_defined p = true →
  ∃ p',
    createPool nWorkersInput workerScriptName p = (Ok tt, p')
    ∧ spawned p'
      = spawned p
        ++ (spawned_worker nWorkersInput workerScriptName (global p)
              <$> seqZ 0 nWorkersInput)
    ∧ length (workerPool p')
      = (length (workerPool p) + Z.to_nat nWorkersInput)%nat
    ∧ (1 ≤ nWorkersInput →
       nWorkers (global p') = Z.of_nat (length (workerPool p'))).
Proof.
  intros Hw. unfold createPool, checkWebWorkerSupport.
  unfold mbind at 1, Comp_bind. rewrite Hw.
  unfold mbind at 1, Comp_bind.
  rewrite (for_fold (spawn nWorkersInput workerScriptName)) by done.
  pose proof (spawn_turns nWorkersInput workerScriptName
                (seqZ 0 (nWorkersInput - 0)) p) as Hturns.
  cbv zeta in Hturns. destruct Hturns as (_ & H2 & H3 & _ & _ & H6).
  eexists. split; [reflexivity|].
  replace (nWorkersInput - 0) with nWorkersInput in * by lia.
  rewrite length_seqZ in H3.
  repeat split; try done.
  intros Hpos. apply H6. rewrite seqZ_cons by lia. done.
Qed.

(** C9.  Without [Worker] in the runtime [createPool] throws at once,
    with the page as it was: no worker has been constructed and the
    pool has not changed.  With [Worker] it does not throw: it
    constructs one worker for every index from [0] up to
    [nWorkersInput], each with its [_init] message, and the pool grows
    by as many entries. *)
Theorem createPool_needs_Worker (nWorkersInput : Z)
    (workerScriptName : string) (p : Page R) :
  (Worker_defined p = false →
     createPool nWorkersInput workerScriptName p
     = (Throw (PlainError
                 "Web Worker support not available for MathWorkers."), p))
  ∧ (Worker_defined p = true →
     ∃ p',
       createPool nWorkersInput workerScriptName p = (Ok tt, p')
       ∧ spawned p'
         = spawned p
           ++ (spawned_worker nWorkersInput workerScriptName (global p)
                 <$> seqZ 0 nWorkersInput)
       ∧ length (workerPool p')
         = (length (workerPool p) + Z.to_nat nWorkersInput)%nat
       ∧ (1 ≤ nWorkersInput →
          nWorkers (global p') = Z.of_nat (length (workerPool p')))).
Proof.
  split; intros Hw.
  - by apply createPool_without_Worker.
  - by apply createPool_with_Worker.
Qed.

(** The constructor of the Coordinator starts with [createPool]: without
    [Worker] it throws the same error, with the page as it was. *)
Lemma Coordinator_new_without_Worker (nWorkersInput : Z)
    (workerScriptName : string) (p : Page R) :
  Worker_defined p = false →
  Coordinator_new nWorkersInput workerScriptName p
  = (Throw (PlainError
              "Web Worker support not available for MathWorkers."), p).
Proof.
  intros Hw. unfold Coordinator_new. rewrite Comp_bind_unfold.
  by rewrite createPool_without_Worker.
Qed.

(** With [Worker], and at least one worker asked for, the pool is
    created and the constructor then throws a TypeError in the first
    turn of its registration loop, on [messageDataBuffer.push]: in this
    build no Coordinator with workers is ever constructed. *)
Lemma Coordinator_new_throws (nWorkersInput : Z)
    (workerScriptName : string) (p : Page R) :
  Worker_defined p = true →
  1 ≤ nWorkersInput →
  ∃ msg p',
    Coordinator_new nWorkersInput workerScriptName p
    = (Throw (TypeError msg), p')
    ∧ length (spawned p')
      = (length (spawned p) + Z.to_nat nWorkersInput)%nat.
Proof.
  intros Hw Hn.
  destruct (createPool_with_Worker nWorkersInput workerScriptName p Hw)
    as (p1 & Hrun & Hspawned & Hpool & Hcount).
  specialize (Hcount Hn).
  assert (Hlen : length (spawned p1)
                 = (length (spawned p) + Z.to_nat nWorkersInput)%nat).
  { rewrite Hspawned, length_app, length_fmap, length_seqZ. done. }
  unfold Coordinator_new. rewrite Comp_bind_unfold, Hrun.
  rewrite Comp_bind_unfold. unfold get_state at 1.
  rewrite Comp_bind_unfold. unfold for_.
  destruct (Z.to_nat (nWorkers (global p1) - 0)) as [|fuel] eqn:Hfuel;
    [lia|].
  cbn [for_loop]. destruct (Z.ltb_spec 0 (nWorkers (global p1))); [|lia].
  rewrite Comp_bind_unfold. unfold register_worker at 1.
  destruct (getWorker 0 p1) as [ref|].
  - do 2 eexists. split; [reflexivity|].
    unfold set_onmessage. cbn [spawned]. by rewrite length_alter.
  - do 2 eexists. split; [reflexivity|done].
Qed.
End pool_creation.

(** A page without [Worker] and a page with it, asked for two workers. *)
Lemma createPool_needs_Worker_witness :
  let g := mkGlobal 1 0 false 1 in
  createPool 2 "worker.js" (mkPage false [] [] g : Page number)
  = (Throw (PlainError "Web Worker support not available for MathWorkers."),
     mkPage false [] [] g)
  ∧ ∃ p', createPool 2 "worker.js" (mkPage true [] [] g : Page number)
          = (Ok tt, p')
          ∧ spawned p'
            = [mkWorkerObj "worker.js" [MsgInit 0 2 1 false] false;
               mkWorkerObj "worker.js" [MsgInit 1 2 1 false] false].
Proof.
  intros g. split.
  - exact (proj1 (createPool_needs_Worker 2 "worker.js"
                    (mkPage false [] [] g)) eq_refl).
  - destruct (proj2 (createPool_needs_Worker 2 "worker.js"
                       (mkPage true [] [] g : Page number)) eq_refl)
      as (p' & H1 & H2 & _).
    exists p'. split; [exact H1|exact H2].
Defined.

(** One worker asked for on a page with [Worker]: the worker is
    constructed and initialised, its [onmessage] is set, and the
    constructor throws. *)
Lemma Coordinator_new_one_worker :
  let g := mkGlobal 1 0 false 1 in
  Coordinator_new 1 "worker.js" (mkPage true [] [] g : Page number)
  = (Throw (TypeError "messageDataBuffer.push is not a function"),
     mkPage true [mkWorkerObj "worker.js" [MsgInit 0 1 1 false] true]
       [0%nat] g).
Proof. reflexivity. Qed.

(** ** Fused batch operations *)

(** C6 (the code departs from it).  For [alpha = 1], [A = [[1]]],
    [x = [1]], [beta = 1], [y = [1]] and one worker, the value to ship
    for row 0 is [1 * (1 * 1) + 1 * 1 = 2]; [wkMatrixVectorPlus] ships
    NaN.  Without [beta] and [y] the value is [1 * (1 * 1) = 1], and it
    ships 0.  The inner loop runs up to [this.ncols], which is
    [undefined], so it never runs; and [y[i]] indexes the Vector object
    instead of its array. *)
Theorem wkMatrixVectorPlus_ships_wrong_values :
  let g := worker_global 1 0 false in
  let A : Matrix number := mkMatrix [[Fin 1]] 1 1 in
  let x : Vector number := mkVector (Some [Fin 1]) 1 in
  let y : Vector number := mkVector (Some [Fin 1]) 1 in
  loadBalance g (nrows A) = mkRange 0 1
  ∧ wkMatrixVectorPlus g (VNum (Fin 1)) (VMat A) (VVec x) (VStr "t") false
      (VNum (Fin 1)) (VVec y) []
    = (Ok tt, [MsgGatherVector (VStr "t") 0 false 1 0 [NaN]])
  ∧ add (mul (Fin 1) (mul (Fin 1) (Fin 1))) (mul (Fin 1) (Fin 1)) = Fin 2
  ∧ wkMatrixVectorPlus g (VNum (Fin 1)) (VMat A) (VVec x) (VStr "t") false
      VUndefined VUndefined []
    = (Ok tt, [MsgGatherVector (VStr "t") 0 false 1 0 [Fin 0]])
  ∧ mul (Fin 1) (mul (Fin 1) (Fin 1)) = Fin 1.
Proof. repeat split; vm_compute; reflexivity. Qed.

(** ** Stores into typed arrays *)

Section stores.
Context {R : Type} `{!Arith R}.

Lemma ta_set_nonneg (a : list R) (pos : Z) (x : R) :
  0 ≤ pos → ta_set a pos x = <[Z.to_nat pos := x]> a.
Proof.
  intros Hpos. unfold ta_set.
  destruct (Z.ltb_spec pos 0); [lia|done].
Qed.
End stores.

(** ** The handlers of the Coordinator *)

Section handlers.
Context {R : Type} `{!Arith R} {S : Type}.
Variable that_emit : value R → Comp S unit.
Variable that_sendDataToWorkers : Buffer R → value R → Comp S unit.
Variable that_sendVectorToWorkers : Buffer R → value R → Comp S unit.
Variable g : Global.

Local Abbreviation handler :=
  (handler_of that_emit that_sendDataToWorkers that_sendVectorToWorkers g).
Local Abbreviation run :=
  (deliver_all that_emit that_sendDataToWorkers that_sendVectorToWorkers g).
Local Abbreviation closing :=
  (close_of that_emit that_sendDataToWorkers that_sendVectorToWorkers).

(** The call on [that] returns or throws. *)
Local Ltac by_call method s :=
  cbv [mbind Comp_bind on_that on_closure close_round]; cbn [fst snd];
  destruct (method s) as [[[]|?] ?]; reflexivity.

(** The last statements of every handler: the test of the counter, the
    call on [that], the reset. *)
Lemma close_or_wait (method : Comp S unit) (c : Coordinator R) (s : S) :
  (cs ← get_state;
   if nWorkersReported cs.1 =? nWorkers g
   then on_that method;; on_closure (set_nWorkersReported 0)
   else mret tt) (c, s)
  = if nWorkersReported c =? nWorkers g
    then close_round method c s
    else (Ok tt, (c, s)).
Proof.
  rewrite Comp_bind_unfold. unfold get_state at 1. cbn [fst].
  destruct (nWorkersReported c =? nWorkers g); [|done].
  by_call method s.
Qed.

Lemma handleWorkerReady_eq (c : Coordinator R) (s : S) :
  handleWorkerReady that_emit g (c, s)
  = let c1 := set_nWorkersReported (nWorkersReported c + 1) c in
    if nWorkersReported c + 1 =? nWorkers g
    then close_round (that_emit (VStr "_ready")) (set_ready true c1) s
    else (Ok tt, (c1, s)).
Proof.
  unfold handleWorkerReady. rewrite Comp_bind_unfold.
  unfold count_report, on_closure at 1. cbn [fst snd].
  rewrite Comp_bind_unfold. unfold get_state at 1.
  cbn [fst nWorkersReported set_nWorkersReported].
  destruct (nWorkersReported c + 1 =? nWorkers g); [|done].
  by_call (that_emit (VStr "_ready")) s.
Qed.

Lemma handleSendData_eq (id : Z) (tag d : value R) (c : Coordinator R)
    (s : S) :
  handleSendData that_emit g id tag d (c, s)
  = let c1 := set_nWorkersReported (nWorkersReported c + 1)
                (set_messageData id d c) in
    if nWorkersReported c + 1 =? nWorkers g
    then close_round (that_emit tag) c1 s
    else (Ok tt, (c1, s)).
Proof.
  unfold handleSendData. rewrite Comp_bind_unfold.
  unfold on_closure at 1. cbn [fst snd].
  rewrite Comp_bind_unfold. unfold count_report, on_closure at 1.
  cbn [fst snd]. by rewrite close_or_wait.
Qed.

(** The buffer that a gather report writes into. *)
Lemma handleGatherVector_eq (tag : value R) (rebroadcast : bool)
    (len offset : Z) (part : list R) (c : Coordinator R) (s : S) :
  let b0 := if nWorkersReported c =? 0 then BufVec (Vector_new len)
            else objectBuffer c in
  handleGatherVector that_emit that_sendVectorToWorkers g tag rebroadcast
    len offset part (c, s)
  = match gather_into b0 offset part with
    | Throw e => (Throw e, (set_objectBuffer b0 c, s))
    | Ok b =>
        let c1 := mkCoordinator b (messageDataBuffer c)
                    (nWorkersReported c + 1) (ready c) in
        if nWorkersReported c + 1 =? nWorkers g
        then close_round
               (if rebroadcast then that_sendVectorToWorkers b tag
                else that_emit tag) c1 s
        else (Ok tt, (c1, s))
    end.
Proof.
  intros b0. unfold handleGatherVector.
  rewrite Comp_bind_unfold. unfold get_state at 1. cbn [fst].
  rewrite Comp_bind_unfold.
  assert (Hfirst :
    (if nWorkersReported c =? 0
     then on_closure (S:=S) (set_objectBuffer (BufVec (Vector_new len)))
     else mret tt) (c, s)
    = (Ok tt, (set_objectBuffer b0 c, s))).
  { subst b0. destruct (nWorkersReported c =? 0); [done|].
    by destruct c. }
  rewrite Hfirst. rewrite Comp_bind_unfold.
  unfold try_closure at 1. cbn [fst snd objectBuffer set_objectBuffer].
  destruct (gather_into b0 offset part) as [b|e]; cbn [mbind Result_bind];
    [|done].
  rewrite Comp_bind_unfold. unfold count_report, on_closure at 1.
  cbn [fst snd set_nWorkersReported set_objectBuffer objectBuffer
       messageDataBuffer nWorkersReported ready].
  rewrite Comp_bind_unfold. unfold get_state at 1.
  unfold set_nWorkersReported, set_objectBuffer.
  cbn [fst nWorkersReported objectBuffer messageDataBuffer ready].
  destruct (nWorkersReported c + 1 =? nWorkers g); [|done].
  destruct rebroadcast.
  - by_call (that_sendVectorToWorkers b tag) s.
  - by_call (that_emit tag) s.
Qed.

(** The reduction handlers, [merge] being [buffer_add] or
    [buffer_mul]. *)
Lemma reduction_eq (merge : Buffer R → R → Result (Buffer R))
    (tag : value R) (rebroadcast : bool) (tot : R) (c : Coordinator R)
    (s : S) :
  (cs ← get_state;
   (if nWorkersReported cs.1 =? 0
    then on_closure (set_objectBuffer (BufNum tot))
    else try_closure (λ c,
           b ← merge (objectBuffer c) tot;
           Ok (set_objectBuffer b c)));;
   count_report;;
   cs ← get_state;
   if nWorkersReported cs.1 =? nWorkers g then
     (if rebroadcast
      then on_that (that_sendDataToWorkers (objectBuffer cs.1) tag)
      else on_that (that_emit tag));;
     on_closure (set_nWorkersReported 0)
   else mret tt) (c, s)
  = match (if nWorkersReported c =? 0 then Ok (BufNum tot)
           else merge (objectBuffer c) tot) with
    | Throw e => (Throw e, (c, s))
    | Ok b =>
        let c1 := mkCoordinator b (messageDataBuffer c)
                    (nWorkersReported c + 1) (ready c) in
        if nWorkersReported c + 1 =? nWorkers g
        then close_round
               (if rebroadcast then that_sendDataToWorkers b tag
                else that_emit tag) c1 s
        else (Ok tt, (c1, s))
    end.
Proof.
  rewrite Comp_bind_unfold. unfold get_state at 1. cbn [fst].
  rewrite Comp_bind_unfold.
  assert (Hfirst :
    (if nWorkersReported c =? 0
     then on_closure (S:=S) (set_objectBuffer (BufNum tot))
     else try_closure (λ c,
            b ← merge (objectBuffer c) tot;
            Ok (set_objectBuffer b c))) (c, s)
    = match (if nWorkersReported c =? 0 then Ok (BufNum tot)
             else merge (objectBuffer c) tot) with
      | Ok b => (Ok tt, (set_objectBuffer b c, s))
      | Throw e => (Throw e, (c, s))
      end).
  { destruct (nWorkersReported c =? 0); [done|].
    unfold try_closure. cbn [fst snd].
    by destruct (merge (objectBuffer c) tot). }
  rewrite Hfirst.
  destruct (if nWorkersReported c =? 0 then Ok (BufNum tot)
            else merge (objectBuffer c) tot) as [b|e]; [|done].
  rewrite Comp_bind_unfold. unfold count_report, on_closure at 1.
  cbn [fst snd set_nWorkersReported set_objectBuffer objectBuffer
       messageDataBuffer nWorkersReported ready].
  rewrite Comp_bind_unfold. unfold get_state at 1.
  unfold set_nWorkersReported, set_objectBuffer.
  cbn [fst nWorkersReported objectBuffer messageDataBuffer ready].
  destruct (nWorkersReported c + 1 =? nWorkers g); [|done].
  destruct rebroadcast.
  - by_call (that_sendDataToWorkers b tag) s.
  - by_call (that_emit tag) s.
Qed.

Lemma handleVectorSum_eq (tag : value R) (rebroadcast : bool) (tot : R)
    (c : Coordinator R) (s : S) :
  handleVectorSum that_emit that_sendDataToWorkers g tag rebroadcast tot
    (c, s)
  = match (if nWorkersReported c =? 0 then Ok (BufNum tot)
           else buffer_add (objectBuffer c) tot) with
    | Throw e => (Throw e, (c, s))
    | Ok b =>
        let c1 := mkCoordinator b (messageDataBuffer c)
                    (nWorkersReported c + 1) (ready c) in
        if nWorkersReported c + 1 =? nWorkers g
        then close_round
               (if rebroadcast then that_sendDataToWorkers b tag
                else that_emit tag) c1 s
        else (Ok tt, (c1, s))
    end.
Proof. apply (reduction_eq buffer_add). Qed.

Lemma handleVectorProduct_eq (tag : value R) (rebroadcast : bool) (tot : R)
    (c : Coordinator R) (s : S) :
  handleVectorProduct that_emit that_sendDataToWorkers g tag rebroadcast tot
    (c, s)
  = match (if nWorkersReported c =? 0 then Ok (BufNum tot)
           else buffer_mul (objectBuffer c) tot) with
    | Throw e => (Throw e, (c, s))
    | Ok b =>
        let c1 := mkCoordinator b (messageDataBuffer c)
                    (nWorkersReported c + 1) (ready c) in
        if nWorkersReported c + 1 =? nWorkers g
        then close_round
               (if rebroadcast then that_sendDataToWorkers b tag
                else that_emit tag) c1 s
        else (Ok tt, (c1, s))
    end.
Proof. apply (reduction_eq buffer_mul). Qed.

Lemma deliver_all_app (ms1 ms2 : list (Message R))
    (cs : Coordinator R * S) :
  run (ms1 ++ ms2) cs
  = '(rs1, cs1) ← run ms1 cs;
    '(rs2, cs2) ← run ms2 cs1;
    Some (rs1 ++ rs2, cs2).
Proof.
  revert cs. induction ms1 as [|m ms1 IH]; intros cs; simpl.
  - by destruct (run ms2 cs) as [[rs2 cs2]|].
  - destruct (handler m) as [h|]; [|done]. simpl. rewrite IH.
    destruct (run ms1 (h cs).2) as [[rs1 cs1]|]; [|done]. simpl.
    by destruct (run ms2 cs1) as [[rs2 cs2]|].
Qed.

(** *** Rounds *)

(** A round of reports [mk x] whose handler merges [x] into
    [objectBuffer], counts, and closes at [nWorkers]: if every step
    keeps an invariant [Inv] of the payloads merged so far, then the
    reports before the last return without a call on [that], and the
    handler of the last makes the call that closes the round, once, on
    the variables that hold the invariant of all the payloads. *)
Section round.
Context {X : Type}.
Variable mk : X → Message R.
Variable Good : X → Prop.
Variable Inv : list X → Buffer R → Prop.

Hypothesis Hstep : ∀ done x c s,
  Good x →
  Inv done (objectBuffer c) →
  nWorkersReported c = Z.of_nat (length done) →
  ∃ h c1,
    handler (mk x) = Some h
    ∧ Inv (done ++ [x]) (objectBuffer c1)
    ∧ nWorkersReported c1 = Z.of_nat (length done) + 1
    ∧ h (c, s)
      = if Z.of_nat (length done) + 1 =? nWorkers g
        then close_round (closing (mk x) (objectBuffer c1)) c1 s
        else (Ok tt, (c1, s)).

Lemma round_pending (rest done : list X) (c : Coordinator R) (s : S) :
  Forall Good rest →
  Inv done (objectBuffer c) →
  nWorkersReported c = Z.of_nat (length done) →
  Z.of_nat (length done) + Z.of_nat (length rest) < nWorkers g →
  ∃ c',
    run (mk <$> rest) (c, s)
    = Some (replicate (length rest) (Ok tt), (c', s))
    ∧ Inv (done ++ rest) (objectBuffer c')
    ∧ nWorkersReported c'
      = Z.of_nat (length done) + Z.of_nat (length rest).
Proof.
  revert done c. induction rest as [|x rest IH]; intros done c Hg Hi Hc Hlt.
  - exists c. rewrite app_nil_r. split; [done|]. split; [done|].
    simpl. lia.
  - apply Forall_cons in Hg as [Hx Hg]. simpl in Hlt.
    destruct (Hstep done x c s Hx Hi Hc) as (h & c1 & Hh & Hi1 & Hc1 & Hrun).
    destruct (Z.eqb_spec (Z.of_nat (length done) + 1) (nWorkers g)); [lia|].
    destruct (IH (done ++ [x]) c1) as (c' & Hrest & Hi' & Hc'); try done.
    { rewrite length_app. simpl. lia. }
    { rewrite length_app. simpl. lia. }
    exists c'. rewrite <- app_assoc in Hi'. split; [|split; [done|]].
    + cbn [fmap list_fmap deliver_all]. rewrite Hh. cbn [mbind option_bind].
      rewrite Hrun. cbn [fst snd]. rewrite Hrest. done.
    + rewrite Hc', length_app. simpl. lia.
Qed.

Lemma round_closes (xs : list X) (x : X) (c : Coordinator R) (s : S) :
  Forall Good (xs ++ [x]) →
  Inv [] (objectBuffer c) →
  nWorkersReported c = 0 →
  Z.of_nat (length xs) + 1 = nWorkers g →
  ∃ h c1 c2,
    run (mk <$> xs) (c, s) = Some (replicate (length xs) (Ok tt), (c1, s))
    ∧ nWorkersReported c1 = Z.of_nat (length xs)
    ∧ handler (mk x) = Some h
    ∧ h (c1, s) = close_round (closing (mk x) (objectBuffer c2)) c2 s
    ∧ Inv (xs ++ [x]) (objectBuffer c2)
    ∧ nWorkersReported c2 = nWorkers g.
Proof.
  intros Hg Hi Hc Hlen.
  rewrite Forall_app, Forall_singleton in Hg. destruct Hg as [Hxs Hx].
  destruct (round_pending xs [] c s) as (c1 & Hrun & Hi1 & Hc1); try done.
  { simpl. lia. }
  simpl in Hi1, Hc1.
  destruct (Hstep xs x c1 s Hx Hi1 Hc1) as (h & c2 & Hh & Hi2 & Hc2 & Hlast).
  destruct (Z.eqb_spec (Z.of_nat (length xs) + 1) (nWorkers g)); [|lia].
  exists h, c1, c2. repeat split; try done. lia.
Qed.
End round.
End handlers.

(** ** The barrier of the Coordinator *)

Section barrier.
Context {R : Type} `{!Arith R} {S : Type}.
Variable that_emit : value R → Comp S unit.
Variable that_sendDataToWorkers : Buffer R → value R → Comp S unit.
Variable that_sendVectorToWorkers : Buffer R → value R → Comp S unit.
Variable g : Global.

Local Abbreviation handler :=
  (handler_of that_emit that_sendDataToWorkers that_sendVectorToWorkers g).
Local Abbreviation run :=
  (deliver_all that_emit that_sendDataToWorkers that_sendVectorToWorkers g).
Local Abbreviation closing :=
  (close_of that_emit that_sendDataToWorkers that_sendVectorToWorkers).

(** The buffer that the handlers of the handle [h] find after the first
    report of a round of reports of that handle: a Vector with an array
    in a gather, a number in a reduction. *)
Local Abbreviation suits h b :=
  ((h = "_gatherVector" → ∃ a n, b = BufVec (mkVector (Some a) n))
   ∧ (h = "_vectorSum" ∨ h = "_vectorProduct" → ∃ r : R, b = BufNum r)).

Lemma gather_into_array (a : list R) (n offset : Z) (part : list R) :
  gather_into (BufVec (mkVector (Some a) n)) offset part
  = Ok (BufVec (mkVector (Some (write_from a offset part)) n)).
Proof. by destruct part. Qed.

(** What a report does in a round of reports of its handle: its handler
    reaches the count, and closes the round at [nWorkers]. *)
Lemma report_step (h : string) (done : list (Message R))
    (m : Message R) (c : Coordinator R) (s : S) :
  handle_of m = h ∧ countable m →
  done = [] ∨ suits h (objectBuffer c) →
  nWorkersReported c = Z.of_nat (length done) →
  ∃ hm c1,
    handler m = Some hm
    ∧ (done ++ [m] = [] ∨ suits h (objectBuffer c1))
    ∧ nWorkersReported c1 = Z.of_nat (length done) + 1
    ∧ hm (c, s)
      = if Z.of_nat (length done) + 1 =? nWorkers g
        then close_round (closing m (objectBuffer c1)) c1 s
        else (Ok tt, (c1, s)).
Proof.
  intros [Hh Hm] Hinv Hc.
  assert (Hfirst : nWorkersReported c ≠ 0 → suits h (objectBuffer c)).
  { intros Hne. destruct Hinv as [->|Hs]; [simpl in Hc; lia|done]. }
  destruct m; simpl in Hm; try done; simpl in Hh; subst h;
    cbn [handler_of close_of].
  - (* _workerReady *)
    eexists _, (if Z.of_nat (length done) + 1 =? nWorkers g
                then set_ready true
                       (set_nWorkersReported (nWorkersReported c + 1) c)
                else set_nWorkersReported (nWorkersReported c + 1) c).
    split; [done|]. rewrite handleWorkerReady_eq, Hc. cbv zeta.
    destruct (Z.of_nat (length done) + 1 =? nWorkers g);
      (split; [right; by split; [intros [=]|intros [[=]|[=]]]|]);
      by rewrite <- Hc.
  - (* _sendData *)
    eexists _, (set_nWorkersReported (nWorkersReported c + 1)
                  (set_messageData id data c)).
    split; [done|]. rewrite handleSendData_eq, Hc. cbv zeta.
    split; [right; by split; [intros [=]|intros [[=]|[=]]]|].
    split; [simpl; lia|]. by rewrite <- Hc.
  - (* _gatherVector *)
    assert (Hb0 : ∃ a n,
      (if nWorkersReported c =? 0 then BufVec (Vector_new len)
       else objectBuffer c) = BufVec (mkVector (Some a) n)).
    { destruct (Z.eqb_spec (nWorkersReported c) 0) as [_|Hne].
      - unfold Vector_new. destruct (Z.ltb_spec 0 len); [eauto|lia].
      - by apply (proj1 (Hfirst Hne)). }
    destruct Hb0 as (a & n & Hb0).
    eexists _, (mkCoordinator
                  (BufVec (mkVector (Some (write_from a offset vectorPart))
                             n))
                  (messageDataBuffer c) (nWorkersReported c + 1) (ready c)).
    split; [done|]. rewrite handleGatherVector_eq. cbv zeta.
    rewrite Hb0, gather_into_array, Hc.
    split; [right; split; [eauto|intros [[=]|[=]]]|].
    split; [simpl; lia|done].
  - (* _vectorSum *)
    assert (Hb : ∃ r,
      (if nWorkersReported c =? 0 then Ok (BufNum tot)
       else buffer_add (objectBuffer c) tot) = Ok (BufNum r)).
    { destruct (Z.eqb_spec (nWorkersReported c) 0) as [_|Hne]; [eauto|].
      destruct (proj2 (Hfirst Hne)) as [r ->]; [by left|].
      simpl. eauto. }
    destruct Hb as (r & Hb).
    eexists _, (mkCoordinator (BufNum r) (messageDataBuffer c)
                  (nWorkersReported c + 1) (ready c)).
    split; [done|]. rewrite handleVectorSum_eq, Hb, Hc. cbv zeta.
    split; [right; split; [intros [=]|eauto]|].
    split; [simpl; lia|done].
  - (* _vectorProduct *)
    assert (Hb : ∃ r,
      (if nWorkersReported c =? 0 then Ok (BufNum tot)
       else buffer_mul (objectBuffer c) tot) = Ok (BufNum r)).
    { destruct (Z.eqb_spec (nWorkersReported c) 0) as [_|Hne]; [eauto|].
      destruct (proj2 (Hfirst Hne)) as [r ->]; [by right|].
      simpl. eauto. }
    destruct Hb as (r & Hb).
    eexists _, (mkCoordinator (BufNum r) (messageDataBuffer c)
                  (nWorkersReported c + 1) (ready c)).
    split; [done|]. rewrite handleVectorProduct_eq, Hb, Hc. cbv zeta.
    split; [right; split; [intros [=]|eauto]|].
    split; [simpl; lia|done].
Qed.

(** The call that closes a round under [tag] is made under [tag]. *)
Lemma close_of_tag (m : Message R) (tag : value R) (b : Buffer R) :
  report_tag m = Some tag →
  closing m b = that_emit tag
  ∨ closing m b = that_sendDataToWorkers b tag
  ∨ closing m b = that_sendVectorToWorkers b tag.
Proof.
  destruct m; simpl; intros [= <-]; try (by left);
    destruct rebroadcast; auto.
Qed.

(** A round that starts with the counter at 0.  The first [N - 1]
    reports return without any call on [that], and the counter is [j]
    after the [j]-th.  The handler of the [N]-th makes the call that
    closes the round, once, and that call decides how the handler
    ends. *)
Lemma round_closes_once (h : string) (tag : value R)
    (round : list (Message R)) (last : Message R) (c : Coordinator R)
    (s : S) :
  nWorkersReported c = 0 →
  Z.of_nat (length round) + 1 = nWorkers g →
  Forall (λ m, handle_of m = h ∧ report_tag m = Some tag ∧ countable m)
    (round ++ [last]) →
  (∀ j, (j ≤ length round)%nat →
     ∃ cj, run (take j round) (c, s) = Some (replicate j (Ok tt), (cj, s))
           ∧ nWorkersReported cj = Z.of_nat j)
  ∧ ∃ hl c1 c2,
      run round (c, s) = Some (replicate (length round) (Ok tt), (c1, s))
      ∧ handler last = Some hl
      ∧ nWorkersReported c2 = nWorkers g
      ∧ hl (c1, s) = close_round (closing last (objectBuffer c2)) c2 s
      ∧ (closing last (objectBuffer c2) = that_emit tag
         ∨ closing last (objectBuffer c2)
           = that_sendDataToWorkers (objectBuffer c2) tag
         ∨ closing last (objectBuffer c2)
           = that_sendVectorToWorkers (objectBuffer c2) tag)
      ∧ nWorkersReported (hl (c1, s)).2.1
        = (if is_ok (hl (c1, s)).1 then 0 else nWorkers g).
Proof.
  intros Hc HN Hround.
  set (Good := λ m : Message R, handle_of m = h ∧ countable m).
  set (Inv := λ (done : list (Message R)) (b : Buffer R),
                done = [] ∨ suits h b).
  assert (Hstep : ∀ done x c s,
    Good x → Inv done (objectBuffer c) →
    nWorkersReported c = Z.of_nat (length done) →
    ∃ hx c1,
      handler ((λ m, m) x) = Some hx
      ∧ Inv (done ++ [x]) (objectBuffer c1)
      ∧ nWorkersReported c1 = Z.of_nat (length done) + 1
      ∧ hx (c, s)
        = if Z.of_nat (length done) + 1 =? nWorkers g
          then close_round (closing ((λ m, m) x) (objectBuffer c1)) c1 s
          else (Ok tt, (c1, s))).
  { intros done x c0 s0 Hx Hi Hc0. by apply report_step. }
  assert (Hgood : Forall Good (round ++ [last])).
  { eapply Forall_impl; [exact Hround|]. by intros m (? & _ & ?). }
  split.
  - intros j Hj.
    destruct (round_pending that_emit that_sendDataToWorkers
                that_sendVectorToWorkers g (λ m, m) Good Inv Hstep
                (take j round) [] c s) as (cj & Hrun & _ & Hcj).
    + apply Forall_take. by apply Forall_app in Hgood as [? _].
    + by left.
    + done.
    + rewrite length_take. simpl. lia.
    + exists cj. rewrite list_fmap_id, length_take in Hrun.
      rewrite length_take in Hcj. simpl in Hcj.
      replace (j `min` length round)%nat with j in * by lia.
      split; [done|lia].
  - destruct (round_closes that_emit that_sendDataToWorkers
                that_sendVectorToWorkers g (λ m, m) Good Inv Hstep
                round last c s) as (hl & c1 & c2 & Hrun & _ & Hh & Hlast
                                    & _ & Hc2); try done.
    { by left. }
    rewrite list_fmap_id in Hrun.
    exists hl, c1, c2. repeat split; try done.
    + apply close_of_tag.
      rewrite Forall_app, Forall_singleton in Hround.
      by destruct Hround as [_ (_ & ? & _)].
    + rewrite Hlast. unfold close_round. cbn [fst snd].
      by destruct (is_ok _).
Qed.

(** Rounds whose handlers have all returned leave the counter at 0. *)
Lemma rounds_leave_zero (earlier : list (list (Message R))) :
  1 ≤ nWorkers g →
  Forall (report_round g) earlier →
  ∀ (c0 : Coordinator R) (s0 : S) (rs : list (Result unit))
    (c : Coordinator R) (s : S),
    nWorkersReported c0 = 0 →
    run (concat earlier) (c0, s0) = Some (rs, (c, s)) →
    Forall (λ r, is_ok r = true) rs →
    nWorkersReported c = 0.
Proof.
  intros HN. induction 1 as [|e rest [Hlen (h & tag & He)] _ IH];
    intros c0 s0 rs c s Hc0 Hrun Hok.
  - simpl in Hrun. by injection Hrun as <- <- <-.
  - destruct (decide (e = [])) as [->|Hne]; [simpl in Hlen; lia|].
    rewrite (app_removelast_last (MsgWorkerReady : Message R) Hne)
      in Hlen, He, Hrun.
    set (xs := removelast e) in *.
    set (x := List.last e MsgWorkerReady) in *.
    rewrite length_app in Hlen. simpl in Hlen.
    destruct (round_closes_once h tag xs x c0 s0 Hc0 ltac:(lia) He)
      as (_ & hl & c1 & c2 & Hxs & Hh & _ & _ & _ & Hcount).
    cbn [concat] in Hrun. rewrite <- !app_assoc in Hrun.
    rewrite deliver_all_app, Hxs in Hrun. cbn [mbind option_bind] in Hrun.
    cbn [app deliver_all] in Hrun. rewrite Hh in Hrun.
    cbn [mbind option_bind] in Hrun.
    destruct (run (concat rest) (hl (c1, s0)).2) as [[rs' cs']|] eqn:Hrest;
      [|done].
    cbn [mbind option_bind] in Hrun. injection Hrun as <- ->.
    rewrite Forall_app, Forall_cons in Hok.
    destruct Hok as (_ & Hlast & Hok').
    rewrite Hlast in Hcount.
    destruct (hl (c1, s0)) as [r [c1' s1']]. cbn [fst snd] in *.
    by apply (IH c1' s1' rs' c s).
Qed.

End barrier.



(** ** Reduction *)

Section reduction_algebra.
Context {R : Type} `{!Arith R}.

(** A left fold of an associative and commutative operator does not
    depend on the order of the list. *)
Lemma foldl_permutation (op : R → R → R)
    `{!Assoc (=) op} `{!Comm (=) op} (l l' : list R) :
  l ≡ₚ l' → ∀ a, foldl op a l = foldl op a l'.
Proof.
  induction 1 as [|x l l' _ IH|x y l|l1 l2 l3 _ IH1 _ IH2]; intros a; simpl.
  - done.
  - apply IH.
  - f_equal. rewrite <- !(assoc_L op). f_equal. apply (comm_L op).
  - by rewrite IH1.
Qed.

Lemma foldl_op_middle (op : R → R → R)
    `{!Assoc (=) op} `{!Comm (=) op} (a x : R) (l1 l2 : list R) :
  foldl op a (l1 ++ x :: l2) = foldl op x (a :: l1 ++ l2).
Proof.
  rewrite (foldl_permutation op (l1 ++ x :: l2) (x :: l1 ++ l2))
    by (by rewrite Permutation_middle).
  simpl. f_equal. apply (comm_L op).
Qed.

(** The serial combination does not depend on the order either, the
    first element included. *)
Lemma serial_reduce_permutation (op : R → R → R)
    `{!Assoc (=) op} `{!Comm (=) op} (u : R) (l l' : list R) :
  l ≡ₚ l' → serial_reduce op u l = serial_reduce op u l'.
Proof.
  intros Hperm. destruct l as [|a l].
  - apply Permutation_nil_l in Hperm. by subst.
  - destruct (Permutation_cons_inv_l _ _ _ Hperm) as (k1 & k2 & -> & Hl).
    destruct k1 as [|a' k1]; simpl in *.
    + by apply foldl_permutation.
    + rewrite (foldl_permutation op _ _ Hl).
      symmetry. apply (foldl_op_middle op).
Qed.

Lemma serial_reduce_snoc (op : R → R → R) (u : R) (l : list R) (x : R) :
  l ≠ [] →
  serial_reduce op u (l ++ [x]) = op (serial_reduce op u l) x.
Proof. destruct l as [|a l]; [done|]. intros _. simpl. apply foldl_snoc. Qed.
End reduction_algebra.

Section reduction.
Context {R : Type} `{!Arith R} {S : Type}.
Variable that_emit : value R → Comp S unit.
Variable that_sendDataToWorkers : Buffer R → value R → Comp S unit.
Variable that_sendVectorToWorkers : Buffer R → value R → Comp S unit.
Variable g : Global.

Local Abbreviation handler :=
  (handler_of that_emit that_sendDataToWorkers that_sendVectorToWorkers g).
Local Abbreviation run :=
  (deliver_all that_emit that_sendDataToWorkers that_sendVectorToWorkers g).
Local Abbreviation closing :=
  (close_of that_emit that_sendDataToWorkers that_sendVectorToWorkers).

(** One report of a round of sums: the buffer holds the serial sum of
    the partials that have arrived. *)
Lemma handleVectorSum_step (tag : value R) (rebroadcast : bool)
    (done : list R) (x : R) (c : Coordinator R) (s : S) :
  True →
  reduced add zero done (objectBuffer c) →
  nWorkersReported c = Z.of_nat (length done) →
  ∃ h c1,
    handler (MsgVectorSum tag rebroadcast x) = Some h
    ∧ reduced add zero (done ++ [x]) (objectBuffer c1)
    ∧ nWorkersReported c1 = Z.of_nat (length done) + 1
    ∧ h (c, s)
      = if Z.of_nat (length done) + 1 =? nWorkers g
        then close_round
               (closing (MsgVectorSum tag rebroadcast x) (objectBuffer c1))
               c1 s
        else (Ok tt, (c1, s)).
Proof.
  intros _ Hred Hc.
  eexists _, (mkCoordinator (BufNum (serial_reduce add zero (done ++ [x])))
                (messageDataBuffer c) (nWorkersReported c + 1) (ready c)).
  split; [done|]. split; [by right|]. split; [simpl; lia|].
  rewrite handleVectorSum_eq, Hc.
  destruct done as [|a done].
  - reflexivity.
  - destruct Hred as [? | ->]; [done|].
    rewrite serial_reduce_snoc by discriminate.
    destruct (Z.eqb_spec (Z.of_nat (length (a :: done))) 0) as [H0|_];
      [simpl in H0; lia|].
    reflexivity.
Qed.

Lemma handleVectorProduct_step (tag : value R) (rebroadcast : bool)
    (done : list R) (x : R) (c : Coordinator R) (s : S) :
  True →
  reduced mul one done (objectBuffer c) →
  nWorkersReported c = Z.of_nat (length done) →
  ∃ h c1,
    handler (MsgVectorProduct tag rebroadcast x) = Some h
    ∧ reduced mul one (done ++ [x]) (objectBuffer c1)
    ∧ nWorkersReported c1 = Z.of_nat (length done) + 1
    ∧ h (c, s)
      = if Z.of_nat (length done) + 1 =? nWorkers g
        then close_round
               (closing (MsgVectorProduct tag rebroadcast x)
                  (objectBuffer c1))
               c1 s
        else (Ok tt, (c1, s)).
Proof.
  intros _ Hred Hc.
  eexists _, (mkCoordinator (BufNum (serial_reduce mul one (done ++ [x])))
                (messageDataBuffer c) (nWorkersReported c + 1) (ready c)).
  split; [done|]. split; [by right|]. split; [simpl; lia|].
  rewrite handleVectorProduct_eq, Hc.
  destruct done as [|a done].
  - reflexivity.
  - destruct Hred as [? | ->]; [done|].
    rewrite serial_reduce_snoc by discriminate.
    destruct (Z.eqb_spec (Z.of_nat (length (a :: done))) 0) as [H0|_];
      [simpl in H0; lia|].
    reflexivity.
Qed.

(** A round of reports [mk x], one for each partial in [arrival],
    reduces them serially in their order of arrival: the reports before
    the last return, and the last closes the round on the buffer that
    holds the reduction, which is there whether the call that closes
    returns or throws. *)
Lemma reduction_round (mk : R → Message R) (op : R → R → R) (u : R)
    (arrival : list R) (c : Coordinator R) (s : S) :
  (∀ done x c s,
     True →
     reduced op u done (objectBuffer c) →
     nWorkersReported c = Z.of_nat (length done) →
     ∃ h c1,
       handler (mk x) = Some h
       ∧ reduced op u (done ++ [x]) (objectBuffer c1)
       ∧ nWorkersReported c1 = Z.of_nat (length done) + 1
       ∧ h (c, s)
         = if Z.of_nat (length done) + 1 =? nWorkers g
           then close_round (closing (mk x) (objectBuffer c1)) c1 s
           else (Ok tt, (c1, s))) →
  (1 ≤ length arrival)%nat →
  Z.of_nat (length arrival) = nWorkers g →
  nWorkersReported c = 0 →
  ∃ r c' s',
    run (mk <$> arrival) (c, s)
    = Some (replicate (length arrival - 1) (Ok tt) ++ [r], (c', s'))
    ∧ objectBuffer c' = BufNum (serial_reduce op u arrival)
    ∧ nWorkersReported c' = (if is_ok r then 0 else nWorkers g).
Proof.
  intros Hstep Hne Hlen Hc.
  destruct arrival as [|x xs _] using rev_ind; [simpl in Hne; lia|].
  rewrite length_app in *. simpl in Hlen.
  destruct (round_closes that_emit that_sendDataToWorkers
              that_sendVectorToWorkers g mk (λ _, True) (reduced op u)
              Hstep xs x c s)
    as (h & c1 & c2 & Hrun & _ & Hh & Hlast & Hred & Hc2); try done.
  - by apply Forall_true.
  - by left.
  - lia.
  - destruct Hred as [Hnil | Hb]; [by destruct xs|].
    exists (h (c1, s)).1, (h (c1, s)).2.1, (h (c1, s)).2.2.
    rewrite fmap_app, deliver_all_app, Hrun.
    cbn [mbind option_bind fmap list_fmap deliver_all]. rewrite Hh.
    cbn [mbind option_bind]. split; [|split].
    + replace (length xs + length [x] - 1)%nat with (length xs)
        by (simpl; lia).
      by destruct (h (c1, s)) as [r [c' s']].
    + rewrite Hlast. unfold close_round. cbn [fst snd].
      by destruct (is_ok _).
    + rewrite Hlast. unfold close_round. cbn [fst snd].
      by destruct (is_ok _).
Qed.

End reduction.

(** The arithmetic of [number] is associative and commutative. *)
#[export] Instance number_add_assoc : Assoc (=) (add (R:=number)).
Proof. intros [x|] [y|] [z|]; simpl; f_equal; lia. Qed.
#[export] Instance number_add_comm : Comm (=) (add (R:=number)).
Proof. intros [x|] [y|]; simpl; f_equal; lia. Qed.
#[export] Instance number_mul_assoc : Assoc (=) (mul (R:=number)).
Proof. intros [x|] [y|] [z|]; simpl; f_equal; lia. Qed.
#[export] Instance number_mul_comm : Comm (=) (mul (R:=number)).
Proof. intros [x|] [y|]; simpl; f_equal; lia. Qed.



(** ** Gathering a vector *)

Section gather_reports.
Context {R : Type} `{!Arith R}.

(** Writing a slice of [T] at its offset makes the buffer agree with
    [T] on the indices written, and keeps the agreement elsewhere. *)
Lemma write_from_agree (T part : list R) :
  ∀ (a : list R) (pos : Z) (P : nat → Prop),
    0 ≤ pos →
    length a = length T →
    (∀ j, P j → a !! j = T !! j) →
    (∀ (t : nat) x, part !! t = Some x →
                    T !! (Z.to_nat pos + t)%nat = Some x) →
    length (write_from a pos part) = length T
    ∧ ∀ j, P j ∨ (Z.to_nat pos ≤ j < Z.to_nat pos + length part)%nat →
           write_from a pos part !! j = T !! j.
Proof.
  induction part as [|x rest IH]; intros a pos P Hpos Hlen Hagree Hpart.
  - simpl. split; [done|]. intros j [Hj|Hj]; [by apply Hagree|lia].
  - simpl.
    assert (Hx : T !! Z.to_nat pos = Some x).
    { rewrite <- (Nat.add_0_r (Z.to_nat pos)). by apply Hpart. }
    assert (Hin : (Z.to_nat pos < length a)%nat).
    { rewrite Hlen. by eapply lookup_lt_Some. }
    destruct (IH (ta_set a pos x) (pos + 1)
                (λ j, P j ∨ j = Z.to_nat pos)) as [Hlen' Hagree'].
    + lia.
    + rewrite ta_set_nonneg by done. by rewrite length_insert.
    + intros j Hj. rewrite ta_set_nonneg by done.
      destruct (decide (j = Z.to_nat pos)) as [->|Hne].
      * by rewrite list_lookup_insert_eq.
      * rewrite list_lookup_insert_ne by done.
        destruct Hj as [Hj|Hj]; [by apply Hagree|done].
    + intros t y Hy.
      replace (Z.to_nat (pos + 1) + t)%nat with (Z.to_nat pos + S t)%nat
        by lia.
      by apply Hpart.
    + split; [done|]. intros j Hj. apply Hagree'.
      destruct Hj as [Hj|Hj]; [by left; left|].
      destruct (decide (j = Z.to_nat pos)); [by left; right|].
      right. lia.
Qed.

Lemma covered_snoc (done : list (Message R)) (m : Message R) (j : nat) :
  (∃ m', m' ∈ done ++ [m] ∧ covers m' j)
  ↔ (∃ m', m' ∈ done ∧ covers m' j) ∨ covers m j.
Proof.
  split.
  - intros (m' & Hin & Hc). apply elem_of_app in Hin as [Hin|Hin].
    + left. eauto.
    + apply list_elem_of_singleton in Hin as ->. by right.
  - intros [(m' & Hin & Hc)|Hc].
    + exists m'. split; [|done]. apply elem_of_app. by left.
    + exists m. split; [|done]. apply elem_of_app. right.
      by apply list_elem_of_singleton.
Qed.

(** The reports of a gather round are slices of the concatenation, and
    together they write every index of it. *)
Lemma gather_reports_slices (tag : value R) (rebroadcast : bool)
    (slices : list (list R)) :
  ∀ (pre : list R) (id : Z),
    Forall (slice_report (pre ++ concat slices) tag rebroadcast)
      (gather_reports tag rebroadcast
         (Z.of_nat (length (pre ++ concat slices))) id
         (Z.of_nat (length pre)) slices).
Proof.
  induction slices as [|part rest IH]; intros pre id; simpl.
  - constructor.
  - constructor.
    + exists id, (Z.of_nat (length pre)), part.
      split; [done|]. split; [lia|].
      intros t x Hx. rewrite Nat2Z.id.
      rewrite lookup_app_r by lia.
      replace (length pre + t - length pre)%nat with t by lia.
      rewrite lookup_app_l by (by eapply lookup_lt_Some). done.
    + specialize (IH (pre ++ part) (id + 1)).
      rewrite <- app_assoc in IH. rewrite (length_app pre part) in IH.
      by rewrite Nat2Z.inj_add in IH.
Qed.

Lemma gather_reports_cover (tag : value R) (rebroadcast : bool) (n : Z)
    (slices : list (list R)) :
  ∀ (pre : list R) (id : Z) (j : nat),
    (length pre ≤ j < length pre + length (concat slices))%nat →
    ∃ m, m ∈ gather_reports tag rebroadcast n id (Z.of_nat (length pre))
               slices
         ∧ covers m j.
Proof.
  induction slices as [|part rest IH]; intros pre id j Hj; simpl in *.
  - lia.
  - rewrite length_app in Hj.
    destruct (decide (j < length pre + length part)%nat) as [Hlt|Hge].
    + eexists. split; [apply elem_of_cons; by left|].
      simpl. rewrite Nat2Z.id. lia.
    + destruct (IH (pre ++ part) (id + 1) j) as (m & Hin & Hc).
      { rewrite length_app. lia. }
      exists m. split; [|done]. apply elem_of_cons. right.
      rewrite length_app, Nat2Z.inj_add in Hin. done.
Qed.

Lemma gather_reports_length (tag : value R) (rebroadcast : bool) (n : Z)
    (slices : list (list R)) :
  ∀ id offset,
    length (gather_reports tag rebroadcast n id offset slices)
    = length slices.
Proof.
  induction slices as [|part rest IH]; intros id offset; simpl; [done|].
  by rewrite IH.
Qed.

Lemma slice_lookup (v : list R) (r : Range) (t : nat) x :
  0 ≤ ifrom r →
  slice v r !! t = Some x →
  v !! (Z.to_nat (ifrom r) + t)%nat = Some x.
Proof.
  intros Hr. unfold slice. intros Hx.
  apply lookup_take_Some in Hx as [Hx _].
  by rewrite lookup_drop in Hx.
Qed.

Lemma slice_length (v : list R) (r : Range) :
  0 ≤ ifrom r ≤ ito r → ito r ≤ Z.of_nat (length v) →
  length (slice v r) = Z.to_nat (range_len r).
Proof.
  intros Hr Hv. unfold slice, range_len.
  rewrite length_take, length_drop. lia.
Qed.

(** What a worker posts when it gathers its slice of [v]. *)
Lemma gatherVector_posts_report (k id : Z) (v : list R) (tag : value R)
    (rebroadcast : bool) (out : list (Message R)) :
  let wg := worker_global k id false in
  let lb := loadBalance wg (Z.of_nat (length v)) in
  gatherVector wg (slice v lb) (Z.of_nat (length v)) (ifrom lb) tag
    rebroadcast out
  = (Ok tt, out ++ [worker_gather_report k v tag rebroadcast id]).
Proof. reflexivity. Qed.

End gather_reports.

Section gather.
Context {R : Type} `{!Arith R} {S : Type}.
Variable that_emit : value R → Comp S unit.
Variable that_sendDataToWorkers : Buffer R → value R → Comp S unit.
Variable that_sendVectorToWorkers : Buffer R → value R → Comp S unit.
Variable g : Global.

Local Abbreviation handler :=
  (handler_of that_emit that_sendDataToWorkers that_sendVectorToWorkers g).
Local Abbreviation run :=
  (deliver_all that_emit that_sendDataToWorkers that_sendVectorToWorkers g).
Local Abbreviation closing :=
  (close_of that_emit that_sendDataToWorkers that_sendVectorToWorkers).

(** One report of a gather round. *)
Lemma handleGatherVector_step (T : list R) (tag : value R)
    (rebroadcast : bool) (done : list (Message R)) (m : Message R)
    (c : Coordinator R) (s : S) :
  (1 ≤ length T)%nat →
  slice_report T tag rebroadcast m →
  gathered T done (objectBuffer c) →
  nWorkersReported c = Z.of_nat (length done) →
  ∃ h c1,
    handler m = Some h
    ∧ gathered T (done ++ [m]) (objectBuffer c1)
    ∧ nWorkersReported c1 = Z.of_nat (length done) + 1
    ∧ h (c, s)
      = if Z.of_nat (length done) + 1 =? nWorkers g
        then close_round (closing m (objectBuffer c1)) c1 s
        else (Ok tt, (c1, s)).
Proof.
  intros HT (id & offset & part & -> & Hoff & Hpart) Hgath Hc.
  set (n := Z.of_nat (length T)).
  assert (Hstart : ∃ a (P : nat → Prop),
    (if nWorkersReported c =? 0 then BufVec (Vector_new n)
     else objectBuffer c) = BufVec (mkVector (Some a) n)
    ∧ length a = length T
    ∧ (∀ j, P j → a !! j = T !! j)
    ∧ (∀ j, (∃ m', m' ∈ done ∧ covers m' j) → P j)).
  { rewrite Hc. destruct done as [|m0 done].
    - exists (replicate (Z.to_nat n) zero), (λ _, False). simpl.
      unfold Vector_new. destruct (Z.ltb_spec 0 n); [|lia].
      split; [done|]. split; [rewrite length_replicate; lia|].
      split; [done|]. intros j (m' & Hin & _). by apply elem_of_nil in Hin.
    - destruct Hgath as [|(a & -> & Hlen & Hagree)]; [done|].
      exists a, (λ j, ∃ m', m' ∈ m0 :: done ∧ covers m' j).
      destruct (Z.eqb_spec (Z.of_nat (length (m0 :: done))) 0) as [H0|_];
        [simpl in H0; lia|].
      done. }
  destruct Hstart as (a & P & Hb0 & Hlen & Hagree & HP).
  destruct (write_from_agree T part a offset P Hoff Hlen Hagree Hpart)
    as [Hlen' Hagree'].
  eexists _, (mkCoordinator
                (BufVec (mkVector (Some (write_from a offset part)) n))
                (messageDataBuffer c) (nWorkersReported c + 1) (ready c)).
  split; [done|]. split; [|split; [simpl; lia|]].
  - right. exists (write_from a offset part).
    split; [done|]. split; [done|].
    intros j Hj. apply Hagree'. apply covered_snoc in Hj as [Hj|Hj].
    + left. by apply HP.
    + by right.
  - rewrite handleGatherVector_eq. cbv zeta.
    rewrite Hb0, gather_into_array, Hc. done.
Qed.

(** A gather round for the vector [T], for the handlers as the
    constructor defines them: [nWorkers] reports, each a slice of [T] at
    its offset, that together write every index.  The reports before
    the last return, and the last closes the round with [T] in
    [objectBuffer]. *)
Lemma gather_round (T : list R) (tag : value R) (rebroadcast : bool)
    (arrival : list (Message R)) (c : Coordinator R) (s : S) :
  let assembled := BufVec (mkVector (Some T) (Z.of_nat (length T))) in
  (1 ≤ length T)%nat →
  (1 ≤ length arrival)%nat →
  Z.of_nat (length arrival) = nWorkers g →
  nWorkersReported c = 0 →
  Forall (slice_report T tag rebroadcast) arrival →
  (∀ j, (j < length T)%nat → ∃ m, m ∈ arrival ∧ covers m j) →
  ∃ r c' s',
    run arrival (c, s)
    = Some (replicate (length arrival - 1) (Ok tt) ++ [r], (c', s'))
    ∧ objectBuffer c' = assembled.
Proof.
  intros assembled HT Hne HN Hc Hgood Hcover.
  destruct arrival as [|x xs _] using rev_ind; [simpl in Hne; lia|].
  rewrite length_app in *. simpl in HN.
  destruct (round_closes that_emit that_sendDataToWorkers
              that_sendVectorToWorkers g (λ m, m)
              (slice_report T tag rebroadcast) (gathered T)
              (λ done m c s Hm, handleGatherVector_step T tag rebroadcast
                                  done m c s HT Hm)
              xs x c s)
    as (h & c1 & c2 & Hrun & _ & Hh & Hlast & Hgath & Hc2); try done.
  { by left. }
  { lia. }
  rewrite list_fmap_id in Hrun.
  destruct Hgath as [Hnil|(arr & Hb & Hlenarr & Hagree)];
    [by destruct xs|].
  assert (Harr : arr = T).
  { apply list_eq. intros j.
    destruct (decide (j < length T)%nat) as [Hj|Hj].
    - apply Hagree. by apply Hcover.
    - rewrite !lookup_ge_None_2 by lia. done. }
  subst arr.
  exists (h (c1, s)).1, (h (c1, s)).2.1, (h (c1, s)).2.2.
  rewrite deliver_all_app, Hrun.
  cbn [mbind option_bind deliver_all]. rewrite Hh.
  cbn [mbind option_bind]. split.
  - replace (length xs + length [x] - 1)%nat with (length xs)
      by (simpl; lia).
    by destruct (h (c1, s)) as [r [c' s']].
  - rewrite Hlast. unfold close_round. cbn [fst snd].
    by destruct (is_ok _).
Qed.

(** The handlers assemble the slices in whatever order they arrive. *)
Lemma gather_any_order (tag : value R) (rebroadcast : bool)
    (slices : list (list R)) (arrival : list (Message R))
    (c : Coordinator R) (s : S) :
  let v := concat slices in
  let n := Z.of_nat (length v) in
  (1 ≤ length slices)%nat →
  (length slices ≤ length v)%nat →
  nWorkers g = Z.of_nat (length slices) →
  nWorkersReported c = 0 →
  arrival ≡ₚ gather_reports tag rebroadcast n 0 0 slices →
  ∃ r c' s',
    run arrival (c, s)
    = Some (replicate (length slices - 1) (Ok tt) ++ [r], (c', s'))
    ∧ objectBuffer c' = BufVec (mkVector (Some v) n).
Proof.
  intros v n Hk Hn HN Hc Hperm.
  assert (Hlen : length arrival = length slices).
  { rewrite (Permutation_length Hperm). apply gather_reports_length. }
  rewrite <- Hlen. apply (gather_round v tag rebroadcast).
  - lia.
  - lia.
  - by rewrite Hlen.
  - done.
  - rewrite Hperm.
    apply (gather_reports_slices tag rebroadcast slices [] 0).
  - intros j Hj.
    destruct (gather_reports_cover tag rebroadcast n slices [] 0 j)
      as (m & Hin & Hcov); [unfold v in Hj; simpl; lia|].
    exists m. split; [|done]. by rewrite Hperm.
Qed.
End gather.

(** ** The Coordinator of this build *)

(** The closure stays [Declared] whatever reaches it. *)
Lemma Declared_stays {R : Type} `{!Arith R} {S : Type}
    (that_emit : value R → Comp S unit)
    (that_sendDataToWorkers that_sendVectorToWorkers
       : Buffer R → value R → Comp S unit)
    (p : Page R) (ref : nat) (data : Message R)
    (run : S → Result (option Routed) * (Closure R * S)) (s : S) :
  Worker_message that_emit that_sendDataToWorkers that_sendVectorToWorkers
    p ref data Declared = Some run →
  (run s).2 = (Declared, s)
  ∧ (run s).1 ≠ Ok (Some Dispatched).
Proof.
  unfold Worker_message, onmessageHandler.
  destruct (spawned p !! ref) as [w|]; [|done].
  destruct (onmessage w); [|by intros [= <-]].
  destruct (handler_name data); by intros [= <-].
Qed.

(** C2 (the code departs from it).  A page constructs a Coordinator for
    two workers, which gather the slices [[1, 2]] and [[3]] of the
    vector [[1, 2, 3]] with their offsets.  The constructor throws in
    the first turn of the loop that registers its listener, at
    [messageDataBuffer.push({})]: worker 0 has the listener, worker 1
    has none, and the statements after the loop, which set
    [nWorkersReported] and assign the handlers, are not reached.  The
    report of worker 0 makes the listener throw, [handleGatherVector]
    being [undefined]; the report of worker 1 is not heard.  The buffer
    of the Coordinator stays [{}]: no Vector is assembled. *)
Theorem gather_reports_are_never_assembled :
  let v : list number := [Fin 1; Fin 2; Fin 3] in
  let report := worker_gather_report 2 v (VStr "t") false in
  let built := Coordinator_new 2 "worker.js" (fresh_page true) in
  let closure : Closure number := Coordinator_closure built.1 in
  posts (gatherVector (worker_global 2 0 false) [Fin 1; Fin 2] 3 0
           (VStr "t") false) = [report 0]
  ∧ posts (gatherVector (worker_global 2 1 false) [Fin 3] 3 2
             (VStr "t") false) = [report 1]
  ∧ built.1 = Throw (TypeError "messageDataBuffer.push is not a function")
  ∧ onmessage <$> spawned built.2 = [true; false]
  ∧ closure = Declared
  ∧ (∀ (S : Type) (that_emit : value number → Comp S unit)
       (that_sendDataToWorkers that_sendVectorToWorkers
          : Buffer number → value number → Comp S unit) (s : S),
       ∃ heard unheard,
         Worker_message that_emit that_sendDataToWorkers
           that_sendVectorToWorkers built.2 0 (report 0) closure
         = Some heard
         ∧ heard s
           = (Throw (TypeError "handleGatherVector is not a function"),
              (Declared, s))
         ∧ Worker_message that_emit that_sendDataToWorkers
             that_sendVectorToWorkers built.2 1 (report 1) closure
           = Some unheard
         ∧ unheard s = (Ok None, (Declared, s)))
  ∧ getBuffer closure = BufObject
  ∧ getBuffer closure ≠ BufVec (mkVector (Some v) 3).
Proof.
  repeat split; try reflexivity; [|discriminate].
  intros S that_emit that_sendDataToWorkers that_sendVectorToWorkers s.
  do 2 eexists. repeat split; reflexivity.
Qed.

(** ** The right operand of the fused matrix product *)

Section right_operand.
Context {R : Type} `{!Arith R}.

Lemma transposeInPlace_not_square (B : Matrix R) :
  isSquare B = false →
  transposeInPlace B
  = (Throw (PlainError
              "In place transpose only available for square matrices."), B).
Proof. intros H. unfold transposeInPlace. by rewrite H. Qed.

(** With a right operand that is not square the call never returns: it
    throws, at the restoring step at the latest, with [B] and the posted
    messages as they were. *)
Lemma wkMatrixMatrixPlus_not_square (g : Global) (alpha tag : value R)
    (A : Operand R) (B : Matrix R) (rebroadcast : bool) (beta : value R)
    (C : Operand R) (out : list (Message R)) :
  isSquare B = false →
  ∃ e, wkMatrixMatrixPlus g alpha A (VMat B) tag rebroadcast beta C out
       = (Throw e, (VMat B, out)).
Proof.
  intros Hsq. unfold wkMatrixMatrixPlus.
  destruct (checkNumber alpha) as [alpha'|e]; simpl; [|eauto].
  destruct (checkMatrixMatrix (operand_value (VMat B) A) (VMat B))
    as [[A' B']|e] eqn:Hmm; simpl; [|eauto].
  assert (B' = B) as ->.
  { unfold checkMatrixMatrix in Hmm.
    destruct (checkMatrix (operand_value (VMat B) A)) as [A''|];
      simpl in Hmm; [|done].
    case_decide; by simplify_eq. }
  destruct (checkNullOrUndefined tag) as [[]|e]; simpl; [|eauto].
  unfold wkMatrixMatrixPlus_body.
  unfold mbind at 1, Comp_bind, get_state. rewrite Hsq.
  unfold mbind at 1, Comp_bind, lift.
  destruct (transpose B) as [Bt|e]; [|eauto].
  unfold mbind at 1, Comp_bind.
  unfold mbind at 1, Comp_bind.
  match goal with
  | |- context [if ?b then ?x else ?y] =>
      destruct (if b then x else y) as [[D o]|e]
  end; [|eauto].
  unfold mbind at 1, Comp_bind, on_matrix.
  rewrite transposeInPlace_not_square by done. eauto.
Qed.

(** A loop that advances by one, with an invariant that lets every turn
    run to its end. *)
Lemma for_loop_invariant {St : Type} (Inv : Z → St → Prop)
    (body : Z → Comp St unit) (bound : Z) :
  (∀ i s, i < bound → Inv i s →
          ∃ s', body i s = (Ok tt, s') ∧ Inv (i + 1) s') →
  ∀ (fuel : nat) i s,
    i ≤ bound → bound - i ≤ Z.of_nat fuel → Inv i s →
    ∃ s', for_loop fuel i bound 1 body s = (Ok bound, s') ∧ Inv bound s'.
Proof.
  intros Hbody fuel. induction fuel as [|fuel IH]; intros i s Hi Hfuel Hinv.
  - assert (i = bound) as -> by lia. exists s. done.
  - simpl. destruct (Z.ltb_spec i bound) as [Hlt|Hge].
    + destruct (Hbody i s Hlt Hinv) as (s1 & Hs1 & Hinv1).
      unfold mbind, Comp_bind. rewrite Hs1.
      apply IH; [lia|lia|done].
    + assert (i = bound) as -> by lia. exists s. done.
Qed.

Lemma for_invariant {St : Type} (Inv : Z → St → Prop)
    (body : Z → Comp St unit) (i bound : Z) (s : St) :
  (∀ i s, i < bound → Inv i s →
          ∃ s', body i s = (Ok tt, s') ∧ Inv (i + 1) s') →
  i ≤ bound → Inv i s →
  ∃ s', for_ i bound 1 body s = (Ok bound, s') ∧ Inv bound s'.
Proof.
  intros Hbody Hi Hinv. unfold for_.
  by apply (for_loop_invariant Inv); [|lia..|].
Qed.

Lemma entry_Some_lt (n : nat) (M : Matrix R) (a b : nat) :
  square_of_order n M →
  (a < n)%nat → (b < n)%nat → is_Some (entry (mat_array M) a b).
Proof.
  intros (_ & _ & Hlen & Hrows) Ha Hb. unfold entry.
  destruct (lookup_lt_is_Some_2 (mat_array M) a ltac:(lia)) as [row Hrow].
  rewrite Hrow. simpl. apply lookup_lt_is_Some_2.
  rewrite Forall_lookup in Hrows. rewrite (Hrows _ _ Hrow). done.
Qed.

Lemma entry_None_ge (n : nat) (M : Matrix R) (a b : nat) :
  square_of_order n M →
  (n ≤ a)%nat ∨ (n ≤ b)%nat → entry (mat_array M) a b = None.
Proof.
  intros (_ & _ & Hlen & Hrows) Hab. unfold entry.
  destruct (mat_array M !! a) as [row|] eqn:Hrow; simpl; [|done].
  apply lookup_ge_None_2.
  rewrite Forall_lookup in Hrows. rewrite (Hrows _ _ Hrow).
  apply lookup_lt_Some in Hrow. lia.
Qed.

(** Matrices of one order with the same entries are equal. *)
Lemma square_ext (n : nat) (M M' : Matrix R) :
  square_of_order n M → square_of_order n M' →
  (∀ a b, entry (mat_array M') a b = entry (mat_array M) a b) →
  M' = M.
Proof.
  intros (Hr & Hc & Hlen & Hrows) (Hr' & Hc' & Hlen' & Hrows') Hentries.
  destruct M as [rows nr nc], M' as [rows' nr' nc']; simpl in *.
  f_equal; [|lia..].
  apply list_eq. intros a.
  destruct (rows !! a) as [row|] eqn:Hrow.
  - destruct (lookup_lt_is_Some_2 rows' a) as [row' Hrow'].
    { apply lookup_lt_Some in Hrow. lia. }
    rewrite Hrow'. f_equal. apply list_eq. intros b.
    specialize (Hentries a b). unfold entry in Hentries.
    by rewrite Hrow, Hrow' in Hentries.
  - apply lookup_ge_None_2. apply lookup_ge_None_1 in Hrow. lia.
Qed.

(** One exchange of [transposeInPlace]. *)
Lemma swap_entries_spec (n : nat) (M : Matrix R) (i j : nat) :
  square_of_order n M →
  (i < n)%nat → (j < n)%nat → i ≠ j →
  ∃ M', swap_entries (Z.of_nat i) (Z.of_nat j) M = (Ok tt, M')
    ∧ square_of_order n M'
    ∧ ∀ a b,
        entry (mat_array M') a b
        = if decide (a = i ∧ b = j) then entry (mat_array M) j i
          else if decide (a = j ∧ b = i) then entry (mat_array M) i j
          else entry (mat_array M) a b.
Proof.
  intros HM Hi Hj Hij.
  pose proof HM as (Hr & Hc & Hlen & Hrows).
  destruct (lookup_lt_is_Some_2 (mat_array M) i ltac:(lia)) as [ri Hri].
  destruct (lookup_lt_is_Some_2 (mat_array M) j ltac:(lia)) as [rj Hrj].
  assert (Hlri : length ri = n).
  { rewrite Forall_lookup in Hrows. by apply (Hrows i). }
  assert (Hlrj : length rj = n).
  { rewrite Forall_lookup in Hrows. by apply (Hrows j). }
  destruct (lookup_lt_is_Some_2 ri j ltac:(lia)) as [xij Hxij].
  destruct (lookup_lt_is_Some_2 rj i ltac:(lia)) as [xji Hxji].
  set (ri' := <[j := xji]> ri).
  set (rj' := <[i := xij]> rj).
  set (rows' := <[j := rj']> (<[i := ri']> (mat_array M))).
  exists (set_mat_array rows' M).
  assert (Hget : ∀ (row : list R) (k : nat) x,
            row !! k = Some x → ta_get row (Z.of_nat k) = x).
  { intros row k x Hx. unfold ta_get.
    destruct (Z.ltb_spec (Z.of_nat k) 0); [lia|].
    by rewrite Nat2Z.id, Hx. }
  assert (Hset : ∀ (row : list R) (k : nat) x,
            ta_set row (Z.of_nat k) x = <[k := x]> row).
  { intros row k x. rewrite ta_set_nonneg by lia. by rewrite Nat2Z.id. }
  split; [|split].
  - unfold swap_entries, update, mat_get, mat_set.
    destruct (Z.ltb_spec (Z.of_nat i) 0); [lia|].
    destruct (Z.ltb_spec (Z.of_nat j) 0); [lia|].
    rewrite !Nat2Z.id, Hri, Hrj. simpl.
    rewrite (Hget _ _ _ Hxij), (Hget _ _ _ Hxji), !Hset.
    rewrite list_lookup_insert_ne by done. rewrite Hrj. simpl.
    by rewrite !Hset.
  - unfold set_mat_array, square_of_order. simpl.
    split; [done|]. split; [done|].
    split; [unfold rows'; by rewrite !length_insert|].
    unfold rows'. apply Forall_insert; [apply Forall_insert; [done|]|].
    + unfold ri'. by rewrite length_insert.
    + unfold rj'. by rewrite length_insert.
  - intros a b. unfold set_mat_array, entry, rows'. simpl.
    destruct (decide (a = j)) as [->|Haj].
    + rewrite list_lookup_insert_eq by (rewrite length_insert; lia).
      simpl. unfold rj'.
      destruct (decide (b = i)) as [->|Hbi].
      * rewrite list_lookup_insert_eq by lia.
        rewrite decide_False by lia. rewrite decide_True by done.
        by rewrite Hri.
      * rewrite list_lookup_insert_ne by done.
        rewrite decide_False by lia. rewrite decide_False by lia.
        by rewrite Hrj.
    + rewrite list_lookup_insert_ne by done.
      destruct (decide (a = i)) as [->|Hai].
      * rewrite list_lookup_insert_eq by lia. simpl. unfold ri'.
        destruct (decide (b = j)) as [->|Hbj].
        -- rewrite list_lookup_insert_eq by lia.
           rewrite decide_True by done. by rewrite Hrj.
        -- rewrite list_lookup_insert_ne by done.
           rewrite decide_False by lia. rewrite decide_False by lia.
           by rewrite Hri.
      * rewrite list_lookup_insert_ne by done.
        rewrite decide_False by lia. by rewrite decide_False by lia.
Qed.

(** The inner loop of [transposeInPlace] for row [i]: the entries of row
    [i] right of the diagonal change places with those of column [i]
    below it. *)
Lemma transpose_row_spec (n : nat) (M0 : Matrix R) (i : nat) :
  square_of_order n M0 →
  (i < n)%nat →
  ∃ M', for_ (Z.of_nat i + 1) (Z.of_nat n) 1
          (λ j, swap_entries (Z.of_nat i) j) M0
        = (Ok (Z.of_nat n), M')
    ∧ square_of_order n M'
    ∧ ∀ a b,
        entry (mat_array M') a b
        = if decide ((a = i ∧ i < b < n) ∨ (b = i ∧ i < a < n))%nat
          then entry (mat_array M0) b a
          else entry (mat_array M0) a b.
Proof.
  intros HM0 Hi.
  set (Inv := λ (j : Z) (M : Matrix R),
    Z.of_nat i + 1 ≤ j
    ∧ square_of_order n M
    ∧ ∀ a b,
        entry (mat_array M) a b
        = if decide ((a = i ∧ (i < b)%nat ∧ Z.of_nat b < j)
                     ∨ (b = i ∧ (i < a)%nat ∧ Z.of_nat a < j))
          then entry (mat_array M0) b a
          else entry (mat_array M0) a b).
  destruct (for_invariant Inv (λ j, swap_entries (Z.of_nat i) j)
              (Z.of_nat i + 1) (Z.of_nat n) M0)
    as (M' & Hrun & _ & HM' & Hent).
  - intros j M Hj (Hlo & HM & Hent).
    destruct (swap_entries_spec n M i (Z.to_nat j) HM)
      as (M1 & Hswap & HM1 & Hent1); [lia..|].
    rewrite Z2Nat.id in Hswap by lia.
    exists M1. split; [done|]. split; [lia|]. split; [done|].
    intros a b. rewrite Hent1.
    destruct (decide (a = i ∧ b = Z.to_nat j)) as [[-> ->]|Hn1].
    { rewrite Hent. rewrite decide_False by lia. by rewrite decide_True by lia. }
    destruct (decide (a = Z.to_nat j ∧ b = i)) as [[-> ->]|Hn2].
    { rewrite Hent. rewrite decide_False by lia. by rewrite decide_True by lia. }
    rewrite Hent. repeat case_decide; (done || lia).
  - lia.
  - split; [lia|]. split; [done|]. intros a b. by rewrite decide_False by lia.
  - exists M'. split; [done|]. split; [done|].
    intros a b. rewrite Hent. repeat case_decide; (done || lia).
Qed.

(** On a square Matrix [transposeInPlace] returns, and exchanges every
    entry with its mirror image. *)
Lemma transposeInPlace_spec (n : nat) (M0 : Matrix R) :
  square_of_order n M0 →
  ∃ M', transposeInPlace M0 = (Ok tt, M')
    ∧ square_of_order n M'
    ∧ ∀ a b, entry (mat_array M') a b = entry (mat_array M0) b a.
Proof.
  intros HM0. pose proof HM0 as (Hr & Hc & _).
  set (Inv := λ (i : Z) (M : Matrix R),
    0 ≤ i
    ∧ square_of_order n M
    ∧ ∀ a b,
        entry (mat_array M) a b
        = if decide (Z.of_nat a < i ∨ Z.of_nat b < i)
          then entry (mat_array M0) b a
          else entry (mat_array M0) a b).
  destruct (for_invariant Inv
              (λ i, for_ (i + 1) (ncols M0) 1 (λ j, swap_entries i j);;
                    mret tt)
              0 (nrows M0) M0)
    as (M' & Hrun & _ & HM' & Hent).
  - intros i M Hi (Hlo & HM & Hent).
    destruct (transpose_row_spec n M (Z.to_nat i) HM)
      as (M1 & Hrow & HM1 & Hent1); [lia|].
    rewrite Z2Nat.id in Hrow by lia.
    exists M1. split.
    { unfold mbind, Comp_bind. by rewrite Hc, Hrow. }
    split; [lia|]. split; [done|].
    intros a b. rewrite Hent1, !Hent.
    destruct (decide (a = b)) as [->|Hab].
    { repeat case_decide; done. }
    destruct (decide (n ≤ a ∨ n ≤ b)%nat) as [Hout|Hin].
    { rewrite !(entry_None_ge n M0) by (done || lia).
      repeat case_decide; done. }
    repeat case_decide; (done || lia).
  - lia.
  - split; [done|]. split; [done|]. intros a b. by rewrite decide_False by lia.
  - exists M'. split.
    { assert (isSquare M0 = true) as Hsq.
      { unfold isSquare. rewrite Hr, Hc. apply Z.eqb_refl. }
      unfold transposeInPlace. rewrite Hsq.
      by rewrite Comp_bind_unfold, Hrun. }
    split; [done|]. intros a b. rewrite Hent.
    case_decide; [done|].
    rewrite !(entry_None_ge n M0) by (done || lia). done.
Qed.

(** Transposing a square Matrix in place twice gives it back. *)
Lemma transposeInPlace_twice (n : nat) (M0 : Matrix R) :
  square_of_order n M0 →
  ∃ M', transposeInPlace M0 = (Ok tt, M')
    ∧ transposeInPlace M' = (Ok tt, M0).
Proof.
  intros HM0.
  destruct (transposeInPlace_spec n M0 HM0) as (M1 & H1 & HM1 & Hent1).
  destruct (transposeInPlace_spec n M1 HM1) as (M2 & H2 & HM2 & Hent2).
  exists M1. split; [done|].
  rewrite H2. f_equal. apply (square_ext n); [done..|].
  intros a b. by rewrite Hent2, Hent1.
Qed.

(** With a square right operand, a call that returns has restored it: the
    second transposition undoes the first. *)
Lemma wkMatrixMatrixPlus_restores_square (n : nat) (g : Global)
    (alpha tag : value R) (A : Operand R) (B : Matrix R)
    (rebroadcast : bool) (beta : value R) (C : Operand R)
    (out out' : list (Message R)) (B' : value R) :
  square_of_order n B →
  wkMatrixMatrixPlus g alpha A (VMat B) tag rebroadcast beta C out
  = (Ok tt, (B', out')) →
  B' = VMat B.
Proof.
  intros HB. unfold wkMatrixMatrixPlus.
  destruct (checkNumber alpha) as [alpha'|e]; simpl; [|done].
  destruct (checkMatrixMatrix (operand_value (VMat B) A) (VMat B))
    as [[A' B0]|e] eqn:Hmm; simpl; [|done].
  assert (B0 = B) as ->.
  { unfold checkMatrixMatrix in Hmm.
    destruct (checkMatrix (operand_value (VMat B) A)) as [A''|];
      simpl in Hmm; [|done].
    case_decide; by simplify_eq. }
  destruct (checkNullOrUndefined tag) as [[]|e]; simpl; [|done].
  destruct (transposeInPlace_twice n B HB) as (Bt & Hfirst & Hsecond).
  assert (Hsq : isSquare B = true).
  { destruct HB as (Hr & Hc & _). unfold isSquare. rewrite Hr, Hc.
    apply Z.eqb_refl. }
  unfold wkMatrixMatrixPlus_body.
  rewrite Comp_bind_unfold. unfold get_state at 1. rewrite Hsq.
  rewrite Comp_bind_unfold, Comp_bind_unfold.
  unfold on_matrix at 1. rewrite Hfirst.
  rewrite Comp_bind_unfold. unfold get_state at 1.
  unfold mret at 1, Comp_ret.
  rewrite Comp_bind_unfold. unfold get_state at 1.
  rewrite Comp_bind_unfold. unfold lift at 1.
  match goal with
  | |- context [if ?b then ?x else ?y] =>
      destruct (if b then x else y) as [[D o]|e]
  end; [|done].
  rewrite Comp_bind_unfold. unfold on_matrix at 1. rewrite Hsecond.
  unfold on_outbox.
  match goal with
  | |- context [gatherMatrixRows ?a ?b ?c ?d ?e ?f ?h] =>
      destruct (gatherMatrixRows a b c d e f h) as [r out'']
  end.
  by intros [= _ <- _].
Qed.
(** C5.  Let [B] be a Matrix of [r] rows of [c] entries, and let [A]
    and [C] be any operands, the object [B] itself included.  Whenever
    [wkMatrixMatrixPlus] returns, [B] is as it was before the call: a
    square [B] is transposed in place before the partitioned pass and
    transposed back after it.  With a [B] that is not square the call
    does not return: [B] is transposed into a new Matrix, the pass runs,
    and the restoring step, whose guard is always true, throws; [B] and
    the messages posted are as they were. *)
Theorem wkMatrixMatrixPlus_leaves_B (r c : nat) (g : Global)
    (alpha tag : value R) (A : Operand R) (B : Matrix R)
    (rebroadcast : bool) (beta : value R) (C : Operand R)
    (out : list (Message R)) :
  Matrix_shape r c B →
  (∀ B' out',
     wkMatrixMatrixPlus g alpha A (VMat B) tag rebroadcast beta C out
     = (Ok tt, (B', out')) →
     B' = VMat B)
  ∧ (isSquare B = false →
     ∃ e, wkMatrixMatrixPlus g alpha A (VMat B) tag rebroadcast beta C out
          = (Throw e, (VMat B, out))).
Proof.
  intros (Hr & Hc & Hlen & Hrows). split.
  - intros B' out' Hcall. destruct (isSquare B) eqn:Hsq.
    + assert (r = c) as ->.
      { unfold isSquare in Hsq. apply Z.eqb_eq in Hsq. lia. }
      by apply (wkMatrixMatrixPlus_restores_square c g alpha tag A B
                  rebroadcast beta C out out' B').
    + destruct (wkMatrixMatrixPlus_not_square g alpha tag A B rebroadcast
                  beta C out Hsq) as [e He].
      congruence.
  - by apply wkMatrixMatrixPlus_not_square.
Qed.
End right_operand.

(** A square [B] with other operands, where the call returns; and a [B]
    that is not square, where it throws. *)
Lemma wkMatrixMatrixPlus_leaves_B_witness :
  let g := worker_global 1 0 false in
  let A : Matrix number := mkMatrix [[Fin 1; Fin 2]; [Fin 3; Fin 4]] 2 2 in
  let B : Matrix number := mkMatrix [[Fin 5; Fin 6]; [Fin 7; Fin 8]] 2 2 in
  let A1 : Matrix number := mkMatrix [[Fin 1; Fin 2]] 1 2 in
  let B1 : Matrix number := mkMatrix [[Fin 3]; [Fin 4]] 2 1 in
  let call :=
    wkMatrixMatrixPlus g (VNum (Fin 2)) (Other (VMat A)) (VMat B) (VStr "t")
      false (VNum (Fin 1)) (Other (VMat A)) [] in
  call
  = (Ok tt,
     (VMat B,
      [MsgGatherMatrixRows (VStr "t") 0 false 2 2 2 0
         [[Fin 39; Fin 46]; [Fin 89; Fin 104]]]))
  ∧ (∀ B' out', call = (Ok tt, (B', out')) → B' = VMat B)
  ∧ ∃ e, wkMatrixMatrixPlus g (VNum (Fin 1)) (Other (VMat A1)) (VMat B1)
           (VStr "t") false VUndefined (Other VUndefined) []
         = (Throw e, (VMat B1, [])).
Proof.
  intros g A B A1 B1 call. split; [reflexivity|]. split.
  - refine (proj1 (wkMatrixMatrixPlus_leaves_B 2 2 g (VNum (Fin 2))
                     (VStr "t") (Other (VMat A)) B false (VNum (Fin 1))
                     (Other (VMat A)) [] _)).
    repeat split; repeat constructor.
  - refine (proj2 (wkMatrixMatrixPlus_leaves_B 2 1 g (VNum (Fin 1))
                     (VStr "t") (Other (VMat A1)) B1 false VUndefined
                     (Other VUndefined) [] _) _).
    + repeat split; repeat constructor.
    + reflexivity.
Defined.

(** When [A] is the object [B], the pass reads [A] after the
    transposition of [B]: the rows shipped are those of the product of
    the transpose of [B] with [B], not of [B] with itself, and [B] is
    restored all the same. *)
Example wkMatrixMatrixPlus_on_one_object :
  let g := worker_global 1 0 false in
  let B : Matrix number := mkMatrix [[Fin 5; Fin 6]; [Fin 7; Fin 8]] 2 2 in
  wkMatrixMatrixPlus g (VNum (Fin 1)) SameAsB (VMat B) (VStr "t") false
    VUndefined (Other VUndefined) []
  = (Ok tt,
     (VMat B,
      [MsgGatherMatrixRows (VStr "t") 0 false 2 2 2 0
         [[Fin 74; Fin 86]; [Fin 86; Fin 100]]]))
  ∧ wkMatrixMatrixPlus g (VNum (Fin 1)) (Other (VMat B)) (VMat B) (VStr "t")
      false VUndefined (Other VUndefined) []
    = (Ok tt,
       (VMat B,
        [MsgGatherMatrixRows (VStr "t") 0 false 2 2 2 0
           [[Fin 67; Fin 78]; [Fin 91; Fin 106]]])).
Proof. split; reflexivity. Qed.

(** ** The serial sum, unrolled *)

Section serial_sum.
Context {R : Type} `{!Arith R}.

Lemma fold_step4_total (this : Vector R) (a : list R) :
  vec_array this = Some a →
  ∀ i acc,
    fold_step4 add this i acc
    = (Ok tt,
       add acc (add (add (add (ta_get a i) (ta_get a (i + 1)))
                         (ta_get a (i + 2))) (ta_get a (i + 3)))).
Proof.
  intros Ha i acc. unfold fold_step4, update, vec_get. by rewrite Ha.
Qed.

(** The unrolled loop of [sum], which advances by four: it stops at some
    index [i'], having added the entries before [i'] as the plain loop
    does, whatever its fuel. *)
Lemma sum_unrolled_loop `{!Assoc (=) (add (R:=R))} (this : Vector R)
    (a : list R) (bound : Z) :
  vec_array this = Some a →
  ∀ (fuel : nat) (i : Z) (acc : R),
    ∃ i', i ≤ i' ∧ i' ≤ Z.max i (bound + 3)
      ∧ (bound - i ≤ Z.of_nat fuel * 4 → bound ≤ i')
      ∧ for_loop fuel i bound 4 (fold_step4 add this) acc
        = (Ok i',
           foldl (λ acc j, add acc (ta_get a j)) acc (seqZ i (i' - i))).
Proof.
  intros Ha fuel. induction fuel as [|fuel IH]; intros i acc.
  - exists i. replace (i - i) with 0 by lia. simpl.
    split; [lia|]. split; [lia|]. split; [lia|done].
  - simpl. destruct (Z.ltb_spec i bound) as [Hlt|Hge].
    + rewrite Comp_bind_unfold, (fold_step4_total this a Ha).
      destruct (IH (i + 4)
                  (add acc (add (add (add (ta_get a i) (ta_get a (i + 1)))
                                     (ta_get a (i + 2))) (ta_get a (i + 3)))))
        as (i' & Hle & Hmax & Hend & ->).
      exists i'. split; [lia|]. split; [lia|]. split; [lia|].
      f_equal. replace (i' - i) with (4 + (i' - (i + 4))) by lia.
      rewrite seqZ_app by lia. rewrite foldl_app.
      assert (seqZ i 4 = [i; i + 1; i + 2; i + 3]) as ->.
      { unfold seqZ. simpl. rewrite !(Z.add_comm _ i). simpl.
        by rewrite Z.add_0_r. }
      simpl. by rewrite !(assoc_L add).
    + exists i. replace (i - i) with 0 by lia. simpl.
      split; [lia|]. split; [lia|]. split; [lia|done].
Qed.

(** [MW.Vector.prototype.sum] is the serial sum of the whole array with
    either setting of [unrollLoops]: its unrolled loop advances by four,
    which is what the one of [wkSum] misses. *)
Lemma Vector_sum_serial `{!Assoc (=) (add (R:=R))} (g : Global)
    (this : Vector R) (a : list R) :
  vec_array this = Some a →
  Vector_sum g this = Ok (serial_sum a 0 (vec_length this)).
Proof.
  intros Ha. unfold Vector_sum, serial_sum, with_locals.
  destruct (unrollLoops g).
  - rewrite Comp_bind_unfold. unfold for_ at 1.
    destruct (sum_unrolled_loop this a (vec_length this - 3) Ha
                (Z.to_nat (vec_length this - 3 - 0)) 0 zero)
      as (i' & Hle & Hmax & Hend & ->).
    rewrite (for_fold (λ j acc, add acc (ta_get a j)))
      by (by apply fold_step_total).
    f_equal. rewrite <- foldl_app.
    destruct (decide (vec_length this ≤ 0)) as [Hneg|Hpos].
    + rewrite (seqZ_nil 0 (vec_length this - 0)) by lia.
      assert (i' = 0) as -> by lia.
      rewrite (seqZ_nil 0 (vec_length this - 0)) by lia. done.
    + f_equal.
      replace (vec_length this - 0)
        with ((i' - 0) + (vec_length this - i')) by lia.
      rewrite seqZ_app by lia. do 2 f_equal. lia.
  - rewrite (for_fold (λ j acc, add acc (ta_get a j)))
      by (by apply fold_step_total).
    done.
Qed.
End serial_sum.

(* ================================================================== *)
(** * Part III: further properties of the library *)
(* ================================================================== *)

(** ** Loops, plain and unrolled *)

Section loops.
Context {St : Type}.
Variable P : St → Prop.
Variable f : Z → St → St.
Hypothesis P_step : ∀ j s, P s → P (f j s).

Lemma foldl_preserves (js : list Z) (s : St) :
  P s → P (foldl (λ s j, f j s) s js).
Proof.
  revert s. induction js as [|j js IH]; intros s Hs; [done|].
  simpl. apply IH. by apply P_step.
Qed.

(** A loop that advances by one, whose body is [f] on the states that
    satisfy [P], is a fold over the indices. *)
Lemma for_loop_fold_on (body : Z → Comp St unit) (bound : Z) :
  (∀ i s, P s → body i s = (Ok tt, f i s)) →
  ∀ (fuel : nat) (i : Z) (s : St),
    P s →
    bound - i ≤ Z.of_nat fuel →
    for_loop fuel i bound 1 body s
    = (Ok (Z.max i bound), foldl (λ s j, f j s) s (seqZ i (bound - i))).
Proof.
  intros Hbody fuel. induction fuel as [|fuel IH]; intros i s Hs Hfuel.
  - simpl. rewrite seqZ_nil by lia.
    unfold mret, Comp_ret. simpl. do 2 f_equal. lia.
  - simpl. destruct (Z.ltb_spec i bound) as [Hlt|Hge].
    + rewrite Comp_bind_unfold, Hbody by done.
      rewrite IH by (by apply P_step || lia).
      rewrite (seqZ_cons i (bound - i)) by lia. simpl.
      replace (Z.max (i + 1) bound) with (Z.max i bound) by lia.
      replace (bound - (i + 1)) with (Z.pred (bound - i)) by lia.
      replace (Z.succ i) with (i + 1) by lia.
      reflexivity.
    + rewrite seqZ_nil by lia.
      unfold mret, Comp_ret. simpl. do 2 f_equal. lia.
Qed.

(** A loop that advances by four and does the work of four turns of
    [f] in each of its own stops at some index [i'], having done what
    the plain loop does up to [i']. *)
Lemma for_loop_unrolled_on (body4 : Z → Comp St unit) (bound : Z) :
  (∀ i s, P s →
     body4 i s = (Ok tt, f (i + 3) (f (i + 2) (f (i + 1) (f i s))))) →
  ∀ (fuel : nat) (i : Z) (s : St),
    P s →
    ∃ i', i ≤ i' ∧ i' ≤ Z.max i (bound + 3)
      ∧ (bound - i ≤ Z.of_nat fuel * 4 → bound ≤ i')
      ∧ for_loop fuel i bound 4 body4 s
        = (Ok i', foldl (λ s j, f j s) s (seqZ i (i' - i))).
Proof.
  intros Hbody fuel. induction fuel as [|fuel IH]; intros i s Hs.
  - exists i. replace (i - i) with 0 by lia. simpl.
    split; [lia|]. split; [lia|]. split; [lia|done].
  - simpl. destruct (Z.ltb_spec i bound) as [Hlt|Hge].
    + rewrite Comp_bind_unfold, Hbody by done.
      destruct (IH (i + 4) (f (i + 3) (f (i + 2) (f (i + 1) (f i s)))))
        as (i' & Hle & Hmax & Hend & ->).
      { by do 4 apply P_step. }
      exists i'. split; [lia|]. split; [lia|]. split; [lia|].
      f_equal. replace (i' - i) with (4 + (i' - (i + 4))) by lia.
      rewrite seqZ_app by lia. rewrite foldl_app.
      assert (seqZ i 4 = [i; i + 1; i + 2; i + 3]) as ->.
      { unfold seqZ. simpl. rewrite !(Z.add_comm _ i). simpl.
        by rewrite Z.add_0_r. }
      reflexivity.
    + exists i. replace (i - i) with 0 by lia. simpl.
      split; [lia|]. split; [lia|]. split; [lia|done].
Qed.

(** The plain loop of a method, from [i0] up to [n]. *)
Lemma plain_loop_fold (body : Z → Comp St unit) (i0 n : Z) (s : St) :
  (∀ i s, P s → body i s = (Ok tt, f i s)) →
  P s →
  with_locals s (for_ i0 n 1 body)
  = Ok (foldl (λ s j, f j s) s (seqZ i0 (n - i0))).
Proof.
  intros Hbody Hs. unfold with_locals, for_.
  by rewrite (for_loop_fold_on body n Hbody) by (done || lia).
Qed.

(** The unrolled loops of a method, the one that advances by four up to
    [n - 3] and the one that finishes up to [n]: together they do what
    the plain loop does. *)
Lemma unrolled_loops_fold (body4 body : Z → Comp St unit) (i0 n : Z)
    (s : St) :
  (∀ i s, P s →
     body4 i s = (Ok tt, f (i + 3) (f (i + 2) (f (i + 1) (f i s))))) →
  (∀ i s, P s → body i s = (Ok tt, f i s)) →
  P s →
  with_locals s (i ← for_ i0 (n - 3) 4 body4; for_ i n 1 body)
  = Ok (foldl (λ s j, f j s) s (seqZ i0 (n - i0))).
Proof.
  intros Hbody4 Hbody Hs. unfold with_locals.
  rewrite Comp_bind_unfold. unfold for_ at 1.
  destruct (for_loop_unrolled_on body4 (n - 3) Hbody4
              (Z.to_nat (n - 3 - i0)) i0 s Hs)
    as (i' & Hle & Hmax & Hend & ->).
  unfold for_.
  rewrite (for_loop_fold_on body n Hbody)
    by (by apply foldl_preserves || lia).
  f_equal. rewrite <- foldl_app.
  destruct (decide (n ≤ i0)) as [Hneg|Hpos].
  - rewrite (seqZ_nil i0 (n - i0)) by lia.
    assert (i' = i0) as -> by lia.
    rewrite (seqZ_nil i0 (i0 - i0)) by lia.
    rewrite (seqZ_nil i0 (n - i0)) by lia. done.
  - f_equal.
    replace (n - i0) with ((i' - i0) + (n - i')) by lia.
    rewrite seqZ_app by lia. do 2 f_equal. lia.
Qed.
End loops.

(** ** Serial Vector methods *)

Section serial_vector.
Context {R : Type} `{!Arith R}.

Lemma ta_get_lookup (a : list R) (k : nat) (x : R) :
  a !! k = Some x → ta_get a (Z.of_nat k) = x.
Proof.
  intros Hx. unfold ta_get.
  destruct (Z.ltb_spec (Z.of_nat k) 0); [lia|].
  by rewrite Nat2Z.id, Hx.
Qed.

(** A function of the index that agrees with the entries of [l] lists
    [l] when it is applied to the indices in order. *)
Lemma fmap_seqZ_eq (F : Z → R) (l : list R) :
  (∀ k x, l !! k = Some x → F (Z.of_nat k) = x) →
  F <$> seqZ 0 (Z.of_nat (length l)) = l.
Proof.
  intros HF. apply list_eq. intros k. rewrite list_lookup_fmap.
  destruct (l !! k) as [x|] eqn:Hx.
  - rewrite lookup_seqZ_lt by (apply lookup_lt_Some in Hx; lia).
    simpl. f_equal. by apply HF.
  - rewrite lookup_seqZ_ge; [done|].
    apply lookup_ge_None_1 in Hx. lia.
Qed.

(** Storing [F j] at every index [j] below [m], in order, into an array
    that has room for them. *)
Lemma foldl_assign (F : Z → R) (r0 : list R) (m : nat) :
  (m ≤ length r0)%nat →
  foldl (λ s j, (λ r, ta_set r j (F j)) <$> s) (Some r0)
    (seqZ 0 (Z.of_nat m))
  = Some ((F <$> seqZ 0 (Z.of_nat m)) ++ drop m r0).
Proof.
  induction m as [|m IH]; intros Hm; [done|].
  rewrite Nat2Z.inj_succ, <- Z.add_1_r.
  rewrite seqZ_app by lia. rewrite foldl_app, IH by lia.
  rewrite fmap_app. simpl.
  replace (Z.of_nat 0 + (0 + Z.of_nat m)) with (Z.of_nat m) by lia.
  rewrite ta_set_nonneg by lia. rewrite Nat2Z.id.
  rewrite insert_app_r_alt by (rewrite length_fmap, length_seqZ; lia).
  rewrite length_fmap, length_seqZ, Nat2Z.id, Nat.sub_diag.
  destruct (drop m r0) as [|y rest] eqn:Hdrop.
  { apply (f_equal length) in Hdrop. rewrite length_drop in Hdrop.
    simpl in Hdrop. lia. }
  simpl. rewrite <- app_assoc. simpl. do 3 f_equal.
  replace (S m) with (m + 1)%nat by lia.
  rewrite <- drop_drop. by rewrite Hdrop.
Qed.

Lemma assign_entry_total (rhs : Z → Result R) (F : Z → R) (i : Z)
    (s : option (list R)) :
  (∀ i, rhs i = Ok (F i)) →
  is_Some s →
  assign_entry rhs i s = (Ok tt, (λ r, ta_set r i (F i)) <$> s).
Proof.
  intros Hrhs [r ->]. unfold assign_entry, update. by rewrite Hrhs.
Qed.

(** The loops that the elementwise methods share store [F j] at every
    index [j], with either setting of [unrollLoops]. *)
Lemma elementwise_loops_spec (g : Global) (rhs : Z → Result R)
    (F : Z → R) (r0 : list R) (len : Z) :
  (∀ i, rhs i = Ok (F i)) →
  elementwise_loops g (Z.of_nat (length r0)) rhs (mkVector (Some r0) len)
  = Ok (mkVector (Some (F <$> seqZ 0 (Z.of_nat (length r0)))) len).
Proof.
  intros Hrhs. unfold elementwise_loops. cbn [vec_array vec_length].
  set (f := λ (j : Z) (s : option (list R)),
              (λ r, ta_set r j (F j)) <$> s).
  assert (Hstep : ∀ j s, is_Some s → is_Some (f j s)).
  { intros j s [r ->]. by eexists. }
  assert (Hbody : ∀ i s, is_Some s → assign_entry rhs i s = (Ok tt, f i s)).
  { intros i s Hs. by apply assign_entry_total. }
  assert (Hfold : foldl (λ s j, f j s) (Some r0)
                    (seqZ 0 (Z.of_nat (length r0) - 0))
                  = Some (F <$> seqZ 0 (Z.of_nat (length r0)))).
  { rewrite Z.sub_0_r. unfold f. rewrite foldl_assign by done.
    by rewrite drop_all, app_nil_r. }
  destruct (unrollLoops g).
  - rewrite (unrolled_loops_fold is_Some f Hstep); [|intros i s Hs|done..].
    + by rewrite Hfold.
    + rewrite Comp_bind_unfold, Hbody by done.
      rewrite Comp_bind_unfold, Hbody by (by apply Hstep).
      rewrite Comp_bind_unfold, Hbody by (by do 2 apply Hstep).
      by rewrite Hbody by (by do 3 apply Hstep).
  - rewrite (plain_loop_fold is_Some f Hstep) by done.
    by rewrite Hfold.
Qed.

(** Without entries nothing is stored and nothing is read. *)
Lemma elementwise_loops_empty (g : Global) (ni : Z) (rhs : Z → Result R)
    (result : Vector R) :
  ni ≤ 0 →
  elementwise_loops g ni rhs result = Ok result.
Proof.
  intros Hni. unfold elementwise_loops, with_locals, for_.
  destruct result as [array len]. cbn [vec_array vec_length].
  destruct (unrollLoops g).
  - rewrite Comp_bind_unfold.
    replace (Z.to_nat (ni - 3 - 0)) with 0%nat by lia. simpl.
    replace (Z.to_nat (ni - 0)) with 0%nat by lia. done.
  - replace (Z.to_nat (ni - 0)) with 0%nat by lia. done.
Qed.
End serial_vector.

Section serial_vector_methods.
Context {R : Type} `{!Arith R}.

Lemma Vector_of_length (a : list R) :
  vec_length (Vector_of a) = Z.of_nat (length a).
Proof. by destruct a. Qed.

Lemma Vector_of_cons (x : R) (a : list R) :
  Vector_of (x :: a) = mkVector (Some (x :: a)) (Z.of_nat (length (x :: a))).
Proof. done. Qed.

Lemma Vector_new_pos (n : nat) :
  (0 < n)%nat →
  Vector_new (Z.of_nat n)
  = mkVector (Some (replicate n (zero : R))) (Z.of_nat n).
Proof.
  intros Hn. unfold Vector_new.
  destruct (Z.ltb_spec 0 (Z.of_nat n)); [|lia]. by rewrite Nat2Z.id.
Qed.

Lemma elementwise_loops_new (g : Global) (rhs : Z → Result R) (F : Z → R)
    (n : nat) :
  (0 < n)%nat →
  (∀ i, rhs i = Ok (F i)) →
  elementwise_loops g (Z.of_nat n) rhs (Vector_new (Z.of_nat n))
  = Ok (mkVector (Some (F <$> seqZ 0 (Z.of_nat n))) (Z.of_nat n)).
Proof.
  intros Hn Hrhs. rewrite Vector_new_pos by done.
  pose proof (elementwise_loops_spec g rhs F (replicate n zero)
                (Z.of_nat n) Hrhs) as Hspec.
  by rewrite length_replicate in Hspec.
Qed.

(** The serial combination of all the entries is the fold of the
    list. *)
Lemma serial_fold_all (op : R → R → R) (u : R) (a : list R) :
  serial_fold op u a 0 (Z.of_nat (length a)) = foldl op u a.
Proof.
  unfold serial_fold. rewrite Z.sub_0_r.
  transitivity (foldl op u (ta_get a <$> seqZ 0 (Z.of_nat (length a)))).
  - by rewrite foldl_fmap.
  - by rewrite fmap_seqZ_eq by (intros k x; apply ta_get_lookup).
Qed.

Lemma fold_step_op (op : R → R → R) (this : Vector R) (a : list R) :
  vec_array this = Some a →
  ∀ i acc, fold_step op this i acc = (Ok tt, op acc (ta_get a i)).
Proof.
  intros Ha i acc. unfold fold_step, update, vec_get. by rewrite Ha.
Qed.

Lemma fold_step4_op (op : R → R → R) `{!Assoc (=) op} (this : Vector R)
    (a : list R) :
  vec_array this = Some a →
  ∀ i acc,
    fold_step4 op this i acc
    = (Ok tt,
       op (op (op (op acc (ta_get a i)) (ta_get a (i + 1)))
              (ta_get a (i + 2))) (ta_get a (i + 3))).
Proof.
  intros Ha i acc. unfold fold_step4, update, vec_get. rewrite Ha. simpl.
  by rewrite !(assoc_L op).
Qed.

(** The reduction loops of [sum] and [product], plain or unrolled, from
    [i0] up to [n]. *)
Lemma reduction_loops_fold (op : R → R → R) `{!Assoc (=) op}
    (this : Vector R) (a : list R) (u : R) (i0 n : Z) :
  vec_array this = Some a →
  with_locals u (i ← for_ i0 (n - 3) 4 (fold_step4 op this);
                 for_ i n 1 (fold_step op this))
  = Ok (serial_fold op u a i0 n)
  ∧ with_locals u (for_ i0 n 1 (fold_step op this))
    = Ok (serial_fold op u a i0 n).
Proof.
  intros Ha. unfold serial_fold. split.
  - apply (unrolled_loops_fold (λ _, True)
             (λ j acc, op acc (ta_get a j))); [done| | |done].
    + intros i s _. by apply fold_step4_op.
    + intros i s _. by apply fold_step_op.
  - apply (plain_loop_fold (λ _, True)
             (λ j acc, op acc (ta_get a j))); [done| |done].
    intros i s _. by apply fold_step_op.
Qed.

Lemma reduction_loops_empty (op : R → R → R) (this : Vector R) (u : R)
    (n : Z) :
  n ≤ 0 →
  with_locals u (i ← for_ 0 (n - 3) 4 (fold_step4 op this);
                 for_ i n 1 (fold_step op this)) = Ok u
  ∧ with_locals u (for_ 0 n 1 (fold_step op this)) = Ok u.
Proof.
  intros Hn. unfold with_locals, for_. rewrite Comp_bind_unfold.
  replace (Z.to_nat (n - 3 - 0)) with 0%nat by lia. simpl.
  replace (Z.to_nat (n - 0)) with 0%nat by lia. done.
Qed.

(** [MW.Vector.fromArray] copies the entries: it returns the Vector that
    holds the entries of [arr], and the empty Vector, whose [array] is
    [null], for an empty [arr]. *)
Lemma Vector_fromArray_of_list (arr : list R) :
  Vector_fromArray arr = Ok (Vector_of arr).
Proof.
  destruct arr as [|x arr]; [reflexivity|].
  set (a := x :: arr).
  transitivity
    (elementwise_loops (mkGlobal 1 0 false 1) (Z.of_nat (length a))
       (λ i, Ok (ta_get a i)) (Vector_new (Z.of_nat (length a))));
    [reflexivity|].
  rewrite (elementwise_loops_new _ _ (ta_get a)) by (simpl; lia || done).
  rewrite fmap_seqZ_eq by (intros k y; apply ta_get_lookup).
  done.
Qed.

Lemma Vector_elementwise_of_list (op : R → R → R) (g : Global)
    (a b : list R) :
  Vector_elementwise op g (VVec (Vector_of a)) (VVec (Vector_of b))
  = if decide (length a = length b)
    then Ok (Vector_of (zip_with op a b))
    else Throw (PlainError "Vectors have unequal lengths.").
Proof.
  unfold Vector_elementwise.
  case_decide as Hlen.
  - unfold checkVectors. cbn [checkVector nullOrUndefined
      checkNullOrUndefined mbind Result_bind].
    rewrite decide_True by (rewrite !Vector_of_length; lia).
    cbn [mbind Result_bind].
    destruct a as [|x a], b as [|y b]; try discriminate Hlen.
    { by rewrite elementwise_loops_empty. }
    rewrite !Vector_of_cons. cbn [vec_length].
    rewrite (elementwise_loops_new _ _
               (λ i, op (ta_get (x :: a) i) (ta_get (y :: b) i)))
      by (simpl; lia || done).
    replace (length (x :: a)) with (length (zip_with op (x :: a) (y :: b)))
      by (rewrite length_zip_with; lia).
    rewrite fmap_seqZ_eq; [done|].
    intros k z Hz. apply lookup_zip_with_Some in Hz as (u & v & -> & Hu & Hv).
    by rewrite (ta_get_lookup _ _ _ Hu), (ta_get_lookup _ _ _ Hv).
  - rewrite checkVectors_unequal; [done|].
    rewrite !Vector_of_length. lia.
Qed.

(** [plus], [minus], [times], and [divide] as every other instance of
    their common text, on two Vectors of one length return the Vector of
    the entrywise results, with either setting of [unrollLoops]; on
    Vectors of different lengths they throw. *)
Theorem Vector_elementwise_zip (g : Global) (a b : list R) :
  let this := VVec (Vector_of a) in
  let w := VVec (Vector_of b) in
  let unequal := Throw (PlainError "Vectors have unequal lengths.") in
  Vector_plus g this w
  = (if decide (length a = length b)
     then Ok (Vector_of (zip_with add a b)) else unequal)
  ∧ Vector_minus g this w
    = (if decide (length a = length b)
       then Ok (Vector_of (zip_with sub a b)) else unequal)
  ∧ Vector_times g this w
    = (if decide (length a = length b)
       then Ok (Vector_of (zip_with mul a b)) else unequal)
  ∧ ∀ op, Vector_elementwise op g this w
          = if decide (length a = length b)
            then Ok (Vector_of (zip_with op a b)) else unequal.
Proof.
  intros this w unequal. unfold Vector_plus, Vector_minus, Vector_times.
  repeat split; try intros op; apply Vector_elementwise_of_list.
Qed.

(** [scale] returns the Vector of the entries multiplied by [alpha],
    with either setting of [unrollLoops]. *)
Theorem Vector_scale_map (g : Global) (a : list R) (alpha : R) :
  Vector_scale g (Vector_of a) (VNum alpha)
  = Ok (Vector_of ((λ x, mul x alpha) <$> a)).
Proof.
  unfold Vector_scale. cbn [checkNumber nullOrUndefined
    checkNullOrUndefined mbind Result_bind].
  destruct a as [|x a].
  { by rewrite elementwise_loops_empty. }
  rewrite !Vector_of_cons. cbn [vec_length].
  rewrite (elementwise_loops_new _ _ (λ i, mul (ta_get (x :: a) i) alpha))
    by (simpl; lia || done).
  replace (length (x :: a))
    with (length ((λ x, mul x alpha) <$> x :: a))
    by (by rewrite length_fmap).
  rewrite fmap_seqZ_eq; [done|].
  intros k z Hz. rewrite list_lookup_fmap in Hz.
  destruct ((x :: a) !! k) as [u|] eqn:Hu; [|done].
  simpl in Hz. injection Hz as <-.
  by rewrite (ta_get_lookup _ _ _ Hu).
Qed.

Lemma Vector_sum_of_list `{!Assoc (=) (add (R:=R))} (g : Global)
    (a : list R) :
  Vector_sum g (Vector_of a) = Ok (foldl add zero a).
Proof.
  unfold Vector_sum. rewrite Vector_of_length.
  destruct a as [|x a].
  - destruct (reduction_loops_empty add (Vector_of []) zero 0 ltac:(lia))
      as [H4 H1].
    destruct (unrollLoops g); [exact H4|exact H1].
  - destruct (reduction_loops_fold add (Vector_of (x :: a)) (x :: a) zero
                0 (Z.of_nat (length (x :: a))) eq_refl) as [H4 H1].
    rewrite <- (serial_fold_all add zero (x :: a)).
    destruct (unrollLoops g); [exact H4|exact H1].
Qed.

Lemma Vector_product_of_list `{!Assoc (=) (mul (R:=R))} (g : Global)
    (a : list R) :
  Vector_product g (Vector_of a) = Ok (foldl mul one a).
Proof.
  unfold Vector_product. rewrite Vector_of_length.
  destruct a as [|x a].
  - destruct (reduction_loops_empty mul (Vector_of []) one 0 ltac:(lia))
      as [H4 H1].
    destruct (unrollLoops g); [exact H4|exact H1].
  - destruct (reduction_loops_fold mul (Vector_of (x :: a)) (x :: a) one
                0 (Z.of_nat (length (x :: a))) eq_refl) as [H4 H1].
    rewrite <- (serial_fold_all mul one (x :: a)).
    destruct (unrollLoops g); [exact H4|exact H1].
Qed.

(** [sum] is the sum of the entries taken in order from [0], and
    [product] their product taken in order from [1], with either setting
    of [unrollLoops]; of the empty Vector they are [0] and [1]. *)
Theorem Vector_sum_product_foldl
    `{!Assoc (=) (add (R:=R))} `{!Assoc (=) (mul (R:=R))} (g : Global)
    (a : list R) :
  Vector_sum g (Vector_of a) = Ok (foldl add zero a)
  ∧ Vector_product g (Vector_of a) = Ok (foldl mul one a).
Proof.
  split; [apply Vector_sum_of_list|apply Vector_product_of_list].
Qed.

Lemma dot_step_total (v w : Vector R) (a b : list R) :
  vec_array v = Some a → vec_array w = Some b →
  ∀ i tot,
    dot_step v w i tot
    = (Ok tt, add tot (mul (ta_get a i) (ta_get b i))).
Proof.
  intros Ha Hb i tot. unfold dot_step, update, vec_get. by rewrite Ha, Hb.
Qed.

Lemma dot_step4_total `{!Assoc (=) (add (R:=R))} (v w : Vector R)
    (a b : list R) :
  vec_array v = Some a → vec_array w = Some b →
  ∀ i tot,
    dot_step4 v w i tot
    = (Ok tt,
       add (add (add (add tot (mul (ta_get a i) (ta_get b i)))
                     (mul (ta_get a (i + 1)) (ta_get b (i + 1))))
                (mul (ta_get a (i + 2)) (ta_get b (i + 2))))
           (mul (ta_get a (i + 3)) (ta_get b (i + 3)))).
Proof.
  intros Ha Hb i tot. unfold dot_step4, update, vec_get.
  rewrite Ha, Hb. simpl. by rewrite !(assoc_L add).
Qed.

(** The loops of the dot products, plain or unrolled, from [i0] up to
    [n]. *)
Lemma dot_loops_fold `{!Assoc (=) (add (R:=R))} (v w : Vector R)
    (a b : list R) (i0 n : Z) :
  vec_array v = Some a → vec_array w = Some b →
  with_locals zero (i ← for_ i0 (n - 3) 4 (dot_step4 v w);
                    for_ i n 1 (dot_step v w))
  = Ok (serial_dot a b i0 n)
  ∧ with_locals zero (for_ i0 n 1 (dot_step v w))
    = Ok (serial_dot a b i0 n).
Proof.
  intros Ha Hb. unfold serial_dot. split.
  - apply (unrolled_loops_fold (λ _, True)
             (λ j acc, add acc (mul (ta_get a j) (ta_get b j))));
      [done| | |done].
    + intros i s _. by apply dot_step4_total.
    + intros i s _. by apply dot_step_total.
  - apply (plain_loop_fold (λ _, True)
             (λ j acc, add acc (mul (ta_get a j) (ta_get b j))));
      [done| |done].
    intros i s _. by apply dot_step_total.
Qed.

Lemma serial_dot_all (a b : list R) :
  length a = length b →
  serial_dot a b 0 (Z.of_nat (length a)) = foldl add zero (zip_with mul a b).
Proof.
  intros Hlen. unfold serial_dot. rewrite Z.sub_0_r.
  transitivity
    (foldl add zero
       ((λ i, mul (ta_get a i) (ta_get b i))
          <$> seqZ 0 (Z.of_nat (length (zip_with mul a b))))).
  - rewrite foldl_fmap. do 3 f_equal. rewrite length_zip_with; lia.
  - rewrite fmap_seqZ_eq; [done|].
    intros k z Hz.
    apply lookup_zip_with_Some in Hz as (u & v & -> & Hu & Hv).
    by rewrite (ta_get_lookup _ _ _ Hu), (ta_get_lookup _ _ _ Hv).
Qed.

Lemma Vector_dotVector_of_list `{!Assoc (=) (add (R:=R))} (g : Global)
    (a b : list R) :
  length a = length b →
  Vector_dotVector g (VVec (Vector_of a)) (VVec (Vector_of b))
  = Ok (foldl add zero (zip_with mul a b)).
Proof.
  intros Hlen. unfold Vector_dotVector, checkVectors.
  cbn [checkVector nullOrUndefined checkNullOrUndefined mbind Result_bind].
  rewrite decide_True by (rewrite !Vector_of_length; lia).
  cbn [mbind Result_bind]. rewrite Vector_of_length.
  destruct a as [|x a], b as [|y b]; try discriminate Hlen.
  - unfold with_locals, for_. rewrite Comp_bind_unfold.
    by destruct (unrollLoops g).
  - destruct (dot_loops_fold (Vector_of (x :: a)) (Vector_of (y :: b))
                (x :: a) (y :: b) 0 (Z.of_nat (length (x :: a)))
                eq_refl eq_refl) as [H4 H1].
    rewrite <- serial_dot_all by done.
    destruct (unrollLoops g); [exact H4|exact H1].
Qed.

(** [dotVector] on two Vectors of one length is the sum, taken in order
    from [0], of the products of their entries, with either setting of
    [unrollLoops]; on Vectors of different lengths it throws. *)
Theorem Vector_dotVector_foldl `{!Assoc (=) (add (R:=R))} (g : Global)
    (a b : list R) :
  (length a = length b →
   Vector_dotVector g (VVec (Vector_of a)) (VVec (Vector_of b))
   = Ok (foldl add zero (zip_with mul a b)))
  ∧ (length a ≠ length b →
     Vector_dotVector g (VVec (Vector_of a)) (VVec (Vector_of b))
     = Throw (PlainError "Vectors have unequal lengths.")).
Proof.
  split; intros Hlen.
  - by apply Vector_dotVector_of_list.
  - unfold Vector_dotVector. rewrite checkVectors_unequal; [done|].
    rewrite !Vector_of_length. lia.
Qed.
End serial_vector_methods.

(** The sum, the product and the dot product of Vectors of five
    entries, with unrolled loops. *)
Lemma Vector_sum_product_foldl_witness :
  Vector_sum (worker_global 1 0 true)
    (Vector_of [Fin 1; Fin 2; Fin 3; Fin 4; Fin 5])
  = Ok (Fin 15)
  ∧ Vector_product (worker_global 1 0 true)
      (Vector_of [Fin 1; Fin 2; Fin 3; Fin 4; Fin 5])
    = Ok (Fin 120).
Proof.
  exact (Vector_sum_product_foldl (worker_global 1 0 true)
           [Fin 1; Fin 2; Fin 3; Fin 4; Fin 5]).
Defined.

Lemma Vector_dotVector_foldl_witness :
  Vector_dotVector (worker_global 1 0 true)
    (VVec (Vector_of [Fin 1; Fin 2; Fin 3; Fin 4; Fin 5]))
    (VVec (Vector_of [Fin 5; Fin 4; Fin 3; Fin 2; Fin 1]))
  = Ok (Fin 35)
  ∧ Vector_dotVector (worker_global 1 0 true)
      (VVec (Vector_of [Fin 1; Fin 2]))
      (VVec (Vector_of [Fin 5]))
    = Throw (PlainError "Vectors have unequal lengths.").
Proof.
  split.
  - exact (proj1 (Vector_dotVector_foldl (worker_global 1 0 true)
                    [Fin 1; Fin 2; Fin 3; Fin 4; Fin 5]
                    [Fin 5; Fin 4; Fin 3; Fin 2; Fin 1]) eq_refl).
  - apply (proj2 (Vector_dotVector_foldl (worker_global 1 0 true)
                    [Fin 1; Fin 2] [Fin 5])).
    simpl. lia.
Defined.

(** ** Partitioned operations and their serial counterparts *)

Section partitioned.
Context {R : Type} `{!Arith R}.

(** Storing [F j] for the indices [j] from [i0] on, in order, at the
    offsets from [0] on, into an array that has room for them. *)
Lemma foldl_store (F : Z → R) (x0 : list R) (i0 : Z) (m : nat) :
  (m ≤ length x0)%nat →
  foldl (λ (s : list R * Z) j, (ta_set s.1 s.2 (F j), s.2 + 1)) (x0, 0)
    (seqZ i0 (Z.of_nat m))
  = ((F <$> seqZ i0 (Z.of_nat m)) ++ drop m x0, Z.of_nat m).
Proof.
  induction m as [|m IH]; intros Hm; [done|].
  rewrite Nat2Z.inj_succ, <- Z.add_1_r.
  rewrite seqZ_app by lia. rewrite foldl_app, IH by lia.
  rewrite fmap_app. simpl.
  rewrite ta_set_nonneg by lia. rewrite Nat2Z.id.
  rewrite insert_app_r_alt by (rewrite length_fmap, length_seqZ; lia).
  rewrite length_fmap, length_seqZ, Nat2Z.id, Nat.sub_diag.
  destruct (drop m x0) as [|y rest] eqn:Hdrop.
  { apply (f_equal length) in Hdrop. rewrite length_drop in Hdrop.
    simpl in Hdrop. lia. }
  simpl. rewrite <- app_assoc. simpl. do 3 f_equal.
  replace (S m) with (m + 1)%nat by lia.
  rewrite <- drop_drop. by rewrite Hdrop.
Qed.

(** A function of the index that agrees with the entries of [l] lists
    the slice of [l] in a range when it is applied to the indices of the
    range in order. *)
Lemma fmap_seqZ_slice (F : Z → R) (l : list R) (r : Range) :
  (∀ k x, l !! k = Some x → F (Z.of_nat k) = x) →
  0 ≤ ifrom r ≤ ito r → ito r ≤ Z.of_nat (length l) →
  F <$> seqZ (ifrom r) (range_len r) = slice l r.
Proof.
  intros HF Hr Hl. unfold slice, range_len. apply list_eq. intros t.
  rewrite list_lookup_fmap.
  destruct (decide (Z.of_nat t < ito r - ifrom r)) as [Ht|Ht].
  - rewrite lookup_seqZ_lt by lia. simpl.
    rewrite lookup_take_lt by lia. rewrite lookup_drop.
    destruct (lookup_lt_is_Some_2 l (Z.to_nat (ifrom r) + t)) as [x Hx];
      [lia|].
    rewrite Hx. f_equal.
    replace (ifrom r + Z.of_nat t)
      with (Z.of_nat (Z.to_nat (ifrom r) + t)) by lia.
    by apply HF.
  - rewrite lookup_seqZ_ge by lia. simpl.
    by rewrite lookup_take_ge by lia.
Qed.

Lemma store_op_total (op : R → R → R) (v w : Vector R) (a b : list R) :
  vec_array v = Some a → vec_array w = Some b →
  ∀ i (s : list R * Z),
    store_op op v w i s
    = (Ok tt,
       (ta_set s.1 s.2 (op (ta_get a i) (ta_get b i)), s.2 + 1)).
Proof.
  intros Ha Hb i [x offset]. unfold store_op, update, vec_get.
  by rewrite Ha, Hb.
Qed.

(** The range of a worker lies within [[0, n]]. *)
Lemma spec_partition_bounds (n k id : Z) :
  1 ≤ n → 1 ≤ k → n / k < 2 ^ 31 → 0 ≤ id < k →
  0 ≤ ifrom (spec_partition n k id)
  ∧ ifrom (spec_partition n k id) ≤ ito (spec_partition n k id)
  ∧ ito (spec_partition n k id) ≤ n.
Proof.
  intros Hn Hk Hfit Hid.
  pose proof (spec_partition_nonneg n k Hn Hk Hfit id ltac:(lia)) as [? ?].
  split; [done|]. split; [done|].
  destruct (decide (id = k - 1)) as [->|Hne].
  - rewrite spec_partition_last by done. lia.
  - pose proof (spec_partition_ordered n k Hn Hk Hfit id (k - 1)
                  ltac:(lia) ltac:(lia)).
    pose proof (spec_partition_nonneg n k Hn Hk Hfit (k - 1) ltac:(lia))
      as [? ?].
    rewrite spec_partition_last in * by done. lia.
Qed.

(** The plain loop that fills the buffer of a partition. *)
Lemma store_loop_slice (op : R → R → R) (v w : Vector R) (a b : list R)
    (lb : Range) :
  vec_array v = Some a → vec_array w = Some b →
  length a = length b →
  0 ≤ ifrom lb ≤ ito lb → ito lb ≤ Z.of_nat (length a) →
  with_locals (replicate (Z.to_nat (ito lb - ifrom lb)) zero, 0)
    (for_ (ifrom lb) (ito lb) 1 (store_op op v w))
  = Ok (slice (zip_with op a b) lb, ito lb - ifrom lb).
Proof.
  intros Ha Hb Hlen Hlb Hn.
  set (F := λ i, op (ta_get a i) (ta_get b i)).
  rewrite (plain_loop_fold (λ _, True)
             (λ j (s : list R * Z), (ta_set s.1 s.2 (F j), s.2 + 1)));
    [|done|intros i s _; by apply store_op_total|done].
  assert (Hm : ito lb - ifrom lb = Z.of_nat (Z.to_nat (ito lb - ifrom lb)))
    by lia.
  set (m := Z.to_nat (ito lb - ifrom lb)) in *. rewrite Hm.
  rewrite foldl_store by (by rewrite length_replicate).
  rewrite drop_ge, app_nil_r by (by rewrite length_replicate).
  do 2 f_equal. rewrite <- Hm.
  apply (fmap_seqZ_slice F (zip_with op a b) lb); [|done|].
  - intros t z Hz.
    apply lookup_zip_with_Some in Hz as (u & u' & -> & Hu & Hu').
    unfold F. by rewrite (ta_get_lookup _ _ _ Hu), (ta_get_lookup _ _ _ Hu').
  - rewrite length_zip_with. lia.
Qed.

(** With plain loops, worker [id] of [k] ships its slice of the
    entrywise results, with its offset and the length of the whole. *)
Lemma wkElementwise_plain (op : R → R → R) (k id : Z) (a b : list R)
    (tag : value R) (rebroadcast : bool) (out : list (Message R)) :
  length a = length b →
  1 ≤ Z.of_nat (length a) → 1 ≤ k → Z.of_nat (length a) / k < 2 ^ 31 →
  0 ≤ id < k →
  nullOrUndefined tag = false →
  wkElementwise op (worker_global k id false)
    (VVec (Vector_of a)) (VVec (Vector_of b)) tag rebroadcast out
  = (Ok tt,
     out ++ [worker_gather_report k (zip_with op a b) tag rebroadcast id]).
Proof.
  intros Hlen Hn Hk Hfit Hid Htag.
  assert (Hcv : checkVectors (VVec (Vector_of a)) (VVec (Vector_of b))
                = Ok (Vector_of a, Vector_of b)).
  { unfold checkVectors. cbn [checkVector nullOrUndefined
      checkNullOrUndefined mbind Result_bind].
    rewrite decide_True; [done|]. rewrite !Vector_of_length. lia. }
  assert (Hzip : Z.of_nat (length (zip_with op a b))
                 = Z.of_nat (length a)).
  { rewrite length_zip_with; lia. }
  unfold wkElementwise, worker_gather_report.
  rewrite Comp_bind_unfold. unfold lift at 1. rewrite Hcv.
  rewrite Comp_bind_unfold. unfold lift at 1, checkNullOrUndefined.
  rewrite Htag. rewrite Hzip, Vector_of_length.
  rewrite loadBalance_spec_partition by done.
  set (lb := spec_partition (Z.of_nat (length a)) k id).
  destruct (spec_partition_bounds (Z.of_nat (length a)) k id)
    as (Hlo & Hmid & Hhi); [done..|]. fold lb in Hlo, Hmid, Hhi.
  rewrite Comp_bind_unfold. unfold lift at 1, new_Float64Array.
  destruct (Z.ltb_spec (ito lb - ifrom lb) 0) as [?|_]; [lia|].
  rewrite Comp_bind_unfold. unfold lift at 1.
  cbn [unrollLoops worker_global].
  destruct a as [|x a], b as [|y b]; try (simpl in *; lia).
  rewrite (store_loop_slice op _ _ (x :: a) (y :: b)) by done.
  reflexivity.
Qed.

Lemma concat_singletons {A B : Type} (h : A → B) (l : list A) :
  concat ((λ x, [h x]) <$> l) = h <$> l.
Proof. induction l as [|x l IH]; [done|]. simpl. by f_equal. Qed.

(** What the workers of a pool post, taken together, when each of them
    posts one message. *)
Lemma posts_of_pool {A : Type} (call : Z → Comp (list (Message R)) A)
    (report : Z → Message R) (k : Z) :
  (∀ id, 0 ≤ id < k → ∃ r, call id [] = (Ok r, [report id])) →
  Forall (λ id, is_ok (call id []).1 = true) (seqZ 0 k)
  ∧ concat ((λ id, posts (call id)) <$> seqZ 0 k) = report <$> seqZ 0 k.
Proof.
  intros Hcall. split.
  - apply Forall_seqZ. intros id Hid.
    destruct (Hcall id ltac:(lia)) as [r ->]. done.
  - rewrite <- (concat_singletons report). f_equal.
    apply Forall_fmap_ext_1, Forall_seqZ. intros id Hid.
    destruct (Hcall id ltac:(lia)) as [r Hr]. unfold posts. by rewrite Hr.
Qed.

End partitioned.

(** *** The slices of a partition *)

Section consecutive_slices.
Context {A : Type}.
Variables (n k : Z) (v : list A).
Hypothesis Hn : 1 ≤ n.
Hypothesis Hk : 1 ≤ k.
Hypothesis Hfit : n / k < 2 ^ 31.
Hypothesis Hlen : Z.of_nat (length v) = n.

Local Abbreviation sp := (spec_partition n k).

Lemma partition_slice_length (id : Z) :
  0 ≤ id < k →
  Z.of_nat (length (slice v (sp id))) = ito (sp id) - ifrom (sp id).
Proof.
  intros Hid.
  destruct (spec_partition_bounds n k id) as (Hlo & Hmid & Hhi); [done..|].
  unfold slice, range_len. rewrite length_take, length_drop. lia.
Qed.

(** The slices of the first [m] workers, one after the other, are the
    entries before the range of the next worker. *)
Lemma partition_slices_concat (m : nat) :
  Z.of_nat m ≤ k →
  concat ((λ id, slice v (sp id)) <$> seqZ 0 (Z.of_nat m))
  = take (Z.to_nat (ifrom (sp (Z.of_nat m)))) v.
Proof.
  induction m as [|m IH]; intros Hm.
  - change (Z.of_nat 0) with 0.
    by rewrite (spec_partition_first n k).
  - rewrite Nat2Z.inj_succ, <- Z.add_1_r.
    rewrite seqZ_app by lia. rewrite fmap_app, concat_app, IH by lia.
    change (seqZ (0 + Z.of_nat m) 1) with [0 + Z.of_nat m].
    cbn [fmap list_fmap concat]. rewrite app_nil_r, Z.add_0_l.
    destruct (spec_partition_bounds n k (Z.of_nat m))
      as (Hlo & Hmid & Hhi); [done..|lia|].
    unfold slice, range_len. rewrite take_take_drop.
    rewrite <- (spec_partition_next n k Hn Hk Hfit (Z.of_nat m)).
    f_equal. lia.
Qed.

(** The slices of all the workers, one after the other, are the
    whole. *)
Lemma partition_slices_whole :
  concat ((λ id, slice v (sp id)) <$> seqZ 0 k) = v.
Proof.
  pose proof (partition_slices_concat (Z.to_nat k) ltac:(lia)) as H.
  rewrite Z2Nat.id in H by lia. rewrite H.
  assert (Hend : ifrom (sp k) = n).
  { pose proof (spec_partition_next n k Hn Hk Hfit (k - 1)) as Hnext.
    rewrite (spec_partition_last n k) in Hnext by done.
    by replace (k - 1 + 1) with k in Hnext by lia. }
  rewrite Hend. apply take_ge. lia.
Qed.
End consecutive_slices.

Section partition_reports.
Context {R : Type} `{!Arith R}.
Variables (n k : Z).
Hypothesis Hn : 1 ≤ n.
Hypothesis Hk : 1 ≤ k.
Hypothesis Hfit : n / k < 2 ^ 31.

Local Abbreviation sp := (spec_partition n k).

(** Reports that carry the slices of the partition with the offsets of
    the ranges are the reports of a gather round: every offset is the
    total length of the slices before it. *)
Lemma partition_gather_reports (v : list R) (tag : value R)
    (rebroadcast : bool) (len : Z) (m : nat) :
  Z.of_nat (length v) = n →
  ∀ id0, 0 ≤ id0 → id0 + Z.of_nat m ≤ k →
    (λ id, MsgGatherVector tag id rebroadcast len (ifrom (sp id))
             (slice v (sp id))) <$> seqZ id0 (Z.of_nat m)
    = gather_reports tag rebroadcast len id0 (ifrom (sp id0))
        ((λ id, slice v (sp id)) <$> seqZ id0 (Z.of_nat m)).
Proof.
  intros Hlen. induction m as [|m IH]; intros id0 Hid0 Hm; [done|].
  rewrite Nat2Z.inj_succ, seqZ_cons by lia.
  cbn [fmap list_fmap gather_reports]. f_equal.
  rewrite (partition_slice_length n k v) by (done || lia).
  replace (ifrom (sp id0) + (ito (sp id0) - ifrom (sp id0)))
    with (ito (sp id0)) by lia.
  rewrite (spec_partition_next n k Hn Hk Hfit id0).
  replace (Z.pred (Z.succ (Z.of_nat m))) with (Z.of_nat m) by lia.
  replace (Z.succ id0) with (id0 + 1) by lia.
  apply IH; lia.
Qed.

Lemma partition_rows_reports (M : list (list R)) (tag : value R)
    (rebroadcast : bool) (nr nc : Z) (m : nat) :
  Z.of_nat (length M) = n →
  ∀ id0, 0 ≤ id0 → id0 + Z.of_nat m ≤ k →
    (λ id, MsgGatherMatrixRows tag id rebroadcast nr nc
             (ito (sp id) - ifrom (sp id)) (ifrom (sp id))
             (slice M (sp id))) <$> seqZ id0 (Z.of_nat m)
    = gather_rows_reports tag rebroadcast nr nc id0 (ifrom (sp id0))
        ((λ id, slice M (sp id)) <$> seqZ id0 (Z.of_nat m)).
Proof.
  intros Hlen. induction m as [|m IH]; intros id0 Hid0 Hm; [done|].
  rewrite Nat2Z.inj_succ, seqZ_cons by lia.
  cbn [fmap list_fmap gather_rows_reports].
  rewrite (partition_slice_length n k M) by (done || lia). f_equal.
  replace (ifrom (sp id0) + (ito (sp id0) - ifrom (sp id0)))
    with (ito (sp id0)) by lia.
  rewrite (spec_partition_next n k Hn Hk Hfit id0).
  replace (Z.pred (Z.succ (Z.of_nat m))) with (Z.of_nat m) by lia.
  replace (Z.succ id0) with (id0 + 1) by lia.
  apply IH; lia.
Qed.

(** What the workers of a pool post when worker [id] ships its slice of
    [v] with the offset of its range: in the order of the ids, the
    reports of a gather round whose slices make up [v]. *)
Lemma pool_gathers_slices {X : Type}
    (call : Z → Comp (list (Message R)) X) (v : list R) (tag : value R)
    (rebroadcast : bool) (len : Z) :
  Z.of_nat (length v) = n →
  (∀ id, 0 ≤ id < k →
     ∃ x, call id []
          = (Ok x, [MsgGatherVector tag id rebroadcast len (ifrom (sp id))
                      (slice v (sp id))])) →
  ∃ slices,
    concat slices = v
    ∧ length slices = Z.to_nat k
    ∧ Forall (λ id, is_ok (call id []).1 = true) (seqZ 0 k)
    ∧ concat ((λ id, posts (call id)) <$> seqZ 0 k)
      = gather_reports tag rebroadcast len 0 0 slices.
Proof.
  intros Hlen Hcall.
  exists ((λ id, slice v (sp id)) <$> seqZ 0 k).
  split; [by apply (partition_slices_whole n k v)|].
  split; [by rewrite length_fmap, length_seqZ|].
  destruct (posts_of_pool call
              (λ id, MsgGatherVector tag id rebroadcast len (ifrom (sp id))
                       (slice v (sp id))) k Hcall) as [Hret ->].
  split; [done|].
  pose proof (partition_gather_reports v tag rebroadcast len (Z.to_nat k)
                Hlen 0 ltac:(lia) ltac:(lia)) as H.
  rewrite Z2Nat.id in H by lia.
  by rewrite (spec_partition_first n k) in H.
Qed.

Lemma pool_gathers_rows {X : Type}
    (call : Z → Comp (list (Message R)) X) (M : list (list R))
    (tag : value R) (rebroadcast : bool) (nr nc : Z) :
  Z.of_nat (length M) = n →
  (∀ id, 0 ≤ id < k →
     ∃ x, call id []
          = (Ok x, [MsgGatherMatrixRows tag id rebroadcast nr nc
                      (ito (sp id) - ifrom (sp id)) (ifrom (sp id))
                      (slice M (sp id))])) →
  ∃ slices,
    concat slices = M
    ∧ length slices = Z.to_nat k
    ∧ Forall (λ id, is_ok (call id []).1 = true) (seqZ 0 k)
    ∧ concat ((λ id, posts (call id)) <$> seqZ 0 k)
      = gather_rows_reports tag rebroadcast nr nc 0 0 slices.
Proof.
  intros Hlen Hcall.
  exists ((λ id, slice M (sp id)) <$> seqZ 0 k).
  split; [by apply (partition_slices_whole n k M)|].
  split; [by rewrite length_fmap, length_seqZ|].
  destruct (posts_of_pool call
              (λ id, MsgGatherMatrixRows tag id rebroadcast nr nc
                       (ito (sp id) - ifrom (sp id)) (ifrom (sp id))
                       (slice M (sp id))) k Hcall) as [Hret ->].
  split; [done|].
  pose proof (partition_rows_reports M tag rebroadcast nr nc (Z.to_nat k)
                Hlen 0 ltac:(lia) ltac:(lia)) as H.
  rewrite Z2Nat.id in H by lia.
  by rewrite (spec_partition_first n k) in H.
Qed.
End partition_reports.

Section partitioned_elementwise.
Context {R : Type} `{!Arith R}.

(** The partitioned entrywise operations ship the serial result in
    slices.  Let each of the [k] workers call [wkPlus] (or [wkMinus],
    [wkTimes], [wkDivide]: any instance of their common text) with
    plain loops on two Vectors of one length [n ≥ k].  Every call
    returns and posts one gather report; in the order of the worker
    ids the reports are those of a gather round for [k] consecutive
    slices, each shipped with its offset and with the length [n], and
    the slices one after the other are the entries of the Vector that
    the serial method ([plus], ...) returns, with either setting of
    [unrollLoops]. *)
Theorem parallel_elementwise_is_serial (op : R → R → R) (gs : Global)
    (k : Z) (a b : list R) (tag : value R) (rebroadcast : bool) :
  let n := Z.of_nat (length a) in
  let this := VVec (Vector_of a) in
  let w := VVec (Vector_of b) in
  let call id :=
    wkElementwise op (worker_global k id false) this w tag rebroadcast in
  length a = length b →
  1 ≤ k → k ≤ n → n / k < 2 ^ 31 →
  nullOrUndefined tag = false →
  ∃ slices,
    Vector_elementwise op gs this w = Ok (Vector_of (concat slices))
    ∧ length slices = Z.to_nat k
    ∧ Forall (λ id, is_ok (call id []).1 = true) (seqZ 0 k)
    ∧ concat ((λ id, posts (call id)) <$> seqZ 0 k)
      = gather_reports tag rebroadcast n 0 0 slices.
Proof.
  intros n this w call Hlen Hk Hkn Hfit Htag.
  assert (Hzip : Z.of_nat (length (zip_with op a b)) = n).
  { rewrite length_zip_with; lia. }
  destruct (pool_gathers_slices n k ltac:(lia) Hk Hfit call
              (zip_with op a b) tag rebroadcast n Hzip)
    as (slices & Hconcat & Hslices & Hret & Hposts).
  { intros id Hid. exists tt. unfold call, this, w.
    rewrite wkElementwise_plain by (done || lia).
    unfold worker_gather_report.
    rewrite Hzip, loadBalance_spec_partition by (done || lia). done. }
  exists slices. rewrite Hconcat. split; [|done].
  unfold this, w. rewrite Vector_elementwise_of_list.
  by rewrite decide_True.
Qed.
End partitioned_elementwise.

(** Three workers add two Vectors of five entries. *)
Lemma parallel_elementwise_is_serial_witness :
  let a := [Fin 1; Fin 2; Fin 3; Fin 4; Fin 5] in
  let b := [Fin 10; Fin 20; Fin 30; Fin 40; Fin 50] in
  let call id :=
    wkPlus (worker_global 3 id false) (VVec (Vector_of a))
      (VVec (Vector_of b)) (VStr "t") false in
  ∃ slices,
    Vector_plus (worker_global 1 0 true) (VVec (Vector_of a))
      (VVec (Vector_of b)) = Ok (Vector_of (concat slices))
    ∧ length slices = 3%nat
    ∧ Forall (λ id, is_ok (call id []).1 = true) (seqZ 0 3)
    ∧ posts (call 0) ++ posts (call 1) ++ posts (call 2)
      = gather_reports (VStr "t") false 5 0 0 slices.
Proof.
  intros a b call.
  destruct (parallel_elementwise_is_serial add (worker_global 1 0 true) 3
              a b (VStr "t") false)
    as (slices & Hserial & Hlen & Hret & Hposts);
    try reflexivity; try (vm_compute; congruence).
  exists slices. repeat split; done.
Defined.

(** ** Partitioned reductions and their serial counterparts *)

Section partitioned_reductions.
Context {R : Type} `{!Arith R}.

Section folds.
Variable op : R → R → R.
Variable u : R.
Variable term : Z → R.
Context `{!Assoc (=) op} `{!RightId (=) u op}.

Lemma op_foldl (x y : R) (l : list Z) :
  op x (foldl (λ acc j, op acc (term j)) y l)
  = foldl (λ acc j, op acc (term j)) (op x y) l.
Proof.
  revert y. induction l as [|j l IH]; intros y; [done|].
  simpl. rewrite IH. by rewrite (assoc_L op).
Qed.

(** The fold of a list, from the unit, is the combination of the folds
    of its two parts. *)
Lemma foldl_parts (l1 l2 : list Z) :
  op (foldl (λ acc j, op acc (term j)) u l1)
     (foldl (λ acc j, op acc (term j)) u l2)
  = foldl (λ acc j, op acc (term j)) u (l1 ++ l2).
Proof. by rewrite op_foldl, (right_id_L u op), foldl_app. Qed.

(** The partial results of the first [m] workers, combined in the order
    of their ids, are the result for the indices before the end of the
    range of the last of them. *)
Lemma partition_fold (n k : Z) :
  1 ≤ n → 1 ≤ k → n / k < 2 ^ 31 →
  ∀ m : nat,
    (1 ≤ m)%nat →
    serial_reduce op u
      ((λ id, foldl (λ acc j, op acc (term j)) u
                (seqZ (ifrom (spec_partition n k id))
                   (range_len (spec_partition n k id))))
         <$> seqZ 0 (Z.of_nat m))
    = foldl (λ acc j, op acc (term j)) u
        (seqZ 0 (ito (spec_partition n k (Z.of_nat m - 1)))).
Proof.
  intros Hn Hk Hfit m. induction m as [|m IH]; [lia|]. intros _.
  destruct m as [|m].
  - change (seqZ 0 (Z.of_nat 1)) with [0].
    change (Z.of_nat 1 - 1) with 0.
    cbn [fmap list_fmap serial_reduce foldl]. unfold range_len.
    rewrite (spec_partition_first n k) by done. by rewrite Z.sub_0_r.
  - rewrite Nat2Z.inj_succ, <- Z.add_1_r.
    rewrite seqZ_app by lia. rewrite fmap_app.
    change (seqZ (0 + Z.of_nat (S m)) 1) with [0 + Z.of_nat (S m)].
    cbn [fmap list_fmap].
    rewrite serial_reduce_snoc.
    2:{ intros Hnil. apply (f_equal length) in Hnil.
        rewrite length_fmap, length_seqZ in Hnil. simpl in Hnil. lia. }
    rewrite IH by lia.
    replace (Z.of_nat (S m) + 1 - 1) with (Z.of_nat (S m) - 1 + 1) by lia.
    set (id := Z.of_nat (S m) - 1).
    replace (0 + Z.of_nat (S m)) with (id + 1) by lia.
    rewrite foldl_parts. f_equal. unfold range_len.
    rewrite (spec_partition_next n k Hn Hk Hfit id).
    pose proof (spec_partition_nonneg n k Hn Hk Hfit (id + 1) ltac:(lia))
      as [Hlo Hle].
    rewrite <- (seqZ_app 0) by lia.
    f_equal. lia.
Qed.

Lemma partition_fold_all (n k : Z) :
  1 ≤ n → 1 ≤ k → n / k < 2 ^ 31 →
  serial_reduce op u
    ((λ id, foldl (λ acc j, op acc (term j)) u
              (seqZ (ifrom (spec_partition n k id))
                 (range_len (spec_partition n k id))))
       <$> seqZ 0 k)
  = foldl (λ acc j, op acc (term j)) u (seqZ 0 n).
Proof.
  intros Hn Hk Hfit.
  pose proof (partition_fold n k Hn Hk Hfit (Z.to_nat k) ltac:(lia)) as H.
  rewrite Z2Nat.id in H by lia.
  by rewrite (spec_partition_last n k) in H.
Qed.

(** A round of reduction over the partition: every worker reports the
    fold of its range, and the partials, combined from the first in
    whatever order they arrive, give the fold of all the indices. *)
Lemma parallel_reduction `{!Comm (=) op}
    (mk : R → Message R) (call : Z → Comp (list (Message R)) unit)
    (n k : Z) :
  1 ≤ n → 1 ≤ k → n / k < 2 ^ 31 →
  (∀ id, 0 ≤ id < k →
     call id []
     = (Ok tt,
        [mk (foldl (λ acc j, op acc (term j)) u
               (seqZ (ifrom (spec_partition n k id))
                  (range_len (spec_partition n k id))))])) →
  let total := foldl (λ acc j, op acc (term j)) u (seqZ 0 n) in
  ∃ partials,
    length partials = Z.to_nat k
    ∧ Forall (λ id, is_ok (call id []).1 = true) (seqZ 0 k)
    ∧ concat ((λ id, posts (call id)) <$> seqZ 0 k) = mk <$> partials
    ∧ ∀ arrival, arrival ≡ₚ partials →
                 serial_reduce op u arrival = total.
Proof.
  intros Hn Hk Hfit Hcall total.
  set (partial := λ id,
         foldl (λ acc j, op acc (term j)) u
           (seqZ (ifrom (spec_partition n k id))
              (range_len (spec_partition n k id)))).
  destruct (posts_of_pool call (λ id, mk (partial id)) k) as [Hret Hposts].
  { intros id Hid. exists tt. by apply Hcall. }
  exists (partial <$> seqZ 0 k).
  split; [by rewrite length_fmap, length_seqZ|].
  split; [done|]. split.
  - rewrite Hposts. by rewrite <- list_fmap_compose.
  - intros arrival Hperm.
    rewrite (serial_reduce_permutation op u _ _ Hperm).
    unfold partial, total. by apply partition_fold_all.
Qed.
End folds.

Lemma wkProduct_plain `{!Assoc (=) (mul (R:=R))} (g : Global)
    (this : Vector R) (a : list R) (tag : value R) (rebroadcast : bool)
    (out : list (Message R)) :
  unrollLoops g = false →
  vec_array this = Some a →
  nullOrUndefined tag = false →
  let lb := loadBalance g (vec_length this) in
  wkProduct g this tag rebroadcast out
  = (Ok tt,
     out ++ [MsgVectorProduct tag rebroadcast
               (serial_fold mul one a (ifrom lb) (ito lb))]).
Proof.
  intros Hplain Ha Htag lb.
  unfold wkProduct, checkNullOrUndefined. rewrite Htag, Hplain.
  rewrite Comp_bind_unfold. unfold lift at 1.
  rewrite Comp_bind_unfold. unfold lift at 1. fold lb.
  destruct (reduction_loops_fold mul this a one (ifrom lb) (ito lb) Ha)
    as [_ ->].
  reflexivity.
Qed.

(** With either setting of [unrollLoops], [wkDotVector] reports the dot
    product over the range of the worker: its unrolled loop advances by
    four. *)
Lemma wkDotVector_reports `{!Assoc (=) (add (R:=R))} (g : Global)
    (a b : list R) (tag : value R) (rebroadcast : bool)
    (out : list (Message R)) :
  length a = length b → a ≠ [] →
  nullOrUndefined tag = false →
  let lb := loadBalance g (Z.of_nat (length a)) in
  wkDotVector g (VVec (Vector_of a)) (VVec (Vector_of b)) tag rebroadcast
    out
  = (Ok tt,
     out ++ [MsgVectorSum tag rebroadcast
               (serial_dot a b (ifrom lb) (ito lb))]).
Proof.
  intros Hlen Hne Htag lb.
  assert (Hcv : checkVectors (VVec (Vector_of a)) (VVec (Vector_of b))
                = Ok (Vector_of a, Vector_of b)).
  { unfold checkVectors. cbn [checkVector nullOrUndefined
      checkNullOrUndefined mbind Result_bind].
    rewrite decide_True; [done|]. rewrite !Vector_of_length. lia. }
  unfold wkDotVector.
  rewrite Comp_bind_unfold. unfold lift at 1. rewrite Hcv.
  rewrite Comp_bind_unfold. unfold lift at 1, checkNullOrUndefined.
  rewrite Htag. rewrite Vector_of_length. fold lb.
  rewrite Comp_bind_unfold. unfold lift at 1.
  destruct a as [|x a], b as [|y b]; try done.
  destruct (dot_loops_fold (Vector_of (x :: a)) (Vector_of (y :: b))
              (x :: a) (y :: b) (ifrom lb) (ito lb) eq_refl eq_refl)
    as [-> ->].
  by destruct (unrollLoops g).
Qed.

Lemma foldl_ta_get (op : R → R → R) (u : R) (a : list R) :
  foldl (λ acc j, op acc (ta_get a j)) u (seqZ 0 (Z.of_nat (length a)))
  = foldl op u a.
Proof.
  rewrite <- (serial_fold_all op u a). unfold serial_fold.
  by rewrite Z.sub_0_r.
Qed.

(** The partitioned reductions agree with the serial ones, when [+]
    and [×] are associative and commutative with the units [0] and [1].
    Let each of the [k] workers call [wkSum] (resp. [wkProduct]) with
    plain loops on a Vector of [n ≥ 1] entries.  Every call returns and
    posts one report with its partial result; and the partial results,
    combined from the first to arrive with each later one in whatever
    order they arrive, give what the serial [sum] (resp. [product])
    returns, with either setting of [unrollLoops]. *)
Theorem parallel_reductions_are_serial
    `{!Assoc (=) (add (R:=R))} `{!Comm (=) (add (R:=R))}
    `{!RightId (=) (zero : R) add}
    `{!Assoc (=) (mul (R:=R))} `{!Comm (=) (mul (R:=R))}
    `{!RightId (=) (one : R) mul}
    (gs : Global) (k : Z) (a : list R) (tag : value R)
    (rebroadcast : bool) :
  let n := Z.of_nat (length a) in
  let sum_call id :=
    wkSum (worker_global k id false) (Vector_of a) tag rebroadcast in
  let product_call id :=
    wkProduct (worker_global k id false) (Vector_of a) tag rebroadcast in
  1 ≤ n → 1 ≤ k → n / k < 2 ^ 31 →
  nullOrUndefined tag = false →
  ∃ s p sums products,
    Vector_sum gs (Vector_of a) = Ok s
    ∧ Vector_product gs (Vector_of a) = Ok p
    ∧ length sums = Z.to_nat k
    ∧ length products = Z.to_nat k
    ∧ Forall (λ id, is_ok (sum_call id []).1 = true) (seqZ 0 k)
    ∧ Forall (λ id, is_ok (product_call id []).1 = true) (seqZ 0 k)
    ∧ concat ((λ id, posts (sum_call id)) <$> seqZ 0 k)
      = MsgVectorSum tag rebroadcast <$> sums
    ∧ concat ((λ id, posts (product_call id)) <$> seqZ 0 k)
      = MsgVectorProduct tag rebroadcast <$> products
    ∧ (∀ arrival, arrival ≡ₚ sums →
                  serial_reduce add zero arrival = s)
    ∧ (∀ arrival, arrival ≡ₚ products →
                  serial_reduce mul one arrival = p).
Proof.
  intros n sum_call product_call Hn Hk Hfit Htag.
  assert (Ha : vec_array (Vector_of a) = Some a).
  { destruct a; [simpl in n; lia|done]. }
  destruct (parallel_reduction add zero (ta_get a)
              (MsgVectorSum tag rebroadcast) sum_call n k)
    as (sums & Hlen1 & Hret1 & Hposts1 & Hsum); try done.
  { intros id Hid. unfold sum_call.
    rewrite wkSum_plain with (a := a) by done.
    rewrite Vector_of_length, loadBalance_spec_partition by done.
    reflexivity. }
  destruct (parallel_reduction mul one (ta_get a)
              (MsgVectorProduct tag rebroadcast) product_call n k)
    as (products & Hlen2 & Hret2 & Hposts2 & Hprod); try done.
  { intros id Hid. unfold product_call.
    rewrite wkProduct_plain with (a := a) by done.
    rewrite Vector_of_length, loadBalance_spec_partition by done.
    reflexivity. }
  exists (foldl add zero a), (foldl mul one a), sums, products.
  split; [apply Vector_sum_of_list|].
  split; [apply Vector_product_of_list|].
  do 6 (split; [done|]).
  unfold n in Hsum, Hprod. rewrite foldl_ta_get in Hsum, Hprod.
  by split.
Qed.

(** The partitioned dot product agrees with the serial one, when [+]
    is associative and commutative with the unit [0].  Let each of the
    [k] workers call [wkDotVector], with either setting of
    [unrollLoops], on two Vectors of one length [n ≥ 1].  Every call
    returns and posts one report with its partial result; and the
    partial results, combined from the first to arrive with each later
    one in whatever order they arrive, give what the serial
    [dotVector] returns. *)
Theorem parallel_dot_is_serial
    `{!Assoc (=) (add (R:=R))} `{!Comm (=) (add (R:=R))}
    `{!RightId (=) (zero : R) add}
    (gs : Global) (unroll : bool) (k : Z) (a b : list R)
    (tag : value R) (rebroadcast : bool) :
  let n := Z.of_nat (length a) in
  let this := VVec (Vector_of a) in
  let w := VVec (Vector_of b) in
  let call id :=
    wkDotVector (worker_global k id unroll) this w tag rebroadcast in
  length a = length b →
  1 ≤ n → 1 ≤ k → n / k < 2 ^ 31 →
  nullOrUndefined tag = false →
  ∃ d partials,
    Vector_dotVector gs this w = Ok d
    ∧ length partials = Z.to_nat k
    ∧ Forall (λ id, is_ok (call id []).1 = true) (seqZ 0 k)
    ∧ concat ((λ id, posts (call id)) <$> seqZ 0 k)
      = MsgVectorSum tag rebroadcast <$> partials
    ∧ (∀ arrival, arrival ≡ₚ partials →
                  serial_reduce add zero arrival = d).
Proof.
  intros n this w call Hlen Hn Hk Hfit Htag.
  destruct (parallel_reduction add zero
              (λ j, mul (ta_get a j) (ta_get b j))
              (MsgVectorSum tag rebroadcast) call n k)
    as (partials & Hlenp & Hret & Hposts & Hsum); try done.
  { intros id Hid. unfold call, this, w.
    rewrite wkDotVector_reports by (done || (intros ->; simpl in n; lia)).
    rewrite loadBalance_spec_partition by done.
    reflexivity. }
  exists (foldl add zero (zip_with mul a b)), partials.
  split; [by apply Vector_dotVector_of_list|].
  do 3 (split; [done|]).
  assert (Hdot : foldl (λ acc j, add acc (mul (ta_get a j) (ta_get b j)))
                   zero (seqZ 0 n)
                 = foldl add zero (zip_with mul a b)).
  { rewrite <- serial_dot_all by done. unfold serial_dot, n.
    by rewrite Z.sub_0_r. }
  by rewrite Hdot in Hsum.
Qed.
End partitioned_reductions.

#[export] Instance number_add_right_id : RightId (=) (Fin 0) (add (R:=number)).
Proof. intros [x|]; simpl; [f_equal; lia|done]. Qed.

#[export] Instance number_mul_right_id : RightId (=) (Fin 1) (mul (R:=number)).
Proof. intros [x|]; simpl; [f_equal; lia|done]. Qed.

(** Three workers sum and multiply the entries of a Vector of five; the
    partial results, taken last, first, second, give 15 and 120. *)
Lemma parallel_reductions_are_serial_witness :
  let v : Vector number := Vector_of [Fin 1; Fin 2; Fin 3; Fin 4; Fin 5] in
  let sum_call id := wkSum (worker_global 3 id false) v (VStr "t") false in
  let product_call id :=
    wkProduct (worker_global 3 id false) v (VStr "t") false in
  Vector_sum (worker_global 1 0 true) v = Ok (Fin 15)
  ∧ Vector_product (worker_global 1 0 true) v = Ok (Fin 120)
  ∧ posts (sum_call 0) ++ posts (sum_call 1) ++ posts (sum_call 2)
    = MsgVectorSum (VStr "t") false <$> [Fin 3; Fin 7; Fin 5]
  ∧ posts (product_call 0) ++ posts (product_call 1)
    ++ posts (product_call 2)
    = MsgVectorProduct (VStr "t") false <$> [Fin 2; Fin 12; Fin 5]
  ∧ serial_reduce add zero [Fin 5; Fin 3; Fin 7] = Fin 15
  ∧ serial_reduce mul one [Fin 5; Fin 2; Fin 12] = Fin 120.
Proof.
  intros v sum_call product_call.
  assert (H1 : 1 ≤ Z.of_nat 5) by (vm_compute; congruence).
  assert (H2 : 1 ≤ 3) by (vm_compute; congruence).
  assert (H3 : Z.of_nat 5 / 3 < 2 ^ 31) by reflexivity.
  destruct (parallel_reductions_are_serial (worker_global 1 0 true) 3
              [Fin 1; Fin 2; Fin 3; Fin 4; Fin 5] (VStr "t") false
              H1 H2 H3 eq_refl)
    as (s & p & sums & products & Hs & Hp & _ & _ & _ & _ & Hsums
        & Hproducts & Hsum & Hprod).
  repeat split; reflexivity.
Defined.

(** Two workers with unrolled loops take the dot product of two Vectors
    of five entries. *)
Lemma parallel_dot_is_serial_witness :
  let a := [Fin 1; Fin 2; Fin 3; Fin 4; Fin 5] in
  let b := [Fin 5; Fin 4; Fin 3; Fin 2; Fin 1] in
  let call id :=
    wkDotVector (worker_global 2 id true) (VVec (Vector_of a))
      (VVec (Vector_of b)) (VStr "t") false in
  ∃ d partials,
    Vector_dotVector (worker_global 1 0 false) (VVec (Vector_of a))
      (VVec (Vector_of b)) = Ok d
    ∧ d = Fin 35
    ∧ posts (call 0) ++ posts (call 1)
      = MsgVectorSum (VStr "t") false <$> partials
    ∧ (∀ arrival, arrival ≡ₚ partials →
                  serial_reduce add zero arrival = d).
Proof.
  intros a b call.
  assert (H1 : 1 ≤ Z.of_nat 5) by (vm_compute; congruence).
  assert (H2 : 1 ≤ 2) by (vm_compute; congruence).
  assert (H3 : Z.of_nat 5 / 2 < 2 ^ 31) by reflexivity.
  destruct (parallel_dot_is_serial (worker_global 1 0 false) true 2 a b
              (VStr "t") false eq_refl H1 H2 H3 eq_refl)
    as (d & partials & Hd & _ & _ & Hposts & Hsum).
  exists d, partials. repeat split; try done.
  vm_compute in Hd. congruence.
Defined.

(** ** The pool and the messages sent to it *)

Section pool_protocol.
Context {R : Type}.

(** The page after the turns [ids] of the loop of [createPool]. *)
Lemma spawn_turns_page (n : Z) (name : string) (ids : list Z) :
  ∀ p : Page R,
    foldl (λ s j, spawn n name j s) p ids
    = mkPage (Worker_defined p)
        (spawned p ++ (spawned_worker n name (global p) <$> ids))
        (workerPool p ++ seq (length (spawned p)) (length ids))
        (match ids with
         | [] => global p
         | _ :: _ =>
             set_nWorkers
               (Z.of_nat (length (workerPool p) + length ids)) (global p)
         end).
Proof.
  induction ids as [|i ids IH]; intros p.
  - simpl. rewrite !app_nil_r. by destruct p.
  - cbn [foldl]. rewrite IH. unfold spawn.
    cbn [Worker_defined spawned workerPool global].
    f_equal.
    + rewrite <- app_assoc. done.
    + rewrite <- app_assoc, length_app. simpl.
      do 3 f_equal. lia.
    + destruct ids as [|i' ids]; unfold set_nWorkers; simpl;
        rewrite ?length_app; simpl; f_equal; lia.
Qed.

(** Without a worker to create, [createPool] leaves the page as it
    is. *)
Lemma createPool_none (n : Z) (name : string) (p : Page R) :
  Worker_defined p = true → n ≤ 0 →
  createPool n name p = (Ok tt, p).
Proof.
  intros Hw Hn. unfold createPool, checkWebWorkerSupport.
  rewrite Comp_bind_unfold, Hw. rewrite Comp_bind_unfold.
  unfold for_. replace (Z.to_nat (n - 0)) with 0%nat by lia. done.
Qed.

(** On a page without workers, [createPool] leaves a pool of the
    [nWorkersInput] workers it has constructed, each with its [_init]
    message. *)
Lemma createPool_fresh (n : Z) (name : string) :
  1 ≤ n →
  ∃ p : Page R,
    createPool n name (fresh_page true) = (Ok tt, p)
    ∧ pool_ok p
    ∧ spawned p
      = (λ i, mkWorkerObj name [MsgInit i n 1 false] false) <$> seqZ 0 n
    ∧ global p = mkGlobal n 0 false 1.
Proof.
  intros Hn. eexists. split.
  { unfold createPool, checkWebWorkerSupport.
    rewrite Comp_bind_unfold. cbn [fresh_page Worker_defined].
    rewrite Comp_bind_unfold.
    rewrite (for_fold (spawn n name)) by done.
    rewrite spawn_turns_page. reflexivity. }
  unfold fresh_page, pool_ok.
  cbn [spawned workerPool global Worker_defined app length].
  rewrite Z.sub_0_r.
  assert (Hlen : length (seqZ 0 n) = Z.to_nat n) by apply length_seqZ.
  destruct (seqZ 0 n) as [|i ids] eqn:Hids; [simpl in Hlen; lia|].
  rewrite <- Hids in Hlen |- *. rewrite length_fmap, Hlen.
  unfold set_nWorkers. cbn [nWorkers myWorkerId unrollLoops logLevel].
  rewrite Nat.add_0_l, Z2Nat.id by lia.
  split; [|done]. split; [done|]. split; [done|].
  by rewrite Hids.
Qed.

Lemma alter_take_drop {A : Type} (f : A → A) (l : list A) (i : nat) :
  (i < length l)%nat →
  alter f i ((f <$> take i l) ++ drop i l)
  = (f <$> take (S i) l) ++ drop (S i) l.
Proof.
  intros Hi.
  destruct (lookup_lt_is_Some_2 l i Hi) as [x Hx].
  rewrite alter_app_r_alt by (rewrite length_fmap, length_take; lia).
  rewrite length_fmap, length_take.
  replace (i - i `min` length l)%nat with 0%nat by lia.
  rewrite (drop_S l x i Hx), (take_S_r l i x Hx).
  rewrite fmap_app, <- app_assoc. done.
Qed.

(** On a pool as [createPool] leaves it, the loop that [trigger],
    [sendDataToWorkers] and [sendVectorToWorkers] share returns, having
    posted the message once to every worker of the pool. *)
Lemma broadcast_pool (msg : Message R) (p : Page R) :
  pool_ok p →
  broadcast msg p
  = (Ok tt,
     mkPage (Worker_defined p) (deliver_to msg <$> spawned p)
       (workerPool p) (global p)).
Proof.
  intros (Hpool & Hcount & _).
  set (l := spawned p) in *.
  set (page := λ ws : list (WorkerObj R),
         mkPage (Worker_defined p) ws (workerPool p) (global p)).
  set (Inv := λ (i : Z) (q : Page R),
    0 ≤ i ≤ Z.of_nat (length l)
    ∧ q = page ((deliver_to msg <$> take (Z.to_nat i) l)
                ++ drop (Z.to_nat i) l)).
  destruct (for_invariant Inv (post_to_worker msg) 0
              (nWorkers (global p)) p)
    as (q & Hrun & _ & ->).
  - intros i q Hi (Hlo & ->). rewrite Hcount in Hi.
    eexists. split.
    + unfold post_to_worker, getWorker, page. cbn [workerPool].
      rewrite decide_True by lia.
      rewrite Hpool, lookup_seq_lt by lia. simpl. reflexivity.
    + split; [lia|]. unfold page.
      cbn [Worker_defined spawned workerPool global].
      f_equal; [|done].
      rewrite alter_take_drop by lia.
      by replace (Z.to_nat (i + 1)) with (S (Z.to_nat i)) by lia.
  - lia.
  - split; [lia|]. unfold page. simpl. rewrite drop_0. by destruct p.
  - unfold broadcast. rewrite Comp_bind_unfold. unfold get_state at 1.
    rewrite Comp_bind_unfold, Hrun. unfold page.
    rewrite Hcount, Nat2Z.id, firstn_all, drop_all, app_nil_r. done.
Qed.

(** Constructing a Coordinator never returns.  Without [Worker] the
    constructor throws at [createPool], with the page as it was.  With
    [Worker] it creates the pool, and then throws a TypeError in the
    first turn of the loop that registers its message handler, where it
    calls [push] on the object literal [messageDataBuffer]; the workers
    of the pool have been constructed by then. *)
Theorem Coordinator_new_never_returns (n : Z) (name : string)
    (p : Page R) :
  1 ≤ nWorkers (global p) →
  ∃ e p',
    Coordinator_new n name p = (Throw e, p')
    ∧ (Worker_defined p = false →
       e = PlainError "Web Worker support not available for MathWorkers."
       ∧ p' = p)
    ∧ (Worker_defined p = true →
       (∃ msg, e = TypeError msg)
       ∧ length (spawned p') = (length (spawned p) + Z.to_nat n)%nat).
Proof.
  intros Hcount. destruct (Worker_defined p) eqn:Hw.
  - destruct (decide (1 ≤ n)) as [Hn|Hn].
    + destruct (Coordinator_new_throws n name p Hw Hn)
        as (msg & p' & Hrun & Hlen).
      exists (TypeError msg), p'. split; [done|]. split; [done|].
      intros _. split; [by exists msg|done].
    + unfold Coordinator_new.
      rewrite Comp_bind_unfold, createPool_none by (done || lia).
      rewrite Comp_bind_unfold. unfold get_state at 1.
      rewrite Comp_bind_unfold. unfold for_.
      destruct (Z.to_nat (nWorkers (global p) - 0)) as [|fuel] eqn:Hfuel;
        [lia|].
      cbn [for_loop].
      destruct (Z.ltb_spec 0 (nWorkers (global p))); [|lia].
      rewrite Comp_bind_unfold. unfold register_worker at 1.
      destruct (getWorker 0 p) as [ref|].
      * do 2 eexists. split; [reflexivity|]. split; [done|].
        intros _. split; [by eexists|].
        unfold set_onmessage. cbn [spawned]. rewrite length_alter. lia.
      * do 2 eexists. split; [reflexivity|]. split; [done|].
        intros _. split; [by eexists|lia].
  - exists (PlainError "Web Worker support not available for MathWorkers."),
      p.
    split; [by apply Coordinator_new_without_Worker|].
    split; [done|]. intros [=].
Qed.

(** The messages of the Coordinator reach every worker once.  On the
    pool that [createPool] leaves for [n ≥ 1] workers, [trigger],
    [sendDataToWorkers] and [sendVectorToWorkers] return, and every
    worker of the pool then holds its [_init] message followed by the
    one message sent.  On a page without a pool the three of them throw
    a TypeError. *)
Theorem messages_reach_every_worker (n : Z) (name : string)
    (tag args dat : value R) (vec : Buffer R) :
  let reaches (send : Comp (Page R) unit) (msg : Message R) (p : Page R) :=
    ∃ p', send p = (Ok tt, p')
      ∧ inbox <$> spawned p'
        = (λ i, [MsgInit i n 1 false; msg]) <$> seqZ 0 n in
  let fails (send : Comp (Page R) unit) :=
    ∃ msg, send (fresh_page true) = (Throw (TypeError msg), fresh_page true) in
  1 ≤ n →
  ∃ p,
    createPool n name (fresh_page true) = (Ok tt, p)
    ∧ reaches (Coordinator_trigger tag args) (MsgTrigger tag args) p
    ∧ reaches (sendDataToWorkers dat tag) (MsgBroadcastData tag dat) p
    ∧ reaches (sendVectorToWorkers vec tag)
        (MsgBroadcastVector tag (array_copy vec)) p
    ∧ fails (Coordinator_trigger tag args)
    ∧ fails (sendDataToWorkers dat tag)
    ∧ fails (sendVectorToWorkers vec tag).
Proof.
  intros reaches fails Hn.
  destruct (createPool_fresh n name Hn) as (p & Hrun & Hok & Hspawned & Hg).
  exists p. split; [done|].
  assert (Hreach : ∀ msg, reaches (broadcast msg) msg p).
  { intros msg. eexists. split; [by apply broadcast_pool|].
    cbn [spawned]. rewrite Hspawned, <- !list_fmap_compose.
    apply list_fmap_ext. intros ? i _. reflexivity. }
  assert (Hfail : ∀ msg, fails (broadcast msg)).
  { intros msg. eexists. reflexivity. }
  repeat split; (apply Hreach || apply Hfail).
Qed.
End pool_protocol.

(** A fresh page with [Worker], asked for two workers. *)
Lemma Coordinator_new_never_returns_witness :
  ∃ e p',
    Coordinator_new 2 "worker.js" (fresh_page true : Page number)
    = (Throw e, p')
    ∧ e = TypeError "messageDataBuffer.push is not a function"
    ∧ length (spawned p') = 2%nat.
Proof.
  destruct (Coordinator_new_never_returns 2 "worker.js"
              (fresh_page true : Page number))
    as (e & p' & Hrun & _ & Hdefined); [simpl; lia|].
  exists e, p'. split; [done|].
  destruct (Hdefined eq_refl) as [_ Hlen]. split; [|done].
  vm_compute in Hrun. congruence.
Defined.

(** A pool of two workers is sent a trigger. *)
Lemma messages_reach_every_worker_witness :
  ∃ p p' : Page number,
    createPool 2 "worker.js" (fresh_page true) = (Ok tt, p)
    ∧ Coordinator_trigger (VStr "t") (VNum (Fin 7)) p = (Ok tt, p')
    ∧ inbox <$> spawned p'
      = [[MsgInit 0 2 1 false; MsgTrigger (VStr "t") (VNum (Fin 7))];
         [MsgInit 1 2 1 false; MsgTrigger (VStr "t") (VNum (Fin 7))]].
Proof.
  destruct (messages_reach_every_worker 2 "worker.js" (VStr "t")
              (VNum (Fin 7)) VUndefined (BufObject : Buffer number))
    as (p & Hrun & (p' & Hsend & Hinbox) & _); [lia|].
  exists p, p'. done.
Defined.

(** ** The worker's side of the messages *)

Section worker_protocol.
Context {R : Type} `{!Arith R}.

(** What a worker that has registered [h] under [tag] does with a
    message for [tag], once initialised: the three handlers end in
    [handleTrigger], which calls [h] once. *)
Lemma registered_trigger (tag : string) (h : fn_id) (data obj : value R)
    (ctx : WorkerCtx R) :
  ctx_triggers ctx !! tag = Some [VFun h] →
  handleTrigger (ctx_triggers ctx) tag data obj
  = Ok (Invoked [(h, or_value data (or_value obj VEmptyArray))]).
Proof. intros Hh. unfold handleTrigger. by rewrite Hh. Qed.

Lemma ctx_on_registered (tag : string) (cb : value R) (ctx : WorkerCtx R) :
  ctx_triggers (ctx_on tag cb ctx) !! tag = Some [cb].
Proof. unfold ctx_on, MathWorker_on. simpl. by rewrite lookup_insert_eq. Qed.

(** A pool is sent [msg]: every worker then receives its [_init]
    message and [msg], in this order. *)
Lemma pool_delivery (n : Z) (name : string) (msg : Message R) :
  1 ≤ n →
  ∃ p p' : Page R,
    createPool n name (fresh_page true) = (Ok tt, p)
    ∧ broadcast msg p = (Ok tt, p')
    ∧ length (spawned p') = Z.to_nat n
    ∧ ∀ (i : nat) w,
        spawned p' !! i = Some w →
        inbox w = [MsgInit (Z.of_nat i) n 1 false; msg].
Proof.
  intros Hn.
  destruct (createPool_fresh (R:=R) n name Hn)
    as (p & Hrun & Hok & Hspawned & Hg).
  exists p. eexists. split; [done|]. split; [by apply broadcast_pool|].
  cbn [spawned]. rewrite Hspawned, <- list_fmap_compose.
  split; [by rewrite length_fmap, length_seqZ|].
  intros i w Hw. rewrite list_lookup_fmap in Hw.
  destruct (seqZ 0 n !! i) as [j|] eqn:Hj; [|done].
  apply lookup_seqZ in Hj as [-> _].
  simpl in Hw. injection Hw as <-. done.
Qed.

(** A trigger sent by the Coordinator, end to end.  The pool of [n ≥ 1]
    workers is created and [trigger(tag, args)] is called.  Every worker
    whose script has registered [h] under [tag] takes its id and the
    size of the pool from its [_init] message, answers [_workerReady],
    and then calls [h] once, with the empty array: [handleTrigger] reads
    the arguments under [data], and the message carries them under
    [args], so what the Coordinator passed never reaches [h]. *)
Theorem trigger_reaches_callbacks_without_args (n : Z) (name tag : string)
    (h : fn_id) (args : value R) :
  1 ≤ n →
  ∃ p p' : Page R,
    createPool n name (fresh_page true) = (Ok tt, p)
    ∧ Coordinator_trigger (VStr tag) args p = (Ok tt, p')
    ∧ length (spawned p') = Z.to_nat n
    ∧ ∀ (i : nat) w,
        spawned p' !! i = Some w →
        ∃ ctx,
          receive_all (inbox w) (ctx_on tag (VFun h) fresh_ctx)
          = Some ([Initialised; Ran (Invoked [(h, VEmptyArray)])], ctx)
          ∧ ctx_global ctx = worker_global n (Z.of_nat i) false
          ∧ ctx_outbox ctx = [MsgWorkerReady].
Proof.
  intros Hn.
  destruct (pool_delivery n name (MsgTrigger (VStr tag) args) Hn)
    as (p & p' & Hrun & Hsend & Hlen & Hinbox).
  exists p, p'. split; [done|]. split; [done|]. split; [done|].
  intros i w Hw. rewrite (Hinbox i w Hw).
  eexists. split.
  - cbn [receive_all MathWorker_onmessage key_of mbind option_bind].
    cbn [handleInit ctx_triggers ctx_on].
    unfold handleTrigger, MathWorker_on. rewrite lookup_insert_eq.
    reflexivity.
  - done.
Qed.

(** A value sent back to the workers, end to end.  The pool of [n ≥ 1]
    workers is created and [sendDataToWorkers(dat, tag)] is called, as
    the Coordinator does with the result of a reduction.  Every worker
    whose script has registered [h] under [tag] stores [dat] in its
    buffer and calls [h] once: with [dat] when [dat] is truthy, and with
    the empty array when it is not, as it is for the number zero. *)
Theorem data_reaches_callbacks_unless_falsy (n : Z) (name tag : string)
    (h : fn_id) (dat : value R) :
  1 ≤ n →
  ∃ p p' : Page R,
    createPool n name (fresh_page true) = (Ok tt, p)
    ∧ sendDataToWorkers dat (VStr tag) p = (Ok tt, p')
    ∧ length (spawned p') = Z.to_nat n
    ∧ ∀ (i : nat) w,
        spawned p' !! i = Some w →
        ∃ ctx,
          receive_all (inbox w) (ctx_on tag (VFun h) fresh_ctx)
          = Some ([Initialised;
                   Ran (Invoked [(h, if truthy_value dat then dat
                                     else VEmptyArray)])], ctx)
          ∧ ctx_buffer ctx = Some dat.
Proof.
  intros Hn.
  destruct (pool_delivery n name (MsgBroadcastData (VStr tag) dat) Hn)
    as (p & p' & Hrun & Hsend & Hlen & Hinbox).
  exists p, p'. split; [done|]. split; [done|]. split; [done|].
  intros i w Hw. rewrite (Hinbox i w Hw).
  eexists. split.
  - cbn [receive_all MathWorker_onmessage key_of mbind option_bind].
    cbn [handleInit set_ctx_buffer ctx_triggers ctx_on].
    unfold handleTrigger, MathWorker_on. rewrite lookup_insert_eq.
    unfold or_value. cbn [truthy_value]. reflexivity.
  - done.
Qed.

(** A Vector sent back to the workers, end to end.  The pool of [n ≥ 1]
    workers is created and [sendVectorToWorkers] is called on the Vector
    that holds [v], as the Coordinator does with a gathered Vector.
    Every worker whose script has registered [h] under [tag] rebuilds
    the Vector from the copy of the entries it is sent, stores it in
    its buffer and calls [h] once with it: the Vector survives the trip
    unchanged, the empty one included. *)
Theorem vector_reaches_callbacks (n : Z) (name tag : string) (h : fn_id)
    (v : list R) :
  1 ≤ n →
  ∃ p p' : Page R,
    createPool n name (fresh_page true) = (Ok tt, p)
    ∧ sendVectorToWorkers (BufVec (Vector_of v)) (VStr tag) p = (Ok tt, p')
    ∧ length (spawned p') = Z.to_nat n
    ∧ ∀ (i : nat) w,
        spawned p' !! i = Some w →
        ∃ ctx,
          receive_all (inbox w) (ctx_on tag (VFun h) fresh_ctx)
          = Some ([Initialised; Ran (Invoked [(h, VVec (Vector_of v))])],
                  ctx)
          ∧ ctx_buffer ctx = Some (VVec (Vector_of v)).
Proof.
  intros Hn.
  assert (Hcopy : array_copy (BufVec (Vector_of v)) = v) by (by destruct v).
  destruct (pool_delivery n name (MsgBroadcastVector (VStr tag) v) Hn)
    as (p & p' & Hrun & Hsend & Hlen & Hinbox).
  exists p, p'. split; [done|].
  split; [unfold sendVectorToWorkers; by rewrite Hcopy|].
  split; [done|].
  intros i w Hw. rewrite (Hinbox i w Hw).
  eexists. split.
  - cbn [receive_all MathWorker_onmessage key_of mbind option_bind].
    rewrite Vector_fromArray_of_list.
    cbn [handleInit set_ctx_buffer ctx_triggers ctx_on].
    unfold handleTrigger, MathWorker_on. rewrite lookup_insert_eq.
    reflexivity.
  - done.
Qed.

(** A worker's [on] does not check its callback, where the [on] of an
    [EventEmitter] does.  Registering what is not a function under a
    tag succeeds on the worker, and the error comes with the message:
    the handler of a [_trigger] for the tag throws a TypeError and calls
    nothing.  [EventEmitter]'s [on] throws a TypeError at once and
    registers nothing. *)
Theorem unchecked_callback_throws_at_trigger (tag : string)
    (cb args : value R) (ctx : WorkerCtx R)
    (events : gmap string (list (value R))) :
  (∀ f, cb ≠ VFun f) →
  (∃ handler msg,
     MathWorker_onmessage (MsgTrigger (VStr tag) args) = Some handler
     ∧ handler (ctx_on tag cb ctx)
       = (Throw (TypeError msg), ctx_on tag cb ctx))
  ∧ ∃ msg, EventEmitter_on tag cb events = Throw (TypeError msg).
Proof.
  intros Hcb.
  assert (Hcall : ∀ a, ∃ msg, call cb a = Throw (TypeError msg)).
  { intros a. destruct cb; try (exfalso; by eapply Hcb); by eexists. }
  destruct (Hcall (or_value (VUndefined : value R)
                     (or_value VUndefined VEmptyArray))) as [msg Hmsg].
  split.
  - eexists _, msg. split; [reflexivity|].
    cbn beta. unfold handleTrigger. rewrite ctx_on_registered.
    cbn [forEach_call mbind Result_bind]. by rewrite Hmsg.
  - unfold EventEmitter_on, checkFunction, checkNullOrUndefined.
    destruct cb; try (exfalso; by eapply Hcb); by eexists.
Qed.

(** What a worker of the pool does with its [_init] message. *)
Lemma pool_worker_init (n : Z) (name : string) :
  1 ≤ n →
  ∃ p : Page R,
    createPool n name (fresh_page true) = (Ok tt, p)
    ∧ length (spawned p) = Z.to_nat n
    ∧ global p = mkGlobal n 0 false 1
    ∧ ∀ (i : nat) w,
        spawned p !! i = Some w →
        receive_all (inbox w) fresh_ctx
        = Some ([Initialised],
                mkWorkerCtx (worker_global n (Z.of_nat i) false) None ∅
                  [MsgWorkerReady]).
Proof.
  intros Hn.
  destruct (createPool_fresh (R:=R) n name Hn)
    as (p & Hrun & Hok & Hspawned & Hg).
  exists p. split; [done|].
  split; [by rewrite Hspawned, length_fmap, length_seqZ|].
  split; [done|].
  intros i w Hw. rewrite Hspawned, list_lookup_fmap in Hw.
  destruct (seqZ 0 n !! i) as [j|] eqn:Hj; [|done].
  apply lookup_seqZ in Hj as [-> _].
  simpl in Hw. injection Hw as <-. done.
Qed.

(** The constructor of the Coordinator on a page without workers: the
    pool is created, the listener is set on worker 0, and the
    constructor throws there. *)
Lemma Coordinator_new_fresh (n : Z) (name : string) :
  1 ≤ n →
  ∃ p : Page R,
    createPool n name (fresh_page true) = (Ok tt, p)
    ∧ Coordinator_new n name (fresh_page true)
      = (Throw (TypeError "messageDataBuffer.push is not a function"),
         set_onmessage 0 p).
Proof.
  intros Hn.
  destruct (createPool_fresh (R:=R) n name Hn)
    as (p & Hrun & (Hpool & _ & _) & Hspawned & Hg).
  exists p. split; [done|].
  unfold Coordinator_new. rewrite Comp_bind_unfold, Hrun.
  rewrite Comp_bind_unfold. unfold get_state at 1.
  rewrite Comp_bind_unfold. unfold for_. rewrite Hg. cbn [nWorkers].
  destruct (Z.to_nat (n - 0)) as [|fuel] eqn:Hfuel; [lia|].
  cbn [for_loop]. destruct (Z.ltb_spec 0 n); [|lia].
  rewrite Comp_bind_unfold. unfold register_worker at 1, getWorker.
  rewrite Hpool, Hspawned, length_fmap, length_seqZ.
  destruct (decide (0 ≤ 0)); [|lia].
  rewrite lookup_seq_lt by lia. done.
Qed.

(** The handshake that starts a pool, as this build runs it.
    [createPool] constructs [n ≥ 1] workers and posts an [_init]
    message to each.  Worker [i] takes its id [i] and the size [n] of
    the pool from it and answers with one [_workerReady].  The
    constructor of the Coordinator throws in the first turn of the loop
    that registers its listener: worker 0 alone has the listener, and
    the handlers are not assigned.  The answer of worker 0 makes the
    listener throw, [handleWorkerReady] being [undefined]; the answers
    of the other workers are not heard.  No method of the Coordinator
    is called: ["_ready"] is not emitted. *)
Theorem pool_handshake (n : Z) (name : string) :
  1 ≤ n →
  ∃ (p built : Page R) (ctxs : list (WorkerCtx R)),
    createPool n name (fresh_page true) = (Ok tt, p)
    ∧ Forall2 (λ w ctx, receive_all (inbox w) fresh_ctx
                        = Some ([Initialised], ctx)) (spawned p) ctxs
    ∧ (∀ (i : nat) ctx, ctxs !! i = Some ctx →
         ctx_global ctx = worker_global n (Z.of_nat i) false
         ∧ ctx_outbox ctx = [MsgWorkerReady])
    ∧ Coordinator_new n name (fresh_page true)
      = (Throw (TypeError "messageDataBuffer.push is not a function"),
         built)
    ∧ length (spawned built) = length ctxs
    ∧ (∀ (i : nat) w, spawned built !! i = Some w →
         onmessage w = bool_decide (i = 0%nat))
    ∧ ∀ (S : Type) (that_emit : value R → Comp S unit)
        (that_sendDataToWorkers that_sendVectorToWorkers
           : Buffer R → value R → Comp S unit) (s : S) (i : nat),
        (i < length ctxs)%nat →
        ∃ run,
          Worker_message that_emit that_sendDataToWorkers
            that_sendVectorToWorkers built i MsgWorkerReady
            (Coordinator_closure
               (Throw (TypeError "messageDataBuffer.push is not a function")))
          = Some run
          ∧ run s
            = (if bool_decide (i = 0%nat)
               then Throw (TypeError "handleWorkerReady is not a function")
               else Ok None,
               (Declared, s)).
Proof.
  intros Hn.
  destruct (pool_worker_init n name Hn) as (p & Hrun & Hlen & Hg & Hinit).
  destruct (Coordinator_new_fresh n name Hn) as (p' & Hrun' & Hnew).
  assert (p' = p) as -> by congruence.
  set (ctx_of := λ i : nat,
         mkWorkerCtx (R:=R) (worker_global n (Z.of_nat i) false) None ∅
           [MsgWorkerReady]).
  exists p, (set_onmessage 0 p), (ctx_of <$> seq 0 (Z.to_nat n)).
  assert (Hlisten : ∀ (i : nat) w,
            spawned (set_onmessage 0 p) !! i = Some w →
            onmessage w = bool_decide (i = 0%nat)).
  { intros i w. unfold set_onmessage. cbn [spawned].
    destruct (decide (i = 0%nat)) as [->|Hi].
    - rewrite list_lookup_alter, bool_decide_eq_true_2 by done.
      destruct (spawned p !! 0%nat); [|done]. by intros [= <-].
    - rewrite list_lookup_alter_ne, bool_decide_eq_false_2 by done.
      intros Hw. specialize (Hinit i w Hw).
      destruct (createPool_fresh (R:=R) n name Hn)
        as (p2 & Hrun2 & _ & Hspawned & _).
      assert (p2 = p) as -> by congruence.
      rewrite Hspawned, list_lookup_fmap in Hw.
      destruct (seqZ 0 n !! i); [|done]. by injection Hw as <-. }
  split; [done|]. split; [|split; [|split; [done|split; [|split; [done|]]]]].
  - apply Forall2_same_length_lookup_2.
    { by rewrite length_fmap, length_seq. }
    intros i w ctx Hw Hctx. rewrite list_lookup_fmap in Hctx.
    destruct (seq 0 (Z.to_nat n) !! i) as [j|] eqn:Hj; [|done].
    apply lookup_seq in Hj as [-> _]. simpl in Hctx. injection Hctx as <-.
    by apply Hinit.
  - intros i ctx Hctx. rewrite list_lookup_fmap in Hctx.
    destruct (seq 0 (Z.to_nat n) !! i) as [j|] eqn:Hj; [|done].
    apply lookup_seq in Hj as [-> _]. simpl in Hctx. by injection Hctx as <-.
  - unfold set_onmessage. cbn [spawned].
    by rewrite length_alter, length_fmap, length_seq.
  - intros S that_emit that_sendDataToWorkers that_sendVectorToWorkers s i Hi.
    rewrite length_fmap, length_seq in Hi.
    destruct (lookup_lt_is_Some_2 (spawned (set_onmessage 0 p)) i)
      as [w Hw].
    { unfold set_onmessage. cbn [spawned]. rewrite length_alter. lia. }
    unfold Worker_message. rewrite Hw, (Hlisten i w Hw).
    destruct (bool_decide (i = 0%nat)); eexists; (split; [reflexivity|done]).
Qed.

(** The ids that [createPool] hands out make [loadBalance] a partition.
    After the handshake, worker [i] of the pool of [n] computes for
    [m ≥ 1] indices the range [i] of the partition, and every index
    below [m] lies in the range of exactly one worker of the pool. *)
Theorem pool_partitions_the_work (n m : Z) (name : string) :
  1 ≤ n → 1 ≤ m → m / n < 2 ^ 31 →
  ∃ (p : Page R) (ctxs : list (WorkerCtx R)),
    createPool n name (fresh_page true) = (Ok tt, p)
    ∧ Forall2 (λ w ctx, receive_all (inbox w) fresh_ctx
                        = Some ([Initialised], ctx)) (spawned p) ctxs
    ∧ length ctxs = Z.to_nat n
    ∧ (∀ (i : nat) ctx, ctxs !! i = Some ctx →
         loadBalance (ctx_global ctx) m = spec_partition m n (Z.of_nat i))
    ∧ ∀ x, 0 ≤ x < m →
        ∃ (i : nat) ctx,
          ctxs !! i = Some ctx
          ∧ ifrom (loadBalance (ctx_global ctx) m) ≤ x
            < ito (loadBalance (ctx_global ctx) m)
          ∧ ∀ (j : nat) ctx',
              ctxs !! j = Some ctx' →
              ifrom (loadBalance (ctx_global ctx') m) ≤ x
              < ito (loadBalance (ctx_global ctx') m) →
              j = i.
Proof.
  intros Hn Hm Hfit.
  destruct (pool_worker_init n name Hn) as (p & Hrun & Hlen & Hg & Hinit).
  set (ctx_of := λ i : nat,
         mkWorkerCtx (R:=R) (worker_global n (Z.of_nat i) false) None ∅
           [MsgWorkerReady]).
  exists p, (ctx_of <$> seq 0 (Z.to_nat n)).
  assert (Hctx : ∀ (i : nat) ctx,
            (ctx_of <$> seq 0 (Z.to_nat n)) !! i = Some ctx →
            (i < Z.to_nat n)%nat ∧ ctx = ctx_of i).
  { intros i ctx Hi. rewrite list_lookup_fmap in Hi.
    destruct (seq 0 (Z.to_nat n) !! i) as [j|] eqn:Hj; [|done].
    apply lookup_seq in Hj as [-> ?]. simpl in Hi. by injection Hi as <-. }
  assert (Hlb : ∀ i : nat,
            loadBalance (ctx_global (ctx_of i)) m
            = spec_partition m n (Z.of_nat i)).
  { intros i. unfold ctx_of. cbn [ctx_global].
    by apply loadBalance_spec_partition. }
  split; [done|]. split; [|split; [|split]].
  - apply Forall2_same_length_lookup_2.
    { by rewrite length_fmap, length_seq. }
    intros i w ctx Hw Hi. apply Hctx in Hi as [_ ->]. by apply Hinit.
  - by rewrite length_fmap, length_seq.
  - intros i ctx Hi. apply Hctx in Hi as [_ ->]. apply Hlb.
  - intros x Hx.
    destruct (spec_partition_cover m n Hm Hn Hfit x Hx) as (id & Hid & Hin).
    exists (Z.to_nat id), (ctx_of (Z.to_nat id)).
    split; [|split].
    + rewrite list_lookup_fmap, lookup_seq_lt by lia. done.
    + rewrite Hlb, Z2Nat.id by lia. done.
    + intros j ctx' Hj Hin'. apply Hctx in Hj as [Hj ->].
      rewrite Hlb in Hin'.
      destruct (decide (Z.of_nat j < id)) as [Hlt|Hge].
      { pose proof (spec_partition_ordered m n Hm Hn Hfit (Z.of_nat j) id
                      ltac:(lia) Hlt). lia. }
      destruct (decide (id < Z.of_nat j)) as [Hgt|Hle]; [|lia].
      pose proof (spec_partition_ordered m n Hm Hn Hfit id (Z.of_nat j)
                    ltac:(lia) Hgt). lia.
Qed.
End worker_protocol.

(** A pool of two workers is sent a trigger with the argument 7: the
    callbacks are called with the empty array. *)
Lemma trigger_reaches_callbacks_without_args_witness :
  ∃ p p' : Page number,
    createPool 2 "worker.js" (fresh_page true) = (Ok tt, p)
    ∧ Coordinator_trigger (VStr "t") (VNum (Fin 7)) p = (Ok tt, p')
    ∧ length (spawned p') = 2%nat
    ∧ ∀ (i : nat) w,
        spawned p' !! i = Some w →
        ∃ ctx,
          receive_all (inbox w) (ctx_on "t" (VFun 0%nat) fresh_ctx)
          = Some ([Initialised; Ran (Invoked [(0%nat, VEmptyArray)])], ctx)
          ∧ ctx_global ctx = worker_global 2 (Z.of_nat i) false
          ∧ ctx_outbox ctx = [MsgWorkerReady].
Proof.
  apply (trigger_reaches_callbacks_without_args 2 "worker.js" "t" 0%nat
           (VNum (Fin 7))).
  lia.
Defined.

(** A pool of two workers is sent the sum 0: the callbacks are called
    with the empty array, the buffers hold 0. *)
Lemma data_reaches_callbacks_unless_falsy_witness :
  ∃ p p' : Page number,
    createPool 2 "worker.js" (fresh_page true) = (Ok tt, p)
    ∧ sendDataToWorkers (VNum (Fin 0)) (VStr "t") p = (Ok tt, p')
    ∧ length (spawned p') = 2%nat
    ∧ ∀ (i : nat) w,
        spawned p' !! i = Some w →
        ∃ ctx,
          receive_all (inbox w) (ctx_on "t" (VFun 0%nat) fresh_ctx)
          = Some ([Initialised; Ran (Invoked [(0%nat, VEmptyArray)])], ctx)
          ∧ ctx_buffer ctx = Some (VNum (Fin 0)).
Proof.
  assert (H : 1 ≤ 2) by lia.
  exact (data_reaches_callbacks_unless_falsy 2 "worker.js" "t" 0%nat
           (VNum (Fin 0)) H).
Defined.

(** A pool of two workers is sent the Vector [[1, 2, 3]]. *)
Lemma vector_reaches_callbacks_witness :
  ∃ p p' : Page number,
    createPool 2 "worker.js" (fresh_page true) = (Ok tt, p)
    ∧ sendVectorToWorkers (BufVec (Vector_of [Fin 1; Fin 2; Fin 3]))
        (VStr "t") p
      = (Ok tt, p')
    ∧ length (spawned p') = 2%nat
    ∧ ∀ (i : nat) w,
        spawned p' !! i = Some w →
        ∃ ctx,
          receive_all (inbox w) (ctx_on "t" (VFun 0%nat) fresh_ctx)
          = Some ([Initialised;
                   Ran (Invoked
                          [(0%nat,
                            VVec (Vector_of [Fin 1; Fin 2; Fin 3]))])],
                  ctx)
          ∧ ctx_buffer ctx = Some (VVec (Vector_of [Fin 1; Fin 2; Fin 3])).
Proof.
  apply (vector_reaches_callbacks 2 "worker.js" "t" 0%nat
           [Fin 1; Fin 2; Fin 3]).
  lia.
Defined.

(** The number 5 registered as a callback. *)
Lemma unchecked_callback_throws_at_trigger_witness :
  let ctx : WorkerCtx number := ctx_on "t" (VNum (Fin 5)) fresh_ctx in
  (∃ handler msg,
     MathWorker_onmessage (MsgTrigger (VStr "t") VUndefined) = Some handler
     ∧ handler ctx = (Throw (TypeError msg), ctx))
  ∧ ∃ msg, EventEmitter_on "t" (VNum (Fin 5))
             (∅ : gmap string (list (value number)))
           = Throw (TypeError msg).
Proof.
  refine (unchecked_callback_throws_at_trigger "t" (VNum (Fin 5))
            VUndefined fresh_ctx ∅ _).
  intros f. discriminate.
Defined.

(** A pool of three workers, with methods of the Coordinator that keep
    a record of their calls: the answers leave the record empty. *)
Lemma pool_handshake_witness :
  ∃ (p built : Page number) (ctxs : list (WorkerCtx number)),
    createPool 3 "worker.js" (fresh_page true) = (Ok tt, p)
    ∧ length ctxs = 3%nat
    ∧ Coordinator_new 3 "worker.js" (fresh_page true)
      = (Throw (TypeError "messageDataBuffer.push is not a function"),
         built)
    ∧ onmessage <$> spawned built = [true; false; false]
    ∧ ∀ i : nat, (i < 3)%nat →
        ∃ run,
          Worker_message (λ name, record_call (CallEmit name))
            (λ dat tag, record_call (CallSendDataToWorkers dat tag))
            (λ vec tag, record_call (CallSendVectorToWorkers vec tag))
            built i MsgWorkerReady Declared
          = Some run
          ∧ run []
            = (if bool_decide (i = 0%nat)
               then Throw (TypeError "handleWorkerReady is not a function")
               else Ok None,
               (Declared, [])).
Proof.
  assert (H : 1 ≤ 3) by (vm_compute; congruence).
  destruct (pool_handshake 3 "worker.js" H)
    as (p & built & ctxs & Hp & Hctxs & _ & Hnew & Hlen & _ & Hheard).
  assert (Hp' : p = (createPool 3 "worker.js" (fresh_page true)).2)
    by (by rewrite Hp).
  assert (Hb : built = (Coordinator_new 3 "worker.js" (fresh_page true)).2)
    by (by rewrite Hnew).
  assert (Hl : length ctxs = 3%nat).
  { rewrite <- Hlen, Hb. reflexivity. }
  exists p, built, ctxs.
  split; [done|]. split; [done|]. split; [done|].
  split; [by rewrite Hb|].
  intros i Hi. rewrite <- Hl in Hi.
  exact (Hheard _ (λ name, record_call (CallEmit name))
           (λ dat tag, record_call (CallSendDataToWorkers dat tag))
           (λ vec tag, record_call (CallSendVectorToWorkers vec tag))
           [] i Hi).
Defined.

(** A pool of three workers and seven indices. *)
Lemma pool_partitions_the_work_witness :
  ∃ (p : Page number) (ctxs : list (WorkerCtx number)),
    createPool 3 "worker.js" (fresh_page true) = (Ok tt, p)
    ∧ Forall2 (λ w ctx, receive_all (inbox w) fresh_ctx
                        = Some ([Initialised], ctx)) (spawned p) ctxs
    ∧ length ctxs = 3%nat
    ∧ (∀ (i : nat) ctx, ctxs !! i = Some ctx →
         loadBalance (ctx_global ctx) 7 = spec_partition 7 3 (Z.of_nat i))
    ∧ ∀ x, 0 ≤ x < 7 →
        ∃ (i : nat) ctx,
          ctxs !! i = Some ctx
          ∧ ifrom (loadBalance (ctx_global ctx) 7) ≤ x
            < ito (loadBalance (ctx_global ctx) 7)
          ∧ ∀ (j : nat) ctx',
              ctxs !! j = Some ctx' →
              ifrom (loadBalance (ctx_global ctx') 7) ≤ x
              < ito (loadBalance (ctx_global ctx') 7) →
              j = i.
Proof.
  apply (pool_partitions_the_work 3 7 "worker.js"); [lia|lia|].
  vm_compute. reflexivity.
Defined.

(** ** Transposition *)

Section transposition.
Context {R : Type} `{!Arith R}.

Lemma entry_lt (r c : nat) (M : Matrix R) (a b : nat) :
  Matrix_shape r c M →
  (a < r)%nat → (b < c)%nat → is_Some (entry (mat_array M) a b).
Proof.
  intros (_ & _ & Hlen & Hrows) Ha Hb. unfold entry.
  destruct (lookup_lt_is_Some_2 (mat_array M) a ltac:(lia)) as [row Hrow].
  rewrite Hrow. simpl. apply lookup_lt_is_Some_2.
  rewrite Forall_lookup in Hrows. rewrite (Hrows _ _ Hrow). done.
Qed.

Lemma entry_ge (r c : nat) (M : Matrix R) (a b : nat) :
  Matrix_shape r c M →
  (r ≤ a)%nat ∨ (c ≤ b)%nat → entry (mat_array M) a b = None.
Proof.
  intros (_ & _ & Hlen & Hrows) Hab. unfold entry.
  destruct (mat_array M !! a) as [row|] eqn:Hrow; simpl; [|done].
  apply lookup_ge_None_2.
  rewrite Forall_lookup in Hrows. rewrite (Hrows _ _ Hrow).
  apply lookup_lt_Some in Hrow. lia.
Qed.

(** Matrices of one shape with the same entries are equal. *)
Lemma shape_ext (r c : nat) (M M' : Matrix R) :
  Matrix_shape r c M → Matrix_shape r c M' →
  (∀ a b, entry (mat_array M') a b = entry (mat_array M) a b) →
  M' = M.
Proof.
  intros (Hr & Hc & Hlen & Hrows) (Hr' & Hc' & Hlen' & Hrows') Hentries.
  destruct M as [rows nr nc], M' as [rows' nr' nc']; simpl in *.
  f_equal; [|lia..].
  apply list_eq. intros a.
  destruct (rows !! a) as [row|] eqn:Hrow.
  - destruct (lookup_lt_is_Some_2 rows' a) as [row' Hrow'].
    { apply lookup_lt_Some in Hrow. lia. }
    rewrite Hrow'. f_equal. apply list_eq. intros b.
    specialize (Hentries a b). unfold entry in Hentries.
    by rewrite Hrow, Hrow' in Hentries.
  - apply lookup_ge_None_2. apply lookup_ge_None_1 in Hrow. lia.
Qed.

Lemma Matrix_new_shape (r c : nat) :
  (0 < r)%nat → (0 < c)%nat →
  Matrix_shape r c (Matrix_new (Z.of_nat r) (Z.of_nat c) : Matrix R).
Proof.
  intros Hr Hc. unfold Matrix_new.
  destruct (Z.ltb_spec 0 (Z.of_nat r)); [|lia].
  destruct (Z.ltb_spec 0 (Z.of_nat c)); [|lia].
  simpl. rewrite !Nat2Z.id. unfold Matrix_shape. simpl.
  rewrite length_replicate. split; [done|]. split; [done|]. split; [done|].
  apply Forall_replicate. by rewrite length_replicate.
Qed.

Lemma mat_get_entry (rows : list (list R)) (a b : nat) (x : R) :
  entry rows a b = Some x →
  mat_get rows (Z.of_nat a) (Z.of_nat b) = Ok x.
Proof.
  unfold entry, mat_get. intros Hx.
  destruct (Z.ltb_spec (Z.of_nat a) 0); [lia|].
  rewrite Nat2Z.id.
  destruct (rows !! a) as [row|]; simpl in *; [|done].
  by rewrite (ta_get_lookup _ _ _ Hx).
Qed.

(** A store into a Matrix within its shape. *)
Lemma mat_set_entry (r c : nat) (M : Matrix R) (a b : nat) (x : R) :
  Matrix_shape r c M →
  (a < r)%nat → (b < c)%nat →
  ∃ rows',
    mat_set (mat_array M) (Z.of_nat a) (Z.of_nat b) x = Ok rows'
    ∧ Matrix_shape r c (set_mat_array rows' M)
    ∧ ∀ a' b',
        entry rows' a' b'
        = if decide (a' = a ∧ b' = b) then Some x
          else entry (mat_array M) a' b'.
Proof.
  intros (Hr & Hc & Hlen & Hrows) Ha Hb.
  destruct (lookup_lt_is_Some_2 (mat_array M) a ltac:(lia)) as [row Hrow].
  assert (Hlrow : length row = c).
  { rewrite Forall_lookup in Hrows. by apply (Hrows a). }
  exists (<[a := <[b := x]> row]> (mat_array M)).
  split; [|split].
  - unfold mat_set. destruct (Z.ltb_spec (Z.of_nat a) 0); [lia|].
    rewrite Nat2Z.id, Hrow.
    rewrite ta_set_nonneg by lia. by rewrite Nat2Z.id.
  - unfold Matrix_shape, set_mat_array. simpl.
    rewrite length_insert. split; [done|]. split; [done|]. split; [done|].
    apply Forall_insert; [done|]. by rewrite length_insert.
  - intros a' b'. unfold entry.
    destruct (decide (a' = a)) as [->|Hne].
    + rewrite list_lookup_insert_eq by lia. simpl.
      destruct (decide (b' = b)) as [->|Hne].
      * rewrite list_lookup_insert_eq by lia. by rewrite decide_True.
      * rewrite list_lookup_insert_ne by done.
        rewrite decide_False by lia. by rewrite Hrow.
    + rewrite list_lookup_insert_ne by done.
      by rewrite decide_False by lia.
Qed.

(** One store of [transpose]. *)
Lemma transpose_entry_spec (r c : nat) (M B : Matrix R) (i j : nat) :
  Matrix_shape r c M → Matrix_shape c r B →
  (i < r)%nat → (j < c)%nat →
  ∃ B',
    transpose_entry M (Z.of_nat i) (Z.of_nat j) B = (Ok tt, B')
    ∧ Matrix_shape c r B'
    ∧ ∀ a b,
        entry (mat_array B') a b
        = if decide (a = j ∧ b = i) then entry (mat_array M) i j
          else entry (mat_array B) a b.
Proof.
  intros HM HB Hi Hj.
  destruct (entry_lt r c M i j HM Hi Hj) as [x Hx].
  destruct (mat_set_entry c r B j i x HB Hj Hi) as (rows' & Hset & HB' & He).
  exists (set_mat_array rows' B). split; [|split; [done|]].
  - unfold transpose_entry, update.
    rewrite (mat_get_entry _ _ _ _ Hx). simpl. by rewrite Hset.
  - intros a b. simpl. rewrite He. by rewrite Hx.
Qed.

(** On a Matrix of [r] rows and [c] columns, [transpose] returns a
    Matrix of [c] rows and [r] columns whose entries are the mirror
    images. *)
Lemma transpose_spec (r c : nat) (M : Matrix R) :
  Matrix_shape r c M →
  (0 < r)%nat → (0 < c)%nat →
  ∃ B, transpose M = Ok B
    ∧ Matrix_shape c r B
    ∧ ∀ a b, entry (mat_array B) a b = entry (mat_array M) b a.
Proof.
  intros HM Hr Hc. pose proof HM as (Hnr & Hnc & _).
  set (Inner := λ (i : nat) (j : Z) (B : Matrix R),
    0 ≤ j
    ∧ Matrix_shape c r B
    ∧ ∀ a b, ((b < i)%nat ∨ (b = i ∧ Z.of_nat a < j)) →
             entry (mat_array B) a b = entry (mat_array M) b a).
  set (Outer := λ (i : Z) (B : Matrix R),
    0 ≤ i
    ∧ Matrix_shape c r B
    ∧ ∀ a b, Z.of_nat b < i →
             entry (mat_array B) a b = entry (mat_array M) b a).
  assert (Hrow : ∀ (i : nat) B, (i < r)%nat → Outer (Z.of_nat i) B →
            ∃ B', for_ 0 (ncols M) 1
                    (λ j, transpose_entry M (Z.of_nat i) j) B
                  = (Ok (ncols M), B')
              ∧ Outer (Z.of_nat i + 1) B').
  { intros i B Hi (_ & HB & Hent).
    destruct (for_invariant (Inner i)
                (λ j, transpose_entry M (Z.of_nat i) j) 0 (ncols M) B)
      as (B' & Hrun & _ & HB' & Hent').
    - intros j B1 Hj (Hlo & HB1 & Hent1).
      destruct (transpose_entry_spec r c M B1 i (Z.to_nat j) HM HB1)
        as (B2 & Hstep & HB2 & Hent2); [lia..|].
      rewrite Z2Nat.id in Hstep by lia.
      exists B2. split; [done|]. split; [lia|]. split; [done|].
      intros a b Hab. rewrite Hent2.
      destruct (decide (a = Z.to_nat j ∧ b = i)) as [[-> ->]|Hne]; [done|].
      apply Hent1. lia.
    - lia.
    - split; [lia|]. split; [done|]. intros a b Hab. apply Hent. lia.
    - exists B'. split; [done|]. split; [lia|]. split; [done|].
      intros a b Hb.
      destruct (decide (b < i)%nat) as [Hlt|Hge].
      { apply Hent'. by left. }
      assert (b = i) as -> by lia.
      destruct (decide (a < c)%nat) as [Ha|Ha].
      + apply Hent'. right. split; [done|]. lia.
      + rewrite (entry_ge c r B') by (done || lia).
        by rewrite (entry_ge r c M) by (done || lia). }
  destruct (for_invariant Outer
              (λ i, for_ 0 (ncols M) 1 (λ j, transpose_entry M i j);;
                    mret tt)
              0 (nrows M)
              (Matrix_new (ncols M) (nrows M)))
    as (B & Hrun & _ & HB & Hent).
  - intros i B1 Hi HB1. pose proof HB1 as (Hlo & _).
    destruct (Hrow (Z.to_nat i) B1) as (B2 & Hstep & HB2); [lia| |].
    { by rewrite Z2Nat.id by lia. }
    rewrite Z2Nat.id in Hstep, HB2 by lia.
    exists B2. split; [|done].
    by rewrite Comp_bind_unfold, Hstep.
  - lia.
  - split; [done|]. split.
    + rewrite Hnr, Hnc. by apply Matrix_new_shape.
    + intros a b Hb. lia.
  - exists B. split.
    { unfold transpose, with_locals. by rewrite Hrun. }
    split; [done|]. intros a b.
    destruct (decide (b < r)%nat) as [Hb|Hb].
    + apply Hent. lia.
    + rewrite (entry_ge c r B) by (done || lia).
      by rewrite (entry_ge r c M) by (done || lia).
Qed.

Lemma transposeInPlace_empty (M : Matrix R) :
  Matrix_shape 0 0 M →
  transposeInPlace M = (Ok tt, M) ∧ transpose M = Ok M.
Proof.
  intros (Hr & Hc & Hlen & _).
  destruct M as [rows nr nc]. simpl in *. subst nr nc.
  destruct rows; [|done]. done.
Qed.

(** [transpose] of a Matrix of [r] rows and [c] columns, both positive,
    returns a Matrix of [c] rows and [r] columns whose entry at
    [(j, i)] is the entry of the receiver at [(i, j)]; the receiver is
    not touched, the result being a new Matrix. *)
Theorem transpose_mirrors (r c : nat) (M : Matrix R) :
  Matrix_shape r c M →
  (0 < r)%nat → (0 < c)%nat →
  ∃ B, transpose M = Ok B
    ∧ Matrix_shape c r B
    ∧ ∀ i j, (i < r)%nat → (j < c)%nat →
        ∃ x, entry (mat_array M) i j = Some x
           ∧ entry (mat_array B) j i = Some x.
Proof.
  intros HM Hr Hc.
  destruct (transpose_spec r c M HM Hr Hc) as (B & Hrun & HB & Hent).
  exists B. split; [done|]. split; [done|].
  intros i j Hi Hj.
  destruct (entry_lt r c M i j HM Hi Hj) as [x Hx].
  exists x. split; [done|]. by rewrite Hent.
Qed.

(** Transposing twice gives the Matrix back, whatever its shape. *)
Theorem transpose_twice (r c : nat) (M : Matrix R) :
  Matrix_shape r c M →
  (0 < r)%nat → (0 < c)%nat →
  ∃ B, transpose M = Ok B ∧ transpose B = Ok M.
Proof.
  intros HM Hr Hc.
  destruct (transpose_spec r c M HM Hr Hc) as (B & Hrun & HB & Hent).
  destruct (transpose_spec c r B HB Hc Hr) as (M' & Hrun' & HM' & Hent').
  exists B. split; [done|]. rewrite Hrun'. f_equal.
  apply (shape_ext r c); [done..|].
  intros a b. by rewrite Hent', Hent.
Qed.

(** On a square Matrix, [transposeInPlace] leaves in the receiver the
    Matrix that [transpose] returns; a second [transposeInPlace] gives
    the receiver back. *)
Theorem transposeInPlace_is_transpose (n : nat) (M : Matrix R) :
  Matrix_shape n n M →
  ∃ B, transposeInPlace M = (Ok tt, B)
    ∧ transpose M = Ok B
    ∧ transposeInPlace B = (Ok tt, M).
Proof.
  intros HM.
  destruct (transposeInPlace_spec n M HM) as (B & Hrun & HB & Hent).
  destruct (transposeInPlace_spec n B HB) as (M' & Hrun' & HM' & Hent').
  exists B. split; [done|]. split.
  - destruct (decide (n = 0%nat)) as [->|Hn].
    + destruct (transposeInPlace_empty M HM) as [Hsame Ht].
      rewrite Hsame in Hrun. by simplify_eq.
    + destruct (transpose_spec n n M HM) as (B' & Ht & HB' & Hent'');
        [lia..|].
      rewrite Ht. f_equal. apply (shape_ext n n); [done..|].
      intros a b. by rewrite Hent, Hent''.
  - rewrite Hrun'. f_equal. apply (shape_ext n n); [done..|].
    intros a b. by rewrite Hent', Hent.
Qed.
End transposition.

(** A Matrix of two rows and three columns. *)
Lemma transpose_mirrors_witness :
  let M := mkMatrix [[Fin 1; Fin 2; Fin 3]; [Fin 4; Fin 5; Fin 6]] 2 3 in
  ∃ B, transpose M = Ok B
    ∧ Matrix_shape 3 2 B
    ∧ ∀ i j, (i < 2)%nat → (j < 3)%nat →
        ∃ x, entry (mat_array M) i j = Some x
           ∧ entry (mat_array B) j i = Some x.
Proof.
  intros M. refine (transpose_mirrors 2 3 M _ _ _); [|lia..].
  unfold Matrix_shape. simpl. repeat split; try done.
  repeat constructor.
Defined.

Lemma transpose_twice_witness :
  let M := mkMatrix [[Fin 1; Fin 2; Fin 3]; [Fin 4; Fin 5; Fin 6]] 2 3 in
  ∃ B, transpose M = Ok B ∧ transpose B = Ok M.
Proof.
  intros M. refine (transpose_twice 2 3 M _ _ _); [|lia..].
  unfold Matrix_shape. simpl. repeat split; try done.
  repeat constructor.
Defined.

Lemma transposeInPlace_is_transpose_witness :
  let M := mkMatrix [[Fin 1; Fin 2]; [Fin 3; Fin 4]] 2 2 in
  ∃ B, transposeInPlace M = (Ok tt, B)
    ∧ transpose M = Ok B
    ∧ transposeInPlace B = (Ok tt, M).
Proof.
  intros M. refine (transposeInPlace_is_transpose 2 M _).
  unfold Matrix_shape. simpl. repeat split; try done.
  repeat constructor.
Defined.


(** ** Matrix-vector products *)

Section bounded_loops.
Context {St : Type}.
Variable P : St → Prop.
Variable f : Z → St → St.
Hypothesis P_step : ∀ j s, P s → P (f j s).

(** A loop that advances by one, whose body is [f] within the bounds of
    the loop, is a fold over the indices. *)
Lemma for_fold_within (body : Z → Comp St unit) (i0 n : Z) (s : St) :
  (∀ i s, i0 ≤ i < n → P s → body i s = (Ok tt, f i s)) →
  P s → i0 ≤ n →
  for_ i0 n 1 body s
  = (Ok n, foldl (λ s j, f j s) s (seqZ i0 (n - i0))).
Proof.
  intros Hbody Hs Hle.
  destruct (for_invariant
              (λ i s', i0 ≤ i ∧ P s'
                 ∧ s' = foldl (λ s j, f j s) s (seqZ i0 (i - i0)))
              body i0 n s)
    as (s' & Hrun & _ & _ & ->).
  - intros i s1 Hi (Hlo & Hs1 & ->).
    eexists. split; [by apply Hbody|].
    split; [lia|]. split; [by apply P_step|].
    replace (i + 1 - i0) with ((i - i0) + 1) by lia.
    rewrite seqZ_app by lia. rewrite foldl_app. simpl.
    by replace (i0 + (i - i0)) with i by lia.
  - done.
  - split; [lia|]. split; [done|].
    by rewrite Z.sub_diag.
  - done.
Qed.

Lemma plain_loop_fold_within (body : Z → Comp St unit) (i0 n : Z)
    (s : St) :
  (∀ i s, i0 ≤ i < n → P s → body i s = (Ok tt, f i s)) →
  P s → i0 ≤ n →
  with_locals s (for_ i0 n 1 body)
  = Ok (foldl (λ s j, f j s) s (seqZ i0 (n - i0))).
Proof.
  intros Hbody Hs Hle. unfold with_locals.
  by rewrite for_fold_within.
Qed.

(** A loop that advances by four up to [bound] and does the work of
    four turns of [f] in each of its own, where its body is that work
    within the bounds. *)
Lemma for_loop_unrolled_within (body4 : Z → Comp St unit) (lo bound : Z) :
  (∀ i s, lo ≤ i < bound → P s →
     body4 i s = (Ok tt, f (i + 3) (f (i + 2) (f (i + 1) (f i s))))) →
  ∀ (fuel : nat) (i : Z) (s : St),
    lo ≤ i → P s →
    ∃ i', i ≤ i' ∧ i' ≤ Z.max i (bound + 3)
      ∧ (bound - i ≤ Z.of_nat fuel * 4 → bound ≤ i')
      ∧ for_loop fuel i bound 4 body4 s
        = (Ok i', foldl (λ s j, f j s) s (seqZ i (i' - i))).
Proof.
  intros Hbody fuel. induction fuel as [|fuel IH]; intros i s Hi Hs.
  - exists i. replace (i - i) with 0 by lia. simpl.
    split; [lia|]. split; [lia|]. split; [lia|done].
  - simpl. destruct (Z.ltb_spec i bound) as [Hlt|Hge].
    + rewrite Comp_bind_unfold, Hbody by (done || lia).
      destruct (IH (i + 4) (f (i + 3) (f (i + 2) (f (i + 1) (f i s)))))
        as (i' & Hle & Hmax & Hend & ->); [lia| |].
      { by do 4 apply P_step. }
      exists i'. split; [lia|]. split; [lia|]. split; [lia|].
      f_equal. replace (i' - i) with (4 + (i' - (i + 4))) by lia.
      rewrite seqZ_app by lia. rewrite foldl_app.
      assert (seqZ i 4 = [i; i + 1; i + 2; i + 3]) as ->.
      { unfold seqZ. simpl. rewrite !(Z.add_comm _ i). simpl.
        by rewrite Z.add_0_r. }
      reflexivity.
    + exists i. replace (i - i) with 0 by lia. simpl.
      split; [lia|]. split; [lia|]. split; [lia|done].
Qed.

(** The unrolled loops of a method whose bodies are [f] within the
    bounds: together they do what the plain loop does. *)
Lemma unrolled_loops_fold_within (body4 body : Z → Comp St unit)
    (i0 n : Z) (s : St) :
  (∀ i s, i0 ≤ i → i + 3 < n → P s →
     body4 i s = (Ok tt, f (i + 3) (f (i + 2) (f (i + 1) (f i s))))) →
  (∀ i s, i0 ≤ i < n → P s → body i s = (Ok tt, f i s)) →
  P s → i0 ≤ n →
  with_locals s (i ← for_ i0 (n - 3) 4 body4; for_ i n 1 body)
  = Ok (foldl (λ s j, f j s) s (seqZ i0 (n - i0))).
Proof.
  intros Hbody4 Hbody Hs Hle. unfold with_locals.
  rewrite Comp_bind_unfold. unfold for_ at 1.
  destruct (for_loop_unrolled_within body4 i0 (n - 3)
              ltac:(intros i s' Hi Hs'; apply Hbody4; (done || lia))
              (Z.to_nat (n - 3 - i0)) i0 s ltac:(lia) Hs)
    as (i' & Hle' & Hmax & Hend & ->).
  rewrite (for_fold_within body i' n);
    [|intros i s' Hi Hs'; apply Hbody; (done || lia)
     |by apply foldl_preserves|lia].
  f_equal. rewrite <- foldl_app. f_equal.
  replace (n - i0) with ((i' - i0) + (n - i')) by lia.
  rewrite seqZ_app by lia. do 2 f_equal. lia.
Qed.
End bounded_loops.

Section matrix_vector_products.
Context {R : Type} `{!Arith R}.
Context `{!Assoc (=) (add (R:=R))}.

Lemma checkMatrixVector_of_list (r c : nat) (M : Matrix R) (x : list R) :
  Matrix_shape r c M →
  length x = c →
  checkMatrixVector (VMat M) (VVec (Vector_of x)) = Ok (M, Vector_of x).
Proof.
  intros (_ & Hc & _) Hx. unfold checkMatrixVector.
  cbn [checkMatrix checkVector nullOrUndefined checkNullOrUndefined
       mbind Result_bind].
  rewrite decide_True; [done|]. rewrite Vector_of_length. lia.
Qed.

(** The inner loops on one row, plain or unrolled: the products of the
    entries of the row with those of the Vector, summed in order. *)
Lemma row_dot_value (r c : nat) (M : Matrix R) (x row : list R) (i : nat) :
  Matrix_shape r c M →
  length x = c →
  mat_array M !! i = Some row →
  row_dot_unrolled M (Vector_of x) (Z.of_nat i)
  = Ok (foldl add zero (zip_with mul row x))
  ∧ row_dot_plain M (Vector_of x) (Z.of_nat i)
    = Ok (foldl add zero (zip_with mul row x)).
Proof.
  intros (_ & Hc & _ & Hrows) Hx Hrow.
  assert (Hlrow : length row = c).
  { rewrite Forall_lookup in Hrows. by apply (Hrows i). }
  unfold row_dot_unrolled, row_dot_plain. rewrite Hc. cbv zeta.
  destruct x as [|y x].
  { simpl in Hx. subst c. destruct row; [|done].
    unfold with_locals, for_. by rewrite Comp_bind_unfold. }
  assert (Hget : ∀ j, mat_get (mat_array M) (Z.of_nat i) j
                      = Ok (ta_get row j)).
  { intros j. unfold mat_get.
    destruct (Z.ltb_spec (Z.of_nat i) 0); [lia|].
    by rewrite Nat2Z.id, Hrow. }
  set (f := λ (j : Z) (acc : R),
              add acc (mul (ta_get row j) (ta_get (y :: x) j))).
  assert (H1 : ∀ j (s : R), True →
                 row_dot_step M (Vector_of (y :: x)) (Z.of_nat i) j s
                 = (Ok tt, f j s)).
  { intros j s _. unfold row_dot_step, update. by rewrite Hget. }
  assert (H4 : ∀ j (s : R), True →
                 row_dot_step4 M (Vector_of (y :: x)) (Z.of_nat i) j s
                 = (Ok tt, f (j + 3) (f (j + 2) (f (j + 1) (f j s))))).
  { intros j s _. unfold row_dot_step4, update. rewrite !Hget.
    unfold f. simpl. by rewrite !(assoc_L add). }
  assert (Hfold : foldl (λ s j, f j s) zero (seqZ 0 (Z.of_nat c - 0))
                  = foldl add zero (zip_with mul row (y :: x))).
  { rewrite <- serial_dot_all by lia. unfold serial_dot.
    by rewrite Hlrow. }
  split.
  - rewrite (unrolled_loops_fold (λ _, True) f); [|done..].
    by rewrite Hfold.
  - rewrite (plain_loop_fold (λ _, True) f); [|done..].
    by rewrite Hfold.
Qed.

(** The loop [w.array[i] = tot] over the indices of a new Vector of the
    length of [l], when the total for index [k] is the entry of [l]
    there. *)
Lemma assign_loop_list (tot_of : Z → Result R) (l : list R) :
  (∀ (k : nat) z, l !! k = Some z → tot_of (Z.of_nat k) = Ok z) →
  l ≠ [] →
  with_locals (vec_array (Vector_new (Z.of_nat (length l))))
    (for_ 0 (Z.of_nat (length l)) 1 (assign_entry tot_of))
  = Ok (Some l).
Proof.
  intros Htot Hne.
  assert (Hpos : (0 < length l)%nat) by (destruct l; [done|simpl; lia]).
  rewrite Vector_new_pos by lia. cbn [vec_array].
  set (f := λ (j : Z) (s : option (list R)),
              (λ a, ta_set a j (ta_get l j)) <$> s).
  assert (Hstep : ∀ j s, is_Some s → is_Some (f j s)).
  { intros j s [a ->]. by eexists. }
  rewrite (plain_loop_fold_within is_Some f Hstep); [| |done|lia].
  - rewrite Z.sub_0_r. unfold f.
    rewrite foldl_assign by (by rewrite length_replicate).
    rewrite drop_ge, app_nil_r by (by rewrite length_replicate).
    do 2 f_equal. apply fmap_seqZ_eq. intros k z Hz.
    by apply ta_get_lookup.
  - intros i s Hi [a ->]. unfold assign_entry, update.
    destruct (lookup_lt_is_Some_2 l (Z.to_nat i) ltac:(lia)) as [z Hz].
    pose proof (Htot _ _ Hz) as Hrun. rewrite Z2Nat.id in Hrun by lia.
    rewrite Hrun. simpl. unfold f. simpl.
    rewrite <- (ta_get_lookup _ _ _ Hz). by rewrite Z2Nat.id by lia.
Qed.

(** The loop [w[offset++] = tot] over the range of a worker, when the
    total for index [k] is the entry of [l] there: the buffer is filled
    with the entries of [l] in the range. *)
Lemma store_loop_list (tot_of : Z → Result R) (l : list R) (lb : Range) :
  (∀ (k : nat) z, l !! k = Some z → tot_of (Z.of_nat k) = Ok z) →
  0 ≤ ifrom lb ≤ ito lb → ito lb ≤ Z.of_nat (length l) →
  with_locals (replicate (Z.to_nat (ito lb - ifrom lb)) zero, 0)
    (for_ (ifrom lb) (ito lb) 1 (store_row tot_of))
  = Ok (slice l lb, ito lb - ifrom lb).
Proof.
  intros Htot Hlb Hhi.
  rewrite (plain_loop_fold_within (λ _, True)
             (λ j (s : list R * Z),
                (ta_set s.1 s.2 (ta_get l j), s.2 + 1)));
    [|done| |done|lia].
  - assert (Hm : ito lb - ifrom lb
                 = Z.of_nat (Z.to_nat (ito lb - ifrom lb))) by lia.
    set (m := Z.to_nat (ito lb - ifrom lb)) in *. rewrite Hm.
    rewrite foldl_store by (by rewrite length_replicate).
    rewrite drop_ge, app_nil_r by (by rewrite length_replicate).
    do 2 f_equal. rewrite <- Hm.
    apply (fmap_seqZ_slice (ta_get l) l lb); [|done|lia].
    intros k z Hz. by apply ta_get_lookup.
  - intros i [w offset] Hi _. unfold store_row, update.
    destruct (lookup_lt_is_Some_2 l (Z.to_nat i) ltac:(lia)) as [z Hz].
    pose proof (Htot _ _ Hz) as Hrun. rewrite Z2Nat.id in Hrun by lia.
    rewrite Hrun. simpl.
    rewrite <- (ta_get_lookup _ _ _ Hz). by rewrite Z2Nat.id by lia.
Qed.

Lemma Vector_of_nonempty (l : list R) :
  l ≠ [] → Vector_of l = mkVector (Some l) (Z.of_nat (length l)).
Proof. by destruct l. Qed.

(** The total of every row, plain or unrolled. *)
Lemma rows_times_total (r c : nat) (M : Matrix R) (x : list R) :
  Matrix_shape r c M →
  length x = c →
  ∀ (k : nat) z, rows_times (mat_array M) x !! k = Some z →
    row_dot_unrolled M (Vector_of x) (Z.of_nat k) = Ok z
    ∧ row_dot_plain M (Vector_of x) (Z.of_nat k) = Ok z.
Proof.
  intros HM Hx k z Hz. unfold rows_times in Hz.
  rewrite list_lookup_fmap in Hz.
  destruct (mat_array M !! k) as [row|] eqn:Hrow; [|done].
  simpl in Hz. injection Hz as <-. by apply (row_dot_value r c).
Qed.

Lemma Matrix_dotVector_of_list (g : Global) (r c : nat) (M : Matrix R)
    (x : list R) :
  Matrix_shape r c M →
  length x = c →
  Matrix_dotVector g (VMat M) (VVec (Vector_of x))
  = Ok (Vector_of (rows_times (mat_array M) x)).
Proof.
  intros HM Hx. pose proof HM as (Hr & Hc & Hlen & Hrows).
  unfold Matrix_dotVector.
  rewrite (checkMatrixVector_of_list r c) by done.
  cbn [mbind Result_bind]. cbv zeta.
  assert (Hlt : length (rows_times (mat_array M) x) = r).
  { unfold rows_times. by rewrite length_fmap. }
  rewrite Hr, <- Hlt.
  destruct (decide (rows_times (mat_array M) x = [])) as [Hnil|Hne].
  { rewrite Hnil. unfold with_locals, for_.
    by destruct (unrollLoops g). }
  rewrite (Vector_of_nonempty _ Hne).
  pose proof (rows_times_total r c M x HM Hx) as Htot.
  destruct (unrollLoops g).
  - rewrite assign_loop_list; [|intros k z Hz; by apply Htot|done].
    by rewrite Vector_new_pos
      by (destruct (rows_times _ _); simpl; done || lia).
  - rewrite assign_loop_list; [|intros k z Hz; by apply Htot|done].
    by rewrite Vector_new_pos
      by (destruct (rows_times _ _); simpl; done || lia).
Qed.

(** Worker [id] of [k] ships the products of the rows in its range,
    with its offset; the length it announces is that of the Vector,
    the number of columns. *)
Lemma Matrix_wkDotVector_reports (unroll : bool) (k id : Z) (r c : nat)
    (M : Matrix R) (x : list R) (tag : value R) (rebroadcast : bool)
    (out : list (Message R)) :
  let lb := spec_partition (Z.of_nat r) k id in
  Matrix_shape r c M →
  length x = c →
  1 ≤ Z.of_nat r → 1 ≤ k → Z.of_nat r / k < 2 ^ 31 →
  0 ≤ id < k →
  nullOrUndefined tag = false →
  Matrix_wkDotVector (worker_global k id unroll) (VMat M)
    (VVec (Vector_of x)) tag rebroadcast out
  = (Ok tt,
     out ++ [MsgGatherVector tag id rebroadcast (Z.of_nat c) (ifrom lb)
               (slice (rows_times (mat_array M) x) lb)]).
Proof.
  intros lb HM Hx Hr1 Hk Hfit Hid Htag.
  pose proof HM as (Hr & Hc & Hlen & Hrows).
  unfold Matrix_wkDotVector.
  rewrite Comp_bind_unfold. unfold lift at 1.
  rewrite (checkMatrixVector_of_list r c) by done.
  rewrite Comp_bind_unfold. unfold lift at 1, checkNullOrUndefined.
  rewrite Htag. rewrite Hr, Vector_of_length, Hx.
  rewrite loadBalance_spec_partition by done. fold lb.
  destruct (spec_partition_bounds (Z.of_nat r) k id)
    as (Hlo & Hmid & Hhi); [done..|]. fold lb in Hlo, Hmid, Hhi.
  rewrite Comp_bind_unfold. unfold lift at 1, new_Float64Array.
  destruct (Z.ltb_spec (ito lb - ifrom lb) 0) as [?|_]; [lia|].
  rewrite Comp_bind_unfold. unfold lift at 1.
  cbn [unrollLoops worker_global].
  assert (Hlt : length (rows_times (mat_array M) x) = r).
  { unfold rows_times. by rewrite length_fmap. }
  pose proof (rows_times_total r c M x HM Hx) as Htot.
  destruct unroll.
  - rewrite (store_loop_list _ (rows_times (mat_array M) x));
      [done|intros j z Hz; by apply Htot|done|lia].
  - rewrite (store_loop_list _ (rows_times (mat_array M) x));
      [done|intros j z Hz; by apply Htot|done|lia].
Qed.

(** [dotVector] of a Matrix of [r] rows and [c] columns with a Vector
    of [c] entries returns the Vector of the [r] row products, each the
    sum, taken in order from [0], of the products of the entries of the
    row with those of the Vector, with either setting of [unrollLoops];
    with a Vector of another length it throws. *)
Theorem Matrix_dotVector_rows (g : Global) (r c : nat) (M : Matrix R)
    (x : list R) :
  Matrix_shape r c M →
  (length x = c →
   Matrix_dotVector g (VMat M) (VVec (Vector_of x))
   = Ok (Vector_of
           ((λ row, foldl add zero (zip_with mul row x)) <$> mat_array M)))
  ∧ (length x ≠ c →
     Matrix_dotVector g (VMat M) (VVec (Vector_of x))
     = Throw (PlainError
         "Vector length and number Matrix columns are unequal.")).
Proof.
  intros HM. split; intros Hx.
  - by apply (Matrix_dotVector_of_list g r c).
  - destruct HM as (_ & Hc & _).
    unfold Matrix_dotVector, checkMatrixVector.
    cbn [checkMatrix checkVector nullOrUndefined checkNullOrUndefined
         mbind Result_bind].
    rewrite decide_False; [done|]. rewrite Vector_of_length. lia.
Qed.

(** The worker method [wkDotVector] of a Matrix of [r] rows and [c]
    columns, on worker [id] of [k], with an associative [+]: with
    either setting of [unrollLoops] it posts one report, which carries the products of the rows of the
    worker's range and the start of the range as offset, and which
    announces [c], the length of the Vector, as the length of the
    whole, where the whole has [r] entries. *)
Theorem Matrix_wkDotVector_ships_rows (unroll : bool) (k id : Z)
    (r c : nat) (M : Matrix R) (x : list R) (tag : value R)
    (rebroadcast : bool) :
  let lb := spec_partition (Z.of_nat r) k id in
  let whole := (λ row, foldl add zero (zip_with mul row x)) <$> mat_array M in
  Matrix_shape r c M →
  length x = c →
  1 ≤ Z.of_nat r → 1 ≤ k → Z.of_nat r / k < 2 ^ 31 →
  0 ≤ id < k →
  nullOrUndefined tag = false →
  length whole = r
  ∧ Matrix_wkDotVector (worker_global k id unroll) (VMat M)
      (VVec (Vector_of x)) tag rebroadcast []
    = (Ok tt,
       [MsgGatherVector tag id rebroadcast (Z.of_nat c) (ifrom lb)
          (take (Z.to_nat (ito lb - ifrom lb))
             (drop (Z.to_nat (ifrom lb)) whole))]).
Proof.
  intros lb whole HM Hx Hr1 Hk Hfit Hid Htag. split.
  - destruct HM as (_ & _ & Hlen & _). unfold whole.
    by rewrite length_fmap.
  - by rewrite (Matrix_wkDotVector_reports unroll k id r c).
Qed.

(** The partitioned matrix-vector product ships the serial result in
    slices, on square matrices and with an associative [+].  Let each
    of the [k] workers call [wkDotVector] on a square Matrix of order
    [n ≥ k] and a Vector of [n] entries.  Every call returns and posts
    one gather report; in the order of the worker ids the reports are
    those of a gather round for [k] consecutive slices, each shipped
    with its offset and with the length [n], and the slices one after
    the other are the entries of the Vector that the serial
    [dotVector] returns, with either setting of [unrollLoops] on either
    side. *)
Theorem parallel_matrix_vector_is_serial (unroll : bool) (gs : Global)
    (k : Z) (n : nat) (M : Matrix R) (x : list R) (tag : value R)
    (rebroadcast : bool) :
  let this := VMat M in
  let v := VVec (Vector_of x) in
  let call id :=
    Matrix_wkDotVector (worker_global k id unroll) this v tag rebroadcast in
  Matrix_shape n n M →
  length x = n →
  1 ≤ k → k ≤ Z.of_nat n → Z.of_nat n / k < 2 ^ 31 →
  nullOrUndefined tag = false →
  ∃ slices,
    Matrix_dotVector gs this v = Ok (Vector_of (concat slices))
    ∧ length slices = Z.to_nat k
    ∧ Forall (λ id, is_ok (call id []).1 = true) (seqZ 0 k)
    ∧ concat ((λ id, posts (call id)) <$> seqZ 0 k)
      = gather_reports tag rebroadcast (Z.of_nat n) 0 0 slices.
Proof.
  intros this v call HM Hx Hk Hkn Hfit Htag.
  set (whole := rows_times (mat_array M) x).
  assert (Hlen : length whole = n).
  { destruct HM as (_ & _ & Hlen & _). unfold whole, rows_times.
    by rewrite length_fmap. }
  destruct (pool_gathers_slices (Z.of_nat n) k ltac:(lia) Hk Hfit call
              whole tag rebroadcast (Z.of_nat n) ltac:(by rewrite Hlen))
    as (slices & Hconcat & Hslices & Hret & Hposts).
  { intros id Hid. exists tt. unfold call, this, v.
    by rewrite (Matrix_wkDotVector_reports unroll k id n n)
      by (done || lia). }
  exists slices. rewrite Hconcat. split; [|done].
  unfold this, v. by apply (Matrix_dotVector_of_list gs n n).
Qed.
End matrix_vector_products.

(** A Matrix of two rows and three columns, unrolled loops:
    [[1 2 3] [4 5 6]] times [(1, 10, 100)], and times a Vector of two
    entries. *)
Lemma Matrix_dotVector_rows_witness :
  let M := mkMatrix [[Fin 1; Fin 2; Fin 3]; [Fin 4; Fin 5; Fin 6]] 2 3 in
  Matrix_dotVector (worker_global 1 0 true) (VMat M)
    (VVec (Vector_of [Fin 1; Fin 10; Fin 100]))
  = Ok (Vector_of [Fin 321; Fin 654])
  ∧ Matrix_dotVector (worker_global 1 0 true) (VMat M)
      (VVec (Vector_of [Fin 1; Fin 10]))
    = Throw (PlainError
        "Vector length and number Matrix columns are unequal.").
Proof.
  intros M.
  assert (HM : Matrix_shape 2 3 M).
  { unfold Matrix_shape. simpl. repeat split; try done.
    repeat constructor. }
  split.
  - exact (proj1 (Matrix_dotVector_rows (worker_global 1 0 true) 2 3 M
                    [Fin 1; Fin 10; Fin 100] HM) eq_refl).
  - apply (proj2 (Matrix_dotVector_rows (worker_global 1 0 true) 2 3 M
                    [Fin 1; Fin 10] HM)).
    simpl. lia.
Defined.

(** The second of two workers on a Matrix of three rows and two
    columns ships the product of row 2, and announces a whole of two
    entries. *)
Lemma Matrix_wkDotVector_ships_rows_witness :
  let M := mkMatrix [[Fin 1; Fin 2]; [Fin 3; Fin 4]; [Fin 5; Fin 6]] 3 2 in
  let x := [Fin 1; Fin 10] in
  length ((λ row, foldl add zero (zip_with mul row x)) <$> mat_array M)
  = 3%nat
  ∧ Matrix_wkDotVector (worker_global 2 1 true) (VMat M)
      (VVec (Vector_of x)) (VStr "t") false []
    = (Ok tt, [MsgGatherVector (VStr "t") 1 false 2 2 [Fin 65]]).
Proof.
  intros M x.
  refine (Matrix_wkDotVector_ships_rows true 2 1 3 2 M x (VStr "t") false
            _ _ _ _ _ _ _);
    try reflexivity; try (vm_compute; congruence); try lia.
  unfold Matrix_shape. simpl. repeat split; try done.
  repeat constructor.
Defined.

(** Two workers on a square Matrix of order three. *)
Lemma parallel_matrix_vector_is_serial_witness :
  let M := mkMatrix [[Fin 1; Fin 2; Fin 3]; [Fin 4; Fin 5; Fin 6];
                     [Fin 7; Fin 8; Fin 9]] 3 3 in
  let x := [Fin 1; Fin 10; Fin 100] in
  let call id :=
    Matrix_wkDotVector (worker_global 2 id true) (VMat M)
      (VVec (Vector_of x)) (VStr "t") false in
  ∃ slices,
    Matrix_dotVector (worker_global 1 0 false) (VMat M) (VVec (Vector_of x))
    = Ok (Vector_of (concat slices))
    ∧ length slices = 2%nat
    ∧ Forall (λ id, is_ok (call id []).1 = true) (seqZ 0 2)
    ∧ posts (call 0) ++ posts (call 1)
      = gather_reports (VStr "t") false 3 0 0 slices.
Proof.
  intros M x call.
  destruct (parallel_matrix_vector_is_serial true (worker_global 1 0 false)
              2 3 M x (VStr "t") false)
    as (slices & Hserial & Hlen & Hret & Hposts);
    try reflexivity; try (vm_compute; congruence).
  - unfold Matrix_shape. simpl. repeat split; try done.
    repeat constructor.
  - exists slices. repeat split; done.
Defined.


(** ** Vector-matrix products *)

Section vector_matrix_products.
Context {R : Type} `{!Arith R}.
Context `{!Assoc (=) (add (R:=R))}.

Lemma checkVectorMatrix_of_list (r c : nat) (M : Matrix R) (x : list R) :
  Matrix_shape r c M →
  length x = r →
  checkVectorMatrix (VVec (Vector_of x)) (VMat M) = Ok (Vector_of x, M).
Proof.
  intros (Hr & _) Hx. unfold checkVectorMatrix.
  cbn [checkMatrix checkVector nullOrUndefined checkNullOrUndefined
       mbind Result_bind].
  rewrite decide_True; [done|]. rewrite Vector_of_length. lia.
Qed.

Lemma column_length (rows : list (list R)) (i : Z) :
  length (column rows i) = length rows.
Proof. unfold column. by rewrite length_fmap. Qed.

(** The inner loops on one column, plain or unrolled: the products of
    the entries of the Vector with those of the column, summed in
    order. *)
Lemma col_dot_value (r c : nat) (M : Matrix R) (x : list R) (i : Z) :
  Matrix_shape r c M →
  length x = r →
  col_dot_unrolled (Vector_of x) M i
  = Ok (foldl add zero (zip_with mul x (column (mat_array M) i)))
  ∧ col_dot_plain (Vector_of x) M i
    = Ok (foldl add zero (zip_with mul x (column (mat_array M) i))).
Proof.
  intros (_ & _ & Hlen & _) Hx.
  unfold col_dot_unrolled, col_dot_plain. rewrite Vector_of_length, Hx.
  cbv zeta.
  destruct x as [|y x].
  { simpl in Hx. rewrite <- Hx. unfold with_locals, for_.
    by rewrite Comp_bind_unfold. }
  set (col := column (mat_array M) i).
  assert (Hget : ∀ j, 0 ≤ j < Z.of_nat r →
                   mat_get (mat_array M) j i = Ok (ta_get col j)).
  { intros j Hj. unfold mat_get.
    destruct (Z.ltb_spec j 0); [lia|].
    destruct (lookup_lt_is_Some_2 (mat_array M) (Z.to_nat j) ltac:(lia))
      as [row Hrow].
    rewrite Hrow. f_equal. symmetry.
    rewrite <- (Z2Nat.id j) at 1 by lia. apply ta_get_lookup.
    unfold col, column. by rewrite list_lookup_fmap, Hrow. }
  set (f := λ (j : Z) (acc : R),
              add acc (mul (ta_get (y :: x) j) (ta_get col j))).
  assert (H1 : ∀ j (s : R), 0 ≤ j < Z.of_nat r → True →
                 col_dot_step (Vector_of (y :: x)) M i j s
                 = (Ok tt, f j s)).
  { intros j s Hj _. unfold col_dot_step, update.
    by rewrite Hget by done. }
  assert (H4 : ∀ j (s : R), 0 ≤ j → j + 3 < Z.of_nat r → True →
                 col_dot_step4 (Vector_of (y :: x)) M i j s
                 = (Ok tt, f (j + 3) (f (j + 2) (f (j + 1) (f j s))))).
  { intros j s Hj Hj3 _. unfold col_dot_step4, update.
    rewrite !Hget by lia. unfold f. simpl. by rewrite !(assoc_L add). }
  assert (Hfold : foldl (λ s j, f j s) zero (seqZ 0 (Z.of_nat r - 0))
                  = foldl add zero (zip_with mul (y :: x) col)).
  { rewrite <- serial_dot_all by (unfold col; rewrite column_length; lia).
    unfold serial_dot. by rewrite Hx. }
  split.
  - rewrite (unrolled_loops_fold_within (λ _, True) f);
      [|done|done|done|done|lia].
    by rewrite Hfold.
  - rewrite (plain_loop_fold_within (λ _, True) f); [|done|done|done|lia].
    by rewrite Hfold.
Qed.

(** The total of every column, plain or unrolled. *)
Lemma times_columns_total (r c : nat) (M : Matrix R) (x : list R) :
  Matrix_shape r c M →
  length x = r →
  ∀ (k : nat) z, times_columns x (mat_array M) c !! k = Some z →
    col_dot_unrolled (Vector_of x) M (Z.of_nat k) = Ok z
    ∧ col_dot_plain (Vector_of x) M (Z.of_nat k) = Ok z.
Proof.
  intros HM Hx k z Hz. unfold times_columns in Hz.
  rewrite list_lookup_fmap in Hz.
  destruct (seqZ 0 (Z.of_nat c) !! k) as [i|] eqn:Hi; [|done].
  apply lookup_seqZ in Hi as [-> _].
  simpl in Hz. injection Hz as <-. rewrite Z.add_0_l.
  by apply (col_dot_value r c).
Qed.

Lemma times_columns_length (x : list R) (rows : list (list R)) (c : nat) :
  length (times_columns x rows c) = c.
Proof.
  unfold times_columns. rewrite length_fmap, length_seqZ. lia.
Qed.

Lemma Vector_dotMatrix_of_list (g : Global) (r c : nat) (M : Matrix R)
    (x : list R) :
  Matrix_shape r c M →
  length x = r →
  Vector_dotMatrix g (VVec (Vector_of x)) (VMat M)
  = Ok (Vector_of (times_columns x (mat_array M) c)).
Proof.
  intros HM Hx. pose proof HM as (Hr & Hc & Hlen & Hrows).
  unfold Vector_dotMatrix.
  rewrite (checkVectorMatrix_of_list r c) by done.
  cbn [mbind Result_bind]. cbv zeta.
  pose proof (times_columns_length x (mat_array M) c) as Hlt.
  rewrite Hc.
  replace (Z.of_nat c)
    with (Z.of_nat (length (times_columns x (mat_array M) c)))
    by (by rewrite Hlt).
  destruct (decide (times_columns x (mat_array M) c = [])) as [Hnil|Hne].
  { rewrite Hnil. unfold with_locals, for_.
    by destruct (unrollLoops g). }
  rewrite (Vector_of_nonempty _ Hne).
  pose proof (times_columns_total r c M x HM Hx) as Htot.
  destruct (unrollLoops g).
  - rewrite assign_loop_list; [|intros k z Hz; by apply Htot|done].
    by rewrite Vector_new_pos
      by (destruct (times_columns _ _ _); simpl; done || lia).
  - rewrite assign_loop_list; [|intros k z Hz; by apply Htot|done].
    by rewrite Vector_new_pos
      by (destruct (times_columns _ _ _); simpl; done || lia).
Qed.

(** Worker [id] of [k] ships the products with the columns in its
    range, with its offset; the length it announces is that of the
    Vector, the number of rows. *)
Lemma Vector_wkDotMatrix_reports (unroll : bool) (k id : Z) (r c : nat)
    (M : Matrix R) (x : list R) (tag : value R) (rebroadcast : bool)
    (out : list (Message R)) :
  let lb := spec_partition (Z.of_nat c) k id in
  Matrix_shape r c M →
  length x = r →
  1 ≤ Z.of_nat c → 1 ≤ k → Z.of_nat c / k < 2 ^ 31 →
  0 ≤ id < k →
  nullOrUndefined tag = false →
  Vector_wkDotMatrix (worker_global k id unroll) (VVec (Vector_of x))
    (VMat M) tag rebroadcast out
  = (Ok tt,
     out ++ [MsgGatherVector tag id rebroadcast (Z.of_nat r) (ifrom lb)
               (slice (times_columns x (mat_array M) c) lb)]).
Proof.
  intros lb HM Hx Hc1 Hk Hfit Hid Htag.
  pose proof HM as (Hr & Hc & Hlen & Hrows).
  unfold Vector_wkDotMatrix.
  rewrite Comp_bind_unfold. unfold lift at 1.
  rewrite (checkVectorMatrix_of_list r c) by done.
  rewrite Comp_bind_unfold. unfold lift at 1, checkNullOrUndefined.
  rewrite Htag. rewrite Hc, Vector_of_length, Hx.
  rewrite loadBalance_spec_partition by done. fold lb.
  destruct (spec_partition_bounds (Z.of_nat c) k id)
    as (Hlo & Hmid & Hhi); [done..|]. fold lb in Hlo, Hmid, Hhi.
  rewrite Comp_bind_unfold. unfold lift at 1, new_Float64Array.
  destruct (Z.ltb_spec (ito lb - ifrom lb) 0) as [?|_]; [lia|].
  rewrite Comp_bind_unfold. unfold lift at 1.
  cbn [unrollLoops worker_global].
  pose proof (times_columns_length x (mat_array M) c) as Hlt.
  pose proof (times_columns_total r c M x HM Hx) as Htot.
  destruct unroll.
  - rewrite (store_loop_list _ (times_columns x (mat_array M) c));
      [done|intros j z Hz; by apply Htot|done|lia].
  - rewrite (store_loop_list _ (times_columns x (mat_array M) c));
      [done|intros j z Hz; by apply Htot|done|lia].
Qed.

Lemma zip_with_comm (op : R → R → R) `{!Comm (=) op} (a b : list R) :
  zip_with op a b = zip_with op b a.
Proof.
  revert b. induction a as [|x a IH]; intros [|y b]; simpl; try done.
  by rewrite IH, (comm_L op).
Qed.

(** The columns of a Matrix are the rows of its transpose. *)
Lemma column_of_transpose (r c : nat) (M B : Matrix R) (k : nat) :
  Matrix_shape r c M → Matrix_shape c r B →
  (∀ a b, entry (mat_array B) a b = entry (mat_array M) b a) →
  (k < c)%nat →
  mat_array B !! k = Some (column (mat_array M) (Z.of_nat k)).
Proof.
  intros HM HB Hent Hk.
  pose proof HM as (_ & _ & Hlen & Hrows).
  pose proof HB as (_ & _ & HlenB & HrowsB).
  destruct (lookup_lt_is_Some_2 (mat_array B) k ltac:(lia)) as [rowB HrowB].
  rewrite HrowB. f_equal. apply list_eq. intros j.
  assert (HlB : length rowB = r).
  { rewrite Forall_lookup in HrowsB. by apply (HrowsB k). }
  specialize (Hent k j). unfold entry in Hent. rewrite HrowB in Hent.
  simpl in Hent. rewrite Hent. unfold column. rewrite list_lookup_fmap.
  destruct (mat_array M !! j) as [row|] eqn:Hrow; [|done].
  simpl.
  assert (Hl : length row = c).
  { rewrite Forall_lookup in Hrows. by apply (Hrows j). }
  destruct (lookup_lt_is_Some_2 row k ltac:(lia)) as [e He].
  rewrite He. f_equal. symmetry. by apply ta_get_lookup.
Qed.

(** [dotMatrix] of a Vector of [r] entries with a Matrix of [r] rows
    and [c] columns returns the Vector of the [c] products with the
    columns, each the sum, taken in order from [0], of the products of
    the entries of the Vector with those of the column, with either
    setting of [unrollLoops]; with a Vector of another length it
    throws. *)
Theorem Vector_dotMatrix_columns (g : Global) (r c : nat) (M : Matrix R)
    (x : list R) :
  Matrix_shape r c M →
  (length x = r →
   Vector_dotMatrix g (VVec (Vector_of x)) (VMat M)
   = Ok (Vector_of
           ((λ i, foldl add zero
                    (zip_with mul x
                       ((λ row, ta_get row i) <$> mat_array M)))
              <$> seqZ 0 (Z.of_nat c))))
  ∧ (length x ≠ r →
     Vector_dotMatrix g (VVec (Vector_of x)) (VMat M)
     = Throw (PlainError
         "Vector length and number Matrix rows are unequal.")).
Proof.
  intros HM. split; intros Hx.
  - by apply (Vector_dotMatrix_of_list g r c).
  - destruct HM as (Hr & _).
    unfold Vector_dotMatrix, checkVectorMatrix.
    cbn [checkMatrix checkVector nullOrUndefined checkNullOrUndefined
         mbind Result_bind].
    rewrite decide_False; [done|]. rewrite Vector_of_length. lia.
Qed.

(** The product of a Vector with a Matrix is the product of the
    transposed Matrix with the Vector: [v.dotMatrix(A)] and
    [A.transpose().dotVector(v)] return the same Vector, whatever the
    settings of [unrollLoops], when the multiplication of entries is
    commutative. *)
Theorem dotMatrix_is_dotVector_of_transpose `{!Comm (=) (mul (R:=R))}
    (g g' : Global) (r c : nat) (M : Matrix R) (x : list R) :
  Matrix_shape r c M →
  (0 < r)%nat → (0 < c)%nat →
  length x = r →
  ∃ B w,
    transpose M = Ok B
    ∧ Vector_dotMatrix g (VVec (Vector_of x)) (VMat M) = Ok w
    ∧ Matrix_dotVector g' (VMat B) (VVec (Vector_of x)) = Ok w.
Proof.
  intros HM Hr Hc Hx.
  destruct (transpose_spec r c M HM Hr Hc) as (B & Hrun & HB & Hent).
  exists B, (Vector_of (times_columns x (mat_array M) c)).
  split; [done|]. split.
  { by apply (Vector_dotMatrix_of_list g r c). }
  rewrite (Matrix_dotVector_of_list g' c r) by done.
  do 2 f_equal. apply list_eq. intros k.
  unfold rows_times, times_columns. rewrite !list_lookup_fmap.
  destruct (decide (k < c)%nat) as [Hk|Hk].
  - rewrite (column_of_transpose r c M B k) by done.
    rewrite lookup_seqZ_lt by lia. simpl.
    by rewrite (zip_with_comm mul).
  - rewrite lookup_seqZ_ge by lia.
    destruct HB as (_ & _ & HlenB & _).
    by rewrite lookup_ge_None_2 by lia.
Qed.

(** The worker method [wkDotMatrix] of a Vector of [r] entries with a
    Matrix of [r] rows and [c] columns, on worker [id] of [k], with an
    associative [+]: with either setting of [unrollLoops] it posts one
    report, which carries
    the products with the columns of the worker's range and the start of
    the range as offset, and which announces [r], the length of the
    receiver, as the length of the whole, where the whole has [c]
    entries. *)
Theorem Vector_wkDotMatrix_ships_columns (unroll : bool) (k id : Z)
    (r c : nat) (M : Matrix R) (x : list R) (tag : value R)
    (rebroadcast : bool) :
  let lb := spec_partition (Z.of_nat c) k id in
  let whole :=
    (λ i, foldl add zero
            (zip_with mul x ((λ row, ta_get row i) <$> mat_array M)))
      <$> seqZ 0 (Z.of_nat c) in
  Matrix_shape r c M →
  length x = r →
  1 ≤ Z.of_nat c → 1 ≤ k → Z.of_nat c / k < 2 ^ 31 →
  0 ≤ id < k →
  nullOrUndefined tag = false →
  length whole = c
  ∧ Vector_wkDotMatrix (worker_global k id unroll) (VVec (Vector_of x))
      (VMat M) tag rebroadcast []
    = (Ok tt,
       [MsgGatherVector tag id rebroadcast (Z.of_nat r) (ifrom lb)
          (take (Z.to_nat (ito lb - ifrom lb))
             (drop (Z.to_nat (ifrom lb)) whole))]).
Proof.
  intros lb whole HM Hx Hc1 Hk Hfit Hid Htag. split.
  - apply times_columns_length.
  - by rewrite (Vector_wkDotMatrix_reports unroll k id r c).
Qed.

(** The partitioned vector-matrix product ships the serial result in
    slices, on square matrices and with an associative [+].  Let each
    of the [k] workers call [wkDotMatrix] on a Vector of [n] entries
    and a square Matrix of order [n ≥ k].  Every call returns and posts
    one gather report; in the order of the worker ids the reports are
    those of a gather round for [k] consecutive slices, each shipped
    with its offset and with the length [n], and the slices one after
    the other are the entries of the Vector that the serial
    [dotMatrix] returns, with either setting of [unrollLoops] on either
    side. *)
Theorem parallel_vector_matrix_is_serial (unroll : bool) (gs : Global)
    (k : Z) (n : nat) (M : Matrix R) (x : list R) (tag : value R)
    (rebroadcast : bool) :
  let this := VVec (Vector_of x) in
  let A := VMat M in
  let call id :=
    Vector_wkDotMatrix (worker_global k id unroll) this A tag rebroadcast in
  Matrix_shape n n M →
  length x = n →
  1 ≤ k → k ≤ Z.of_nat n → Z.of_nat n / k < 2 ^ 31 →
  nullOrUndefined tag = false →
  ∃ slices,
    Vector_dotMatrix gs this A = Ok (Vector_of (concat slices))
    ∧ length slices = Z.to_nat k
    ∧ Forall (λ id, is_ok (call id []).1 = true) (seqZ 0 k)
    ∧ concat ((λ id, posts (call id)) <$> seqZ 0 k)
      = gather_reports tag rebroadcast (Z.of_nat n) 0 0 slices.
Proof.
  intros this A call HM Hx Hk Hkn Hfit Htag.
  set (whole := times_columns x (mat_array M) n).
  pose proof (times_columns_length x (mat_array M) n) as Hlen.
  fold whole in Hlen.
  destruct (pool_gathers_slices (Z.of_nat n) k ltac:(lia) Hk Hfit call
              whole tag rebroadcast (Z.of_nat n) ltac:(by rewrite Hlen))
    as (slices & Hconcat & Hslices & Hret & Hposts).
  { intros id Hid. exists tt. unfold call, this, A.
    by rewrite (Vector_wkDotMatrix_reports unroll k id n n)
      by (done || lia). }
  exists slices. rewrite Hconcat. split; [|done].
  unfold this, A. by apply (Vector_dotMatrix_of_list gs n n).
Qed.
End vector_matrix_products.

(** A Matrix of two rows and three columns, unrolled loops:
    [(1, 10)] times [[1 2 3] [4 5 6]], and a Vector of three entries
    times it. *)
Lemma Vector_dotMatrix_columns_witness :
  let M := mkMatrix [[Fin 1; Fin 2; Fin 3]; [Fin 4; Fin 5; Fin 6]] 2 3 in
  Vector_dotMatrix (worker_global 1 0 true)
    (VVec (Vector_of [Fin 1; Fin 10])) (VMat M)
  = Ok (Vector_of [Fin 41; Fin 52; Fin 63])
  ∧ Vector_dotMatrix (worker_global 1 0 true)
      (VVec (Vector_of [Fin 1; Fin 10; Fin 100])) (VMat M)
    = Throw (PlainError
        "Vector length and number Matrix rows are unequal.").
Proof.
  intros M.
  assert (HM : Matrix_shape 2 3 M).
  { unfold Matrix_shape. simpl. repeat split; try done.
    repeat constructor. }
  split.
  - exact (proj1 (Vector_dotMatrix_columns (worker_global 1 0 true) 2 3 M
                    [Fin 1; Fin 10] HM) eq_refl).
  - apply (proj2 (Vector_dotMatrix_columns (worker_global 1 0 true) 2 3 M
                    [Fin 1; Fin 10; Fin 100] HM)).
    simpl. lia.
Defined.

Lemma dotMatrix_is_dotVector_of_transpose_witness :
  let M := mkMatrix [[Fin 1; Fin 2; Fin 3]; [Fin 4; Fin 5; Fin 6]] 2 3 in
  let x := [Fin 1; Fin 10] in
  ∃ B w,
    transpose M = Ok B
    ∧ Vector_dotMatrix (worker_global 1 0 true) (VVec (Vector_of x)) (VMat M)
      = Ok w
    ∧ Matrix_dotVector (worker_global 1 0 false) (VMat B)
        (VVec (Vector_of x))
      = Ok w.
Proof.
  intros M x.
  refine (dotMatrix_is_dotVector_of_transpose (worker_global 1 0 true)
            (worker_global 1 0 false) 2 3 M x _ _ _ _);
    try reflexivity; try lia.
  unfold Matrix_shape. simpl. repeat split; try done.
  repeat constructor.
Defined.

(** The second of two workers on a Vector of three entries and a Matrix
    of three rows and two columns ships the product with column 1, and
    announces a whole of three entries. *)
Lemma Vector_wkDotMatrix_ships_columns_witness :
  let M := mkMatrix [[Fin 1; Fin 2]; [Fin 3; Fin 4]; [Fin 5; Fin 6]] 3 2 in
  let x := [Fin 1; Fin 10; Fin 100] in
  length ((λ i, foldl add zero
                  (zip_with mul x ((λ row, ta_get row i) <$> mat_array M)))
            <$> seqZ 0 (Z.of_nat 2))
  = 2%nat
  ∧ Vector_wkDotMatrix (worker_global 2 1 true) (VVec (Vector_of x))
      (VMat M) (VStr "t") false []
    = (Ok tt, [MsgGatherVector (VStr "t") 1 false 3 1 [Fin 642]]).
Proof.
  intros M x.
  refine (Vector_wkDotMatrix_ships_columns true 2 1 3 2 M x (VStr "t")
            false _ _ _ _ _ _ _);
    try reflexivity; try (vm_compute; congruence); try lia.
  unfold Matrix_shape. simpl. repeat split; try done.
  repeat constructor.
Defined.

(** Two workers on a square Matrix of order three. *)
Lemma parallel_vector_matrix_is_serial_witness :
  let M := mkMatrix [[Fin 1; Fin 2; Fin 3]; [Fin 4; Fin 5; Fin 6];
                     [Fin 7; Fin 8; Fin 9]] 3 3 in
  let x := [Fin 1; Fin 10; Fin 100] in
  let call id :=
    Vector_wkDotMatrix (worker_global 2 id true) (VVec (Vector_of x))
      (VMat M) (VStr "t") false in
  ∃ slices,
    Vector_dotMatrix (worker_global 1 0 false) (VVec (Vector_of x)) (VMat M)
    = Ok (Vector_of (concat slices))
    ∧ length slices = 2%nat
    ∧ Forall (λ id, is_ok (call id []).1 = true) (seqZ 0 2)
    ∧ posts (call 0) ++ posts (call 1)
      = gather_reports (VStr "t") false 3 0 0 slices.
Proof.
  intros M x call.
  destruct (parallel_vector_matrix_is_serial true (worker_global 1 0 false)
              2 3 M x (VStr "t") false)
    as (slices & Hserial & Hlen & Hret & Hposts);
    try reflexivity; try (vm_compute; congruence).
  - unfold Matrix_shape. simpl. repeat split; try done.
    repeat constructor.
  - exists slices. repeat split; done.
Defined.


(** ** Entrywise Matrix methods *)

Section unrolled_invariants.
Context {St : Type}.
Variable Inv : Z → St → Prop.
Variable body : Z → Comp St unit.
Variables i0 n : Z.
Hypothesis body_step : ∀ i s, i0 ≤ i < n → Inv i s →
  ∃ s', body i s = (Ok tt, s') ∧ Inv (i + 1) s'.

(** A loop that advances by four and runs four copies of [body] in each
    turn keeps the invariant of the plain loop. *)
Lemma for_loop_unrolled_invariant (fuel : nat) (i : Z) (s : St) :
  i0 ≤ i ≤ n → Inv i s →
  ∃ i' s',
    i ≤ i' ≤ n
    ∧ for_loop fuel i (n - 3) 4
        (λ j, body j;; body (j + 1);; body (j + 2);; body (j + 3)) s
      = (Ok i', s')
    ∧ Inv i' s'.
Proof.
  revert i s. induction fuel as [|fuel IH]; intros i s Hi Hinv.
  - exists i, s. split; [lia|done].
  - simpl. destruct (Z.ltb_spec i (n - 3)) as [Hlt|Hge].
    + destruct (body_step i s ltac:(lia) Hinv) as (s1 & H1 & Hinv1).
      destruct (body_step (i + 1) s1 ltac:(lia) Hinv1)
        as (s2 & H2 & Hinv2).
      destruct (body_step (i + 1 + 1) s2 ltac:(lia) Hinv2)
        as (s3 & H3 & Hinv3).
      destruct (body_step (i + 1 + 1 + 1) s3 ltac:(lia) Hinv3)
        as (s4 & H4 & Hinv4).
      replace (i + 1 + 1) with (i + 2) in * by lia.
      replace (i + 2 + 1) with (i + 3) in * by lia.
      replace (i + 3 + 1) with (i + 4) in * by lia.
      destruct (IH (i + 4) s4 ltac:(lia) Hinv4)
        as (i' & s' & Hi' & Hrun & Hinv').
      exists i', s'. split; [lia|]. split; [|done].
      rewrite Comp_bind_unfold.
      rewrite Comp_bind_unfold, H1.
      rewrite Comp_bind_unfold, H2.
      rewrite Comp_bind_unfold, H3, H4.
      exact Hrun.
    + exists i, s. split; [lia|done].
Qed.

(** The unrolled loops of a method, the one that advances by four up to
    [n - 3] and the one that finishes up to [n], keep the invariant of
    the plain loop. *)
Lemma unrolled_invariant (s : St) :
  i0 ≤ n → Inv i0 s →
  ∃ s',
    (i ← for_ i0 (n - 3) 4
           (λ j, body j;; body (j + 1);; body (j + 2);; body (j + 3));
     for_ i n 1 body) s
    = (Ok n, s')
    ∧ Inv n s'.
Proof.
  intros Hle Hinv.
  destruct (for_loop_unrolled_invariant (Z.to_nat (n - 3 - i0)) i0 s
              ltac:(lia) Hinv)
    as (i' & s1 & Hi' & Hrun & Hinv1).
  destruct (for_invariant (λ i s, i0 ≤ i ∧ Inv i s) body i' n s1)
    as (s' & Hrun' & _ & Hinv'); [|lia|split; [lia|done]|].
  - intros i s2 Hi [Hlo Hinv2].
    destruct (body_step i s2 ltac:(lia) Hinv2) as (s3 & H3 & Hinv3).
    exists s3. split; [done|]. split; [lia|done].
  - exists s'. split; [|done].
    rewrite Comp_bind_unfold. unfold for_ at 1. by rewrite Hrun.
Qed.

(** The plain loop, with the bounds at hand in every turn. *)
Lemma plain_invariant (s : St) :
  i0 ≤ n → Inv i0 s →
  ∃ s', for_ i0 n 1 body s = (Ok n, s') ∧ Inv n s'.
Proof.
  intros Hle Hinv.
  destruct (for_invariant (λ i s, i0 ≤ i ∧ Inv i s) body i0 n s)
    as (s' & Hrun' & _ & Hinv'); [|lia|split; [lia|done]|by exists s'].
  intros i s2 Hi [Hlo Hinv2].
  destruct (body_step i s2 ltac:(lia) Hinv2) as (s3 & H3 & Hinv3).
  exists s3. split; [done|]. split; [lia|done].
Qed.
End unrolled_invariants.

Section matrix_entrywise.
Context {R : Type} `{!Arith R}.

(** One store of the entrywise loops. *)
Lemma assign_cell_spec (r c : nat) (rhs : Z → Z → Result R)
    (C : Matrix R) (i j : nat) (x : R) :
  Matrix_shape r c C →
  (i < r)%nat → (j < c)%nat →
  rhs (Z.of_nat i) (Z.of_nat j) = Ok x →
  ∃ C',
    assign_cell rhs (Z.of_nat i) (Z.of_nat j) C = (Ok tt, C')
    ∧ Matrix_shape r c C'
    ∧ ∀ a b,
        entry (mat_array C') a b
        = if decide (a = i ∧ b = j) then Some x
          else entry (mat_array C) a b.
Proof.
  intros HC Hi Hj Hrhs.
  destruct (mat_set_entry r c C i j x HC Hi Hj) as (rows' & Hset & HC' & He).
  exists (set_mat_array rows' C). split; [|done].
  unfold assign_cell, update. rewrite Hrhs. simpl. by rewrite Hset.
Qed.

(** The turns of the inner loops for row [i]: turn [j] stores the entry
    [(i, j)] of the expected rows [E]. *)
Lemma assign_cell_turn (r c : nat) (rhs : Z → Z → Result R)
    (E : list (list R)) (C0 : Matrix R) (i : nat) :
  (i < r)%nat →
  (∀ a b x, entry E a b = Some x → rhs (Z.of_nat a) (Z.of_nat b) = Ok x) →
  (∀ b, (b < c)%nat → is_Some (entry E i b)) →
  let Inv := λ (j : Z) (C : Matrix R),
    Matrix_shape r c C
    ∧ ∀ a b, entry (mat_array C) a b
             = if decide (a = i ∧ Z.of_nat b < j) then entry E i b
               else entry (mat_array C0) a b in
  ∀ j C, 0 ≤ j < Z.of_nat c → Inv j C →
    ∃ C', assign_cell rhs (Z.of_nat i) j C = (Ok tt, C') ∧ Inv (j + 1) C'.
Proof.
  intros Hi Hrhs HE Inv j C Hj [HC Hent].
  destruct (HE (Z.to_nat j) ltac:(lia)) as [x Hx].
  destruct (assign_cell_spec r c rhs C i (Z.to_nat j) x HC Hi ltac:(lia))
    as (C' & Hrun & HC' & Hent').
  { by apply Hrhs. }
  rewrite Z2Nat.id in Hrun by lia.
  exists C'. split; [done|]. split; [done|].
  intros a b. rewrite Hent', Hent.
  destruct (decide (a = i ∧ b = Z.to_nat j)) as [[-> ->]|Hne].
  - by rewrite decide_True by lia.
  - repeat case_decide; (done || lia).
Qed.

(** The loops that the entrywise methods of a Matrix share fill the
    result with the expected rows, with either setting of
    [unrollLoops]. *)
Lemma matrix_loops_spec (g : Global) (r c : nat)
    (rhs : Z → Z → Result R) (E : list (list R)) (C0 : Matrix R) :
  Matrix_shape r c C0 →
  length E = r →
  Forall (λ row, length row = c) E →
  (∀ a b x, entry E a b = Some x → rhs (Z.of_nat a) (Z.of_nat b) = Ok x) →
  matrix_loops g (Z.of_nat r) (Z.of_nat c) rhs C0
  = Ok (mkMatrix E (Z.of_nat r) (Z.of_nat c)).
Proof.
  intros HC0 HlenE HrowsE Hrhs.
  assert (HE : Matrix_shape r c (mkMatrix E (Z.of_nat r) (Z.of_nat c))).
  { by repeat split. }
  set (Outer := λ (i : Z) (C : Matrix R),
    Matrix_shape r c C
    ∧ ∀ a b, Z.of_nat a < i → entry (mat_array C) a b = entry E a b).
  assert (Hrow : ∀ (unroll : bool) i C, 0 ≤ i < Z.of_nat r → Outer i C →
            ∃ C',
              ((if unroll
                then (j ← for_ 0 (Z.of_nat c - 3) 4 (λ j,
                            assign_cell rhs i j;;
                            assign_cell rhs i (j + 1);;
                            assign_cell rhs i (j + 2);;
                            assign_cell rhs i (j + 3));
                      for_ j (Z.of_nat c) 1 (assign_cell rhs i))
                else for_ 0 (Z.of_nat c) 1 (assign_cell rhs i));;
               mret tt) C
              = (Ok tt, C')
              ∧ Outer (i + 1) C').
  { intros unroll i C Hi [HC Hent].
    pose proof (assign_cell_turn r c rhs E C (Z.to_nat i) ltac:(lia) Hrhs)
      as Hturn.
    rewrite Z2Nat.id in Hturn by lia.
    specialize (Hturn ltac:(intros b Hb;
      apply (entry_lt r c _ _ _ HE); lia)).
    cbv zeta in Hturn.
    assert (Hstart : Matrix_shape r c C
              ∧ ∀ a b, entry (mat_array C) a b
                       = if decide (a = Z.to_nat i ∧ Z.of_nat b < 0)
                         then entry E (Z.to_nat i) b
                         else entry (mat_array C) a b).
    { split; [done|]. intros a b. by rewrite decide_False by lia. }
    assert (Hend : ∀ C', (Matrix_shape r c C'
              ∧ ∀ a b, entry (mat_array C') a b
                       = if decide (a = Z.to_nat i ∧ Z.of_nat b < Z.of_nat c)
                         then entry E (Z.to_nat i) b
                         else entry (mat_array C) a b) →
              Outer (i + 1) C').
    { intros C' [HC' Hent']. split; [done|]. intros a b Ha.
      rewrite Hent'. case_decide as Hd.
      - by destruct Hd as [-> _].
      - destruct (decide (a = Z.to_nat i)) as [->|Hne].
        + rewrite (entry_ge r c C) by (done || lia).
          symmetry. apply (entry_ge r c _ _ _ HE). lia.
        + apply Hent. lia. }
    destruct unroll.
    - destruct (unrolled_invariant _ (assign_cell rhs i) 0 (Z.of_nat c)
                  Hturn C ltac:(lia) Hstart) as (C' & Hrun & HC').
      exists C'. split; [|by apply Hend].
      by rewrite Comp_bind_unfold, Hrun.
    - destruct (plain_invariant _ (assign_cell rhs i) 0 (Z.of_nat c)
                  Hturn C ltac:(lia) Hstart) as (C' & Hrun & HC').
      exists C'. split; [|by apply Hend].
      by rewrite Comp_bind_unfold, Hrun. }
  assert (Hstart : Outer 0 C0).
  { split; [done|]. intros a b Ha. lia. }
  assert (Hend : ∀ C, Outer (Z.of_nat r) C
            → C = mkMatrix E (Z.of_nat r) (Z.of_nat c)).
  { intros C [HC Hent]. apply (shape_ext r c); [done..|].
    intros a b. destruct (decide (a < r)%nat) as [Ha|Ha].
    - apply Hent. lia.
    - rewrite (entry_ge r c C) by (done || lia).
      symmetry. apply (entry_ge r c _ _ _ HE). lia. }
  unfold matrix_loops, with_locals. destruct (unrollLoops g); cbv zeta.
  - match goal with
    | |- context [for_ 0 (Z.of_nat r) 1 ?body] =>
        destruct (plain_invariant Outer body 0 (Z.of_nat r) (Hrow true) C0
                    ltac:(lia) Hstart) as (C & Hrun & HC)
    end.
    rewrite Hrun. f_equal. by apply Hend.
  - match goal with
    | |- context [for_ 0 (Z.of_nat r) 1 ?body] =>
        destruct (plain_invariant Outer body 0 (Z.of_nat r) (Hrow false) C0
                    ltac:(lia) Hstart) as (C & Hrun & HC)
    end.
    rewrite Hrun. f_equal. by apply Hend.
Qed.

Lemma Matrix_new_shape_wide (r c : nat) :
  (0 < c)%nat →
  Matrix_shape r c (Matrix_new (Z.of_nat r) (Z.of_nat c) : Matrix R).
Proof.
  intros Hc. destruct r as [|r']; [|apply Matrix_new_shape; lia].
  by repeat split.
Qed.

Lemma checkMatrices_same_shape (r c : nat) (A B : Matrix R) :
  Matrix_shape r c A → Matrix_shape r c B →
  checkMatrices (VMat A) (VMat B) = Ok (A, B).
Proof.
  intros (HrA & HcA & _) (HrB & HcB & _). unfold checkMatrices.
  cbn [checkMatrix nullOrUndefined checkNullOrUndefined mbind Result_bind].
  by rewrite HrA, HrB, HcA, HcB, !Z.eqb_refl.
Qed.

(** The rows of the entrywise results, and the reads that give them. *)
Lemma zip_rows_shape (op : R → R → R) (r c : nat) (A B : Matrix R) :
  Matrix_shape r c A → Matrix_shape r c B →
  let E := zip_with (zip_with op) (mat_array A) (mat_array B) in
  length E = r
  ∧ Forall (λ row, length row = c) E
  ∧ ∀ a b x, entry E a b = Some x →
      (u ← mat_get (mat_array A) (Z.of_nat a) (Z.of_nat b);
       v ← mat_get (mat_array B) (Z.of_nat a) (Z.of_nat b);
       Ok (op u v)) = Ok x.
Proof.
  intros (_ & _ & HlenA & HrowsA) (_ & _ & HlenB & HrowsB) E.
  rewrite Forall_lookup in HrowsA, HrowsB.
  split; [|split].
  - unfold E. rewrite length_zip_with. lia.
  - apply Forall_lookup. intros a row Hrow. unfold E in Hrow.
    apply lookup_zip_with_Some in Hrow as (ra & rb & -> & Ha & Hb).
    rewrite length_zip_with, (HrowsA _ _ Ha), (HrowsB _ _ Hb). lia.
  - intros a b x Hx. unfold entry, E in Hx.
    destruct (zip_with (zip_with op) (mat_array A) (mat_array B) !! a)
      as [row|] eqn:Hrow; [|done].
    simpl in Hx.
    apply lookup_zip_with_Some in Hrow as (ra & rb & -> & Ha & Hb).
    apply lookup_zip_with_Some in Hx as (u & v & -> & Hu & Hv).
    rewrite (mat_get_entry (mat_array A) a b u)
      by (unfold entry; by rewrite Ha).
    rewrite (mat_get_entry (mat_array B) a b v)
      by (unfold entry; by rewrite Hb).
    done.
Qed.

Lemma Matrix_elementwise_of_rows (op : R → R → R) (g : Global)
    (r c : nat) (A B : Matrix R) :
  Matrix_shape r c A → Matrix_shape r c B →
  (0 < c)%nat →
  Matrix_elementwise op g (VMat A) (VMat B)
  = Ok (mkMatrix (zip_with (zip_with op) (mat_array A) (mat_array B))
          (Z.of_nat r) (Z.of_nat c)).
Proof.
  intros HA HB Hc. unfold Matrix_elementwise.
  rewrite (checkMatrices_same_shape r c) by done.
  cbn [mbind Result_bind]. pose proof HA as (HrA & HcA & _).
  rewrite HrA, HcA.
  destruct (zip_rows_shape op r c A B HA HB) as (HlenE & HrowsE & Hrhs).
  apply matrix_loops_spec; [|done..].
  by apply Matrix_new_shape_wide.
Qed.

(** The rows of the scaled entries, and the reads that give them. *)
Lemma scaled_rows_shape (alpha : R) (r c : nat) (A : Matrix R) :
  Matrix_shape r c A →
  let E := (λ row : list R, (λ x, mul x alpha) <$> row) <$> mat_array A in
  length E = r
  ∧ Forall (λ row, length row = c) E
  ∧ ∀ a b x, entry E a b = Some x →
      (u ← mat_get (mat_array A) (Z.of_nat a) (Z.of_nat b);
       Ok (mul u alpha)) = Ok x.
Proof.
  intros (_ & _ & HlenA & HrowsA) E.
  rewrite Forall_lookup in HrowsA.
  split; [|split].
  - unfold E. by rewrite length_fmap.
  - apply Forall_lookup. intros a row Hrow. unfold E in Hrow.
    rewrite list_lookup_fmap in Hrow.
    destruct (mat_array A !! a) as [ra|] eqn:Ha; [|done].
    simpl in Hrow. injection Hrow as <-.
    by rewrite length_fmap, (HrowsA _ _ Ha).
  - intros a b x Hx. unfold entry, E in Hx.
    rewrite list_lookup_fmap in Hx.
    destruct (mat_array A !! a) as [ra|] eqn:Ha; [|done].
    simpl in Hx. rewrite list_lookup_fmap in Hx.
    destruct (ra !! b) as [u|] eqn:Hu; [|done].
    simpl in Hx. injection Hx as <-.
    rewrite (mat_get_entry (mat_array A) a b u)
      by (unfold entry; by rewrite Ha).
    done.
Qed.

(** [plus], [minus], [times], and [divide] as every other instance of
    their common text, on two Matrices of [r] rows and [c ≥ 1] columns
    return the Matrix of the entrywise results, with either setting of
    [unrollLoops]; on Matrices that differ in the number of rows or of
    columns they throw. *)
Theorem Matrix_elementwise_zip (op : R → R → R) (g : Global)
    (r c r' c' : nat) (A B : Matrix R) :
  Matrix_shape r c A → Matrix_shape r' c' B →
  (0 < c)%nat →
  Matrix_elementwise op g (VMat A) (VMat B)
  = if decide (r = r' ∧ c = c')
    then Ok (mkMatrix
               (zip_with (zip_with op) (mat_array A) (mat_array B))
               (Z.of_nat r) (Z.of_nat c))
    else Throw (PlainError
           "Matrices do not have equal numbers of rows and columns.").
Proof.
  intros HA HB Hc. case_decide as Hsame.
  - destruct Hsame as [<- <-]. by apply Matrix_elementwise_of_rows.
  - destruct HA as (HrA & HcA & _), HB as (HrB & HcB & _).
    unfold Matrix_elementwise, checkMatrices.
    cbn [checkMatrix nullOrUndefined checkNullOrUndefined mbind
         Result_bind].
    rewrite HrA, HrB, HcA, HcB.
    destruct (Z.eqb_spec (Z.of_nat r) (Z.of_nat r'));
      destruct (Z.eqb_spec (Z.of_nat c) (Z.of_nat c')); simpl;
      try done.
    exfalso. apply Hsame. lia.
Qed.

Lemma Matrix_scale_of_rows (g : Global) (r c : nat) (A : Matrix R)
    (alpha : R) :
  Matrix_shape r c A →
  (0 < c)%nat →
  Matrix_scale g A (VNum alpha)
  = Ok (mkMatrix
          ((λ row : list R, (λ x, mul x alpha) <$> row) <$> mat_array A)
          (Z.of_nat r) (Z.of_nat c)).
Proof.
  intros HA Hc. unfold Matrix_scale.
  cbn [checkNumber nullOrUndefined checkNullOrUndefined mbind Result_bind].
  destruct (scaled_rows_shape alpha r c A HA) as (HlenE & HrowsE & Hrhs).
  destruct HA as (HrA & HcA & _). rewrite HrA, HcA.
  apply matrix_loops_spec; [|done..].
  by apply Matrix_new_shape_wide.
Qed.

(** [scale] of a Matrix of [r] rows and [c ≥ 1] columns returns the
    Matrix of the entries multiplied by [alpha], with either setting of
    [unrollLoops]. *)
Theorem Matrix_scale_map (g : Global) (r c : nat) (A : Matrix R)
    (alpha : R) :
  Matrix_shape r c A →
  (0 < c)%nat →
  Matrix_scale g A (VNum alpha)
  = Ok (mkMatrix
          ((λ row : list R, (λ x, mul x alpha) <$> row) <$> mat_array A)
          (Z.of_nat r) (Z.of_nat c)).
Proof. intros HA Hc. by apply Matrix_scale_of_rows. Qed.
End matrix_entrywise.

(** Two Matrices of two rows and three columns, and a Matrix of another
    shape. *)
Lemma Matrix_elementwise_zip_witness :
  let A := mkMatrix [[Fin 1; Fin 2; Fin 3]; [Fin 4; Fin 5; Fin 6]] 2 3 in
  let B := mkMatrix [[Fin 10; Fin 20; Fin 30]; [Fin 40; Fin 50; Fin 60]]
             2 3 in
  Matrix_plus (worker_global 1 0 true) (VMat A) (VMat B)
  = Ok (mkMatrix [[Fin 11; Fin 22; Fin 33]; [Fin 44; Fin 55; Fin 66]] 2 3).
Proof.
  intros A B.
  refine (Matrix_elementwise_zip add (worker_global 1 0 true) 2 3 2 3 A B
            _ _ _); [| |lia].
  - unfold Matrix_shape. simpl. repeat split; try done.
    repeat constructor.
  - unfold Matrix_shape. simpl. repeat split; try done.
    repeat constructor.
Defined.

Lemma Matrix_scale_map_witness :
  let A := mkMatrix [[Fin 1; Fin 2; Fin 3]; [Fin 4; Fin 5; Fin 6]] 2 3 in
  Matrix_scale (worker_global 1 0 true) A (VNum (Fin 10))
  = Ok (mkMatrix [[Fin 10; Fin 20; Fin 30]; [Fin 40; Fin 50; Fin 60]] 2 3).
Proof.
  intros A.
  refine (Matrix_scale_map (worker_global 1 0 true) 2 3 A (Fin 10) _ _);
    [|lia].
  unfold Matrix_shape. simpl. repeat split; try done.
  repeat constructor.
Defined.

(** ** Entrywise Matrix methods on the workers *)

Section matrix_entrywise_workers.
Context {R : Type} `{!Arith R}.

(** One store into the row that was pushed last. *)
Lemma store_cell_last (rhs : Z → Z → Result R) (C : list (list R))
    (row : list R) (i j : Z) (x : R) :
  rhs i j = Ok x →
  0 ≤ j →
  store_cell rhs i j (C ++ [row], Z.of_nat (length C))
  = (Ok tt, (C ++ [<[Z.to_nat j := x]> row], Z.of_nat (length C))).
Proof.
  intros Hrhs Hj. unfold store_cell, update. rewrite Hrhs. simpl.
  unfold mat_set. destruct (Z.ltb_spec (Z.of_nat (length C)) 0); [lia|].
  rewrite Nat2Z.id. rewrite lookup_app_r by done.
  rewrite Nat.sub_diag. simpl.
  rewrite ta_set_nonneg by done.
  rewrite insert_app_r_alt by done. by rewrite Nat.sub_diag.
Qed.

(** The loops of the worker methods compute the expected rows of the
    range, with either setting of [unrollLoops]. *)
Lemma wk_matrix_loops_spec (g : Global) (lb : Range) (c : nat)
    (rhs : Z → Z → Result R) (E : list (list R)) :
  Forall (λ row, length row = c) E →
  (∀ a b x, entry E a b = Some x → rhs (Z.of_nat a) (Z.of_nat b) = Ok x) →
  0 ≤ ifrom lb ≤ ito lb → ito lb ≤ Z.of_nat (length E) →
  wk_matrix_loops g lb (Z.of_nat c) rhs
  = Ok (take (Z.to_nat (ito lb - ifrom lb)) (drop (Z.to_nat (ifrom lb)) E),
        ito lb - ifrom lb).
Proof.
  intros HrowsE Hrhs Hlb Hhi. rewrite Forall_lookup in HrowsE.
  set (Outer := λ (i : Z) (s : list (list R) * Z),
    s = (take (Z.to_nat (i - ifrom lb)) (drop (Z.to_nat (ifrom lb)) E),
         i - ifrom lb)).
  assert (Hrow : ∀ (unroll : bool) i s,
            ifrom lb ≤ i < ito lb → Outer i s →
            ∃ s',
              (push_row (Z.of_nat c);;
               (if unroll
                then (j ← for_ 0 (Z.of_nat c - 3) 4 (λ j,
                            store_cell rhs i j;;
                            store_cell rhs i (j + 1);;
                            store_cell rhs i (j + 2);;
                            store_cell rhs i (j + 3));
                      for_ j (Z.of_nat c) 1 (store_cell rhs i))
                else for_ 0 (Z.of_nat c) 1 (store_cell rhs i));;
               next_offset) s
              = (Ok tt, s')
              ∧ Outer (i + 1) s').
  { intros unroll i s Hi ->.
    set (C := take (Z.to_nat (i - ifrom lb))
                (drop (Z.to_nat (ifrom lb)) E)).
    assert (HlenC : Z.of_nat (length C) = i - ifrom lb).
    { unfold C. rewrite length_take, length_drop. lia. }
    destruct (lookup_lt_is_Some_2 E (Z.to_nat i) ltac:(lia))
      as [rowE HrowE].
    pose proof (HrowsE _ _ HrowE) as HlenE.
    set (Inner := λ (j : Z) (s : list (list R) * Z),
      ∃ row, s = (C ++ [row], Z.of_nat (length C))
        ∧ length row = c
        ∧ ∀ b : nat, Z.of_nat b < j → row !! b = rowE !! b).
    assert (Hturn : ∀ j s, 0 ≤ j < Z.of_nat c → Inner j s →
              ∃ s', store_cell rhs i j s = (Ok tt, s') ∧ Inner (j + 1) s').
    { intros j s Hj (row & -> & Hlrow & Hrow).
      destruct (lookup_lt_is_Some_2 rowE (Z.to_nat j) ltac:(lia))
        as [x Hx].
      assert (Hx' : rhs i j = Ok x).
      { rewrite <- (Z2Nat.id i), <- (Z2Nat.id j) by lia.
        apply Hrhs. unfold entry. by rewrite HrowE. }
      eexists. split; [by apply store_cell_last; [|lia]|].
      exists (<[Z.to_nat j := x]> row). split; [done|].
      split; [by rewrite length_insert|].
      intros b Hb. destruct (decide (b = Z.to_nat j)) as [->|Hne].
      - rewrite list_lookup_insert_eq by lia. done.
      - rewrite list_lookup_insert_ne by done. apply Hrow. lia. }
    assert (Hstart : Inner 0 (C ++ [replicate c zero], Z.of_nat (length C))).
    { exists (replicate c zero). split; [done|].
      split; [by rewrite length_replicate|]. intros b Hb. lia. }
    assert (Hend : ∀ s, Inner (Z.of_nat c) s →
              s = (C ++ [rowE], Z.of_nat (length C))).
    { intros s (row & -> & Hlrow & Hrow). do 3 f_equal.
      apply list_eq. intros b.
      destruct (decide (b < c)%nat) as [Hb|Hb].
      - apply Hrow. lia.
      - by rewrite !lookup_ge_None_2 by lia. }
    assert (Hpush : push_row (Z.of_nat c) (C, i - ifrom lb)
                    = (Ok tt, (C ++ [replicate c zero],
                               Z.of_nat (length C)))).
    { unfold push_row, update, new_Float64Array.
      destruct (Z.ltb_spec (Z.of_nat c) 0); [lia|].
      simpl. by rewrite Nat2Z.id, HlenC. }
    assert (Hnext : next_offset (C ++ [rowE], Z.of_nat (length C))
                    = (Ok tt,
                       (take (Z.to_nat (i + 1 - ifrom lb))
                          (drop (Z.to_nat (ifrom lb)) E),
                        i + 1 - ifrom lb))).
    { unfold next_offset, update. simpl. do 2 f_equal; [|lia].
      replace (Z.to_nat (i + 1 - ifrom lb))
        with (S (Z.to_nat (i - ifrom lb))) by lia.
      rewrite (take_S_r _ _ rowE); [done|].
      rewrite lookup_drop. rewrite <- HrowE. f_equal. lia. }
    eexists. split; [|reflexivity].
    rewrite Comp_bind_unfold, Hpush. rewrite Comp_bind_unfold.
    destruct unroll.
    - destruct (unrolled_invariant Inner (store_cell rhs i) 0 (Z.of_nat c)
                  Hturn _ ltac:(lia) Hstart) as (s' & Hrun & Hs').
      rewrite Hrun. rewrite (Hend _ Hs'). exact Hnext.
    - destruct (plain_invariant Inner (store_cell rhs i) 0 (Z.of_nat c)
                  Hturn _ ltac:(lia) Hstart) as (s' & Hrun & Hs').
      rewrite Hrun. rewrite (Hend _ Hs'). exact Hnext. }
  assert (Hstart : Outer (ifrom lb) ([], 0)).
  { unfold Outer. by rewrite Z.sub_diag. }
  unfold wk_matrix_loops, with_locals. destruct (unrollLoops g); cbv zeta.
  - match goal with
    | |- context [for_ (ifrom lb) (ito lb) 1 ?body] =>
        destruct (plain_invariant Outer body (ifrom lb) (ito lb)
                    (Hrow true) _ ltac:(lia) Hstart) as (s & Hrun & ->)
    end.
    by rewrite Hrun.
  - match goal with
    | |- context [for_ (ifrom lb) (ito lb) 1 ?body] =>
        destruct (plain_invariant Outer body (ifrom lb) (ito lb)
                    (Hrow false) _ ltac:(lia) Hstart) as (s & Hrun & ->)
    end.
    by rewrite Hrun.
Qed.
End matrix_entrywise_workers.

(** ** The ranges of the rows *)

Section row_ranges.
Context {R : Type}.
Variable k : Z.
Variable E : list (list R).
Hypothesis Hk : 1 ≤ k.
Hypothesis Hkr : k ≤ Z.of_nat (length E).
Hypothesis Hfit : Z.of_nat (length E) / k < 2 ^ 31.

Local Abbreviation r := (length E).
Local Abbreviation sp := (spec_partition (Z.of_nat (length E)) k).

(** With no more workers than rows, every worker has a row. *)
Lemma sp_bounds (id : Z) :
  0 ≤ id < k →
  0 ≤ ifrom (sp id) ∧ ifrom (sp id) < ito (sp id)
  ∧ ito (sp id) ≤ Z.of_nat r.
Proof using Hk Hkr Hfit.
  intros Hid.
  destruct (spec_partition_bounds (Z.of_nat (length E)) k id)
    as (Hlo & Hmid & Hhi); [lia|done|done|done|].
  pose proof (spec_partition_len (Z.of_nat (length E)) k ltac:(lia) Hk
                Hfit id) as Hlen.
  unfold range_len in Hlen.
  assert (1 ≤ Z.of_nat (length E) / k).
  { apply Z.div_le_lower_bound; lia. }
  split; [done|]. split; [|done].
  case_decide; lia.
Qed.
End row_ranges.

(** ** Partitioned entrywise Matrix methods and their serial
    counterparts *)

Section matrix_parallel.
Context {R : Type} `{!Arith R}.

(** What a worker posts when it gathers its rows of [E]. *)
Lemma gatherMatrixRows_posts_report (unroll : bool) (k id : Z)
    (E : list (list R)) (c : nat) (tag : value R) (rebroadcast : bool)
    (out : list (Message R)) :
  let lb := spec_partition (Z.of_nat (length E)) k id in
  Forall (λ row, length row = c) E →
  1 ≤ k → k ≤ Z.of_nat (length E) → Z.of_nat (length E) / k < 2 ^ 31 →
  0 ≤ id < k →
  gatherMatrixRows (worker_global k id unroll)
    (take (Z.to_nat (ito lb - ifrom lb)) (drop (Z.to_nat (ifrom lb)) E))
    (Z.of_nat (length E)) (ifrom lb) tag rebroadcast out
  = (Ok tt,
     out ++ [worker_rows_report k E (Z.of_nat c) tag rebroadcast id]).
Proof.
  intros lb HrowsE Hk Hkr Hfit Hid.
  destruct (sp_bounds k E Hk Hkr Hfit id Hid) as (Hlo & Hmid & Hhi).
  fold lb in Hlo, Hmid, Hhi.
  unfold gatherMatrixRows, worker_rows_report. cbv zeta. fold lb.
  set (rows := take (Z.to_nat (ito lb - ifrom lb))
                 (drop (Z.to_nat (ifrom lb)) E)).
  assert (Hlen : length rows = Z.to_nat (ito lb - ifrom lb)).
  { unfold rows. rewrite length_take, length_drop. lia. }
  destruct rows as [|row0 rest] eqn:Hrows; [simpl in Hlen; lia|].
  assert (Hrow0 : length row0 = c).
  { rewrite Forall_lookup in HrowsE.
    apply (HrowsE (Z.to_nat (ifrom lb))).
    assert (H0 : rows !! 0%nat = Some row0) by (by rewrite Hrows).
    unfold rows in H0. rewrite lookup_take_lt in H0 by lia.
    rewrite lookup_drop in H0. by rewrite Nat.add_0_r in H0. }
  unfold postMessage. cbn [myWorkerId worker_global].
  rewrite Hrow0, Hlen. do 4 f_equal. lia.
Qed.

(** With either setting of [unrollLoops], worker [id] of [k] ships its
    rows of the entrywise results. *)
Lemma Matrix_wkElementwise_reports (op : R → R → R) (unroll : bool)
    (k id : Z) (r c : nat) (A B : Matrix R) (tag : value R)
    (rebroadcast : bool) (out : list (Message R)) :
  Matrix_shape r c A → Matrix_shape r c B →
  (0 < c)%nat →
  1 ≤ k → k ≤ Z.of_nat r → Z.of_nat r / k < 2 ^ 31 →
  0 ≤ id < k →
  nullOrUndefined tag = false →
  Matrix_wkElementwise op (worker_global k id unroll) (VMat A) (VMat B)
    tag rebroadcast out
  = (Ok tt,
     out ++ [worker_rows_report k
               (zip_with (zip_with op) (mat_array A) (mat_array B))
               (Z.of_nat c) tag rebroadcast id]).
Proof.
  intros HA HB Hc Hk Hkr Hfit Hid Htag.
  destruct (zip_rows_shape op r c A B HA HB) as (HlenE & HrowsE & Hrhs).
  set (E := zip_with (zip_with op) (mat_array A) (mat_array B)) in *.
  pose proof HA as (HrA & HcA & _).
  unfold Matrix_wkElementwise.
  rewrite Comp_bind_unfold. unfold lift at 1.
  rewrite (checkMatrices_same_shape r c) by done.
  rewrite Comp_bind_unfold. unfold lift at 1, checkNullOrUndefined.
  rewrite Htag. rewrite HrA, HcA.
  rewrite loadBalance_spec_partition by (done || lia).
  rewrite <- HlenE in Hkr, Hfit |- *.
  destruct (sp_bounds k E Hk Hkr Hfit id Hid) as (Hlo & Hmid & Hhi).
  rewrite Comp_bind_unfold. unfold lift at 1.
  rewrite (wk_matrix_loops_spec _ _ c _ E) by (done || lia).
  by apply gatherMatrixRows_posts_report.
Qed.

(** With either setting of [unrollLoops], worker [id] of [k] ships its
    rows of the scaled Matrix. *)
Lemma Matrix_wkScale_reports (unroll : bool) (k id : Z) (r c : nat)
    (A : Matrix R) (alpha : R) (tag : value R) (rebroadcast : bool)
    (out : list (Message R)) :
  Matrix_shape r c A →
  (0 < c)%nat →
  1 ≤ k → k ≤ Z.of_nat r → Z.of_nat r / k < 2 ^ 31 →
  0 ≤ id < k →
  nullOrUndefined tag = false →
  Matrix_wkScale (worker_global k id unroll) A (VNum alpha) tag
    rebroadcast out
  = (Ok tt,
     out ++ [worker_rows_report k
               ((λ row : list R, (λ x, mul x alpha) <$> row)
                  <$> mat_array A)
               (Z.of_nat c) tag rebroadcast id]).
Proof.
  intros HA Hc Hk Hkr Hfit Hid Htag.
  destruct (scaled_rows_shape alpha r c A HA) as (HlenE & HrowsE & Hrhs).
  set (E := (λ row : list R, (λ x, mul x alpha) <$> row) <$> mat_array A)
    in *.
  pose proof HA as (HrA & HcA & _).
  unfold Matrix_wkScale.
  rewrite Comp_bind_unfold. unfold lift at 1.
  cbn [checkNumber nullOrUndefined checkNullOrUndefined mbind Result_bind].
  rewrite Comp_bind_unfold. unfold lift at 1, checkNullOrUndefined.
  rewrite Htag. rewrite HrA, HcA.
  rewrite loadBalance_spec_partition by (done || lia).
  rewrite <- HlenE in Hkr, Hfit |- *.
  destruct (sp_bounds k E Hk Hkr Hfit id Hid) as (Hlo & Hmid & Hhi).
  rewrite Comp_bind_unfold. unfold lift at 1.
  rewrite (wk_matrix_loops_spec _ _ c _ E) by (done || lia).
  by apply gatherMatrixRows_posts_report.
Qed.

(** The workers of a pool ship the rows of [E] in consecutive
    slices. *)
Lemma pool_ships_rows (call : Z → Comp (list (Message R)) unit) (k : Z)
    (E : list (list R)) (c : nat) (tag : value R) (rebroadcast : bool) :
  1 ≤ k → k ≤ Z.of_nat (length E) → Z.of_nat (length E) / k < 2 ^ 31 →
  (∀ id, 0 ≤ id < k →
     call id []
     = (Ok tt, [worker_rows_report k E (Z.of_nat c) tag rebroadcast id])) →
  ∃ slices,
    concat slices = E
    ∧ length slices = Z.to_nat k
    ∧ Forall (λ id, is_ok (call id []).1 = true) (seqZ 0 k)
    ∧ concat ((λ id, posts (call id)) <$> seqZ 0 k)
      = gather_rows_reports tag rebroadcast (Z.of_nat (length E))
          (Z.of_nat c) 0 0 slices.
Proof.
  intros Hk Hkr Hfit Hcall.
  apply (pool_gathers_rows (Z.of_nat (length E)) k ltac:(lia) Hk Hfit
           call E tag rebroadcast (Z.of_nat (length E)) (Z.of_nat c)
           eq_refl).
  intros id Hid. exists tt. by rewrite Hcall.
Qed.

(** The partitioned entrywise operations on Matrices ship the serial
    result in slices of rows.  Let each of the [k] workers call
    [wkPlus] (or [wkMinus], [wkTimes], [wkDivide]: any instance of
    their common text) on two Matrices of [r ≥ k] rows and [c ≥ 1]
    columns, with either setting of [unrollLoops].  Every call returns
    and posts one [_gatherMatrixRows] report; in the order of the
    worker ids the reports are those of a gather of rows for [k]
    consecutive slices, each shipped with the number of its rows, the
    row at which it starts and the dimensions [r] and [c], and the
    slices one after the other are the rows of the Matrix, of
    [r] rows and [c] columns, that the serial method ([plus], ...)
    returns, with either setting of [unrollLoops]. *)
Theorem parallel_matrix_elementwise_is_serial (op : R → R → R)
    (unroll : bool) (gs : Global) (k : Z) (r c : nat) (A B : Matrix R)
    (tag : value R) (rebroadcast : bool) :
  let call id :=
    Matrix_wkElementwise op (worker_global k id unroll) (VMat A) (VMat B)
      tag rebroadcast in
  Matrix_shape r c A → Matrix_shape r c B →
  (0 < c)%nat →
  1 ≤ k → k ≤ Z.of_nat r → Z.of_nat r / k < 2 ^ 31 →
  nullOrUndefined tag = false →
  ∃ slices,
    Matrix_elementwise op gs (VMat A) (VMat B)
    = Ok (mkMatrix (concat slices) (Z.of_nat r) (Z.of_nat c))
    ∧ length slices = Z.to_nat k
    ∧ Forall (λ id, is_ok (call id []).1 = true) (seqZ 0 k)
    ∧ concat ((λ id, posts (call id)) <$> seqZ 0 k)
      = gather_rows_reports tag rebroadcast (Z.of_nat r) (Z.of_nat c)
          0 0 slices.
Proof.
  intros call HA HB Hc Hk Hkr Hfit Htag.
  destruct (zip_rows_shape op r c A B HA HB) as (HlenE & HrowsE & _).
  set (E := zip_with (zip_with op) (mat_array A) (mat_array B)) in *.
  destruct (pool_ships_rows call k E c tag rebroadcast)
    as (slices & Hconcat & Hslices & Hret & Hposts);
    [done|by rewrite HlenE|by rewrite HlenE| |].
  { intros id Hid. unfold call.
    by rewrite (Matrix_wkElementwise_reports op unroll k id r c). }
  exists slices. rewrite Hconcat, <- HlenE. split; [|done].
  rewrite HlenE. by apply (Matrix_elementwise_of_rows op gs r c).
Qed.

(** The partitioned scaling of a Matrix ships the serial result in
    slices of rows.  Let each of the [k] workers call [wkScale] on a
    Matrix of [r ≥ k] rows and [c ≥ 1] columns, with either setting of
    [unrollLoops].  Every call returns and posts one
    [_gatherMatrixRows] report; in the order of the worker ids the
    reports are those of a gather of rows for [k] consecutive slices,
    each shipped with the number of its rows, the row at which it
    starts and the dimensions [r] and [c], and the slices one after the
    other are the rows of the Matrix, of [r] rows and [c] columns, that
    the serial [scale] returns, with either setting of
    [unrollLoops]. *)
Theorem parallel_matrix_scale_is_serial (unroll : bool) (gs : Global)
    (k : Z) (r c : nat) (A : Matrix R) (alpha : R) (tag : value R)
    (rebroadcast : bool) :
  let call id :=
    Matrix_wkScale (worker_global k id unroll) A (VNum alpha) tag
      rebroadcast in
  Matrix_shape r c A →
  (0 < c)%nat →
  1 ≤ k → k ≤ Z.of_nat r → Z.of_nat r / k < 2 ^ 31 →
  nullOrUndefined tag = false →
  ∃ slices,
    Matrix_scale gs A (VNum alpha)
    = Ok (mkMatrix (concat slices) (Z.of_nat r) (Z.of_nat c))
    ∧ length slices = Z.to_nat k
    ∧ Forall (λ id, is_ok (call id []).1 = true) (seqZ 0 k)
    ∧ concat ((λ id, posts (call id)) <$> seqZ 0 k)
      = gather_rows_reports tag rebroadcast (Z.of_nat r) (Z.of_nat c)
          0 0 slices.
Proof.
  intros call HA Hc Hk Hkr Hfit Htag.
  destruct (scaled_rows_shape alpha r c A HA) as (HlenE & HrowsE & _).
  set (E := (λ row : list R, (λ x, mul x alpha) <$> row) <$> mat_array A)
    in *.
  destruct (pool_ships_rows call k E c tag rebroadcast)
    as (slices & Hconcat & Hslices & Hret & Hposts);
    [done|by rewrite HlenE|by rewrite HlenE| |].
  { intros id Hid. unfold call.
    by rewrite (Matrix_wkScale_reports unroll k id r c). }
  exists slices. rewrite Hconcat, <- HlenE. split; [|done].
  rewrite HlenE. by apply (Matrix_scale_of_rows gs r c).
Qed.
End matrix_parallel.

(** Two workers add two Matrices of three rows and two columns. *)
Lemma parallel_matrix_elementwise_is_serial_witness :
  let A := mkMatrix [[Fin 1; Fin 2]; [Fin 3; Fin 4]; [Fin 5; Fin 6]] 3 2 in
  let B := mkMatrix [[Fin 10; Fin 20]; [Fin 30; Fin 40]; [Fin 50; Fin 60]]
             3 2 in
  let call id :=
    Matrix_wkPlus (worker_global 2 id true) (VMat A) (VMat B) (VStr "t")
      false in
  ∃ slices,
    Matrix_plus (worker_global 1 0 false) (VMat A) (VMat B)
    = Ok (mkMatrix (concat slices) 3 2)
    ∧ length slices = 2%nat
    ∧ Forall (λ id, is_ok (call id []).1 = true) (seqZ 0 2)
    ∧ posts (call 0) ++ posts (call 1)
      = gather_rows_reports (VStr "t") false 3 2 0 0 slices.
Proof.
  intros A B call.
  destruct (parallel_matrix_elementwise_is_serial add true
              (worker_global 1 0 false) 2 3 2 A B (VStr "t") false)
    as (slices & Hserial & Hlen & Hret & Hposts);
    try reflexivity; try (vm_compute; congruence); try lia.
  - unfold Matrix_shape. simpl. repeat split; try done.
    repeat constructor.
  - unfold Matrix_shape. simpl. repeat split; try done.
    repeat constructor.
  - exists slices. repeat split; done.
Defined.

(** Two workers scale a Matrix of three rows and two columns, for a
    result that is to be sent back to the workers. *)
Lemma parallel_matrix_scale_is_serial_witness :
  let A := mkMatrix [[Fin 1; Fin 2]; [Fin 3; Fin 4]; [Fin 5; Fin 6]] 3 2 in
  let call id :=
    Matrix_wkScale (worker_global 2 id false) A (VNum (Fin 10)) (VStr "t")
      true in
  ∃ slices,
    Matrix_scale (worker_global 1 0 true) A (VNum (Fin 10))
    = Ok (mkMatrix (concat slices) 3 2)
    ∧ length slices = 2%nat
    ∧ Forall (λ id, is_ok (call id []).1 = true) (seqZ 0 2)
    ∧ posts (call 0) ++ posts (call 1)
      = gather_rows_reports (VStr "t") true 3 2 0 0 slices.
Proof.
  intros A call.
  destruct (parallel_matrix_scale_is_serial false
              (worker_global 1 0 true) 2 3 2 A (Fin 10) (VStr "t") true)
    as (slices & Hserial & Hlen & Hret & Hposts);
    try reflexivity; try (vm_compute; congruence); try lia.
  - unfold Matrix_shape. simpl. repeat split; try done.
    repeat constructor.
  - exists slices. repeat split; done.
Defined.


(** ** Matrices from Arrays *)

Section matrix_from_arrays.
Context {R : Type} `{!Arith R}.

(** A store into a row of a Matrix, within the row or past its end,
    where a typed array drops it. *)
Lemma mat_set_entry_any (r c : nat) (M : Matrix R) (a b : nat) (x : R) :
  Matrix_shape r c M →
  (a < r)%nat →
  ∃ rows',
    mat_set (mat_array M) (Z.of_nat a) (Z.of_nat b) x = Ok rows'
    ∧ Matrix_shape r c (set_mat_array rows' M)
    ∧ ∀ a' b',
        entry rows' a' b'
        = if decide (a' = a ∧ b' = b ∧ (b < c)%nat) then Some x
          else entry (mat_array M) a' b'.
Proof.
  intros HM Ha. destruct (decide (b < c)%nat) as [Hb|Hb].
  - destruct (mat_set_entry r c M a b x HM Ha Hb) as (rows' & Hset & HM' & He).
    exists rows'. split; [done|]. split; [done|].
    intros a' b'. rewrite He. repeat case_decide; (done || lia || tauto).
  - pose proof HM as (Hr & Hc & Hlen & Hrows).
    destruct (lookup_lt_is_Some_2 (mat_array M) a ltac:(lia)) as [row Hrow].
    assert (Hlrow : length row = c).
    { rewrite Forall_lookup in Hrows. by apply (Hrows a). }
    exists (mat_array M).
    assert (Hset : mat_set (mat_array M) (Z.of_nat a) (Z.of_nat b) x
                   = Ok (mat_array M)).
    { unfold mat_set. destruct (Z.ltb_spec (Z.of_nat a) 0); [lia|].
      rewrite Nat2Z.id, Hrow. rewrite ta_set_nonneg by lia.
      rewrite Nat2Z.id. rewrite (list_insert_ge row) by lia.
      by rewrite list_insert_id. }
    split; [done|]. split.
    + by destruct M.
    + intros a' b'. by rewrite decide_False by tauto.
Qed.

Lemma fit_row_length (c : nat) (row : list R) :
  length (fit_row c row) = c.
Proof.
  unfold fit_row. rewrite length_app, length_take, length_replicate. lia.
Qed.

Lemma fit_row_lookup (c : nat) (row : list R) (b : nat) :
  (b < c)%nat →
  fit_row c row !! b
  = if decide (b < length row)%nat then row !! b else Some zero.
Proof.
  intros Hb. unfold fit_row. case_decide.
  - rewrite lookup_app_l by (rewrite length_take; lia).
    by rewrite lookup_take_lt.
  - rewrite lookup_app_r by (rewrite length_take; lia).
    rewrite length_take. apply lookup_replicate_2. lia.
Qed.

Lemma fit_row_id (c : nat) (row : list R) :
  length row = c → fit_row c row = row.
Proof.
  intros <-. unfold fit_row.
  by rewrite firstn_all, Nat.sub_diag, app_nil_r.
Qed.

Lemma Matrix_fromArray_fit (row0 : list R) (rest : list (list R)) :
  (0 < length row0)%nat →
  Matrix_fromArray (row0 :: rest)
  = Ok (mkMatrix (fit_row (length row0) <$> row0 :: rest)
          (Z.of_nat (length (row0 :: rest))) (Z.of_nat (length row0))).
Proof.
  intros Hc. set (arr := row0 :: rest). set (c := length row0) in *.
  set (r := length arr).
  set (E := fit_row c <$> arr).
  assert (HE : Matrix_shape r c (mkMatrix E (Z.of_nat r) (Z.of_nat c))).
  { split; [done|]. split; [done|]. split.
    - cbn [mat_array]. unfold E. by rewrite length_fmap.
    - cbn [mat_array]. apply Forall_fmap, Forall_forall. intros row _.
      apply fit_row_length. }
  assert (HEent : ∀ a b row, arr !! a = Some row → (b < c)%nat →
            entry E a b
            = if decide (b < length row)%nat then row !! b else Some zero).
  { intros a b row Hrow Hb. unfold entry, E.
    rewrite list_lookup_fmap, Hrow. simpl. by apply fit_row_lookup. }
  set (Outer := λ (i : Z) (C : Matrix R),
    Matrix_shape r c C
    ∧ (∀ a b, Z.of_nat a < i → entry (mat_array C) a b = entry E a b)
    ∧ ∀ a b, i ≤ Z.of_nat a → (a < r)%nat → (b < c)%nat →
             entry (mat_array C) a b = Some zero).
  assert (Hrow : ∀ i C, 0 ≤ i < Z.of_nat r → Outer i C →
            ∃ C',
              match arr !! Z.to_nat i with
              | Some row =>
                  for_ 0 (Z.of_nat (length row)) 1
                    (assign_cell (mat_get arr) i);;
                  mret tt
              | None =>
                  lift (Throw
                    (TypeError "Cannot read properties of undefined"))
              end C
              = (Ok tt, C')
              ∧ Outer (i + 1) C').
  { intros i C Hi (HC & Hdone & Hzero).
    destruct (lookup_lt_is_Some_2 arr (Z.to_nat i) ltac:(lia))
      as [row Hrow].
    rewrite Hrow.
    set (Inner := λ (j : Z) (C' : Matrix R),
      Matrix_shape r c C'
      ∧ ∀ a b, entry (mat_array C') a b
               = if decide (a = Z.to_nat i ∧ Z.of_nat b < j ∧ (b < c)%nat)
                 then row !! b
                 else entry (mat_array C) a b).
    destruct (plain_invariant Inner (assign_cell (mat_get arr) i)
                0 (Z.of_nat (length row))) with (s := C)
      as (C' & Hrun & HC' & Hent'); [|lia| |].
    - intros j C1 Hj [HC1 Hent1].
      destruct (lookup_lt_is_Some_2 row (Z.to_nat j) ltac:(lia))
        as [x Hx].
      destruct (mat_set_entry_any r c C1 (Z.to_nat i) (Z.to_nat j) x HC1
                  ltac:(lia)) as (rows' & Hset & HC2 & Hent2).
      rewrite !Z2Nat.id in Hset by lia.
      exists (set_mat_array rows' C1). split; [|split; [done|]].
      + unfold assign_cell, update.
        rewrite <- (Z2Nat.id i), <- (Z2Nat.id j) at 1 by lia.
        rewrite (mat_get_entry arr _ _ x)
          by (unfold entry; by rewrite Hrow).
        simpl. by rewrite Hset.
      + intros a b. simpl. rewrite Hent2, Hent1.
        destruct (decide (a = Z.to_nat i ∧ b = Z.to_nat j
                          ∧ (Z.to_nat j < c)%nat))
          as [(-> & -> & Hlt)|Hne].
        * by rewrite decide_True by lia.
        * repeat case_decide; (done || lia).
    - split; [done|]. intros a b. by rewrite decide_False by lia.
    - exists C'. split; [by rewrite Comp_bind_unfold, Hrun|].
      split; [done|]. split.
      + intros a b Ha. rewrite Hent'.
        destruct (decide (a = Z.to_nat i)) as [->|Hne].
        * destruct (decide (b < c)%nat) as [Hb|Hb].
          -- rewrite (HEent _ _ row Hrow Hb).
             destruct (decide (b < length row)%nat).
             ++ by rewrite decide_True by lia.
             ++ rewrite decide_False by lia. apply Hzero; lia.
          -- rewrite decide_False by lia.
             rewrite (entry_ge r c C) by (done || lia).
             symmetry. apply (entry_ge r c _ _ _ HE). lia.
        * rewrite decide_False by lia. apply Hdone. lia.
      + intros a b Ha Har Hb. rewrite Hent'.
        rewrite decide_False by lia. apply Hzero; lia. }
  assert (Hstart : Outer 0 (Matrix_new (Z.of_nat r) (Z.of_nat c))).
  { assert (Hr : (0 < r)%nat) by (unfold r, arr; simpl; lia).
    split; [by apply Matrix_new_shape|]. split; [intros a b Ha; lia|].
    intros a b _ Ha Hb. unfold Matrix_new.
    destruct (Z.ltb_spec 0 (Z.of_nat r)); [|lia].
    destruct (Z.ltb_spec 0 (Z.of_nat c)); [|lia].
    simpl. unfold entry. rewrite lookup_replicate_2 by lia. simpl.
    apply lookup_replicate_2. lia. }
  unfold Matrix_fromArray. fold arr. unfold arr at 1.
  fold c r. cbv zeta. unfold with_locals.
  match goal with
  | |- context [for_ 0 (Z.of_nat r) 1 ?body] =>
      destruct (plain_invariant Outer body 0 (Z.of_nat r) Hrow _
                  ltac:(lia) Hstart) as (C & Hrun & HC & Hdone & _)
  end.
  rewrite Hrun. f_equal. apply (shape_ext r c); [done..|].
  intros a b. destruct (decide (a < r)%nat) as [Ha|Ha].
  - apply Hdone. lia.
  - rewrite (entry_ge r c C) by (done || lia).
    symmetry. apply (entry_ge r c _ _ _ HE). lia.
Qed.

(** [Matrix.fromArray] takes the number of columns from the first row:
    on an Array whose first row has entries, it returns the Matrix of
    the rows, each cut or filled with zeros to the length of the first
    (a row of that length is kept as it is); on the empty Array it
    throws a TypeError. *)
Theorem Matrix_fromArray_rows (row0 : list R) (rest : list (list R)) :
  let arr := row0 :: rest in
  let c := length row0 in
  let fit row := take c row ++ replicate (c - length row) zero in
  (0 < c)%nat →
  Matrix_fromArray arr
  = Ok (mkMatrix (fit <$> arr) (Z.of_nat (length arr)) (Z.of_nat c))
  ∧ (∀ row, length row = c → fit row = row)
  ∧ ∃ msg, Matrix_fromArray ([] : list (list R)) = Throw (TypeError msg).
Proof.
  intros arr c fit Hc. split; [|split].
  - by apply Matrix_fromArray_fit.
  - intros row Hrow. by apply fit_row_id.
  - by eexists.
Qed.
End matrix_from_arrays.

(** Rows of three, two and four entries: the second is filled, the
    third is cut. *)
Lemma Matrix_fromArray_rows_witness :
  let c := 3%nat in
  let fit (row : list number) :=
    take c row ++ replicate (c - length row) zero in
  Matrix_fromArray
    [[Fin 1; Fin 2; Fin 3]; [Fin 4; Fin 5]; [Fin 6; Fin 7; Fin 8; Fin 9]]
  = Ok (mkMatrix
          [[Fin 1; Fin 2; Fin 3]; [Fin 4; Fin 5; Fin 0];
           [Fin 6; Fin 7; Fin 8]] 3 3)
  ∧ (∀ row, length row = c → fit row = row)
  ∧ ∃ msg, Matrix_fromArray ([] : list (list number))
           = Throw (TypeError msg).
Proof.
  refine (Matrix_fromArray_rows [Fin 1; Fin 2; Fin 3]
            [[Fin 4; Fin 5]; [Fin 6; Fin 7; Fin 8; Fin 9]] _).
  simpl. lia.
Defined.
